(** * docker-pvc-migration: a shallow embedding and its verified properties

    The Go program migrates Docker volumes into Kubernetes
    PersistentVolumeClaims.  Part I of this file embeds the packages
    [types], [docker], [compose], [kubernetes], [matcher], [ui], [yaml]
    and [migration]; Parts II and III state and prove properties of them.

    Conventions of the embedding:
    - a Go [string] is a Rocq [string], one [ascii] per byte; the functions
      of package [strings] are rendered byte-wise, which agrees with Go on
      ASCII text (Kubernetes and Docker object names are ASCII);
    - a Go [int] is a [Z]; [len] of a slice or string is a [nat];
    - a pointer to an immutable record is the record, a nil-able pointer is
      an [option];
    - [map[string]T] is a [gmap string T]; the unspecified iteration order
      of a Go map is an explicit list of keys supplied by the caller;
    - the outside world (kubectl, the terminal, the clock) is an explicit
      state threaded through the code; time is counted in milliseconds,
      [time.Sleep] advances the clock by its argument and a command by
      the time its reply states;
    - what the program prints is embedded in [matcher], [ui] and
      [migration], whose properties speak of it; the progress messages of
      [docker], [kubernetes] and [yaml] are left out;
    - the libraries the program calls (float64 parsing, the YAML
      libraries, [resource.ParseQuantity], the file system) are variables
      of the sections that use them. *)

From Stdlib Require Import ZArith Lia List Ascii String Bool.
From Stdlib Require OrderedTypeEx.
From stdpp Require Import base gmap strings list pretty sorting.
Import ListNotations.
Set Warnings "-register-all".
Open Scope string_scope.

(* ================================================================== *)
(** * Part I: the embedding *)
(* ================================================================== *)

(** ** Package [strings] (and the parts of [strconv]) used by the program *)

Module GoStrings.

(** [strings.Contains(s, substr)] *)
Fixpoint Contains (s substr : string) : bool :=
  String.prefix substr s ||
  match s with
  | EmptyString => false
  | String _ s' => Contains s' substr
  end.

(** [strings.HasPrefix(s, prefix)] *)
Definition HasPrefix (s pre : string) : bool := String.prefix pre s.

(** [strings.HasSuffix(s, suffix)] *)
Fixpoint HasSuffix (s suffix : string) : bool :=
  String.eqb s suffix ||
  match s with
  | EmptyString => false
  | String _ s' => HasSuffix s' suffix
  end.

Definition lower_byte (c : ascii) : ascii :=
  let n := nat_of_ascii c in
  if (65 <=? n)%nat && (n <=? 90)%nat then ascii_of_nat (n + 32) else c.

Definition upper_byte (c : ascii) : ascii :=
  let n := nat_of_ascii c in
  if (97 <=? n)%nat && (n <=? 122)%nat then ascii_of_nat (n - 32) else c.

Fixpoint map_bytes (f : ascii -> ascii) (s : string) : string :=
  match s with
  | EmptyString => EmptyString
  | String c s' => String (f c) (map_bytes f s')
  end.

(** [strings.ToLower], [strings.ToUpper] on ASCII text *)
Definition ToLower : string -> string := map_bytes lower_byte.
Definition ToUpper : string -> string := map_bytes upper_byte.

(** [strings.EqualFold] on ASCII text *)
Definition EqualFold (s t : string) : bool := String.eqb (ToLower s) (ToLower t).

Fixpoint explode (s : string) : list string :=
  match s with
  | EmptyString => []
  | String c s' => String c EmptyString :: explode s'
  end.

(** The scan of [strings.Split] for a non-empty separator: [skip] counts
    the bytes of an already matched separator that are still to be
    dropped. *)
Fixpoint split_go (sep : string) (skip : nat) (s : string) : list string :=
  match s with
  | EmptyString => [EmptyString]
  | String c s' =>
      match skip with
      | S k => split_go sep k s'
      | O =>
          if String.prefix sep s
          then EmptyString :: split_go sep (String.length sep - 1) s'
          else match split_go sep 0 s' with
               | h :: t => String c h :: t
               | [] => [String c EmptyString]
               end
      end
  end.

(** [strings.Split(s, sep)] *)
Definition Split (s sep : string) : list string :=
  match sep with
  | EmptyString => explode s
  | _ => split_go sep 0 s
  end.

(** [strings.Join(elems, sep)] *)
Fixpoint Join (elems : list string) (sep : string) : string :=
  match elems with
  | [] => EmptyString
  | [e] => e
  | e :: rest => e ++ sep ++ Join rest sep
  end.

(** [strings.ReplaceAll(s, old, new)] for a non-empty [old] *)
Definition ReplaceAll (s old new : string) : string :=
  match old with
  | EmptyString => s
  | _ => Join (split_go old 0 s) new
  end.

(** ASCII white space as [unicode.IsSpace] sees it:
    tab, line feed, vertical tab, form feed, carriage return, space. *)
Definition is_space (c : ascii) : bool :=
  let n := nat_of_ascii c in
  ((9 <=? n)%nat && (n <=? 13)%nat) || (n =? 32)%nat.

Fixpoint trim_left (s : string) : string :=
  match s with
  | EmptyString => EmptyString
  | String c s' => if is_space c then trim_left s' else s
  end.

(** Drops trailing white space: a byte is kept when something that is not
    white space follows it or it is itself not white space. *)
Fixpoint trim_right (s : string) : string :=
  match s with
  | EmptyString => EmptyString
  | String c s' =>
      match trim_right s' with
      | EmptyString => if is_space c then EmptyString else String c EmptyString
      | r => String c r
      end
  end.

(** [strings.TrimSpace] *)
Definition TrimSpace (s : string) : string := trim_right (trim_left s).

(** The scan of [strings.Fields]: [cur] is the field being read, if any. *)
Fixpoint fields_go (cur : option string) (s : string) : list string :=
  match s with
  | EmptyString => match cur with Some f => [f] | None => [] end
  | String c s' =>
      if is_space c
      then match cur with
           | Some f => f :: fields_go None s'
           | None => fields_go None s'
           end
      else match cur with
           | Some f => fields_go (Some (f ++ String c EmptyString)) s'
           | None => fields_go (Some (String c EmptyString)) s'
           end
  end.

(** [strings.Fields] *)
Definition Fields (s : string) : list string := fields_go None s.

Definition is_digit (c : ascii) : bool :=
  let n := nat_of_ascii c in (48 <=? n)%nat && (n <=? 57)%nat.

Definition digit_val (c : ascii) : Z := Z.of_nat (nat_of_ascii c) - 48.

(** Value of a run of decimal digits, [None] when a byte is not a digit. *)
Fixpoint digits_go (acc : Z) (s : string) : option Z :=
  match s with
  | EmptyString => Some acc
  | String c s' =>
      if is_digit c then digits_go (10 * acc + digit_val c)%Z s' else None
  end.

Definition parse_digits (s : string) : option Z :=
  match s with
  | EmptyString => None
  | _ => digits_go 0 s
  end.

Definition int_min : Z := (- 2 ^ 63)%Z.
Definition int_max : Z := (2 ^ 63 - 1)%Z.

(** [strconv.Atoi] on a 64-bit platform: an optional sign, at least one
    decimal digit, nothing else, and the value within the range of [int];
    [None] stands for the returned error. *)
Definition Atoi (s : string) : option Z :=
  let signed :=
    match s with
    | String "+"%char s' => option_map (fun v => v) (parse_digits s')
    | String "-"%char s' => option_map Z.opp (parse_digits s')
    | _ => parse_digits s
    end in
  match signed with
  | Some v => if (int_min <=? v)%Z && (v <=? int_max)%Z then Some v else None
  | None => None
  end.

(** [fmt.Sprintf("%d", n)] *)
Definition Itoa (n : Z) : string := pretty n.

(** the line feed *)
Definition nl : string := String (ascii_of_nat 10) EmptyString.

End GoStrings.

Import GoStrings.

(** ** Package [types] *)

Module DockerVolumeInfo.
Record t : Type := mk {
  Name : string;
  Mountpoint : string;
  Size : Z;
  SizeHuman : string
}.
End DockerVolumeInfo.

Module PVCInfo.
Record t : Type := mk {
  Name : string;
  Namespace : string;
  RequestedSize : string;
  MatchedVolume : option DockerVolumeInfo.t;
  NewSize : string
}.
End PVCInfo.

(** ** Package [docker] *)

Module volume.
(** The fields of the Docker API's [volume.Volume] that the program reads. *)
Record Volume : Type := mk {
  Name : string;
  Mountpoint : string
}.
End volume.

Module docker.

Record volumeSize : Type := mkVolumeSize {
  bytes : Z;
  human : string;
  links : Z
}.

(** The longest prefix of decimal digits, and what follows it. *)
Fixpoint span_digits (s : string) : string * string :=
  match s with
  | EmptyString => (EmptyString, EmptyString)
  | String c s' =>
      if is_digit c
      then let '(d, r) := span_digits s' in (String c d, r)
      else (EmptyString, s)
  end.

(** White space of the regular-expression class [\s]: tab, line feed,
    form feed, carriage return, space. *)
Definition is_re_space (c : ascii) : bool :=
  let n := nat_of_ascii c in
  (n =? 9)%nat || (n =? 10)%nat || (n =? 12)%nat || (n =? 13)%nat || (n =? 32)%nat.

Fixpoint skip_re_space (s : string) : string :=
  match s with
  | EmptyString => EmptyString
  | String c s' => if is_re_space c then skip_re_space s' else s
  end.

(** The unit group [([KMGTPE]?B)$] at the end of the text. *)
Definition match_unit (s : string) : option string :=
  if existsb (String.eqb s) ["B"; "KB"; "MB"; "GB"; "TB"; "PB"; "EB"]
  then Some s else None.

(** [FindStringSubmatch] of [^(\d+(?:\.\d+)?)\s*([KMGTPE]?B)$]: the number
    text and the unit, [None] when the text does not match. *)
Definition match_size (s : string) : option (string * string) :=
  let '(whole, r1) := span_digits s in
  match whole with
  | EmptyString => None
  | _ =>
      let '(num, r2) :=
        match r1 with
        | String "."%char r =>
            let '(frac, r') := span_digits r in
            match frac with
            | EmptyString => (whole, r1)
            | _ => (whole ++ "." ++ frac, r')
            end
        | _ => (whole, r1)
        end in
      match match_unit (skip_re_space r2) with
      | Some u => Some (num, u)
      | None => None
      end
  end.

Definition multiplier (unit : string) : option Z :=
  if String.eqb unit "B" then Some 1%Z
  else if String.eqb unit "KB" then Some 1000%Z
  else if String.eqb unit "MB" then Some (1000 * 1000)%Z
  else if String.eqb unit "GB" then Some (1000 * 1000 * 1000)%Z
  else if String.eqb unit "TB" then Some (1000 * 1000 * 1000 * 1000)%Z
  else if String.eqb unit "PB" then Some (1000 * 1000 * 1000 * 1000 * 1000)%Z
  else if String.eqb unit "EB" then Some (1000 * 1000 * 1000 * 1000 * 1000 * 1000)%Z
  else None.

Section Sizes.

(** [floatBytes num m] stands for the floating-point part of
    [parseSizeString]: [strconv.ParseFloat(num, 64)] (its error is
    [None]) followed by [int64(value * float64(m))].  It is kept
    abstract: everything below holds whatever float64 arithmetic
    yields. *)
Variable floatBytes : string -> Z -> option Z.

(** The inspection of a mount point by [getVolumeSize] (a walk of the
    file system), which yields a size and its rendering. *)
Variable getVolumeSize : string -> Z * string.

(** [parseSizeString]; [None] is the returned error. *)
Definition parseSizeString (sizeStr : string) : option Z :=
  match match_size (ToUpper sizeStr) with
  | None => None
  | Some (num, unit) =>
      match multiplier unit with
      | None => None
      | Some m => floatBytes num m
      end
  end.

(** One iteration of the loop of [parseDockerDFOutput]. *)
Definition parseDockerDFLine (volumeSizes : gmap string volumeSize) (line0 : string)
  : gmap string volumeSize :=
  let line := TrimSpace line0 in
  if String.eqb line "" || HasPrefix line "VOLUME NAME" || Contains line "Local Volumes"
  then volumeSizes
  else
    let fields := Fields line in
    if (3 <=? length fields)%nat then
      let volumeName := nth 0 fields "" in
      let linksStr := nth 1 fields "" in
      let sizeStr := nth (length fields - 1) fields "" in
      match Atoi linksStr with
      | None => volumeSizes
      | Some links =>
          match parseSizeString sizeStr with
          | None => volumeSizes
          | Some bytes => <[volumeName := mkVolumeSize bytes sizeStr links]> volumeSizes
          end
      end
    else volumeSizes.

(** [parseDockerDFOutput]; it never returns an error. *)
Definition parseDockerDFOutput (output : string) : gmap string volumeSize :=
  fold_left parseDockerDFLine (Split output nl) ∅.

(** One iteration of the loop of [LoadVolumes]; [volumeSizes] is [None]
    when [docker system df -v] failed (the nil map). *)
Definition loadVolume (volumeSizes : option (gmap string volumeSize))
    (result : gmap string DockerVolumeInfo.t) (v : volume.Volume)
  : gmap string DockerVolumeInfo.t :=
  let '(size, sizeHuman, links) :=
    match volumeSizes with
    | Some sizes =>
        match sizes !! volume.Name v with
        | Some dfSize => (bytes dfSize, human dfSize, links dfSize)
        | None => (0%Z, "", 0%Z)
        end
    | None => (0%Z, "", 0%Z)
    end in
  if (0 <? links)%Z then result
  else
    let '(size, sizeHuman) :=
      if (size =? 0)%Z then getVolumeSize (volume.Mountpoint v) else (size, sizeHuman) in
    <[volume.Name v :=
        DockerVolumeInfo.mk (volume.Name v) (volume.Mountpoint v) size sizeHuman]> result.

(** [LoadVolumes]: [volumes] is the answer of the Docker API's
    [VolumeList] ([None] when it fails), [dfOutput] the output of
    [docker system df -v] ([None] when the command fails).  The result
    is [None] when [LoadVolumes] returns an error. *)
Definition LoadVolumes (volumes : option (list volume.Volume)) (dfOutput : option string)
  : option (gmap string DockerVolumeInfo.t) :=
  match volumes with
  | None => None
  | Some vols =>
      let volumeSizes := option_map parseDockerDFOutput dfOutput in
      Some (fold_left (loadVolume volumeSizes) vols ∅)
  end.

End Sizes.

(** A 64-bit signed integer after an arithmetic operation: the value
    wrapped into the range of [int64]. *)
Definition wrap64 (z : Z) : Z := ((z + 2 ^ 63) mod 2 ^ 64 - 2 ^ 63)%Z.

(** What a call of [formatBytes] comes to: a text, a run-time panic
    because the index into ["KMGTPE"] is out of range, or a loop that is
    still running after the rounds allotted to it. *)
Inductive Formatted : Type :=
| Text (text : string)
| IndexOutOfRange
| OutOfRounds.

(** The loop of [formatBytes] over [n], [div] and [exp]; Go's [/] on
    integers truncates. *)
Fixpoint scale (rounds : nat) (n div exp : Z) : option (Z * Z) :=
  if (1024 <=? n)%Z then
    match rounds with
    | O => None
    | S rounds' => scale rounds' (wrap64 (n ÷ 1024)) (wrap64 (div * 1024)) (wrap64 (exp + 1))
    end
  else Some (div, exp).

Section Format.

(** [fmt.Sprintf("%.1f", float64(bytes)/float64(div))], the rendering of
    the floating-point quotient, kept abstract. *)
Variable formatTenths : Z -> Z -> string.

(** [formatBytes]; the loop divides [n] by 1024 in every round, so 64
    rounds are more than a 64-bit [n] can take. *)
Definition formatBytes (bytes : Z) : Formatted :=
  if (bytes <? 1024)%Z then Text (Itoa bytes ++ " B")
  else
    match scale 64 (wrap64 (bytes ÷ 1024)) 1024 0 with
    | None => OutOfRounds
    | Some (div, exp) =>
        if (exp <? 0)%Z then IndexOutOfRange
        else
          match String.get (Z.to_nat exp) "KMGTPE" with
          | Some letter => Text (formatTenths bytes div ++ " " ++ String letter "B")
          | None => IndexOutOfRange
          end
    end.

End Format.

End docker.

(** ** The terminal *)

(** One call of [bufio.Reader.ReadString('\n')] on standard input: a line
    (with its line feed), or an error.  The terminal hands over one line per
    read.  When the list of pending reads is exhausted the input is at its
    end and every further read fails with [io.EOF]. *)
Inductive ReadResult : Type :=
| ReadLine (line : string)
| ReadError (msg : string).

Record Terminal : Type := mkTerminal {
  stdin : list ReadResult;
  stdout : list string
}.

Definition print (text : string) (t : Terminal) : Terminal :=
  mkTerminal (stdin t) (stdout t ++ [text])%list.

Definition say (out texts : list string) : list string := (out ++ texts)%list.

(** The result of a call that interacts with the world, whose state has
    type [S]: it returns a value and leaves a state, it never returns (a
    loop that goes on for ever), or it stops the program with a run-time
    panic. *)
Inductive Outcome (S A : Type) : Type :=
| Returns (a : A) (s : S)
| NeverReturns
| Panics.
Arguments Returns {S A} a s.
Arguments NeverReturns {S A}.
Arguments Panics {S A}.

(** ** Package [compose] *)

Module compose.

Record VolumeMapping : Type := mkVolumeMapping {
  ServiceName : string;
  VolumeName : string;
  DockerVolume : string;
  MountPath : string
}.

Record Parser : Type := mkParser {
  projectName : string
}.

(** [GetVolumeVariations] *)
Definition GetVolumeVariations (p : Parser) (volumeName : string) : list string :=
  [ projectName p ++ "_" ++ volumeName;
    volumeName;
    projectName p ++ "-" ++ volumeName;
    ToUpper (projectName p) ++ "_" ++ volumeName;
    ToUpper (projectName p) ++ "-" ++ volumeName ].

Module Service.
Record t : Type := mk {
  Image : string;
  Volumes : list string
}.
End Service.

Module VolumeDefinition.
Record t : Type := mk {
  Driver : string;
  DriverOpts : gmap string string;
  External : bool
}.
End VolumeDefinition.

Record ComposeFile : Type := mkComposeFile {
  Version : string;
  Services : gmap string Service.t;
  Volumes : gmap string VolumeDefinition.t
}.

(** [NewParser] *)
Definition NewParser : Parser := mkParser "".

(** [generateDockerVolumeName] *)
Definition generateDockerVolumeName (p : Parser) (volumeName : string) : string :=
  projectName p ++ "_" ++ volumeName.

(** [GetProjectName] *)
Definition GetProjectName (p : Parser) : string := projectName p.

(** [parseVolumeSpec]; [None] is the nil mapping. *)
Definition parseVolumeSpec (p : Parser) (serviceName volumeSpec : string)
  : option VolumeMapping :=
  let parts := Split volumeSpec ":" in
  if (length parts <? 2)%nat then None
  else
    let source := nth 0 parts "" in
    let target := nth 1 parts "" in
    if HasPrefix source "/" || HasPrefix source "./" || HasPrefix source "../" then None
    else Some (mkVolumeMapping serviceName source (generateDockerVolumeName p source) target).

(** The inner loop of [ExtractVolumeMappings] over the volumes of one
    service. *)
Definition appendMappings (p : Parser) (serviceName : string)
    (mappings : list VolumeMapping) (volumeSpecs : list string) : list VolumeMapping :=
  fold_left
    (fun mappings volumeSpec =>
       match parseVolumeSpec p serviceName volumeSpec with
       | Some mapping => (mappings ++ [mapping])%list
       | None => mappings
       end)
    volumeSpecs mappings.

(** [ExtractVolumeMappings]; [order] is the order in which
    [range compose.Services] happens to deliver the service names. *)
Definition ExtractVolumeMappings (p : Parser) (order : list string) (compose : ComposeFile)
  : list VolumeMapping :=
  fold_left
    (fun mappings serviceName =>
       match Services compose !! serviceName with
       | Some service => appendMappings p serviceName mappings (Service.Volumes service)
       | None => mappings
       end)
    order [].

Section Files.

(** The host: [filepath.Join], [filepath.Dir], [filepath.Base], whether
    [os.Stat] succeeds on a path, [os.ReadFile] and [yaml.Unmarshal] into
    a [ComposeFile] (for the last two, the content or the text of the
    error). *)
Variable filepathJoin : string -> string -> string.
Variable filepathDir : string -> string.
Variable filepathBase : string -> string.
Variable statSucceeds : string -> bool.
Variable readFile : string -> string + string.
Variable Unmarshal : string -> ComposeFile + string.

Definition composeFileNames : list string :=
  ["docker-compose.yml"; "docker-compose.yaml"; "compose.yml"; "compose.yaml"].

(** [FindComposeFile]: the path, or the error. *)
Definition FindComposeFile (p : Parser) (directory : string) : string + string :=
  match find (fun candidate => statSucceeds (filepathJoin directory candidate))
             composeFileNames with
  | Some candidate => inl (filepathJoin directory candidate)
  | None => inr ("no docker-compose file found in " ++ directory)
  end.

(** [ParseComposeFile]: the parser, whose project name is set before the
    file is read, and the decoded file or the error. *)
Definition ParseComposeFile (p : Parser) (filePath : string)
  : Parser * (ComposeFile + string) :=
  let dir := filepathDir filePath in
  let p := mkParser (ToLower (filepathBase dir)) in
  match readFile filePath with
  | inr err => (p, inr ("failed to read compose file: " ++ err))
  | inl data =>
      match Unmarshal data with
      | inr err => (p, inr ("failed to parse compose file: " ++ err))
      | inl compose => (p, inl compose)
      end
  end.

End Files.

End compose.

(** ** Package [matcher] *)

Module matcher.

(** [extractPVCParts]: the lexical parts of a claim name. *)
Definition cleanName (pvcName : string) : string :=
  if Contains pvcName "-"
  then let parts := Split pvcName "-" in
       if (1 <? length parts)%nat then Join (drop 1 parts) "-" else pvcName
  else pvcName.

Definition appendLongParts (parts : list string) (pieces : list string) : list string :=
  fold_left
    (fun acc part =>
       if (1 <? String.length part)%nat then (acc ++ [ToLower part])%list else acc)
    pieces parts.

Definition extractPVCParts (pvcName : string) : list string :=
  let clean := cleanName pvcName in
  let parts :=
    fold_left (fun acc separator => appendLongParts acc (Split clean separator))
              ["-"; "_"] [] in
  (parts ++ [ToLower clean])%list.

Record VolumeMatcher : Type := mkVolumeMatcher {
  dockerVolumes : gmap string DockerVolumeInfo.t;
  volumeMappings : list compose.VolumeMapping;
  composeParser : compose.Parser
}.

(** [calculateComposeMatchScore] *)
Definition calculateComposeMatchScore (volumeName dockerVolumeName : string) : Z :=
  let score := 0%Z in
  let score :=
    if Contains (ToLower dockerVolumeName) (ToLower volumeName)
    then (score + 3)%Z else score in
  let score :=
    if HasSuffix (ToLower dockerVolumeName) (ToLower volumeName)
    then (score + 2)%Z else score in
  let score :=
    if Contains (ToLower dockerVolumeName) ("_" ++ ToLower volumeName)
       || Contains (ToLower dockerVolumeName) ("-" ++ ToLower volumeName)
    then (score + 4)%Z else score in
  score.

(** One iteration of the loop of [findFuzzyMatchForCompose] over the
    pair [(bestMatch, bestScore)]. *)
Definition fuzzyStep (volumeName : string) (best : string * Z) (dockerVolumeName : string)
  : string * Z :=
  let score := calculateComposeMatchScore volumeName dockerVolumeName in
  if (snd best <? score)%Z && (0 <? score)%Z then (dockerVolumeName, score) else best.

(** [findFuzzyMatchForCompose]; [order] is the order in which
    [range vm.dockerVolumes] happens to deliver the keys. *)
Definition findFuzzyMatchForCompose (vm : VolumeMatcher) (order : list string)
    (volumeName : string) : option DockerVolumeInfo.t :=
  let '(bestMatch, bestScore) := fold_left (fuzzyStep volumeName) order ("", 0%Z) in
  if negb (String.eqb bestMatch "") then dockerVolumes vm !! bestMatch else None.

Fixpoint firstExisting (m : gmap string DockerVolumeInfo.t) (names : list string)
  : option DockerVolumeInfo.t :=
  match names with
  | [] => None
  | n :: rest =>
      match m !! n with
      | Some v => Some v
      | None => firstExisting m rest
      end
  end.

(** [findDockerVolumeForMapping] *)
Definition findDockerVolumeForMapping (vm : VolumeMatcher) (order : list string)
    (mapping : compose.VolumeMapping) : option DockerVolumeInfo.t :=
  match dockerVolumes vm !! compose.DockerVolume mapping with
  | Some v => Some v
  | None =>
      let variations :=
        compose.GetVolumeVariations (composeParser vm) (compose.VolumeName mapping) in
      match firstExisting (dockerVolumes vm) variations with
      | Some v => Some v
      | None => findFuzzyMatchForCompose vm order (compose.VolumeName mapping)
      end
  end.

(** [volumeContainsPVCParts] *)
Definition volumeContainsPVCParts (volumeName : string) (pvcParts : list string) : bool :=
  let volumeNameLower := ToLower volumeName in
  existsb (fun part => Contains volumeNameLower part) pvcParts.

(** [sort.Slice] by [Name]; with pairwise distinct names, as the values of
    a map keyed by name have, the outcome of sorting is unique. *)
Fixpoint insertByName (v : DockerVolumeInfo.t) (l : list DockerVolumeInfo.t)
  : list DockerVolumeInfo.t :=
  match l with
  | [] => [v]
  | h :: t =>
      if String.ltb (DockerVolumeInfo.Name v) (DockerVolumeInfo.Name h)
      then v :: l else h :: insertByName v t
  end.

Definition sortByName (l : list DockerVolumeInfo.t) : list DockerVolumeInfo.t :=
  fold_right insertByName [] l.

(** The values that [range vm.dockerVolumes] delivers in the order [order]. *)
Definition rangeValues (vm : VolumeMatcher) (order : list string) : list DockerVolumeInfo.t :=
  omap (fun k => dockerVolumes vm !! k) order.

(** [findVolumesContainingPVCName] *)
Definition findVolumesContainingPVCName (vm : VolumeMatcher) (order : list string)
    (pvc : PVCInfo.t) : list DockerVolumeInfo.t :=
  let pvcParts := extractPVCParts (PVCInfo.Name pvc) in
  let candidates :=
    filter (fun v => volumeContainsPVCParts (DockerVolumeInfo.Name v) pvcParts = true)
           (rangeValues vm order) in
  sortByName candidates.

(** [getAllDockerVolumes] *)
Definition getAllDockerVolumes (vm : VolumeMatcher) (order : list string)
  : list DockerVolumeInfo.t :=
  sortByName (rangeValues vm order).

(** The menu that [interactiveVolumeSelection] prints before it prompts. *)
Definition menuLine (i : nat) (v : DockerVolumeInfo.t) : string :=
  Itoa (Z.of_nat i + 1) ++ ". " ++ DockerVolumeInfo.Name v
    ++ " (" ++ DockerVolumeInfo.SizeHuman v ++ ")" ++ nl.

Definition printMenu (pvc : PVCInfo.t) (candidates : list DockerVolumeInfo.t)
    (t : Terminal) : Terminal :=
  let t := print (nl ++ "Select Docker volume for PVC '" ++ PVCInfo.Name pvc ++ "':" ++ nl) t in
  let t := print ("0. Skip (no volume)" ++ nl) t in
  fold_left (fun t line => print line t) (imap menuLine candidates) t.

(** The outcome of reading one answer in the loop of
    [interactiveVolumeSelection]. *)
Inductive Answer : Type :=
| Again (message : string)
| Chosen (selected : option DockerVolumeInfo.t) (message : list string)
| IndexOutOfRange.

Definition answer (candidates : list DockerVolumeInfo.t) (r : ReadResult) : Answer :=
  match r with
  | ReadError msg => Again ("Error reading input: " ++ msg ++ nl)
  | ReadLine line =>
      let input := TrimSpace line in
      match Atoi input with
      | None => Again ("Please enter a valid number" ++ nl)
      | Some choice =>
          if (choice =? 0)%Z then Chosen None []
          else if (1 <=? choice)%Z && (choice <=? Z.of_nat (length candidates))%Z then
            match candidates !! Z.to_nat (choice - 1) with
            | Some selected =>
                Chosen (Some selected)
                       ["Selected: " ++ DockerVolumeInfo.Name selected ++ nl]
            | None => IndexOutOfRange
            end
          else Again ("Invalid choice. Please enter 0-"
                        ++ Itoa (Z.of_nat (length candidates)) ++ nl)
      end
  end.

(** The prompt loop of [interactiveVolumeSelection], by recursion on the
    pending reads.  At the end of the input every read fails and the
    loop goes on for ever. *)
Fixpoint selectionLoop (candidates : list DockerVolumeInfo.t)
    (pending : list ReadResult) (out : list string)
  : Outcome Terminal (option DockerVolumeInfo.t) :=
  let out := (out ++ ["Enter choice: "])%list in
  match pending with
  | [] => NeverReturns
  | r :: rest =>
      match answer candidates r with
      | Again message => selectionLoop candidates rest (out ++ [message])%list
      | Chosen selected message => Returns selected (mkTerminal rest (out ++ message)%list)
      | IndexOutOfRange => Panics
      end
  end.

(** [interactiveVolumeSelection] *)
Definition interactiveVolumeSelection (pvc : PVCInfo.t)
    (candidates : list DockerVolumeInfo.t) (t : Terminal)
  : Outcome Terminal (option DockerVolumeInfo.t) :=
  let t := printMenu pvc candidates t in
  selectionLoop candidates (stdin t) (stdout t).

Definition setMatchedVolume (pvc : PVCInfo.t) (v : option DockerVolumeInfo.t) : PVCInfo.t :=
  PVCInfo.mk (PVCInfo.Name pvc) (PVCInfo.Namespace pvc) (PVCInfo.RequestedSize pvc)
             v (PVCInfo.NewSize pvc).

(** The candidates that [MatchVolumes] offers for one claim. *)
Definition offered (vm : VolumeMatcher) (order : list string) (pvc : PVCInfo.t)
  : list DockerVolumeInfo.t :=
  let candidates := findVolumesContainingPVCName vm order pvc in
  if (length candidates =? 0)%nat then getAllDockerVolumes vm order else candidates.

(** [MatchVolumes] *)
Fixpoint MatchVolumes (vm : VolumeMatcher) (order : list string)
    (pvcs : list PVCInfo.t) (t : Terminal) : Outcome Terminal (list PVCInfo.t) :=
  match pvcs with
  | [] => Returns [] t
  | pvc :: rest =>
      let t := print (nl ++ "--- Matching PVC: " ++ PVCInfo.Name pvc ++ " ---" ++ nl) t in
      let candidates := findVolumesContainingPVCName vm order pvc in
      let '(t, offer) :=
        if (length candidates =? 0)%nat
        then (print ("No Docker volumes found containing '" ++ PVCInfo.Name pvc ++ "'" ++ nl) t,
              getAllDockerVolumes vm order)
        else (t, candidates) in
      match interactiveVolumeSelection pvc offer t with
      | Returns selected t =>
          match MatchVolumes vm order rest t with
          | Returns rest' t => Returns (setMatchedVolume pvc selected :: rest') t
          | NeverReturns => NeverReturns
          | Panics => Panics
          end
      | NeverReturns => NeverReturns
      | Panics => Panics
      end
  end.

(** [NewVolumeMatcher] *)
Definition NewVolumeMatcher (dockerVolumes : gmap string DockerVolumeInfo.t) : VolumeMatcher :=
  mkVolumeMatcher dockerVolumes [] compose.NewParser.

(** [LoadComposeContext] (its messages are left out): the matcher
    afterwards; the returned error is always nil.  [order] is the order
    in which the services of the compose file are ranged over. *)
Definition LoadComposeContext
    (filepathJoin : string -> string -> string) (filepathDir filepathBase : string -> string)
    (statSucceeds : string -> bool) (readFile : string -> string + string)
    (Unmarshal : string -> compose.ComposeFile + string)
    (vm : VolumeMatcher) (order : list string) (directory : string)
  : VolumeMatcher * option string :=
  match compose.FindComposeFile filepathJoin statSucceeds (composeParser vm) directory with
  | inr _ => (vm, None)
  | inl composeFile =>
      match compose.ParseComposeFile filepathDir filepathBase readFile Unmarshal
              (composeParser vm) composeFile with
      | (p, inr _) => (mkVolumeMatcher (dockerVolumes vm) (volumeMappings vm) p, None)
      | (p, inl c) =>
          (mkVolumeMatcher (dockerVolumes vm) (compose.ExtractVolumeMappings p order c) p, None)
      end
  end.

(** [pvcNameMatches]; the clean name is computed as in [extractPVCParts]. *)
Definition pvcNameMatches (pvcName candidateName : string) : bool :=
  let cleanPVCName := cleanName pvcName in
  let comparisons :=
    [ cleanPVCName; pvcName;
      ReplaceAll cleanPVCName "-" "_"; ReplaceAll pvcName "-" "_" ] in
  existsb
    (fun comp =>
       EqualFold comp candidateName
       || EqualFold comp (ReplaceAll candidateName "_" "-"))
    comparisons.

(** [findComposeMatch]: the first mapping that the claim name matches
    decides, whether a Docker volume is found for it or not. *)
Fixpoint findComposeMatchIn (vm : VolumeMatcher) (order : list string) (pvc : PVCInfo.t)
    (mappings : list compose.VolumeMapping) : option DockerVolumeInfo.t :=
  match mappings with
  | [] => None
  | mapping :: rest =>
      let possibleMatches :=
        [ compose.VolumeName mapping;
          compose.ServiceName mapping ++ "-" ++ compose.VolumeName mapping;
          compose.ServiceName mapping ] in
      if existsb (fun m => pvcNameMatches (PVCInfo.Name pvc) m) possibleMatches
      then findDockerVolumeForMapping vm order mapping
      else findComposeMatchIn vm order pvc rest
  end.

Definition findComposeMatch (vm : VolumeMatcher) (order : list string) (pvc : PVCInfo.t)
  : option DockerVolumeInfo.t :=
  findComposeMatchIn vm order pvc (volumeMappings vm).

(** The second loop of [findExactMatch] over the keys in the order
    [order]. *)
Fixpoint firstWithSuffix (m : gmap string DockerVolumeInfo.t) (name : string)
    (order : list string) : option DockerVolumeInfo.t :=
  match order with
  | [] => None
  | volumeName :: rest =>
      match m !! volumeName with
      | Some volume =>
          if HasSuffix volumeName ("_" ++ name) || HasSuffix volumeName ("-" ++ name)
          then Some volume else firstWithSuffix m name rest
      | None => firstWithSuffix m name rest
      end
  end.

(** [findExactMatch] *)
Definition findExactMatch (vm : VolumeMatcher) (order : list string) (name : string)
  : option DockerVolumeInfo.t :=
  match dockerVolumes vm !! name with
  | Some volume => Some volume
  | None => firstWithSuffix (dockerVolumes vm) name order
  end.

(** [calculateMatchScore] *)
Definition calculateMatchScore (pvcParts : list string) (volumeName : string) : Z :=
  let volumeParts := (Split volumeName "_" ++ Split volumeName "-")%list in
  fold_left
    (fun score pvcPart =>
       if existsb (fun volumePart => EqualFold pvcPart volumePart) volumeParts
       then (score + 1)%Z else score)
    pvcParts 0%Z.

(** One iteration of the loop of [findFuzzyMatch] over the pair
    [(bestMatch, bestScore)]. *)
Definition fuzzyNameStep (pvcParts : list string) (best : string * Z) (volumeName : string)
  : string * Z :=
  let score := calculateMatchScore pvcParts volumeName in
  if (snd best <? score)%Z && (Z.of_nat (length pvcParts) ÷ 2 <=? score)%Z
  then (volumeName, score) else best.

(** [findFuzzyMatch] *)
Definition findFuzzyMatch (vm : VolumeMatcher) (order : list string) (pvcName : string)
  : option DockerVolumeInfo.t :=
  let pvcParts := Split pvcName "-" in
  let '(bestMatch, bestScore) := fold_left (fuzzyNameStep pvcParts) order ("", 0%Z) in
  if negb (String.eqb bestMatch "") then dockerVolumes vm !! bestMatch else None.

End matcher.

(** A Go [error]: [None] is [nil]. *)
Definition error : Type := option string.

(** ** Decoded YAML *)

(** A decoded YAML value as the program inspects it: a string, a mapping
    with string keys ([map[string]interface{}]), or anything else (a
    number, a boolean, a sequence, null), of which only the rendering by
    [%v] is kept.  A mapping is an association list read by its first
    entry for a key. *)
Inductive Value : Type :=
| VString (s : string)
| VMap (entries : list (string * Value))
| VOther (shown : string).

Definition Object : Type := list (string * Value).

Module yamlobj.

(** [m[key]] *)
Fixpoint get (m : Object) (key : string) : option Value :=
  match m with
  | [] => None
  | (k, v) :: rest => if String.eqb k key then Some v else get rest key
  end.

(** [m[key] = v] *)
Fixpoint set (m : Object) (key : string) (v : Value) : Object :=
  match m with
  | [] => [(key, v)]
  | (k, v') :: rest =>
      if String.eqb k key then (k, v) :: rest else (k, v') :: set rest key v
  end.

(** [m[key].(string)] *)
Definition getString (m : Object) (key : string) : option string :=
  match get m key with
  | Some (VString s) => Some s
  | _ => None
  end.

(** [m[key].(map[string]interface{})] *)
Definition getMap (m : Object) (key : string) : option Object :=
  match get m key with
  | Some (VMap entries) => Some entries
  | _ => None
  end.

End yamlobj.

(** ** The declarations directory *)

(** [Error()] of an [os.PathError]: the operation, the path and the cause. *)
Definition pathError (op path reason : string) : string :=
  op ++ " " ++ path ++ ": " ++ reason.

(** What [os.WriteFile] does with a file.  It opens the file for writing
    and truncates it, writes the data and closes the file; each of the
    three steps can fail with a cause ([permission denied],
    [no space left on device], ...).  A failed write leaves the file with
    the bytes that were written before the failure. *)
Inductive WriteBehaviour : Type :=
| Succeeds
| OpenFails (reason : string)
| WriteFails (written : nat) (reason : string)
| CloseFails (reason : string).

(** What is found at a path: a regular file that can be opened, with its
    content and what a write to it does; a file that [os.Open] and
    [os.ReadFile] fail to open, with the cause; or a directory, which can
    be opened but not read. *)
Inductive File : Type :=
| RegularFile (content : string) (onWrite : WriteBehaviour)
| Unreadable (reason : string)
| Directory.

(** What [filepath.Walk] hands to its callback for a path: the file it
    found, or the error of [os.Lstat] on the path or of listing the
    directory at the path. *)
Inductive Entry : Type :=
| Found (file : File)
| Inaccessible (err : string).

(** The visits of [filepath.Walk], in its (lexical) order. *)
Definition FileSystem : Type := list (string * Entry).

Definition isYAMLPath (path : string) : bool :=
  HasSuffix path ".yaml" || HasSuffix path ".yml".

(** ** Package [kubernetes] *)

Module kubernetes.

(** [parsePVCFromObject] *)
Definition parsePVCFromObject (obj : Object) : option PVCInfo.t :=
  match yamlobj.getMap obj "metadata" with
  | None => None
  | Some metadata =>
      match yamlobj.getString metadata "name" with
      | None => None
      | Some name =>
          let namespace :=
            match yamlobj.getString metadata "namespace" with
            | Some ns => ns
            | None => "default"
            end in
          match yamlobj.getMap obj "spec" with
          | None => None
          | Some spec =>
              match yamlobj.getMap spec "resources" with
              | None => None
              | Some resources =>
                  match yamlobj.getMap resources "requests" with
                  | None => None
                  | Some requests =>
                      match yamlobj.getString requests "storage" with
                      | None => None
                      | Some storage => Some (PVCInfo.mk name namespace storage None "")
                      end
                  end
              end
          end
      end
  end.

Section Decoder.

(** The documents that [yaml.NewYAMLToJSONDecoder] decodes from a
    stream before it reports the end of the input or an error. *)
Variable decodeAll : string -> list Object.

(** The claims among decoded documents. *)
Definition claimsOf (objs : list Object) : list PVCInfo.t :=
  omap (fun obj =>
          match yamlobj.getString obj "kind" with
          | Some kind =>
              if String.eqb kind "PersistentVolumeClaim"
              then parsePVCFromObject obj else None
          | None => None
          end) objs.

(** [parseYAMLFile]: a file that cannot be opened is an error; what
    cannot be read or decoded ends the loop without one. *)
Definition parseYAMLFile (filename : string) (file : File) : list PVCInfo.t * error :=
  match file with
  | Unreadable reason => ([], Some (pathError "open" filename reason))
  | Directory => ([], None)
  | RegularFile content _ => (claimsOf (decodeAll content), None)
  end.

(** The walk of [ParseYAMLFiles] from the claims gathered so far: the
    first error ends it, and the claims gathered so far are returned with
    the error. *)
Fixpoint parseWalk (fs : FileSystem) (pvcs : list PVCInfo.t) : list PVCInfo.t * error :=
  match fs with
  | [] => (pvcs, None)
  | (path, Inaccessible err) :: _ => (pvcs, Some err)
  | (path, Found file) :: rest =>
      if isYAMLPath path then
        match parseYAMLFile path file with
        | (_, Some err) => (pvcs, Some err)
        | (filePVCs, None) => parseWalk rest (pvcs ++ filePVCs)%list
        end
      else parseWalk rest pvcs
  end.

(** [ParseYAMLFiles] over the visits of the walk. *)
Definition ParseYAMLFiles (fs : FileSystem) : list PVCInfo.t * error :=
  parseWalk fs [].

End Decoder.

End kubernetes.

(** ** Package [yaml] (the updater) *)

Module yaml.

Definition separator : string := nl ++ "---" ++ nl.

Section Library.

(** [yaml.Unmarshal] of [gopkg.in/yaml.v3] into a
    [map[string]interface{}] ([None] is its error) and [yaml.Marshal]
    of such a map. *)
Variable Unmarshal : string -> option Object.
Variable Marshal : Object -> option string.

(** The first claim of the list with this name and namespace. *)
Fixpoint findMatching (pvcs : list PVCInfo.t) (name namespace : string)
  : option PVCInfo.t :=
  match pvcs with
  | [] => None
  | pvc :: rest =>
      if String.eqb (PVCInfo.Name pvc) name && String.eqb (PVCInfo.Namespace pvc) namespace
      then Some pvc else findMatching rest name namespace
  end.

(** The object after [requests["storage"] = size]: Go maps are shared,
    so the assignment shows in [obj]. *)
Definition setStorage (obj spec resources requests : Object) (size : string) : Object :=
  let requests' := yamlobj.set requests "storage" (VString size) in
  let resources' := yamlobj.set resources "requests" (VMap requests') in
  let spec' := yamlobj.set spec "resources" (VMap resources') in
  yamlobj.set obj "spec" (VMap spec').

(** [updateDocumentIfPVC] (its progress message is left out) *)
Definition updateDocumentIfPVC (document : string) (pvcs : list PVCInfo.t)
  : string * bool :=
  match Unmarshal document with
  | None => (document, false)
  | Some obj =>
      match yamlobj.getString obj "kind" with
      | None => (document, false)
      | Some kind =>
          if negb (String.eqb kind "PersistentVolumeClaim") then (document, false)
          else
            match yamlobj.getMap obj "metadata" with
            | None => (document, false)
            | Some metadata =>
                match yamlobj.getString metadata "name" with
                | None => (document, false)
                | Some name =>
                    let namespace :=
                      match yamlobj.getString metadata "namespace" with
                      | Some ns => ns
                      | None => "default"
                      end in
                    match findMatching pvcs name namespace with
                    | None => (document, false)
                    | Some matchingPVC =>
                        if String.eqb (PVCInfo.NewSize matchingPVC) ""
                        then (document, false)
                        else
                          match yamlobj.getMap obj "spec" with
                          | None => (document, false)
                          | Some spec =>
                              match yamlobj.getMap spec "resources" with
                              | None => (document, false)
                              | Some resources =>
                                  match yamlobj.getMap resources "requests" with
                                  | None => (document, false)
                                  | Some requests =>
                                      match Marshal
                                              (setStorage obj spec resources requests
                                                 (PVCInfo.NewSize matchingPVC)) with
                                      | None => (document, false)
                                      | Some updatedYAML => (updatedYAML, true)
                                      end
                                  end
                              end
                          end
                    end
                end
            end
      end
  end.

(** The documents of a file as [updateYAMLFile] sees them: the pieces
    between separators that are not blank. *)
Definition documentsOf (content : string) : list string :=
  filter (fun doc => TrimSpace doc ≠ "") (Split content separator).

(** The loop of [updateYAMLFile]: the updated documents, and whether
    one of them changed. *)
Definition updateDocuments (content : string) (pvcs : list PVCInfo.t)
  : list string * bool :=
  fold_left
    (fun '(updatedDocuments, hasUpdates) doc =>
       let '(updatedDoc, updated) := updateDocumentIfPVC doc pvcs in
       ((updatedDocuments ++ [updatedDoc])%list, hasUpdates || updated))
    (documentsOf content) ([], false).

(** [updateYAMLFile] on the file at a path: the file afterwards and the
    returned error. *)
Definition updateYAMLFile (filePath : string) (file : File) (pvcs : list PVCInfo.t)
  : File * error :=
  match file with
  | Unreadable reason =>
      (file, Some ("failed to read file " ++ filePath ++ ": "
                     ++ pathError "open" filePath reason))
  | Directory =>
      (file, Some ("failed to read file " ++ filePath ++ ": "
                     ++ pathError "read" filePath "is a directory"))
  | RegularFile content onWrite =>
      let '(updatedDocuments, hasUpdates) := updateDocuments content pvcs in
      if hasUpdates then
        let newContent := Join updatedDocuments separator in
        match onWrite with
        | Succeeds => (RegularFile newContent onWrite, None)
        | OpenFails reason =>
            (file, Some ("failed to write file " ++ filePath ++ ": "
                           ++ pathError "open" filePath reason))
        | WriteFails written reason =>
            (RegularFile (substring 0 written newContent) onWrite,
             Some ("failed to write file " ++ filePath ++ ": "
                     ++ pathError "write" filePath reason))
        | CloseFails reason =>
            (RegularFile newContent onWrite,
             Some ("failed to write file " ++ filePath ++ ": "
                     ++ pathError "close" filePath reason))
        end
      else (file, None)
  end.

(** The walk of [UpdateYAMLFiles]: it stops at the first error, that of
    the walk itself or that of [updateYAMLFile], and what was written
    before stays written. *)
Fixpoint updateWalk (fs : FileSystem) (pvcs : list PVCInfo.t) : FileSystem * error :=
  match fs with
  | [] => ([], None)
  | (path, Inaccessible err) :: rest => ((path, Inaccessible err) :: rest, Some err)
  | (path, Found file) :: rest =>
      if isYAMLPath path then
        match updateYAMLFile path file pvcs with
        | (file', Some msg) => ((path, Found file') :: rest, Some msg)
        | (file', None) =>
            let '(rest', err) := updateWalk rest pvcs in
            ((path, Found file') :: rest', err)
        end
      else
        let '(rest', err) := updateWalk rest pvcs in
        ((path, Found file) :: rest', err)
  end.

(** [UpdateYAMLFiles] *)
Definition UpdateYAMLFiles (fs : FileSystem) (pvcs : list PVCInfo.t)
  : FileSystem * error :=
  match updateWalk fs pvcs with
  | (fs', Some msg) => (fs', Some ("failed to update YAML files: " ++ msg))
  | (fs', None) => (fs', None)
  end.

End Library.

End yaml.

(** ** Package [ui] *)

(** [bufio.Reader.ReadString] on the terminal. *)
Definition readString (t : Terminal) : ReadResult * Terminal :=
  match stdin t with
  | [] => (ReadError "EOF", t)
  | r :: rest => (r, mkTerminal rest (stdout t))
  end.

Module ui.

Definition setNewSize (pvc : PVCInfo.t) (size : string) : PVCInfo.t :=
  PVCInfo.mk (PVCInfo.Name pvc) (PVCInfo.Namespace pvc) (PVCInfo.RequestedSize pvc)
             (PVCInfo.MatchedVolume pvc) size.

Section Quantity.

(** [isValidSize]: whether [resource.ParseQuantity] of
    [k8s.io/apimachinery] accepts the text. *)
Variable isValidSize : string -> bool.

Definition describe (pvc : PVCInfo.t) (t : Terminal) : Terminal :=
  let t := print ("PVC: " ++ PVCInfo.Name pvc ++ " (namespace: "
                    ++ PVCInfo.Namespace pvc ++ ")" ++ nl) t in
  let t := print ("  Kompose suggested size: " ++ PVCInfo.RequestedSize pvc ++ nl) t in
  let t :=
    match PVCInfo.MatchedVolume pvc with
    | Some vol =>
        let t := print ("  Matched Docker volume: " ++ DockerVolumeInfo.Name vol ++ nl) t in
        let t := print ("  Current volume size: "
                          ++ DockerVolumeInfo.SizeHuman vol ++ nl) t in
        print ("  Volume path: " ++ DockerVolumeInfo.Mountpoint vol ++ nl) t
    | None => print ("  ⚠️  No matching Docker volume found!" ++ nl) t
    end in
  print "  Enter desired PVC size (or press Enter to use suggested): " t.

(** The size that one answer of the operator resolves to, and the
    warning printed with it. *)
Definition resolveSize (pvc : PVCInfo.t) (line : string) : string * list string :=
  let input := TrimSpace line in
  if String.eqb input "" then (PVCInfo.RequestedSize pvc, [])
  else if isValidSize input then (input, [])
  else (PVCInfo.RequestedSize pvc,
        ["  ⚠️  Invalid size format, using suggested: "
           ++ PVCInfo.RequestedSize pvc ++ nl]).

(** The loop of [InteractiveSetSizes]: the claims as the loop leaves
    them (those after a failed read are untouched), the returned
    error, and the terminal. *)
Fixpoint setSizes (pvcs : list PVCInfo.t) (t : Terminal)
  : list PVCInfo.t * error * Terminal :=
  match pvcs with
  | [] => ([], None, t)
  | pvc :: rest =>
      let t := describe pvc t in
      match readString t with
      | (ReadError msg, t) => (pvc :: rest, Some ("failed to read input: " ++ msg), t)
      | (ReadLine line, t) =>
          let '(size, warning) := resolveSize pvc line in
          let pvc' := setNewSize pvc size in
          let t := fold_left (fun t text => print text t) warning t in
          let t := print ("  ✅ Set PVC size to: " ++ PVCInfo.NewSize pvc' ++ nl) t in
          let t := print nl t in
          let '(rest', err, t) := setSizes rest t in
          (pvc' :: rest', err, t)
      end
  end.

(** [InteractiveSetSizes] *)
Definition InteractiveSetSizes (pvcs : list PVCInfo.t) (t : Terminal)
  : list PVCInfo.t * error * Terminal :=
  let t := print (nl ++ "=== PVC Size Configuration ===" ++ nl) t in
  let t := print ("For each PVC, review the matched Docker volume and set the desired size."
                    ++ nl) t in
  let t := print ("Use formats like: 1Gi, 500Mi, 2Ti, etc." ++ nl) t in
  let t := print nl t in
  setSizes pvcs t.

End Quantity.

End ui.

(** ** The control plane and the clock *)

(** One run of an external command: its arguments and what is fed to its
    standard input. *)
Record Invocation : Type := mkInvocation {
  argv : list string;
  input : option string
}.

(** What a command answers: whether it failed (the [err] of
    [Output]/[CombinedOutput]), the text of that error, the captured
    output, and the time it took in milliseconds. *)
Record Reply : Type := mkReply {
  failed : bool;
  errText : string;
  output : string;
  elapsed : N
}.

(** The state of the world during a migration: the clock in milliseconds
    since the Unix epoch, the terminal, and the commands run so far. *)
Record World : Type := mkWorld {
  now : Z;
  console : Terminal;
  invocations : list Invocation
}.

Definition M (A : Type) : Type := World -> Outcome World A.

Definition ret {A : Type} (a : A) : M A := fun w => Returns a w.

Definition bind {A B : Type} (c : M A) (k : A -> M B) : M B :=
  fun w =>
    match c w with
    | Returns a w' => k a w'
    | NeverReturns => NeverReturns
    | Panics => Panics
    end.

Notation "'let*' x := c 'in' k" := (bind c (fun x => k))
  (at level 10, x name, c at level 100, k at level 200, only parsing).
Notation "'do*' c 'in' k" := (bind c (fun _ => k))
  (at level 10, c at level 100, k at level 200, only parsing).

(** [fmt.Printf]/[fmt.Println] *)
Definition printf (text : string) : M unit :=
  fun w => Returns tt (mkWorld (now w) (print text (console w)) (invocations w)).

(** [time.Sleep] *)
Definition sleep (ms : Z) : M unit :=
  fun w => Returns tt (mkWorld (now w + ms) (console w) (invocations w)).

(** [time.Now()] in milliseconds *)
Definition getNow : M Z := fun w => Returns (now w) w.

Definition panic {A : Type} : M A := fun _ => Panics.

Definition dq : string := String (ascii_of_nat 34) EmptyString.
Definition quoted (s : string) : string := dq ++ s ++ dq.
Definition unlines (l : list string) : string :=
  fold_right (fun line acc => line ++ nl ++ acc) "" l.

Definition second : Z := 1000.
Definition minute : Z := 60 * second.

(** The parts of the engine that both texts of [engine.go] share word for
    word. *)
Module engine.
Section Kubectl.

(** The control plane: the answer to the [n]-th command of the run. *)
Variable kubectl : nat -> Invocation -> Reply.

(** [exec.Command("kubectl", args...)] run to completion with
    [Output]/[CombinedOutput]. *)
Definition run (args : list string) (stdin_text : option string) : M Reply :=
  fun w =>
    let inv := mkInvocation ("kubectl" :: args) stdin_text in
    let r := kubectl (length (invocations w)) inv in
    Returns r (mkWorld (now w + Z.of_N (elapsed r)) (console w)
                       (invocations w ++ [inv])%list).

(** The loop of [waitForPodCompletion].  An iteration that does not
    return sleeps for [interval], so the deadline bounds the number of
    iterations; [fuel] is that bound. *)
Fixpoint podLoop (fuel : nat) (deadline interval : Z) (podName namespace : string)
  : M error :=
  match fuel with
  | O => fun _ => NeverReturns
  | S fuel' =>
      let* t := getNow in
      if (deadline <=? t)%Z
      then ret (Some ("timeout waiting for pod " ++ podName ++ " to complete"))
      else
        let* r := run ["get"; "pod"; podName; "-n"; namespace; "-o";
                       "jsonpath={.status.phase}"] None in
        if failed r
        then
          do* sleep interval in
          podLoop fuel' deadline interval podName namespace
        else
          let phase := TrimSpace (output r) in
          if String.eqb phase "Succeeded" then ret None
          else if String.eqb phase "Failed" then ret (Some "migration pod failed")
          else
            do* printf ("    Pod status: " ++ phase ++ nl) in
            do* sleep interval in
            podLoop fuel' deadline interval podName namespace
  end.

(** [waitForPodCompletion] *)
Definition waitForPodCompletion (podName namespace : string) : M error :=
  let timeout := (10 * minute)%Z in
  let interval := (5 * second)%Z in
  let* t := getNow in
  podLoop (S (Z.to_nat (timeout / interval))) (t + timeout) interval podName namespace.

Definition printLogLine (line : string) : M unit :=
  if negb (String.eqb (TrimSpace line) "")
  then printf ("    " ++ line ++ nl) else ret tt.

Fixpoint printLogLines (lines : list string) : M unit :=
  match lines with
  | [] => ret tt
  | line :: rest => do* printLogLine line in printLogLines rest
  end.

(** [showPodLogs] *)
Definition showPodLogs (podName namespace : string) : M error :=
  let* r := run ["logs"; podName; "-n"; namespace] None in
  if failed r then ret (Some (errText r))
  else
    do* printLogLines (Split (output r) nl) in
    ret None.

(** [deletePod] *)
Definition deletePod (podName namespace : string) : M error :=
  let* r := run ["delete"; "pod"; podName; "-n"; namespace; "--ignore-not-found"] None in
  ret (if failed r then Some (errText r) else None).

(** The body of the loop of [DryRun] for the item at index [i]. *)
Definition dryRunItem (i : nat) (pvc : PVCInfo.t) : M unit :=
  match PVCInfo.MatchedVolume pvc with
  | None =>
      printf ("[" ++ Itoa (Z.of_nat i + 1) ++ "] SKIP: " ++ PVCInfo.Name pvc
                  ++ " (no volume selected)" ++ nl)
  | Some vol =>
      do* printf ("[" ++ Itoa (Z.of_nat i + 1) ++ "] MIGRATE: "
                      ++ PVCInfo.Name pvc ++ nl) in
      do* printf ("    Source: " ++ DockerVolumeInfo.Name vol
                      ++ " (" ++ DockerVolumeInfo.SizeHuman vol ++ ")" ++ nl) in
      do* printf ("    Target: PVC " ++ PVCInfo.Namespace pvc ++ "/" ++ PVCInfo.Name pvc
                      ++ " (" ++ PVCInfo.NewSize pvc ++ ")" ++ nl) in
      do* printf ("    Path: " ++ DockerVolumeInfo.Mountpoint vol
                      ++ " → PVC mount" ++ nl) in
      printf nl
  end.

Fixpoint dryRunFrom (i : nat) (pvcs : list PVCInfo.t) : M unit :=
  match pvcs with
  | [] => ret tt
  | pvc :: rest => do* dryRunItem i pvc in dryRunFrom (S i) rest
  end.

(** [DryRun] *)
Definition DryRun (pvcs : list PVCInfo.t) : M unit :=
  do* printf (nl ++ "=== Dry Run - Migration Plan ===" ++ nl) in
  do* dryRunFrom 0 pvcs in
  printf ("Use --execute to run the actual migration" ++ nl).

Section Start.

(** [migratePVC] is where the two texts differ. *)
Variable migratePVC : PVCInfo.t -> M error.

(** The loop of [StartMigration] from the item at index [i] on;
    [total] is [len(pvcs)]. *)
Fixpoint migrateFrom (total i : nat) (pvcs : list PVCInfo.t) : M error :=
  match pvcs with
  | [] => ret None
  | pvc :: rest =>
      match PVCInfo.MatchedVolume pvc with
      | None =>
          do* printf ("Skipping " ++ PVCInfo.Name pvc
                          ++ " (no volume selected)" ++ nl) in
          migrateFrom total (S i) rest
      | Some _ =>
          do* printf (nl ++ "[" ++ Itoa (Z.of_nat i + 1) ++ "/"
                          ++ Itoa (Z.of_nat total)
                          ++ "] Migrating PVC: " ++ PVCInfo.Name pvc ++ nl) in
          let* err := migratePVC pvc in
          match err with
          | Some msg =>
              do* printf ("❌ Failed to migrate " ++ PVCInfo.Name pvc
                              ++ ": " ++ msg ++ nl) in
              ret (Some ("migration failed for PVC " ++ PVCInfo.Name pvc
                           ++ ": " ++ msg))
          | None =>
              do* printf ("✅ Successfully migrated " ++ PVCInfo.Name pvc ++ nl) in
              migrateFrom total (S i) rest
          end
      end
  end.

(** [StartMigration] *)
Definition StartMigration (pvcs : list PVCInfo.t) : M error :=
  do* printf (nl ++ "=== Starting Migration Process ===" ++ nl) in
  let* err := migrateFrom (length pvcs) 0 pvcs in
  match err with
  | Some msg => ret (Some msg)
  | None =>
      do* printf (nl ++ "🎉 Migration completed successfully!" ++ nl) in
      ret None
  end.

End Start.

End Kubectl.
End engine.

(** The shell script that the migration pod runs, as both texts of
    [engine.go] spell it in the pod manifest. *)
Definition podScript : list string :=
  [ "      echo " ++ quoted "Starting data copy...";
    "      echo " ++ quoted "Source: /docker-data";
    "      echo " ++ quoted "Target: /pvc-data";
    "      ls -la /docker-data/ || echo " ++ quoted "Source directory empty or missing";
    "      ls -la /pvc-data/ || echo " ++ quoted "Target directory empty";
    "      ";
    "      if [ " ++ quoted "$(ls -A /docker-data 2>/dev/null)" ++ " ]; then";
    "        echo " ++ quoted "Copying data...";
    "        cp -av /docker-data/* /pvc-data/ 2>/dev/null || echo "
      ++ quoted "No files to copy or copy failed";
    "        echo " ++ quoted "Copy completed";
    "      else";
    "        echo " ++ quoted "Source directory is empty";
    "      fi";
    "      ";
    "      echo " ++ quoted "Final target contents:";
    "      ls -la /pvc-data/";
    "      echo " ++ quoted "Migration pod completed" ].

Definition podMounts (hostPath claimName : string) : list string :=
  [ "    volumeMounts:";
    "    - name: docker-volume";
    "      mountPath: /docker-data";
    "    - name: pvc-volume";
    "      mountPath: /pvc-data";
    "  volumes:";
    "  - name: docker-volume";
    "    hostPath:";
    "      path: " ++ hostPath;
    "      type: Directory";
    "  - name: pvc-volume";
    "    persistentVolumeClaim:";
    "      claimName: " ++ claimName ].

Definition podContainer : list string :=
  [ "  containers:";
    "  - name: migration";
    "    image: busybox:latest";
    "    command: [" ++ quoted "/bin/sh" ++ ", " ++ quoted "-c" ++ "]";
    "    args:";
    "    - |" ].

(** [fmt.Sprintf("migration-%s-%d", pvc.Name, time.Now().Unix())] *)
Definition migrationPodName (pvcName : string) (now_ms : Z) : string :=
  "migration-" ++ pvcName ++ "-" ++ Itoa (now_ms / 1000).

(** ** Package [migration], the second text of [engine.go] (lines 460-739):
    the engine that [main] builds with [NewEngine(namespace)] and that
    writes the claim's manifest itself. *)

Module migration2.

Record Engine : Type := mkEngine {
  namespace : string
}.

(** [NewEngine] *)
Definition NewEngine (namespace : string) : Engine :=
  if String.eqb namespace "" then mkEngine "default" else mkEngine namespace.

Section Kubectl.

Variable kubectl : nat -> Invocation -> Reply.

Definition pvcYAML (pvc : PVCInfo.t) : string :=
  unlines
    [ "apiVersion: v1";
      "kind: PersistentVolumeClaim";
      "metadata:";
      "  name: " ++ PVCInfo.Name pvc;
      "  namespace: " ++ PVCInfo.Namespace pvc;
      "spec:";
      "  accessModes:";
      "    - ReadWriteOnce";
      "  resources:";
      "    requests:";
      "      storage: " ++ PVCInfo.NewSize pvc;
      "  storageClassName: longhorn" ].

(** [createPVC] *)
Definition createPVC (e : Engine) (pvc : PVCInfo.t) : M error :=
  let* r := engine.run kubectl ["apply"; "-f"; "-"] (Some (pvcYAML pvc)) in
  if failed r
  then ret (Some ("kubectl apply failed: " ++ errText r ++ nl ++ "Output: " ++ output r))
  else ret None.

(** The loop of [waitForPVCBound]; [fuel] bounds the iterations as in
    [engine.podLoop]. *)
Fixpoint boundLoop (fuel : nat) (deadline interval : Z) (pvc : PVCInfo.t) : M error :=
  match fuel with
  | O => fun _ => NeverReturns
  | S fuel' =>
      let* t := getNow in
      if (deadline <=? t)%Z
      then ret (Some ("timeout waiting for PVC " ++ PVCInfo.Name pvc ++ " to be bound"))
      else
        let* r := engine.run kubectl
                    ["get"; "pvc"; PVCInfo.Name pvc; "-n"; PVCInfo.Namespace pvc; "-o";
                     "jsonpath={.status.phase}"] None in
        if failed r
        then
          do* sleep interval in
          boundLoop fuel' deadline interval pvc
        else
          let phase := TrimSpace (output r) in
          if String.eqb phase "Bound" then ret None
          else
            do* printf ("    PVC status: " ++ phase ++ nl) in
            do* sleep interval in
            boundLoop fuel' deadline interval pvc
  end.

(** [waitForPVCBound] *)
Definition waitForPVCBound (e : Engine) (pvc : PVCInfo.t) : M error :=
  let timeout := (5 * minute)%Z in
  let interval := (5 * second)%Z in
  let* t := getNow in
  boundLoop (S (Z.to_nat (timeout / interval))) (t + timeout) interval pvc.

Definition podHeader (podName namespace : string) : list string :=
  [ "apiVersion: v1";
    "kind: Pod";
    "metadata:";
    "  name: " ++ podName;
    "  namespace: " ++ namespace;
    "spec:";
    "  restartPolicy: Never" ].

Definition podYAML (podName namespace hostPath claimName : string) : string :=
  unlines (concat [ podHeader podName namespace; podContainer; podScript;
                    podMounts hostPath claimName ]).

(** [copyData]; reading [pvc.MatchedVolume.Mountpoint] of a claim
    without a matched volume is a nil dereference. *)
Definition copyData (e : Engine) (pvc : PVCInfo.t) : M error :=
  let* t := getNow in
  let podName := migrationPodName (PVCInfo.Name pvc) t in
  match PVCInfo.MatchedVolume pvc with
  | None => panic
  | Some vol =>
      let manifest :=
        podYAML podName (PVCInfo.Namespace pvc) (DockerVolumeInfo.Mountpoint vol)
                (PVCInfo.Name pvc) in
      let* r := engine.run kubectl ["apply"; "-f"; "-"] (Some manifest) in
      if failed r
      then ret (Some ("failed to create migration pod: " ++ errText r ++ nl
                        ++ "Output: " ++ output r))
      else
        do* printf ("  Waiting for migration pod to complete..." ++ nl) in
        let* err := engine.waitForPodCompletion kubectl podName (PVCInfo.Namespace pvc) in
        match err with
        | Some msg => ret (Some ("migration pod failed: " ++ msg))
        | None =>
            do* printf ("  Migration pod logs:" ++ nl) in
            let* err := engine.showPodLogs kubectl podName (PVCInfo.Namespace pvc) in
            do* match err with
                | Some msg =>
                    printf ("    Warning: Could not retrieve pod logs: " ++ msg ++ nl)
                | None => ret tt
                end in
            let* err := engine.deletePod kubectl podName (PVCInfo.Namespace pvc) in
            do* match err with
                | Some msg =>
                    printf ("    Warning: Could not delete migration pod: " ++ msg ++ nl)
                | None => ret tt
                end in
            ret None
        end
  end.

(** [migratePVC] *)
Definition migratePVC (e : Engine) (pvc : PVCInfo.t) : M error :=
  do* printf ("  Creating PVC " ++ PVCInfo.Name pvc ++ "..." ++ nl) in
  let* err := createPVC e pvc in
  match err with
  | Some msg => ret (Some ("failed to create PVC: " ++ msg))
  | None =>
      do* printf ("  Waiting for PVC to be bound..." ++ nl) in
      let* err := waitForPVCBound e pvc in
      match err with
      | Some msg => ret (Some ("PVC not bound: " ++ msg))
      | None =>
          match PVCInfo.MatchedVolume pvc with
          | None => panic
          | Some vol =>
              do* printf ("  Copying data from Docker volume "
                              ++ DockerVolumeInfo.Name vol ++ "..." ++ nl) in
              let* err := copyData e pvc in
              match err with
              | Some msg => ret (Some ("failed to copy data: " ++ msg))
              | None => ret None
              end
          end
      end
  end.

(** [StartMigration] *)
Definition StartMigration (e : Engine) (pvcs : list PVCInfo.t) : M error :=
  engine.StartMigration (migratePVC e) pvcs.

(** [DryRun] *)
Definition DryRun (e : Engine) (pvcs : list PVCInfo.t) : M unit :=
  engine.DryRun pvcs.

End Kubectl.

End migration2.

(** ** Package [migration], the first text of [engine.go] (lines 1-459):
    the engine that applies the claim's own manifest file and pins the
    migration pod to a node chosen by the operator. *)

Module migration1.

Record Engine : Type := mkEngine {
  migrationNamespace : string;
  yamlDirectory : string
}.

(** [NewEngine] *)
Definition NewEngine (migrationNamespace yamlDirectory : string) : Engine :=
  if String.eqb migrationNamespace ""
  then mkEngine "default" yamlDirectory
  else mkEngine migrationNamespace yamlDirectory.

(** [findBestDefaultNode] *)
Definition findBestDefaultNode (nodes : list string) (hostname : string) : string :=
  match find (fun node =>
                Contains (ToLower node) (ToLower hostname)
                || Contains (ToLower hostname) (ToLower node)) nodes with
  | Some node => node
  | None =>
      match nodes with
      | first :: _ => first
      | [] => ""
      end
  end.

(** The scan of the node names against a typed name in
    [interactiveNodeSelection]: an exact match (up to case) ends it, the
    names that contain the input are collected on the way. *)
Fixpoint scanNodes (nodes : list string) (input : string) (matches : list string)
  : string + list string :=
  match nodes with
  | [] => inr matches
  | node :: rest =>
      if EqualFold node input then inl node
      else if Contains (ToLower node) (ToLower input)
           then scanNodes rest input (matches ++ [node])%list
           else scanNodes rest input matches
  end.

(** The prompt loop of [interactiveNodeSelection], by recursion on the
    pending reads; a failed read ends it with an error. *)
Fixpoint nodeLoop (nodes : list string) (defaultNode : string)
    (pending : list ReadResult) (out : list string)
  : Outcome Terminal (string * error) :=
  let count := Itoa (Z.of_nat (length nodes)) in
  match pending with
  | [] => Returns ("", Some "failed to read input: EOF") (mkTerminal [] out)
  | ReadError msg :: rest =>
      Returns ("", Some ("failed to read input: " ++ msg)) (mkTerminal rest out)
  | ReadLine line :: rest =>
      let input := TrimSpace line in
      if String.eqb input "" then
        Returns (defaultNode, None)
                (mkTerminal rest (say out ["Selected: " ++ defaultNode ++ " (default)" ++ nl]))
      else
        match Atoi input with
        | Some choice =>
            if (1 <=? choice)%Z && (choice <=? Z.of_nat (length nodes))%Z then
              match nodes !! Z.to_nat (choice - 1) with
              | Some selected =>
                  Returns (selected, None)
                          (mkTerminal rest (say out ["Selected: " ++ selected ++ nl]))
              | None => Panics
              end
            else
              nodeLoop nodes defaultNode rest
                (say out ["Invalid number. Enter 1-" ++ count ++ " or node name: "])
        | None =>
            match scanNodes nodes input [] with
            | inl node =>
                Returns (node, None)
                        (mkTerminal rest (say out ["Selected: " ++ node ++ nl]))
            | inr [only] =>
                Returns (only, None)
                        (mkTerminal rest (say out ["Selected: " ++ only ++ nl]))
            | inr [] =>
                nodeLoop nodes defaultNode rest
                  (say out ["Node '" ++ input ++ "' not found. Enter choice (number 1-"
                             ++ count ++ " or node name): "])
            | inr matches =>
                nodeLoop nodes defaultNode rest
                  (say out ["Multiple matches found: " ++ Join matches ", " ++ nl;
                           "Please be more specific. Enter choice (number 1-"
                             ++ count ++ " or node name): "])
            end
        end
  end.

Definition nodeMenuLine (defaultNode : string) (i : nat) (node : string) : string :=
  (if String.eqb node defaultNode then "* " else "  ")
    ++ Itoa (Z.of_nat i + 1) ++ ". " ++ node ++ nl.

(** [interactiveNodeSelection] *)
Definition interactiveNodeSelection (nodes : list string) (defaultNode : string)
  : M (string * error) :=
  fun w =>
    let t := console w in
    let t := print (nl ++ "Select Kubernetes node for migration pods:" ++ nl) t in
    let t := fold_left (fun t line => print line t) (imap (nodeMenuLine defaultNode) nodes) t in
    let t := print (nl ++ "Default: " ++ defaultNode ++ " (press Enter to use default)" ++ nl) t in
    let t := print ("Enter choice (number 1-" ++ Itoa (Z.of_nat (length nodes))
                      ++ " or node name): ") t in
    match nodeLoop nodes defaultNode (stdin t) (stdout t) with
    | Returns a t' => Returns a (mkWorld (now w) t' (invocations w))
    | NeverReturns => NeverReturns
    | Panics => Panics
    end.

Section Host.

Variable kubectl : nat -> Invocation -> Reply.

(** The host: [os.Hostname], [filepath.Join], [filepath.Glob] ([None]
    is its error) and [os.ReadFile] ([None] is its error); and
    [yaml.Unmarshal] of [gopkg.in/yaml.v3]. *)
Variable hostname : string.
Variable filepathJoin : string -> string -> string.
Variable glob : string -> option (list string).
Variable readFile : string -> option string.
Variable Unmarshal : string -> option Object.

Definition documentNamesPVC (pvc : PVCInfo.t) (doc : string) : bool :=
  if String.eqb (TrimSpace doc) "" then false
  else
    match Unmarshal doc with
    | None => false
    | Some obj =>
        match yamlobj.getString obj "kind" with
        | Some kind =>
            if String.eqb kind "PersistentVolumeClaim" then
              match yamlobj.getMap obj "metadata" with
              | Some metadata =>
                  match yamlobj.getString metadata "name" with
                  | Some name => String.eqb name (PVCInfo.Name pvc)
                  | None => false
                  end
              | None => false
              end
            else false
        | None => false
        end
    end.

(** [fileContainsPVC] *)
Definition fileContainsPVC (filename : string) (pvc : PVCInfo.t) : bool :=
  match readFile filename with
  | None => false
  | Some content => existsb (documentNamesPVC pvc) (Split content yaml.separator)
  end.

(** [findYAMLFileForPVC]: the file, or the error. *)
Definition findYAMLFileForPVC (e : Engine) (pvc : PVCInfo.t) : string + string :=
  match glob (filepathJoin (yamlDirectory e) "*.yaml") with
  | None => inr "syntax error in pattern"
  | Some matches =>
      let yamlFiles :=
        match glob (filepathJoin (yamlDirectory e) "*.yml") with
        | Some moreMatches => (matches ++ moreMatches)%list
        | None => matches
        end in
      match find (fun file => fileContainsPVC file pvc) yamlFiles with
      | Some file => inl file
      | None => inr ("no YAML file found containing PVC " ++ PVCInfo.Name pvc)
      end
  end.

(** [createPVC] *)
Definition createPVC (e : Engine) (pvc : PVCInfo.t) : M error :=
  match findYAMLFileForPVC e pvc with
  | inr msg =>
      ret (Some ("failed to find YAML file for PVC " ++ PVCInfo.Name pvc ++ ": " ++ msg))
  | inl yamlFile =>
      do* printf ("    Applying " ++ yamlFile ++ " to namespace "
                      ++ migrationNamespace e ++ "..." ++ nl) in
      let* r := engine.run kubectl
                  ["apply"; "-f"; yamlFile; "-n"; migrationNamespace e] None in
      if failed r
      then ret (Some ("kubectl apply failed: " ++ errText r ++ nl
                        ++ "Output: " ++ output r))
      else ret None
  end.

(** The loop of [waitForPVCBound]; [fuel] bounds the iterations as in
    [engine.podLoop]. *)
Fixpoint boundLoop (fuel : nat) (deadline interval : Z) (e : Engine) (pvc : PVCInfo.t)
  : M error :=
  match fuel with
  | O => fun _ => NeverReturns
  | S fuel' =>
      let* t := getNow in
      if (deadline <=? t)%Z
      then ret (Some ("timeout waiting for PVC " ++ PVCInfo.Name pvc ++ " to be bound"))
      else
        let* r := engine.run kubectl
                    ["get"; "pvc"; PVCInfo.Name pvc; "-n"; migrationNamespace e; "-o";
                     "jsonpath={.status.phase}"] None in
        if failed r
        then
          do* printf ("    Error checking PVC status: " ++ errText r ++ nl) in
          do* sleep interval in
          boundLoop fuel' deadline interval e pvc
        else
          let phase := TrimSpace (output r) in
          do* printf ("    PVC status: " ++ phase ++ nl) in
          if String.eqb phase "Bound" then
            do* printf ("    ✅ PVC is now bound!" ++ nl) in
            ret None
          else if String.eqb phase "Failed" then ret (Some "PVC failed to bind")
          else
            do* sleep interval in
            boundLoop fuel' deadline interval e pvc
  end.

(** [waitForPVCBound] *)
Definition waitForPVCBound (e : Engine) (pvc : PVCInfo.t) : M error :=
  let timeout := (5 * minute)%Z in
  let interval := (5 * second)%Z in
  let* t := getNow in
  boundLoop (S (Z.to_nat (timeout / interval))) (t + timeout) interval e pvc.

(** [getCurrentNodeName] *)
Definition getCurrentNodeName (e : Engine) : M (string * error) :=
  let* r := engine.run kubectl
              ["get"; "nodes"; "-o"; "jsonpath={.items[*].metadata.name}"] None in
  if failed r then ret ("", Some ("failed to get node list: " ++ errText r))
  else
    let nodes := Fields (output r) in
    if (length nodes =? 0)%nat then ret ("", Some "no Kubernetes nodes found")
    else
      let defaultNode := findBestDefaultNode nodes hostname in
      interactiveNodeSelection nodes defaultNode.

Definition podHeader (podName namespace nodeName : string) : list string :=
  [ "apiVersion: v1";
    "kind: Pod";
    "metadata:";
    "  name: " ++ podName;
    "  namespace: " ++ namespace;
    "spec:";
    "  restartPolicy: Never";
    "  nodeName: " ++ nodeName ].

Definition podYAML (podName namespace nodeName hostPath claimName : string) : string :=
  unlines (concat [ podHeader podName namespace nodeName; podContainer; podScript;
                    podMounts hostPath claimName ]).

(** [copyData] *)
Definition copyData (e : Engine) (pvc : PVCInfo.t) : M error :=
  let* node := getCurrentNodeName e in
  match snd node with
  | Some msg => ret (Some ("failed to get current node name: " ++ msg))
  | None =>
      let nodeName := fst node in
      let* t := getNow in
      let podName := migrationPodName (PVCInfo.Name pvc) t in
      match PVCInfo.MatchedVolume pvc with
      | None => panic
      | Some vol =>
          let manifest :=
            podYAML podName (migrationNamespace e) nodeName
                    (DockerVolumeInfo.Mountpoint vol) (PVCInfo.Name pvc) in
          let* r := engine.run kubectl ["apply"; "-f"; "-"] (Some manifest) in
          if failed r
          then ret (Some ("failed to create migration pod: " ++ errText r ++ nl
                            ++ "Output: " ++ output r))
          else
            do* printf ("  Migration pod " ++ podName ++ " created in namespace "
                            ++ migrationNamespace e ++ ", scheduled on node "
                            ++ nodeName ++ nl) in
            do* printf ("  Waiting for migration pod to complete..." ++ nl) in
            let* err := engine.waitForPodCompletion kubectl podName (migrationNamespace e) in
            match err with
            | Some msg => ret (Some ("migration pod failed: " ++ msg))
            | None =>
                do* printf ("  Migration pod logs:" ++ nl) in
                let* err := engine.showPodLogs kubectl podName (migrationNamespace e) in
                do* match err with
                    | Some msg =>
                        printf ("    Warning: Could not retrieve pod logs: " ++ msg ++ nl)
                    | None => ret tt
                    end in
                let* err := engine.deletePod kubectl podName (migrationNamespace e) in
                do* match err with
                    | Some msg =>
                        printf ("    Warning: Could not delete migration pod: " ++ msg ++ nl)
                    | None => ret tt
                    end in
                ret None
            end
      end
  end.

(** [migratePVC] *)
Definition migratePVC (e : Engine) (pvc : PVCInfo.t) : M error :=
  do* printf ("  Applying YAML file for PVC " ++ PVCInfo.Name pvc ++ " to namespace "
                  ++ migrationNamespace e ++ "..." ++ nl) in
  let* err := createPVC e pvc in
  match err with
  | Some msg => ret (Some ("failed to apply YAML file: " ++ msg))
  | None =>
      do* printf ("  Waiting for PVC " ++ PVCInfo.Name pvc ++ " to be bound..." ++ nl) in
      let* err := waitForPVCBound e pvc in
      match err with
      | Some msg => ret (Some ("PVC not bound: " ++ msg))
      | None =>
          match PVCInfo.MatchedVolume pvc with
          | None => panic
          | Some vol =>
              do* printf ("  Copying data from Docker volume "
                              ++ DockerVolumeInfo.Name vol ++ "..." ++ nl) in
              let* err := copyData e pvc in
              match err with
              | Some msg => ret (Some ("failed to copy data: " ++ msg))
              | None => ret None
              end
          end
      end
  end.

(** [StartMigration] *)
Definition StartMigration (e : Engine) (pvcs : list PVCInfo.t) : M error :=
  engine.StartMigration (migratePVC e) pvcs.

(** [DryRun] *)
Definition DryRun (e : Engine) (pvcs : list PVCInfo.t) : M unit :=
  engine.DryRun pvcs.

End Host.

End migration1.

(** ** The vocabulary of the properties, and sample data *)

(** The pieces that are kept: longer than one byte, in lower case. *)
Definition longParts (pieces : list string) : list string :=
  map ToLower (List.filter (fun part => (1 <? String.length part)%nat) pieces).

(** The decomposition as the specification words it: drop the first
    hyphen-delimited segment and rejoin the others with hyphens; split the
    cleaned name at ["-"] and at ["_"], keep the pieces longer than one
    byte; add the cleaned name itself; everything in lower case. *)
Definition decomposition (pvcName : string) : list string :=
  let cleaned := Join (drop 1 (Split pvcName "-")) "-" in
  (longParts (Split cleaned "-") ++ longParts (Split cleaned "_") ++ [ToLower cleaned])%list.

(** The score as the specification words it: 3 for containing the alias,
    plus 2 for ending with it, plus 4 for containing it behind a
    separator; lower case throughout. *)
Definition scoreTerms (volumeAlias dockerVolumeName : string) : Z :=
  let name := ToLower dockerVolumeName in
  let wanted := ToLower volumeAlias in
  ((if Contains name wanted then 3 else 0)
   + (if HasSuffix name wanted then 2 else 0)
   + (if Contains name ("_" ++ wanted) || Contains name ("-" ++ wanted) then 4 else 0))%Z.

Definition sampleVolume (name : string) : DockerVolumeInfo.t :=
  DockerVolumeInfo.mk name ("/var/lib/docker/volumes/" ++ name ++ "/_data") 1000 "1kB".

Definition sampleInventory : gmap string DockerVolumeInfo.t :=
  list_to_map [ ("shop_db_data", sampleVolume "shop_db_data");
                ("shop_cache", sampleVolume "shop_cache");
                ("db_data_backup", sampleVolume "db_data_backup") ].

Definition sampleMatcher : matcher.VolumeMatcher :=
  matcher.mkVolumeMatcher sampleInventory [] (compose.mkParser "shop").

Section Reported.

Variable floatBytes : string -> Z -> option Z.

(** The links that [docker system df -v] reports for a volume, as
    [LoadVolumes] reads them. *)
Definition reportedLinks (dfOutput : option string) (name : string) : option Z :=
  match dfOutput with
  | Some text => docker.links <$> (docker.parseDockerDFOutput floatBytes text !! name)
  | None => None
  end.

End Reported.

(** A stand-in for the floating-point part of [parseSizeString] that
    computes with exact decimals; it serves the examples only. *)
Definition exactBytes (num : string) (m : Z) : option Z :=
  let '(whole, r) := docker.span_digits num in
  match parse_digits whole with
  | None => None
  | Some w =>
      match r with
      | String "."%char frac =>
          match parse_digits frac with
          | Some f => Some ((w * 10 ^ Z.of_nat (String.length frac) + f) * m
                            / 10 ^ Z.of_nat (String.length frac))%Z
          | None => None
          end
      | _ => Some (w * m)%Z
      end
  end.

Definition sampleWalk (mountpoint : string) : Z * string := (0%Z, "0 B").

Definition sampleVolumes : list volume.Volume :=
  [ volume.mk "app_data" "/var/lib/docker/volumes/app_data/_data";
    volume.mk "db_data" "/var/lib/docker/volumes/db_data/_data" ].

Definition sampleDF : string :=
  unlines [ "Local Volumes space usage:";
            "";
            "VOLUME NAME   LINKS     SIZE";
            "app_data      0         500MB";
            "db_data       2         1.5GB" ].

Definition samplePVC : PVCInfo.t := PVCInfo.mk "svc-app-data" "default" "1Gi" None "".

(** The number that an answer of the operator stands for when the prompt
    accepts it: a line that, trimmed, reads as an integer between 0 and the
    number of candidates. *)
Definition acceptable (candidates : list DockerVolumeInfo.t) (r : ReadResult) : option Z :=
  match r with
  | ReadLine line =>
      match Atoi (TrimSpace line) with
      | Some choice =>
          if (0 <=? choice)%Z && (choice <=? Z.of_nat (length candidates))%Z
          then Some choice else None
      | None => None
      end
  | ReadError _ => None
  end.

(** The first answer that the prompt accepts. *)
Fixpoint acceptedChoice (candidates : list DockerVolumeInfo.t) (pending : list ReadResult)
  : option Z :=
  match pending with
  | [] => None
  | r :: rest =>
      match acceptable candidates r with
      | Some choice => Some choice
      | None => acceptedChoice candidates rest
      end
  end.

(** A stand-in for [resource.ParseQuantity] that accepts an unsigned
    decimal number with an optional binary or decimal suffix; it serves
    the examples only. *)
Definition sampleIsValidSize (size : string) : bool :=
  let '(digits, suffix) := docker.span_digits size in
  negb (String.eqb digits "")
  && existsb (String.eqb suffix) [""; "Ki"; "Mi"; "Gi"; "Ti"; "Pi"; "Ei"; "k"; "M"; "G"; "T"; "P"; "E"].

(** The size that the specification resolves an answer to. *)
Definition resolvedSize (isValidSize : string -> bool) (pvc : PVCInfo.t) (line : string)
  : string :=
  if String.eqb (TrimSpace line) "" then PVCInfo.RequestedSize pvc
  else if isValidSize (TrimSpace line) then TrimSpace line
  else PVCInfo.RequestedSize pvc.

Definition sampleClaims : list PVCInfo.t :=
  [ PVCInfo.mk "svc-app-data" "default" "1Gi" (Some (sampleVolume "app_data")) "";
    PVCInfo.mk "svc-db-data" "default" "2Gi" None "";
    PVCInfo.mk "svc-cache" "default" "500Mi" None "" ].

(** The three polling loops of the engine ([waitForPodCompletion] and the
    two texts of [waitForPVCBound]) have one shape: unless the deadline
    has passed, run the status command and either stop with a result or
    wait for the interval and go round again.  [Verdict] is what a loop
    makes of one answer, with what it prints. *)
Inductive Verdict : Type :=
| Stop (result : error) (prints : list string)
| Wait (prints : list string).

Fixpoint printAll (texts : list string) : M unit :=
  match texts with
  | [] => ret tt
  | text :: rest => do* printf text in printAll rest
  end.

Section Polling.

Variable kubectl : nat -> Invocation -> Reply.
Variable args : list string.
Variable verdict : Reply -> Verdict.
Variable timeoutError : string.

Fixpoint pollLoop (fuel : nat) (deadline interval : Z) : M error :=
  match fuel with
  | O => fun _ => NeverReturns
  | S fuel' =>
      let* t := getNow in
      if (deadline <=? t)%Z then ret (Some timeoutError)
      else
        let* r := engine.run kubectl args None in
        match verdict r with
        | Stop result prints => do* printAll prints in ret result
        | Wait prints =>
            do* printAll prints in
            do* sleep interval in
            pollLoop fuel' deadline interval
        end
  end.

End Polling.

(** What [waitForPodCompletion] makes of an answer. *)
Definition podVerdict (r : Reply) : Verdict :=
  if failed r then Wait []
  else
    let phase := TrimSpace (output r) in
    if String.eqb phase "Succeeded" then Stop None []
    else if String.eqb phase "Failed" then Stop (Some "migration pod failed") []
    else Wait ["    Pod status: " ++ phase ++ nl].

Definition podPollArgs (podName namespace : string) : list string :=
  ["get"; "pod"; podName; "-n"; namespace; "-o"; "jsonpath={.status.phase}"].

(** What the second text of [waitForPVCBound] makes of an answer. *)
Definition boundVerdict2 (r : Reply) : Verdict :=
  if failed r then Wait []
  else
    let phase := TrimSpace (output r) in
    if String.eqb phase "Bound" then Stop None []
    else Wait ["    PVC status: " ++ phase ++ nl].

(** What the first text of [waitForPVCBound] makes of an answer. *)
Definition boundVerdict1 (r : Reply) : Verdict :=
  if failed r then Wait ["    Error checking PVC status: " ++ errText r ++ nl]
  else
    let phase := TrimSpace (output r) in
    if String.eqb phase "Bound"
    then Stop None ["    PVC status: " ++ phase ++ nl; "    ✅ PVC is now bound!" ++ nl]
    else if String.eqb phase "Failed"
         then Stop (Some "PVC failed to bind") ["    PVC status: " ++ phase ++ nl]
         else Wait ["    PVC status: " ++ phase ++ nl].

Definition pvcPollArgs (name namespace : string) : list string :=
  ["get"; "pvc"; name; "-n"; namespace; "-o"; "jsonpath={.status.phase}"].

Section PollTraceModel.

Variable kubectl : nat -> Invocation -> Reply.
Variable args : list string.
Variable verdict : Reply -> Verdict.
Variable timeoutError : string.
Variable deadline interval : Z.

Definition pollCommand : Invocation := mkInvocation ("kubectl" :: args) None.

(** The answer to the poll that is the [n]-th command of the run. *)
Definition answerAt (n : nat) : Reply := kubectl n pollCommand.

(** The course of the loop when it is entered at time [t] as the [n]-th
    command is about to run: the result, the number of polls, and the time
    at which it returns. *)
Fixpoint pollTrace (fuel n : nat) (t : Z) : option (error * nat * Z) :=
  match fuel with
  | O => None
  | S fuel' =>
      if (deadline <=? t)%Z then Some (Some timeoutError, O, t)
      else
        let r := answerAt n in
        match verdict r with
        | Stop result _ => Some (result, 1%nat, (t + Z.of_N (elapsed r))%Z)
        | Wait _ =>
            match pollTrace fuel' (S n) (t + Z.of_N (elapsed r) + interval)%Z with
            | Some (result, polls, t') => Some (result, S polls, t')
            | None => None
            end
        end
  end.

(** The time at which the poll number [j] (counted from 0) starts when
    the polls before it all end in a wait. *)
Fixpoint startOfPoll (n : nat) (t : Z) (j : nat) : Z :=
  match j with
  | O => t
  | S j' => startOfPoll (S n) (t + Z.of_N (elapsed (answerAt n)) + interval)%Z j'
  end.

Definition waits (r : Reply) : Prop := ∃ prints, verdict r = Wait prints.

End PollTraceModel.

(** An answer reports a phase when the command succeeded and its trimmed
    output is that phase. *)
Definition reports (phase : string) (r : Reply) : Prop :=
  failed r = false ∧ TrimSpace (output r) = phase.

Definition boundTimeout : Z := 5 * minute.
Definition pollInterval : Z := 5 * second.

(** What waiting for a claim to be bound guarantees, whatever the control
    plane answers, when the wait [wait] polls with the arguments [args]
    from the world [w] on.  A poll is pending when it reports neither
    "Bound" nor "Failed" (a failed command is pending).
    - The wait returns.
    - If the first poll that is not pending reports "Bound" and starts
      before the 5 minutes are over, the wait returns success with that
      poll as its last command.
    - If every poll that starts before the 5 minutes are over is pending,
      the wait returns the timeout error, no earlier than the deadline.
    - Successive polls are 5 seconds apart, plus the time the command
      took: there is no backoff. *)
Definition BoundWait (kubectl : nat -> Invocation -> Reply) (args : list string)
    (name : string) (wait : M error) (w : World) : Prop :=
  let n := length (invocations w) in
  let start := startOfPoll kubectl args pollInterval n (now w) in
  let deadline := (now w + boundTimeout)%Z in
  let pending j := ¬ reports "Bound" (answerAt kubectl args (n + j))
                   ∧ ¬ reports "Failed" (answerAt kubectl args (n + j)) in
  (∃ result w', wait w = Returns result w') ∧
  (∀ j, (∀ i, (i < j)%nat → pending i) →
        reports "Bound" (answerAt kubectl args (n + j)) →
        (start j < deadline)%Z →
        ∃ w', wait w = Returns None w' ∧
              invocations w' = (invocations w ++ replicate (S j) (pollCommand args))%list ∧
              now w' = (start j + Z.of_N (elapsed (answerAt kubectl args (n + j))))%Z) ∧
  ((∀ j, (start j < deadline)%Z → pending j) →
   ∃ w' polls,
     wait w = Returns (Some ("timeout waiting for PVC " ++ name ++ " to be bound")) w' ∧
     invocations w' = (invocations w ++ replicate polls (pollCommand args))%list ∧
     now w' = start polls ∧ (deadline <= now w')%Z) ∧
  (∀ j, start (S j)
        = (start j + Z.of_N (elapsed (answerAt kubectl args (n + j))) + 5 * 1000)%Z).

(** A control plane that answers the [n]-th command from a script and
    repeats [rest] when the script is exhausted. *)
Definition scriptedKubectl (script : list Reply) (rest : Reply) : nat -> Invocation -> Reply :=
  fun n _ => nth n script rest.

(** A successful status command that prints [phase], after [ms]
    milliseconds. *)
Definition phaseReply (phase : string) (ms : N) : Reply := mkReply false "" (phase ++ nl) ms.

Definition startWorld : World := mkWorld 1700000000000 (mkTerminal [] []) [].

Definition engine1 : migration1.Engine := migration1.NewEngine "" "/manifests".
Definition engine2 : migration2.Engine := migration2.NewEngine "".

Definition claimedPVC : PVCInfo.t :=
  PVCInfo.mk "svc-app-data" "default" "1Gi" (Some (sampleVolume "app_data")) "1Gi".

Definition pendingPendingBound : nat -> Invocation -> Reply :=
  scriptedKubectl [phaseReply "Pending" 120; phaseReply "Pending" 80] (phaseReply "Bound" 100).

(** What [DryRun] prints for the item at index [i]. *)
Definition dryRunLines (i : nat) (pvc : PVCInfo.t) : list string :=
  match PVCInfo.MatchedVolume pvc with
  | None =>
      ["[" ++ Itoa (Z.of_nat i + 1) ++ "] SKIP: " ++ PVCInfo.Name pvc
           ++ " (no volume selected)" ++ nl]
  | Some vol =>
      [ "[" ++ Itoa (Z.of_nat i + 1) ++ "] MIGRATE: " ++ PVCInfo.Name pvc ++ nl;
        "    Source: " ++ DockerVolumeInfo.Name vol
          ++ " (" ++ DockerVolumeInfo.SizeHuman vol ++ ")" ++ nl;
        "    Target: PVC " ++ PVCInfo.Namespace pvc ++ "/" ++ PVCInfo.Name pvc
          ++ " (" ++ PVCInfo.NewSize pvc ++ ")" ++ nl;
        "    Path: " ++ DockerVolumeInfo.Mountpoint vol ++ " → PVC mount" ++ nl;
        nl ]
  end.

Fixpoint dryRunLinesFrom (i : nat) (pvcs : list PVCInfo.t) : list string :=
  match pvcs with
  | [] => []
  | pvc :: rest => (dryRunLines i pvc ++ dryRunLinesFrom (S i) rest)%list
  end.

(** The world after some more output and nothing else. *)
Definition printed (texts : list string) (w : World) : World :=
  mkWorld (now w) (mkTerminal (stdin (console w)) (stdout (console w) ++ texts)%list)
          (invocations w).

Definition unmatchedPVC : PVCInfo.t := PVCInfo.mk "svc-cache" "default" "500Mi" None "500Mi".

(** A command is a poll of a pod's phase. *)
Definition isPodPoll (inv : Invocation) : Prop :=
  ∃ podName namespace, inv = pollCommand (podPollArgs podName namespace).

(** The [k]-th command of the log [log] is a poll of a pod's phase and the
    control plane answered it with "Failed". *)
Definition failedPodPoll (kubectl : nat -> Invocation -> Reply) (log : list Invocation)
    (k : nat) : Prop :=
  ∃ inv, log !! k = Some inv ∧ isPodPoll inv ∧ reports "Failed" (kubectl k inv).

(** A computation that returns only after commands that are no polls of a
    pod. *)
Definition Quiet {A : Type} (c : M A) : Prop :=
  ∀ w a w', c w = Returns a w' →
    ∃ new, invocations w' = (invocations w ++ new)%list ∧
           Forall (fun inv => ¬ isPodPoll inv) new.

(** A computation in which a pod poll answered with "Failed" is the last
    command it runs, and then [P] holds of the index of that poll, the
    result and the world left. *)
Definition Tracks (kubectl : nat -> Invocation -> Reply)
    (P : nat -> error -> World -> Prop) (c : M error) : Prop :=
  ∀ w result w', c w = Returns result w' →
    ∃ new, invocations w' = (invocations w ++ new)%list ∧
           ∀ k, (length (invocations w) <= k)%nat →
                failedPodPoll kubectl (invocations w') k →
                S k = length (invocations w') ∧ P k result w'.

(** What holds when a poll of the pod [podName] is answered with
    "Failed" during [waitForPodCompletion]. *)
Definition podWaitFailed (podName namespace : string) (k : nat) (result : error) (w' : World)
  : Prop :=
  result = Some "migration pod failed" ∧
  invocations w' !! k = Some (pollCommand (podPollArgs podName namespace)).

(** What holds when a poll of the migration pod of the claim [pvc] is
    answered with "Failed", at the level of an error message [msg]. *)
Definition podFailedFor (msg : string) (pvc : PVCInfo.t) (k : nat) (result : error)
    (w' : World) : Prop :=
  result = Some msg ∧
  ∃ t namespace,
    invocations w' !! k
    = Some (pollCommand (podPollArgs (migrationPodName (PVCInfo.Name pvc) t) namespace)).

Definition copyFailure : string := "failed to copy data: migration pod failed: migration pod failed".

(** What holds of a run of [StartMigration] over [pvcs] in which the
    [k]-th command was a pod poll answered with "Failed": the run returned
    the error that names a claim of the list, one with a matched volume;
    the poll was for the migration pod of that claim; and the last thing
    printed is the failure report for that claim. *)
Definition runAborted (pvcs : list PVCInfo.t) (k : nat) (result : error) (w' : World) : Prop :=
  ∃ failing,
    failing ∈ pvcs ∧
    PVCInfo.MatchedVolume failing ≠ None ∧
    result = Some ("migration failed for PVC " ++ PVCInfo.Name failing ++ ": " ++ copyFailure) ∧
    (∃ t namespace,
        invocations w' !! k
        = Some (pollCommand
                  (podPollArgs (migrationPodName (PVCInfo.Name failing) t) namespace))) ∧
    last (stdout (console w'))
    = Some ("❌ Failed to migrate " ++ PVCInfo.Name failing ++ ": " ++ copyFailure ++ nl).

(** A computation that returns from every world. *)
Definition Total {A : Type} (c : M A) : Prop := ∀ w, ∃ a w', c w = Returns a w'.

Definition okReply (text : string) (ms : N) : Reply := mkReply false "" text ms.

(** A run in which the claim is created and bound and the migration pod
    is created, reported as running once and then as failed. *)
Definition podFails : nat -> Invocation -> Reply :=
  scriptedKubectl
    [ okReply ("persistentvolumeclaim/svc-app-data created" ++ nl) 200;
      phaseReply "Bound" 100;
      okReply ("pod/migration-svc-app-data-1700000000 created" ++ nl) 200;
      phaseReply "Running" 100;
      phaseReply "Failed" 100 ]
    (phaseReply "Succeeded" 100).

Definition secondClaim : PVCInfo.t :=
  PVCInfo.mk "svc-db-data" "default" "2Gi" (Some (sampleVolume "db_data")) "2Gi".

(** The four strings of a decoded document that the program reads of a
    claim: its kind, name, namespace and requested storage. *)
Record ClaimFields : Type := mkClaimFields {
  fieldKind : option string;
  fieldName : option string;
  fieldNamespace : option string;
  fieldStorage : option string
}.

Definition claimFields (obj : Object) : ClaimFields :=
  mkClaimFields
    (yamlobj.getString obj "kind")
    (yamlobj.getMap obj "metadata" ≫= (fun metadata => yamlobj.getString metadata "name"))
    (yamlobj.getMap obj "metadata" ≫= (fun metadata => yamlobj.getString metadata "namespace"))
    (yamlobj.getMap obj "spec" ≫= (fun spec =>
       yamlobj.getMap spec "resources" ≫= (fun resources =>
         yamlobj.getMap resources "requests" ≫= (fun requests =>
           yamlobj.getString requests "storage")))).

(** The claim that the parser makes of these strings. *)
Definition claimOfFields (f : ClaimFields) : option PVCInfo.t :=
  match fieldName f, fieldStorage f with
  | Some name, Some storage =>
      Some (PVCInfo.mk name (default "default" (fieldNamespace f)) storage None "")
  | _, _ => None
  end.

Section RewriteModel.

Variable Unmarshal : string -> option Object.
Variable Marshal : Object -> option string.
Variable decodeAll : string -> list Object.

(** The texts that the stream decoder reads to their end without an
    error; the contract below speaks of them only. *)
Variable wellFormed : string -> Prop.

(** A document that [yaml.Marshal] wrote is read by the stream decoder as
    one document, with the same kind, name, namespace and requested
    storage. *)
Definition ReadsBack : Prop :=
  ∀ obj text, Marshal obj = Some text →
    ∃ obj', decodeAll text = [obj'] ∧ claimFields obj' = claimFields obj.

(** The stream decoder reads well-formed texts that are joined by the
    separator line as the documents of the first, then those of the
    second, and so on. *)
Definition ReadsJoined : Prop :=
  ∀ documents, Forall wellFormed documents →
    decodeAll (Join documents yaml.separator) = concat (map decodeAll documents).

(** The contract assumed of the two YAML libraries. *)
Definition LibraryContract : Prop :=
  ReadsBack ∧ (∀ obj text, Marshal obj = Some text → wellFormed text) ∧ ReadsJoined.

(** A directory whose declaration files hold well-formed pieces. *)
Definition wellFormedDirectory (fs : FileSystem) : Prop :=
  ∀ path content onWrite,
    (path, Found (RegularFile content onWrite)) ∈ fs → isYAMLPath path = true →
    Forall wellFormed (yaml.documentsOf content).

(** The updater rewrites a piece for the claim [pvc]: what
    [yaml.Unmarshal] reads of the piece is a PersistentVolumeClaim, [pvc]
    is the first claim of the list with its name and namespace and has a
    new size, the claim has the maps down to [spec.resources.requests],
    and [yaml.Marshal] accepts it with the new size. *)
Definition rewrittenFor (pvcs : list PVCInfo.t) (document : string) (pvc : PVCInfo.t) : Prop :=
  ∃ obj spec resources requests,
    Unmarshal document = Some obj ∧
    fieldKind (claimFields obj) = Some "PersistentVolumeClaim" ∧
    fieldName (claimFields obj) = Some (PVCInfo.Name pvc) ∧
    default "default" (fieldNamespace (claimFields obj)) = PVCInfo.Namespace pvc ∧
    yaml.findMatching pvcs (PVCInfo.Name pvc) (PVCInfo.Namespace pvc) = Some pvc ∧
    PVCInfo.NewSize pvc ≠ "" ∧
    yamlobj.getMap obj "spec" = Some spec ∧
    yamlobj.getMap spec "resources" = Some resources ∧
    yamlobj.getMap resources "requests" = Some requests ∧
    is_Some (Marshal (yaml.setStorage obj spec resources requests (PVCInfo.NewSize pvc))).

(** The claim that the parser is to read after the update. *)
Definition resized (pvc : PVCInfo.t) : PVCInfo.t :=
  PVCInfo.mk (PVCInfo.Name pvc) (PVCInfo.Namespace pvc) (PVCInfo.NewSize pvc) None "".

(** How a piece stands after the rewrite: a piece that the updater
    rewrites for a claim reads back as that claim alone, with the new size
    as its requested size; every other piece is byte for byte as
    before. *)
Definition documentRewritten (pvcs : list PVCInfo.t) (before after : string) : Prop :=
  (∀ pvc, rewrittenFor pvcs before pvc →
          kubernetes.claimsOf (decodeAll after) = [resized pvc]) ∧
  ((∀ pvc, ¬ rewrittenFor pvcs before pvc) → after = before).

(** How a declaration file stands after the rewrite: with no piece to
    rewrite it is untouched; otherwise it holds its non-blank pieces, each
    rewritten as above, joined by the separator. *)
Definition fileRewritten (pvcs : list PVCInfo.t) (content : string) (onWrite : WriteBehaviour)
    (after : Entry) : Prop :=
  ∃ documents,
    Forall2 (documentRewritten pvcs) (yaml.documentsOf content) documents ∧
    ((∀ document pvc, document ∈ yaml.documentsOf content →
                      ¬ rewrittenFor pvcs document pvc) →
     after = Found (RegularFile content onWrite)) ∧
    ((∃ document pvc, document ∈ yaml.documentsOf content ∧ rewrittenFor pvcs document pvc) →
     after = Found (RegularFile (Join documents yaml.separator) onWrite)).

(** How a visit of the walk stands after [UpdateYAMLFiles]: a declaration
    file is rewritten as above, anything else is untouched. *)
Definition entryRewritten (pvcs : list PVCInfo.t) (before after : string * Entry) : Prop :=
  fst after = fst before ∧
  match snd before with
  | Found (RegularFile content onWrite) =>
      if isYAMLPath (fst before) then fileRewritten pvcs content onWrite (snd after)
      else snd after = snd before
  | _ => snd after = snd before
  end.

(** The claims that the parser reads of a visit. *)
Definition claimsAt (visit : string * Entry) : list PVCInfo.t :=
  match visit with
  | (path, Found (RegularFile content _)) =>
      if isYAMLPath path then kubernetes.claimsOf (decodeAll content) else []
  | _ => []
  end.

End RewriteModel.

(** The separator does not begin within [d] when [d] is followed by the
    separator. *)
Fixpoint apart (sep d : string) : bool :=
  match d with
  | EmptyString => true
  | String c d' =>
      negb (String.prefix sep (d ++ substring 0 (String.length sep - 1) sep)) && apart sep d'
  end.

#[local] Instance ClaimFields_eq_dec : EqDecision ClaimFields.
Proof. solve_decision. Defined.

Definition claimDocument (size : string) : string :=
  unlines [ "apiVersion: v1";
            "kind: PersistentVolumeClaim";
            "metadata:";
            "    name: svc-app-data";
            "spec:";
            "    accessModes:";
            "        - ReadWriteOnce";
            "    resources:";
            "        requests:";
            "            storage: " ++ size ].

Definition claimObject (size : string) : Object :=
  [ ("apiVersion", VString "v1");
    ("kind", VString "PersistentVolumeClaim");
    ("metadata", VMap [("name", VString "svc-app-data")]);
    ("spec", VMap [ ("accessModes", VOther "[ReadWriteOnce]");
                    ("resources", VMap [("requests", VMap [("storage", VString size)])]) ]) ].

Definition serviceDocument : string :=
  unlines [ "# the service in front of the application";
            "apiVersion: v1";
            "kind: Service";
            "metadata:";
            "  name: svc-app" ].

Definition serviceObject : Object :=
  [ ("apiVersion", VString "v1"); ("kind", VString "Service");
    ("metadata", VMap [("name", VString "svc-app")]) ].

(** A file in which the line between the claim and the service carries a
    trailing blank: [--- ] is a document separator to a YAML reader, but
    it is not the text that the updater splits at. *)
Definition twoDocuments : string :=
  claimDocument "1Gi" ++ "--- " ++ nl ++ serviceDocument.

(** A stand-in for [yaml.Unmarshal], which reads the first document of a
    text; it knows four texts and serves the examples only. *)
Definition sampleUnmarshal (text : string) : option Object :=
  if String.eqb text (claimDocument "1Gi") then Some (claimObject "1Gi")
  else if String.eqb text (claimDocument "5Gi") then Some (claimObject "5Gi")
  else if String.eqb text serviceDocument then Some serviceObject
  else if String.eqb text twoDocuments then Some (claimObject "1Gi")
  else None.

Definition sampleMarshal (obj : Object) : option string :=
  if decide (claimFields obj = claimFields (claimObject "5Gi"))
  then Some (claimDocument "5Gi") else None.

(** A stand-in for the stream decoder, which reads every document of a
    text: the pieces between separator lines, and both documents of
    [twoDocuments]. *)
Definition sampleDecodePiece (text : string) : list Object :=
  if String.eqb text twoDocuments then [claimObject "1Gi"; serviceObject]
  else match sampleUnmarshal text with
       | Some obj => [obj]
       | None => []
       end.

Definition sampleDecodeAll (text : string) : list Object :=
  concat (map sampleDecodePiece (Split text yaml.separator)).

Definition sampleWellFormed (text : string) : Prop :=
  text ∈ [claimDocument "1Gi"; claimDocument "5Gi"; serviceDocument; twoDocuments].

Definition sampleDirectory : FileSystem :=
  [ ("/manifests/app.yaml",
     Found (RegularFile (serviceDocument ++ yaml.separator ++ nl ++ yaml.separator
                           ++ claimDocument "1Gi") Succeeds));
    ("/manifests/notes.txt", Found (RegularFile "storage: 1Gi" Succeeds)) ].

Definition sampleClaim : PVCInfo.t :=
  PVCInfo.mk "svc-app-data" "default" "1Gi" (Some (sampleVolume "app_data")) "5Gi".

(** ** The vocabulary of the further properties *)

Definition reportedSize (floatBytes : string -> Z -> option Z) (dfOutput : option string) (name : string)
  : option docker.volumeSize :=
  match dfOutput with
  | Some text => docker.parseDockerDFOutput floatBytes text !! name
  | None => None
  end.

Definition idleIn (sizes : option (gmap string docker.volumeSize)) (name : string) : Prop :=
  ∀ sz, sizes ≫= (λ m, m !! name) = Some sz → (docker.links sz <= 0)%Z.

(** What [LoadVolumes] files for a volume: its name and mount point, and
    the size that [docker system df -v] reported or, when that is
    missing or zero, the size that the walk of the mount point yields. *)
Definition filedFor (getVolumeSize : string -> Z * string)
    (sizes : option (gmap string docker.volumeSize)) (v : volume.Volume)
  : DockerVolumeInfo.t :=
  let '(size, human) :=
    match sizes ≫= (λ m, m !! volume.Name v) with
    | Some sz =>
        if (docker.bytes sz =? 0)%Z then getVolumeSize (volume.Mountpoint v)
        else (docker.bytes sz, docker.human sz)
    | None => getVolumeSize (volume.Mountpoint v)
    end in
  DockerVolumeInfo.mk (volume.Name v) (volume.Mountpoint v) size human.

(** A line of [docker system df -v] that reports the volume [name]: not
    blank, not a heading, with at least three fields, of which the first
    is the name, the second reads as the number of links and the last as
    the size. *)
Definition reportsVolume (floatBytes : string -> Z -> option Z) (line0 name : string)
    (sz : docker.volumeSize) : Prop :=
  let line := TrimSpace line0 in
  let fields := Fields line in
  line ≠ "" ∧ HasPrefix line "VOLUME NAME" = false ∧ Contains line "Local Volumes" = false ∧
  (3 <= length fields)%nat ∧
  fields !! 0%nat = Some name ∧
  fields !! 1%nat ≫= Atoi = Some (docker.links sz) ∧
  last fields = Some (docker.human sz) ∧
  docker.parseSizeString floatBytes (docker.human sz) = Some (docker.bytes sz).

Fixpoint allBytes (P : ascii -> bool) (s : string) : bool :=
  match s with
  | EmptyString => true
  | String c s' => P c && allBytes P s'
  end.

(** A decimal number as [parseSizeString] accepts it: digits, or digits,
    a point and digits. *)
Definition decimalNumber (num : string) : Prop :=
  ∃ whole frac,
    whole ≠ "" ∧ allBytes is_digit whole = true ∧ allBytes is_digit frac = true ∧
    (num = whole ∧ frac = "" ∨ num = whole ++ "." ++ frac ∧ frac ≠ "").

(** The head of a text is not a byte that [P] accepts. *)
Definition stopsAt (P : ascii -> bool) (s : string) : Prop :=
  match s with
  | EmptyString => True
  | String c _ => P c = false
  end.

(** The order of the menus: by name, ascending, as Go compares strings
    (byte by byte). *)
Definition byName (a b : DockerVolumeInfo.t) : Prop :=
  String.leb (DockerVolumeInfo.Name a) (DockerVolumeInfo.Name b) = true.

(** An inventory as [LoadVolumes] builds it: every volume is filed under
    its own name. *)
Definition keyedByName (inventory : gmap string DockerVolumeInfo.t) : Prop :=
  ∀ k v, inventory !! k = Some v → DockerVolumeInfo.Name v = k.

(** What [MatchVolumes] makes of one claim: the same claim with a matched
    volume that is nil or one of the volumes offered for it. *)
Definition matchedFrom (vm : matcher.VolumeMatcher) (order : list string)
    (pvc pvc' : PVCInfo.t) : Prop :=
  ∃ selected,
    pvc' = matcher.setMatchedVolume pvc selected ∧
    ∀ v, selected = Some v → v ∈ matcher.offered vm order pvc.

(** A source that [parseVolumeSpec] takes for a bind mount. *)
Definition isBindMount (source : string) : bool :=
  HasPrefix source "/" || HasPrefix source "./" || HasPrefix source "../".

(** The claim that the parser reads from a YAML file of the directory:
    a document of a regular file with a YAML suffix, of kind
    [PersistentVolumeClaim], that [parsePVCFromObject] accepts. *)
Definition declaredIn (decodeAll : string -> list Object) (fs : FileSystem) (pvc : PVCInfo.t)
  : Prop :=
  ∃ path content onWrite obj,
    (path, Found (RegularFile content onWrite)) ∈ fs ∧
    isYAMLPath path = true ∧
    obj ∈ decodeAll content ∧
    yamlobj.getString obj "kind" = Some "PersistentVolumeClaim" ∧
    kubernetes.parsePVCFromObject obj = Some pvc.

(** The error that ends the walk of the parser at a visit, if any: that of
    the walk itself, or that of opening a declaration file. *)
Definition parseFault (path : string) (entry : Entry) : error :=
  match entry with
  | Inaccessible err => Some err
  | Found (Unreadable reason) =>
      if isYAMLPath path then Some (pathError "open" path reason) else None
  | Found _ => None
  end.

(** How a visit that the updater has passed without an error stands: the
    walk could access the path, and a declaration file is as
    [updateYAMLFile] left it, anything else as it was. *)
Definition visitUpdated (Unmarshal : string -> option Object) (Marshal : Object -> option string)
    (pvcs : list PVCInfo.t) (before after : string * Entry) : Prop :=
  ∃ path file file',
    before = (path, Found file) ∧ after = (path, Found file') ∧
    if isYAMLPath path
    then yaml.updateYAMLFile Unmarshal Marshal path file pvcs = (file', None)
    else file' = file.

(** A file to which a write fails after it was opened and truncated. *)
Definition breaksOff (file : File) : Prop :=
  match file with
  | RegularFile _ (WriteFails _ _) | RegularFile _ (CloseFails _) => True
  | _ => False
  end.

(** How the visit at which the updater stopped stands, with the error of
    the walk: the walk could not access the path, or [updateYAMLFile]
    failed on a declaration file, which is as it was unless the write
    broke off. *)
Definition visitFailed (Unmarshal : string -> option Object) (Marshal : Object -> option string)
    (pvcs : list PVCInfo.t) (before after : string * Entry) (reason : string) : Prop :=
  (∃ path, before = (path, Inaccessible reason) ∧ after = before)
  ∨ ∃ path file file',
      before = (path, Found file) ∧ after = (path, Found file') ∧
      isYAMLPath path = true ∧
      yaml.updateYAMLFile Unmarshal Marshal path file pvcs = (file', Some reason) ∧
      (¬ breaksOff file → file' = file).

Definition dryRunHeader : string := nl ++ "=== Dry Run - Migration Plan ===" ++ nl.

Definition dryRunFooter : string := "Use --execute to run the actual migration" ++ nl.

(** The lines of the plan that [DryRun] prints for a list of claims. *)
Definition dryRunPlan (pvcs : list PVCInfo.t) : list string :=
  dryRunHeader :: (dryRunLinesFrom 0 pvcs ++ [dryRunFooter])%list.

(** The command that submits a manifest on standard input. *)
Definition applyCommand (manifest : string) : Invocation :=
  mkInvocation ["kubectl"; "apply"; "-f"; "-"] (Some manifest).

Definition logsCommand (podName namespace : string) : Invocation :=
  mkInvocation ["kubectl"; "logs"; podName; "-n"; namespace] None.

Definition deleteCommand (podName namespace : string) : Invocation :=
  mkInvocation ["kubectl"; "delete"; "pod"; podName; "-n"; namespace; "--ignore-not-found"]
               None.

Definition podTimeout : Z := 10 * minute.

(** What waiting for the migration pod guarantees, whatever the control
    plane answers, from the world [w] on.  A poll is pending when it
    reports neither "Succeeded" nor "Failed" (a failed command is
    pending).
    - The wait returns, after at most 120 polls and no other command.
    - If the first poll that is not pending reports "Succeeded" and starts
      before the 10 minutes are over, the wait returns success with that
      poll as its last command.
    - If every poll that starts before the 10 minutes are over is
      pending, the wait returns the timeout error, no earlier than the
      deadline. *)
Definition PodWait (kubectl : nat -> Invocation -> Reply) (podName namespace : string)
    (w : World) : Prop :=
  let args := podPollArgs podName namespace in
  let wait := engine.waitForPodCompletion kubectl podName namespace in
  let n := length (invocations w) in
  let start := startOfPoll kubectl args pollInterval n (now w) in
  let deadline := (now w + podTimeout)%Z in
  let pending j := ¬ reports "Succeeded" (answerAt kubectl args (n + j))
                   ∧ ¬ reports "Failed" (answerAt kubectl args (n + j)) in
  (∃ result w' polls,
      wait w = Returns result w' ∧ (polls <= 120)%nat ∧
      invocations w' = (invocations w ++ replicate polls (pollCommand args))%list) ∧
  (∀ j, (∀ i, (i < j)%nat → pending i) →
        reports "Succeeded" (answerAt kubectl args (n + j)) →
        (start j < deadline)%Z →
        ∃ w', wait w = Returns None w' ∧
              invocations w' = (invocations w ++ replicate (S j) (pollCommand args))%list ∧
              now w' = (start j + Z.of_N (elapsed (answerAt kubectl args (n + j))))%Z) ∧
  ((∀ j, (start j < deadline)%Z → pending j) →
   ∃ w' polls,
     wait w = Returns (Some ("timeout waiting for pod " ++ podName ++ " to complete")) w' ∧
     invocations w' = (invocations w ++ replicate polls (pollCommand args))%list ∧
     now w' = start polls ∧ (deadline <= now w')%Z).

(** A command that the second text of the engine runs for the claim
    [pvc]: the manifest of the claim or of its migration pod, which both
    name the namespace of the claim, or a query, log or delete command with
    [-n] and the namespace of the claim. *)
Definition commandFor (pvc : PVCInfo.t) (command : Invocation) : Prop :=
  command = applyCommand (migration2.pvcYAML pvc)
  ∨ command = pollCommand (pvcPollArgs (PVCInfo.Name pvc) (PVCInfo.Namespace pvc))
  ∨ ∃ t,
      let podName := migrationPodName (PVCInfo.Name pvc) t in
      (∃ vol, PVCInfo.MatchedVolume pvc = Some vol ∧
              command = applyCommand (migration2.podYAML podName (PVCInfo.Namespace pvc)
                                        (DockerVolumeInfo.Mountpoint vol) (PVCInfo.Name pvc)))
      ∨ command = pollCommand (podPollArgs podName (PVCInfo.Namespace pvc))
      ∨ command = logsCommand podName (PVCInfo.Namespace pvc)
      ∨ command = deleteCommand podName (PVCInfo.Namespace pvc).

(** The command that lists the names of the nodes of the cluster. *)
Definition nodesCommand : Invocation :=
  mkInvocation ["kubectl"; "get"; "nodes"; "-o"; "jsonpath={.items[*].metadata.name}"] None.

(** A document of a manifest file that declares a claim of the name of
    [pvc]. *)
Definition declaresClaim (Unmarshal : string -> option Object) (pvc : PVCInfo.t)
    (doc : string) : Prop :=
  ∃ obj metadata,
    Unmarshal doc = Some obj ∧
    yamlobj.getString obj "kind" = Some "PersistentVolumeClaim" ∧
    yamlobj.getMap obj "metadata" = Some metadata ∧
    yamlobj.getString metadata "name" = Some (PVCInfo.Name pvc).

(** A stand-in for the rendering of the quotient with one decimal that
    truncates instead of rounding; it serves the examples only. *)
Definition sampleTenths (bytes div : Z) : string :=
  Itoa (bytes / div) ++ "." ++ Itoa (bytes * 10 / div mod 10).

(** A control plane that refuses every command. *)
Definition refusing : nat -> Invocation -> Reply :=
  fun _ _ => mkReply true "exit status 1" ("error: connection refused" ++ nl) 50.

(* ================================================================== *)
(** * Part II: properties *)
(* ================================================================== *)

(** ** Facts about the string functions *)

Section StringFacts.

Lemma prefix_single (d c : ascii) (s : string) :
  String.prefix (String d "") (String c s) = bool_decide (d = c).
Proof.
  simpl. destruct (ascii_dec d c) as [->|Hne].
  - rewrite bool_decide_eq_true_2 by done. by destruct s.
  - by rewrite bool_decide_eq_false_2.
Qed.

Lemma append_empty (t : string) : "" ++ t = t.
Proof. reflexivity. Qed.

Lemma append_cons (c : ascii) (s t : string) : String c s ++ t = String c (s ++ t).
Proof. reflexivity. Qed.

Lemma append_nil_r (s : string) : s ++ "" = s.
Proof. induction s as [|c s IH]; [done | by rewrite append_cons, IH]. Qed.

Lemma append_assoc (a b c : string) : (a ++ b) ++ c = a ++ (b ++ c).
Proof. induction a as [|x a IH]; [done | by rewrite !append_cons, IH]. Qed.

Lemma Contains_nil_single (d : ascii) : Contains "" (String d "") = false.
Proof. reflexivity. Qed.

Lemma Contains_cons_single (d c : ascii) (s : string) :
  Contains (String c s) (String d "") = bool_decide (d = c) || Contains s (String d "").
Proof. change (Contains (String c s) (String d "")) with
    (String.prefix (String d "") (String c s) || Contains s (String d "")).
  by rewrite prefix_single.
Qed.

Lemma split_go_nonempty (sep : string) (k : nat) (s : string) : split_go sep k s ≠ [].
Proof.
  revert k. induction s as [|c s IH]; intros k; cbn [split_go]; [done|].
  destruct k; [|apply IH].
  destruct (String.prefix sep (String c s)); [done|].
  by destruct (split_go sep 0 s).
Qed.

(** Splitting at a one-byte separator, one byte at a time. *)
Lemma split_single_cons (d c : ascii) (s : string) :
  Split (String c s) (String d "") =
    if bool_decide (d = c) then "" :: Split s (String d "")
    else match Split s (String d "") with
         | h :: t => String c h :: t
         | [] => [String c ""]
         end.
Proof.
  unfold Split.
  change (split_go (String d "") 0 (String c s)) with
    (if String.prefix (String d "") (String c s)
     then "" :: split_go (String d "") (String.length (String d "") - 1) s
     else match split_go (String d "") 0 s with
          | h :: t => String c h :: t
          | [] => [String c ""]
          end).
  by rewrite prefix_single.
Qed.

(** A text that contains the separator byte splits into the segment before
    its first occurrence and the pieces of what follows it. *)
Lemma split_single_first (d : ascii) (s : string) :
  Contains s (String d "") = true →
  ∃ seg rest,
    s = seg ++ String d rest ∧
    Contains seg (String d "") = false ∧
    Split s (String d "") = seg :: Split rest (String d "").
Proof.
  induction s as [|c s IH]; intros Hc; [done|].
  rewrite Contains_cons_single in Hc. rewrite split_single_cons.
  case_bool_decide as Hd.
  - subst c. by exists "", s.
  - simpl in Hc. destruct (IH Hc) as (seg & rest & -> & Hseg & Hsplit).
    exists (String c seg), rest. split_and!.
    + done.
    + rewrite Contains_cons_single, Hseg. by rewrite bool_decide_eq_false_2.
    + by rewrite Hsplit.
Qed.

(** Joining the pieces with the separator byte gives the text back. *)
Lemma join_split_single (d : ascii) (s : string) :
  Join (Split s (String d "")) (String d "") = s.
Proof.
  induction s as [|c s IH]; [done|].
  rewrite split_single_cons. case_bool_decide as Hd.
  - subst c. pose proof (split_go_nonempty (String d "") 0 s) as Hne.
    unfold Split in *. destruct (split_go (String d "") 0 s) as [|h t]; [done|].
    simpl in *. by rewrite IH.
  - pose proof (split_go_nonempty (String d "") 0 s) as Hne.
    unfold Split in *. destruct (split_go (String d "") 0 s) as [|h t]; [done|].
    destruct t as [|h' t]; simpl in *; by rewrite <- IH.
Qed.

End StringFacts.

(** ** The lexical decomposition of a claim name *)

Lemma appendLongParts_spec (parts pieces : list string) :
  matcher.appendLongParts parts pieces = (parts ++ longParts pieces)%list.
Proof.
  unfold matcher.appendLongParts, longParts.
  revert parts. induction pieces as [|p pieces IH]; intros parts; simpl.
  - by rewrite app_nil_r.
  - rewrite IH. destruct (1 <? String.length p)%nat; simpl; [|done].
    by rewrite <- app_assoc.
Qed.

Lemma extractPVCParts_unfold (pvcName : string) :
  matcher.extractPVCParts pvcName =
    let cleaned := matcher.cleanName pvcName in
    (longParts (Split cleaned "-") ++ longParts (Split cleaned "_") ++ [ToLower cleaned])%list.
Proof.
  unfold matcher.extractPVCParts. simpl.
  rewrite !appendLongParts_spec. simpl. by rewrite <- app_assoc.
Qed.

(** The cleaned name of a hyphenated name is what follows its first hyphen. *)
Lemma cleanName_hyphenated (pvcName : string) :
  Contains pvcName "-" = true →
  ∃ seg,
    pvcName = seg ++ "-" ++ matcher.cleanName pvcName ∧
    Contains seg "-" = false ∧
    matcher.cleanName pvcName = Join (drop 1 (Split pvcName "-")) "-".
Proof.
  intros Hc. destruct (split_single_first _ _ Hc) as (seg & rest & Heq & Hseg & Hsplit).
  assert (Hjoin : Join (drop 1 (Split pvcName "-")) "-" = rest).
  { rewrite Hsplit. change (drop 1 (seg :: Split rest "-")) with (Split rest "-").
    apply join_split_single. }
  assert (Hclean : matcher.cleanName pvcName = rest).
  { unfold matcher.cleanName. rewrite Hc. cbv zeta. rewrite Hjoin, Hsplit.
    pose proof (split_go_nonempty "-" 0 rest) as Hne.
    unfold Split. destruct (split_go "-" 0 rest); [done|]. reflexivity. }
  exists seg. rewrite Hclean, Hjoin. done.
Qed.

(** C4. For every claim name that contains a hyphen, [extractPVCParts]
    drops exactly the first hyphen-delimited segment (the name is that
    segment, a hyphen, and the cleaned name, which is the other segments
    rejoined with hyphens), splits the cleaned name at ["-"] and at ["_"],
    keeps only the pieces longer than one byte, and appends the cleaned
    name in lower case: it computes the decomposition of the
    specification. *)
Theorem extractPVCParts_decomposition (pvcName : string) :
  Contains pvcName "-" = true →
  ∃ seg cleaned,
    pvcName = seg ++ "-" ++ cleaned ∧
    Contains seg "-" = false ∧
    cleaned = Join (drop 1 (Split pvcName "-")) "-" ∧
    matcher.extractPVCParts pvcName =
      (longParts (Split cleaned "-") ++ longParts (Split cleaned "_")
         ++ [ToLower cleaned])%list ∧
    matcher.extractPVCParts pvcName = decomposition pvcName.
Proof.
  intros Hc. destruct (cleanName_hyphenated _ Hc) as (seg & Heq & Hseg & Hclean).
  exists seg, (matcher.cleanName pvcName). split_and!; try done.
  - apply extractPVCParts_unfold.
  - rewrite extractPVCParts_unfold. unfold decomposition. cbv zeta. by rewrite <- Hclean.
Qed.

Lemma extractPVCParts_decomposition_witness :
  Contains "svc-app-data" "-" = true ∧
  matcher.extractPVCParts "svc-app-data" = ["app"; "data"; "app-data"; "app-data"] ∧
  ∃ seg cleaned,
    "svc-app-data" = seg ++ "-" ++ cleaned ∧
    Contains seg "-" = false ∧
    cleaned = Join (drop 1 (Split "svc-app-data" "-")) "-" ∧
    matcher.extractPVCParts "svc-app-data" =
      (longParts (Split cleaned "-") ++ longParts (Split cleaned "_")
         ++ [ToLower cleaned])%list ∧
    matcher.extractPVCParts "svc-app-data" = decomposition "svc-app-data".
Proof.
  split; [reflexivity|]. split; [reflexivity|].
  apply (extractPVCParts_decomposition "svc-app-data"). reflexivity.
Defined.

(** ** Scoring a Docker volume against a compose alias *)

Lemma calculateComposeMatchScore_terms (volumeAlias dockerVolumeName : string) :
  matcher.calculateComposeMatchScore volumeAlias dockerVolumeName
  = scoreTerms volumeAlias dockerVolumeName.
Proof.
  unfold matcher.calculateComposeMatchScore, scoreTerms. cbv zeta.
  destruct (Contains _ (ToLower volumeAlias));
    destruct (HasSuffix _ _);
    destruct (Contains _ ("_" ++ _) || Contains _ ("-" ++ _)); reflexivity.
Qed.

(** What the loop of [findFuzzyMatchForCompose] maintains: the best score
    never drops, bounds every score seen, and either nothing beat the
    starting pair or the best match was seen and has the best score, which
    is positive. *)
Lemma fuzzy_fold_invariant (volumeAlias : string) (order : list string) (best : string * Z) :
  let best' := fold_left (matcher.fuzzyStep volumeAlias) order best in
  (snd best <= snd best')%Z ∧
  (∀ k, k ∈ order → (matcher.calculateComposeMatchScore volumeAlias k <= snd best')%Z
                    ∨ (matcher.calculateComposeMatchScore volumeAlias k <= 0)%Z) ∧
  (best' = best ∨
   (fst best' ∈ order ∧
    matcher.calculateComposeMatchScore volumeAlias (fst best') = snd best' ∧
    (0 < snd best')%Z)).
Proof.
  revert best. induction order as [|k order IH]; intros best; cbn [fold_left].
  - split_and!; [lia | by intros k ?%elem_of_nil | by left].
  - specialize (IH (matcher.fuzzyStep volumeAlias best k)).
    cbv zeta in IH. destruct IH as (Hle & Hall & Hbest).
    set (best' := fold_left _ order _) in *.
    assert (Hstep : (snd best <= snd (matcher.fuzzyStep volumeAlias best k))%Z ∧
                    ((matcher.calculateComposeMatchScore volumeAlias k
                      <= snd (matcher.fuzzyStep volumeAlias best k))%Z
                     ∨ (matcher.calculateComposeMatchScore volumeAlias k <= 0)%Z) ∧
                    (matcher.fuzzyStep volumeAlias best k = best ∨
                     (matcher.fuzzyStep volumeAlias best k
                      = (k, matcher.calculateComposeMatchScore volumeAlias k) ∧
                      (0 < matcher.calculateComposeMatchScore volumeAlias k)%Z))).
    { unfold matcher.fuzzyStep. cbv zeta.
      destruct (Z.ltb_spec (snd best) (matcher.calculateComposeMatchScore volumeAlias k));
        destruct (Z.ltb_spec 0 (matcher.calculateComposeMatchScore volumeAlias k));
        cbn [andb fst snd]; split_and!; try lia; auto. }
    destruct Hstep as (Hs1 & Hs2 & Hs3).
    split_and!.
    + lia.
    + intros k' [->|Hin]%elem_of_cons; [|by apply Hall].
      destruct Hs2 as [Hs2|Hs2]; [left; lia | by right].
    + destruct Hbest as [Heq|(Hin & Hscore & Hpos)].
      * rewrite Heq. destruct Hs3 as [->|[-> Hpos]]; [by left|].
        right. cbn [fst snd]. split_and!; [apply elem_of_cons; by left | done | done].
      * right. split_and!; [apply elem_of_cons; by right | done | done].
Qed.

(** C8. [calculateComposeMatchScore] is the sum of 3 (the lower-cased
    volume name contains the lower-cased alias), 2 (it ends with it) and 4
    (it contains the alias behind ["_"] or ["-"]).  Over an inventory in
    which no volume has the empty name, and whatever the order in which
    the map delivers its keys, [findFuzzyMatchForCompose] returns a volume
    of the inventory whose score is positive and maximal, or nil when no
    volume scores above zero. *)
Theorem findFuzzyMatchForCompose_best
    (vm : matcher.VolumeMatcher) (order : list string) (volumeAlias : string) :
  list_to_set order = dom (matcher.dockerVolumes vm) →
  matcher.dockerVolumes vm !! "" = None →
  (∀ name, matcher.calculateComposeMatchScore volumeAlias name = scoreTerms volumeAlias name) ∧
  match matcher.findFuzzyMatchForCompose vm order volumeAlias with
  | Some v =>
      ∃ k, matcher.dockerVolumes vm !! k = Some v ∧
           (0 < matcher.calculateComposeMatchScore volumeAlias k)%Z ∧
           ∀ k', is_Some (matcher.dockerVolumes vm !! k') →
                 (matcher.calculateComposeMatchScore volumeAlias k'
                  <= matcher.calculateComposeMatchScore volumeAlias k)%Z
  | None =>
      ∀ k', is_Some (matcher.dockerVolumes vm !! k') →
            (matcher.calculateComposeMatchScore volumeAlias k' <= 0)%Z
  end.
Proof.
  intros Hdom Hempty. split; [apply calculateComposeMatchScore_terms|].
  assert (Hin : ∀ k, k ∈ order ↔ is_Some (matcher.dockerVolumes vm !! k)).
  { intros k. rewrite <- elem_of_dom, <- Hdom. by rewrite elem_of_list_to_set. }
  unfold matcher.findFuzzyMatchForCompose.
  pose proof (fuzzy_fold_invariant volumeAlias order ("", 0%Z)) as Hinv.
  cbv zeta in Hinv.
  destruct (fold_left (matcher.fuzzyStep volumeAlias) order ("", 0%Z))
    as [bestMatch bestScore] eqn:Hfold.
  cbn [fst snd] in Hinv. destruct Hinv as (Hnonneg & Hall & Hbest).
  destruct Hbest as [Heq|(Hmem & Hscore & Hpos)].
  - injection Heq as -> ->. cbn [String.eqb negb].
    intros k' Hk'. destruct (Hall k' (proj2 (Hin k') Hk')); lia.
  - apply Hin in Hmem as Hsome. destruct Hsome as [v Hv].
    assert (bestMatch ≠ "") as Hne by (intros ->; congruence).
    apply String.eqb_neq in Hne. rewrite Hne. cbn [negb]. rewrite Hv.
    exists bestMatch. split_and!; [done | lia |].
    intros k' Hk'. destruct (Hall k' (proj2 (Hin k') Hk')); lia.
Qed.

Lemma findFuzzyMatchForCompose_best_witness :
  matcher.findFuzzyMatchForCompose sampleMatcher
    ["db_data_backup"; "shop_cache"; "shop_db_data"] "db_data"
  = Some (sampleVolume "shop_db_data") ∧
  matcher.calculateComposeMatchScore "db_data" "shop_db_data" = 9%Z ∧
  match matcher.findFuzzyMatchForCompose sampleMatcher
          ["db_data_backup"; "shop_cache"; "shop_db_data"] "db_data" with
  | Some v =>
      ∃ k, matcher.dockerVolumes sampleMatcher !! k = Some v ∧
           (0 < matcher.calculateComposeMatchScore "db_data" k)%Z ∧
           ∀ k', is_Some (matcher.dockerVolumes sampleMatcher !! k') →
                 (matcher.calculateComposeMatchScore "db_data" k'
                  <= matcher.calculateComposeMatchScore "db_data" k)%Z
  | None =>
      ∀ k', is_Some (matcher.dockerVolumes sampleMatcher !! k') →
            (matcher.calculateComposeMatchScore "db_data" k' <= 0)%Z
  end.
Proof.
  split; [vm_compute; reflexivity|]. split; [vm_compute; reflexivity|].
  refine (proj2 (findFuzzyMatchForCompose_best sampleMatcher
            ["db_data_backup"; "shop_cache"; "shop_db_data"] "db_data" _ _)).
  - refine (bool_decide_unpack _ _). vm_compute. exact I.
  - vm_compute. reflexivity.
Defined.

(** ** Volumes in use never reach the operator *)

Section InUse.

Variable floatBytes : string -> Z -> option Z.
Variable getVolumeSize : string -> Z * string.

Lemma loadVolume_in_use (sizes : option (gmap string docker.volumeSize))
    (result : gmap string DockerVolumeInfo.t) (v : volume.Volume) (name : string) (l : Z) :
  (sizes ≫= (λ m, docker.links <$> (m !! name))) = Some l → (0 < l)%Z →
  result !! name = None →
  docker.loadVolume getVolumeSize sizes result v !! name = None.
Proof.
  intros Hl Hpos Hres. unfold docker.loadVolume.
  destruct (decide (volume.Name v = name)) as [->|Hne].
  - destruct sizes as [m|]; [|done]. cbn in Hl.
    destruct (m !! name) as [sz|]; [|done]. cbn in Hl. injection Hl as ->.
    apply Z.ltb_lt in Hpos. by rewrite Hpos.
  - destruct (match sizes with Some _ => _ | None => _ end) as [[size sizeHuman] links].
    destruct (0 <? links)%Z; [done|].
    destruct (if (size =? 0)%Z then _ else _) as [size' sizeHuman'].
    by rewrite lookup_insert_ne.
Qed.

Lemma loadVolumes_in_use (sizes : option (gmap string docker.volumeSize))
    (vols : list volume.Volume) (result : gmap string DockerVolumeInfo.t) (name : string) (l : Z) :
  (sizes ≫= (λ m, docker.links <$> (m !! name))) = Some l → (0 < l)%Z →
  result !! name = None →
  fold_left (docker.loadVolume getVolumeSize sizes) vols result !! name = None.
Proof.
  intros Hl Hpos. revert result.
  induction vols as [|v vols IH]; intros result Hres; cbn [fold_left]; [done|].
  apply IH. by eapply loadVolume_in_use.
Qed.

(** Every entry of the loaded inventory is filed under its own name. *)
Lemma loadVolume_keyed (sizes : option (gmap string docker.volumeSize))
    (result : gmap string DockerVolumeInfo.t) (v : volume.Volume) :
  (∀ k info, result !! k = Some info → DockerVolumeInfo.Name info = k) →
  ∀ k info, docker.loadVolume getVolumeSize sizes result v !! k = Some info →
            DockerVolumeInfo.Name info = k.
Proof.
  intros Hres k info. unfold docker.loadVolume.
  destruct (match sizes with Some _ => _ | None => _ end) as [[size sizeHuman] links].
  destruct (0 <? links)%Z; [apply Hres|].
  destruct (if (size =? 0)%Z then _ else _) as [size' sizeHuman'].
  destruct (decide (volume.Name v = k)) as [->|Hne].
  - rewrite lookup_insert_eq. by intros [= <-].
  - rewrite lookup_insert_ne by done. apply Hres.
Qed.

Lemma loadVolumes_keyed (sizes : option (gmap string docker.volumeSize))
    (vols : list volume.Volume) (result : gmap string DockerVolumeInfo.t) :
  (∀ k info, result !! k = Some info → DockerVolumeInfo.Name info = k) →
  ∀ k info, fold_left (docker.loadVolume getVolumeSize sizes) vols result !! k = Some info →
            DockerVolumeInfo.Name info = k.
Proof.
  revert result. induction vols as [|v vols IH]; intros result Hres; cbn [fold_left]; [done|].
  apply IH. by apply loadVolume_keyed.
Qed.

End InUse.

Lemma insertByName_elem (v x : DockerVolumeInfo.t) (l : list DockerVolumeInfo.t) :
  x ∈ matcher.insertByName v l ↔ x = v ∨ x ∈ l.
Proof.
  induction l as [|h t IH]; cbn [matcher.insertByName].
  - rewrite elem_of_cons. done.
  - destruct (String.ltb _ _).
    + by rewrite elem_of_cons.
    + rewrite !elem_of_cons, IH. tauto.
Qed.

Lemma sortByName_elem (x : DockerVolumeInfo.t) (l : list DockerVolumeInfo.t) :
  x ∈ matcher.sortByName l ↔ x ∈ l.
Proof.
  unfold matcher.sortByName. induction l as [|h t IH]; cbn [fold_right]; [done|].
  rewrite insertByName_elem, elem_of_cons, IH. done.
Qed.

Lemma rangeValues_elem (vm : matcher.VolumeMatcher) (order : list string)
    (x : DockerVolumeInfo.t) :
  x ∈ matcher.rangeValues vm order → ∃ k, matcher.dockerVolumes vm !! k = Some x.
Proof.
  unfold matcher.rangeValues. rewrite list_elem_of_omap. intros (k & _ & Hk). eauto.
Qed.

(** Whatever is offered for a claim is an entry of the inventory. *)
Lemma offered_from_inventory (vm : matcher.VolumeMatcher) (order : list string)
    (pvc : PVCInfo.t) (x : DockerVolumeInfo.t) :
  x ∈ matcher.offered vm order pvc → ∃ k, matcher.dockerVolumes vm !! k = Some x.
Proof.
  unfold matcher.offered, matcher.findVolumesContainingPVCName, matcher.getAllDockerVolumes.
  cbv zeta. destruct (length _ =? 0)%nat.
  - rewrite sortByName_elem. apply rangeValues_elem.
  - rewrite sortByName_elem, list_elem_of_filter. intros [_ Hx]. by eapply rangeValues_elem.
Qed.


Example sample_inventory :
  docker.LoadVolumes exactBytes sampleWalk (Some sampleVolumes) (Some sampleDF)
  = Some {[ "app_data" :=
              DockerVolumeInfo.mk "app_data" "/var/lib/docker/volumes/app_data/_data"
                                  500000000 "500MB" ]}.
Proof. vm_compute. reflexivity. Qed.


(** ** The operator's choice of a volume *)

Lemma stdin_fold_print (lines : list string) (t : Terminal) :
  stdin (fold_left (fun t line => print line t) lines t) = stdin t.
Proof. revert t. induction lines as [|l lines IH]; intros t; cbn [fold_left]; [done|]. by rewrite IH. Qed.

Lemma stdin_printMenu (pvc : PVCInfo.t) (candidates : list DockerVolumeInfo.t) (t : Terminal) :
  stdin (matcher.printMenu pvc candidates t) = stdin t.
Proof. unfold matcher.printMenu. cbv zeta. by rewrite stdin_fold_print. Qed.

(** One answer: it is turned down and the prompt repeats, or it is
    accepted and selects what its number designates; the index is never
    out of range. *)
Lemma answer_cases (candidates : list DockerVolumeInfo.t) (r : ReadResult) :
  match matcher.answer candidates r with
  | matcher.Again _ => acceptable candidates r = None
  | matcher.Chosen selected _ =>
      ∃ choice, acceptable candidates r = Some choice ∧
        (selected = None ↔ choice = 0%Z) ∧
        (∀ v, selected = Some v →
              (1 <= choice <= Z.of_nat (length candidates))%Z ∧
              candidates !! Z.to_nat (choice - 1) = Some v)
  | matcher.IndexOutOfRange => False
  end.
Proof.
  destruct r as [line|msg]; cbn [matcher.answer acceptable]; [|done].
  destruct (Atoi (TrimSpace line)) as [choice|]; [|done].
  pose proof (Nat2Z.is_nonneg (length candidates)) as Hlen.
  destruct (Z.eqb_spec choice 0) as [->|Hne].
  - exists 0%Z. split_and!; [|done|done].
    destruct (Z.leb_spec 0 0); [|lia].
    destruct (Z.leb_spec 0 (Z.of_nat (length candidates))); [done|lia].
  - destruct (Z.leb_spec 0 choice), (Z.leb_spec 1 choice),
      (Z.leb_spec choice (Z.of_nat (length candidates))); cbn [andb]; try lia; try done.
    destruct (candidates !! Z.to_nat (choice - 1)) as [v|] eqn:Hv.
    + exists choice. split_and!; [done | split; [done | lia] |].
      intros v' [= <-]. split; [lia | done].
    + apply lookup_ge_None in Hv. lia.
Qed.

Lemma selectionLoop_cases (candidates : list DockerVolumeInfo.t)
    (pending : list ReadResult) (out : list string) :
  match matcher.selectionLoop candidates pending out with
  | Returns selected t' =>
      ∃ choice, acceptedChoice candidates pending = Some choice ∧
        (selected = None ↔ choice = 0%Z) ∧
        (∀ v, selected = Some v →
              (1 <= choice <= Z.of_nat (length candidates))%Z ∧
              candidates !! Z.to_nat (choice - 1) = Some v ∧
              v ∈ candidates)
  | NeverReturns => acceptedChoice candidates pending = None
  | Panics => False
  end.
Proof.
  revert out. induction pending as [|r rest IH]; intros out;
    cbn [matcher.selectionLoop acceptedChoice]; [done|].
  pose proof (answer_cases candidates r) as Hr.
  destruct (matcher.answer candidates r) as [message|selected message|].
  - rewrite Hr. apply IH.
  - destruct Hr as (choice & -> & Hnil & Hsome).
    exists choice. split_and!; [done | done |].
    intros v Hv. destruct (Hsome v Hv) as [Hrange Hlookup].
    split; [done|]. split; [done|]. by eapply list_elem_of_lookup_2.
  - done.
Qed.

(** C10. [interactiveVolumeSelection] never indexes the candidates out of
    range.  It returns exactly when the operator at some point gives an
    answer that the prompt accepts, an integer between 0 and the number of
    candidates; every other answer (no number, out of range, a failed
    read) only repeats the prompt.  It returns nil exactly when the
    accepted number is 0, and otherwise the candidate that the number
    designates, which is one of the candidates displayed. *)
Theorem interactiveVolumeSelection_offered
    (pvc : PVCInfo.t) (candidates : list DockerVolumeInfo.t) (t : Terminal) :
  match matcher.interactiveVolumeSelection pvc candidates t with
  | Returns selected t' =>
      ∃ choice, acceptedChoice candidates (stdin t) = Some choice ∧
        (selected = None ↔ choice = 0%Z) ∧
        (∀ v, selected = Some v →
              (1 <= choice <= Z.of_nat (length candidates))%Z ∧
              candidates !! Z.to_nat (choice - 1) = Some v ∧
              v ∈ candidates)
  | NeverReturns => acceptedChoice candidates (stdin t) = None
  | Panics => False
  end.
Proof.
  unfold matcher.interactiveVolumeSelection. cbv zeta.
  rewrite <- (stdin_printMenu pvc candidates t).
  apply selectionLoop_cases.
Qed.

Example selection_reprompts :
  matcher.interactiveVolumeSelection samplePVC
    [sampleVolume "app_data"; sampleVolume "db_data"]
    (mkTerminal [ReadLine ("abc" ++ nl); ReadLine ("3" ++ nl); ReadLine ("-1" ++ nl);
                 ReadLine (" 2 " ++ nl); ReadLine ("1" ++ nl)] [])
  = Returns (Some (sampleVolume "db_data"))
      (mkTerminal [ReadLine ("1" ++ nl)]
         [ nl ++ "Select Docker volume for PVC 'svc-app-data':" ++ nl;
           "0. Skip (no volume)" ++ nl;
           "1. app_data (1kB)" ++ nl;
           "2. db_data (1kB)" ++ nl;
           "Enter choice: "; "Please enter a valid number" ++ nl;
           "Enter choice: "; "Invalid choice. Please enter 0-2" ++ nl;
           "Enter choice: "; "Invalid choice. Please enter 0-2" ++ nl;
           "Enter choice: "; "Selected: db_data" ++ nl ]).
Proof. vm_compute. reflexivity. Qed.

Example selection_at_end_of_input :
  matcher.interactiveVolumeSelection samplePVC [sampleVolume "app_data"]
    (mkTerminal [ReadLine ("7" ++ nl)] []) = NeverReturns.
Proof. vm_compute. reflexivity. Qed.

(** ** Interactive sizing *)

Section Sizing.

Variable isValidSize : string -> bool.

Lemma resolveSize_resolved (pvc : PVCInfo.t) (line : string) :
  fst (ui.resolveSize isValidSize pvc line) = resolvedSize isValidSize pvc line.
Proof.
  unfold ui.resolveSize, resolvedSize. cbv zeta.
  destruct (String.eqb (TrimSpace line) ""); [done|].
  by destruct (isValidSize (TrimSpace line)).
Qed.

Lemma stdin_describe (pvc : PVCInfo.t) (t : Terminal) :
  stdin (ui.describe pvc t) = stdin t.
Proof. unfold ui.describe. cbv zeta. by destruct (PVCInfo.MatchedVolume pvc). Qed.

Lemma setSizes_lines (pvcs : list PVCInfo.t) (lines : list string) (more : list ReadResult)
    (t : Terminal) :
  length lines = length pvcs →
  stdin t = (map ReadLine lines ++ more)%list →
  ∃ t', ui.setSizes isValidSize pvcs t
        = (zip_with (fun pvc line => ui.setNewSize pvc (resolvedSize isValidSize pvc line))
                    pvcs lines, None, t')
        ∧ stdin t' = more.
Proof.
  revert lines t. induction pvcs as [|pvc pvcs IH]; intros lines t Hlen Hin.
  - destruct lines; [|done]. exists t. by split.
  - destruct lines as [|line lines]; [done|]. cbn [ui.setSizes zip_with].
    unfold readString. rewrite stdin_describe, Hin. cbn [map app].
    destruct (ui.resolveSize isValidSize pvc line) as [size warning] eqn:Hres.
    pose proof (resolveSize_resolved pvc line) as Hsize. rewrite Hres in Hsize.
    cbn [fst] in Hsize. subst size.
    match goal with
    | |- context [ui.setSizes isValidSize pvcs ?t0] =>
        destruct (IH lines t0) as (t' & Heq & Hrest)
    end.
    + by injection Hlen.
    + cbn. by rewrite stdin_fold_print.
    + rewrite Heq. exists t'. by split.
Qed.

(** Invalid input is never an error: only a failed read is. *)
Lemma setSizes_error (pvcs : list PVCInfo.t) (t : Terminal) (pvcs' : list PVCInfo.t)
    (msg : string) (t' : Terminal) :
  ui.setSizes isValidSize pvcs t = (pvcs', Some msg, t') →
  ∃ k cause, stdin t !! k = Some (ReadError cause) ∨ (stdin t !! k = None ∧ (k < length pvcs)%nat).
Proof.
  revert t pvcs'. induction pvcs as [|pvc pvcs IH]; intros t pvcs'; cbn [ui.setSizes]; [done|].
  unfold readString. rewrite stdin_describe.
  destruct (stdin t) as [|r rest] eqn:Hin.
  - intros _. exists 0%nat, "EOF". right. split; [done | cbn; lia].
  - destruct r as [line|cause].
    + destruct (ui.resolveSize isValidSize pvc line) as [size warning].
      match goal with
      | |- context [ui.setSizes isValidSize pvcs ?t0] =>
          destruct (ui.setSizes isValidSize pvcs t0) as [[rest' err] t''] eqn:Hrec;
          assert (Hst : stdin t0 = rest) by (cbn; by rewrite stdin_fold_print)
      end.
      intros [= <- -> <-].
      destruct (IH _ _ Hrec) as (k & cause & Hk). rewrite Hst in Hk.
      exists (S k), cause. cbn [length]. destruct Hk as [Hk|[Hk Hlt]]; [by left|].
      right. split; [done | lia].
    + intros _. exists 0%nat, cause. by left.
Qed.

End Sizing.

(** C9, as the code has it.  When the terminal delivers a line for every
    claim, [InteractiveSetSizes] returns no error, whatever the lines say,
    and resolves each claim's size from its line: an empty line gives the
    requested size, a line that is a valid quantity gives that line
    (trimmed), any other line gives the requested size again.  The resolved
    size is non-empty whenever the requested size is non-empty. *)
Theorem InteractiveSetSizes_resolves
    (isValidSize : string -> bool) (pvcs : list PVCInfo.t) (lines : list string)
    (more : list ReadResult) (t : Terminal) :
  length lines = length pvcs →
  stdin t = (map ReadLine lines ++ more)%list →
  ∃ pvcs' t',
    ui.InteractiveSetSizes isValidSize pvcs t = (pvcs', None, t') ∧
    stdin t' = more ∧
    length pvcs' = length pvcs ∧
    ∀ i pvc line, pvcs !! i = Some pvc → lines !! i = Some line →
      ∃ pvc', pvcs' !! i = Some pvc' ∧
        pvc' = ui.setNewSize pvc (PVCInfo.NewSize pvc') ∧
        (TrimSpace line = "" → PVCInfo.NewSize pvc' = PVCInfo.RequestedSize pvc) ∧
        (TrimSpace line ≠ "" → isValidSize (TrimSpace line) = true →
           PVCInfo.NewSize pvc' = TrimSpace line) ∧
        (TrimSpace line ≠ "" → isValidSize (TrimSpace line) = false →
           PVCInfo.NewSize pvc' = PVCInfo.RequestedSize pvc) ∧
        (PVCInfo.RequestedSize pvc ≠ "" → PVCInfo.NewSize pvc' ≠ "").
Proof.
  intros Hlen Hin. unfold ui.InteractiveSetSizes. cbv zeta.
  match goal with
  | |- context [ui.setSizes isValidSize pvcs ?t0] =>
      destruct (setSizes_lines isValidSize pvcs lines more t0 Hlen) as (t' & Heq & Hrest);
      [exact Hin|]
  end.
  eexists _, t'. split; [exact Heq|]. split; [exact Hrest|]. split.
  - rewrite length_zip_with. lia.
  - intros i pvc line Hpvc Hline.
    exists (ui.setNewSize pvc (resolvedSize isValidSize pvc line)).
    split; [rewrite lookup_zip_with, Hpvc; cbn; by rewrite Hline|].
    split; [done|]. cbn [ui.setNewSize PVCInfo.NewSize]. unfold resolvedSize.
    destruct (String.eqb_spec (TrimSpace line) "") as [Hempty|Hnonempty].
    + split_and!; try done.
    + destruct (isValidSize (TrimSpace line)); split_and!; try done.
Qed.

Lemma InteractiveSetSizes_resolves_witness :
  fst (fst (ui.InteractiveSetSizes sampleIsValidSize sampleClaims
              (mkTerminal [ReadLine nl; ReadLine (" 5Gi " ++ nl);
                           ReadLine ("plenty" ++ nl)] [])))
  = [ PVCInfo.mk "svc-app-data" "default" "1Gi" (Some (sampleVolume "app_data")) "1Gi";
      PVCInfo.mk "svc-db-data" "default" "2Gi" None "5Gi";
      PVCInfo.mk "svc-cache" "default" "500Mi" None "500Mi" ] ∧
  ∃ pvcs' t',
    ui.InteractiveSetSizes sampleIsValidSize sampleClaims
      (mkTerminal [ReadLine nl; ReadLine (" 5Gi " ++ nl); ReadLine ("plenty" ++ nl)] [])
    = (pvcs', None, t') ∧
    stdin t' = [] ∧
    length pvcs' = length sampleClaims ∧
    ∀ i pvc line, sampleClaims !! i = Some pvc →
      [nl; " 5Gi " ++ nl; "plenty" ++ nl] !! i = Some line →
      ∃ pvc', pvcs' !! i = Some pvc' ∧
        pvc' = ui.setNewSize pvc (PVCInfo.NewSize pvc') ∧
        (TrimSpace line = "" → PVCInfo.NewSize pvc' = PVCInfo.RequestedSize pvc) ∧
        (TrimSpace line ≠ "" → sampleIsValidSize (TrimSpace line) = true →
           PVCInfo.NewSize pvc' = TrimSpace line) ∧
        (TrimSpace line ≠ "" → sampleIsValidSize (TrimSpace line) = false →
           PVCInfo.NewSize pvc' = PVCInfo.RequestedSize pvc) ∧
        (PVCInfo.RequestedSize pvc ≠ "" → PVCInfo.NewSize pvc' ≠ "").
Proof.
  split; [vm_compute; reflexivity|].
  apply (InteractiveSetSizes_resolves sampleIsValidSize sampleClaims
           [nl; " 5Gi " ++ nl; "plenty" ++ nl] []).
  - reflexivity.
  - reflexivity.
Defined.

(** C9 as stated fails: a claim whose manifest requests the empty size
    keeps the empty size on an empty answer, and on an invalid one. *)
Lemma InteractiveSetSizes_empty_size :
  ui.InteractiveSetSizes sampleIsValidSize [PVCInfo.mk "data" "default" "" None "stale"]
    (mkTerminal [ReadLine nl] [])
  = ([PVCInfo.mk "data" "default" "" None ""], None,
     mkTerminal []
       [ nl ++ "=== PVC Size Configuration ===" ++ nl;
         "For each PVC, review the matched Docker volume and set the desired size." ++ nl;
         "Use formats like: 1Gi, 500Mi, 2Ti, etc." ++ nl;
         nl;
         "PVC: data (namespace: default)" ++ nl;
         "  Kompose suggested size: " ++ nl;
         "  ⚠️  No matching Docker volume found!" ++ nl;
         "  Enter desired PVC size (or press Enter to use suggested): ";
         "  ✅ Set PVC size to: " ++ nl;
         nl ]) ∧
  PVCInfo.NewSize <$>
    fst (fst (ui.InteractiveSetSizes sampleIsValidSize
                [PVCInfo.mk "data" "default" "" None "stale"]
                (mkTerminal [ReadLine ("lots" ++ nl)] [])))
  = [""].
Proof. split; vm_compute; reflexivity. Qed.

(** ** Polling loops *)

Lemma bind_apply {A B : Type} (c : M A) (k : A -> M B) (w : World) :
  bind c k w = match c w with
               | Returns a w' => k a w'
               | NeverReturns => NeverReturns
               | Panics => Panics
               end.
Proof. reflexivity. Qed.

Lemma podLoop_pollLoop (kubectl : nat -> Invocation -> Reply) (fuel : nat)
    (deadline interval : Z) (podName namespace : string) (w : World) :
  engine.podLoop kubectl fuel deadline interval podName namespace w
  = pollLoop kubectl (podPollArgs podName namespace) podVerdict
      ("timeout waiting for pod " ++ podName ++ " to complete") fuel deadline interval w.
Proof.
  revert w. induction fuel as [|fuel IH]; intros w; [reflexivity|].
  cbn [engine.podLoop pollLoop]. fold (podPollArgs podName namespace).
  cbn [bind getNow]. destruct (deadline <=? now w)%Z; [reflexivity|]. rewrite !bind_apply.
  destruct (engine.run kubectl (podPollArgs podName namespace) None w) as [r w1| |];
    [|reflexivity|reflexivity].
  unfold podVerdict. destruct (failed r); [cbn [bind ret sleep printf printAll]; apply IH|].
  cbv zeta. destruct (String.eqb _ "Succeeded"); [reflexivity|].
  destruct (String.eqb _ "Failed"); [reflexivity|].
  cbn [bind ret sleep printf printAll]. apply IH.
Qed.

Lemma boundLoop2_pollLoop (kubectl : nat -> Invocation -> Reply) (fuel : nat)
    (deadline interval : Z) (pvc : PVCInfo.t) (w : World) :
  migration2.boundLoop kubectl fuel deadline interval pvc w
  = pollLoop kubectl (pvcPollArgs (PVCInfo.Name pvc) (PVCInfo.Namespace pvc)) boundVerdict2
      ("timeout waiting for PVC " ++ PVCInfo.Name pvc ++ " to be bound")
      fuel deadline interval w.
Proof.
  revert w. induction fuel as [|fuel IH]; intros w; [reflexivity|].
  cbn [migration2.boundLoop pollLoop].
  fold (pvcPollArgs (PVCInfo.Name pvc) (PVCInfo.Namespace pvc)).
  cbn [bind getNow]. destruct (deadline <=? now w)%Z; [reflexivity|]. rewrite !bind_apply.
  destruct (engine.run kubectl _ None w) as [r w1| |]; [|reflexivity|reflexivity].
  unfold boundVerdict2. destruct (failed r); [cbn [bind ret sleep printf printAll]; apply IH|].
  cbv zeta. destruct (String.eqb _ "Bound"); [reflexivity|].
  cbn [bind ret sleep printf printAll]. apply IH.
Qed.

Lemma boundLoop1_pollLoop (kubectl : nat -> Invocation -> Reply) (fuel : nat)
    (deadline interval : Z) (e : migration1.Engine) (pvc : PVCInfo.t) (w : World) :
  migration1.boundLoop kubectl fuel deadline interval e pvc w
  = pollLoop kubectl (pvcPollArgs (PVCInfo.Name pvc) (migration1.migrationNamespace e))
      boundVerdict1
      ("timeout waiting for PVC " ++ PVCInfo.Name pvc ++ " to be bound")
      fuel deadline interval w.
Proof.
  revert w. induction fuel as [|fuel IH]; intros w; [reflexivity|].
  cbn [migration1.boundLoop pollLoop].
  fold (pvcPollArgs (PVCInfo.Name pvc) (migration1.migrationNamespace e)).
  cbn [bind getNow]. destruct (deadline <=? now w)%Z; [reflexivity|]. rewrite !bind_apply.
  destruct (engine.run kubectl _ None w) as [r w1| |]; [|reflexivity|reflexivity].
  unfold boundVerdict1. destruct (failed r); [cbn [bind ret sleep printf printAll]; apply IH|].
  cbv zeta. destruct (String.eqb _ "Bound"); [reflexivity|].
  destruct (String.eqb _ "Failed"); [reflexivity|].
  cbn [bind ret sleep printf printAll]. apply IH.
Qed.

(** *** The loop as a function of the answers *)

Section PollTrace.

Variable kubectl : nat -> Invocation -> Reply.
Variable args : list string.
Variable verdict : Reply -> Verdict.
Variable timeoutError : string.
Variable deadline interval : Z.

Local Abbreviation pollCommand := (pollCommand args).
Local Abbreviation answerAt := (answerAt kubectl args).
Local Abbreviation pollTrace :=
  (pollTrace kubectl args verdict timeoutError deadline interval).
Local Abbreviation startOfPoll := (startOfPoll kubectl args interval).
Local Abbreviation waits := (waits verdict).

Lemma printAll_effect (texts : list string) (w : World) :
  ∃ w', printAll texts w = Returns tt w' ∧
        now w' = now w ∧ invocations w' = invocations w ∧
        stdin (console w') = stdin (console w).
Proof.
  revert w. induction texts as [|text texts IH]; intros w; cbn [printAll].
  - by exists w.
  - rewrite bind_apply. cbn [printf].
    destruct (IH (mkWorld (now w) (print text (console w)) (invocations w)))
      as (w' & -> & Hnow & Hinv & Hin).
    exists w'. by split.
Qed.

(** The loop follows its trace: same result, the polls and nothing else
    added to the commands, the clock at the time the trace gives, and the
    pending input untouched. *)
Lemma pollLoop_trace (fuel : nat) (w : World) :
  match pollLoop kubectl args verdict timeoutError fuel deadline interval w,
        pollTrace fuel (length (invocations w)) (now w) with
  | Returns result w', Some (result', polls, t') =>
      result = result' ∧
      invocations w' = (invocations w ++ replicate polls pollCommand)%list ∧
      now w' = t' ∧
      stdin (console w') = stdin (console w)
  | NeverReturns, None => True
  | _, _ => False
  end.
Proof.
  revert w. induction fuel as [|fuel IH]; intros w; [done|].
  cbn [pollLoop pollTrace]. rewrite bind_apply. cbn [getNow].
  destruct (deadline <=? now w)%Z.
  { cbn [ret replicate]. by rewrite app_nil_r. }
  rewrite bind_apply. cbn [engine.run]. fold pollCommand. fold (answerAt (length (invocations w))).
  set (r := answerAt (length (invocations w))).
  set (w1 := mkWorld (now w + Z.of_N (elapsed r)) (console w)
                     (invocations w ++ [pollCommand])%list).
  cbv zeta. destruct (verdict r) as [result prints|prints].
  - rewrite bind_apply. destruct (printAll_effect prints w1) as (w2 & -> & Hnow & Hinv & Hin).
    cbn [ret]. by rewrite Hnow, Hinv, Hin.
  - rewrite bind_apply. destruct (printAll_effect prints w1) as (w2 & -> & Hnow & Hinv & Hin).
    rewrite bind_apply. cbn [sleep].
    set (w3 := mkWorld (now w2 + interval) (console w2) (invocations w2)).
    specialize (IH w3).
    destruct (pollLoop kubectl args verdict timeoutError fuel deadline interval w3)
      as [result w'| |]; [| |exact IH];
      unfold w3 in IH; cbn [now invocations console] in IH;
      rewrite Hnow, Hinv in IH; unfold w1 in IH, Hin; cbn [now invocations console] in IH, Hin;
      rewrite length_app in IH; cbn [length] in IH;
      replace (length (invocations w) + 1)%nat with (S (length (invocations w))) in IH by lia;
      destruct (pollTrace fuel _ _) as [[[result' polls] t']|]; try done.
    destruct IH as (-> & Hinv' & Hnow' & Hin').
    split; [done|]. split; [|split; [done | by rewrite Hin', Hin]].
    rewrite Hinv'. cbn [replicate]. by rewrite <- app_assoc.
Qed.

Lemma pollTrace_S (fuel n : nat) (t : Z) :
  pollTrace (S fuel) n t
  = if (deadline <=? t)%Z then Some (Some timeoutError, O, t)
    else match verdict (answerAt n) with
         | Stop result _ => Some (result, 1%nat, (t + Z.of_N (elapsed (answerAt n)))%Z)
         | Wait _ =>
             match pollTrace fuel (S n) (t + Z.of_N (elapsed (answerAt n)) + interval)%Z with
             | Some (result, polls, t') => Some (result, S polls, t')
             | None => None
             end
         end.
Proof. reflexivity. Qed.

Hypothesis interval_pos : (0 < interval)%Z.

(** Enough fuel: the loop returns. *)
Lemma pollTrace_returns (fuel n : nat) (t : Z) :
  (deadline - t <= interval * Z.of_nat fuel)%Z →
  ∃ result polls t', pollTrace (S fuel) n t = Some (result, polls, t').
Proof.
  revert n t. induction fuel as [|fuel IH]; intros n t Hfuel; rewrite pollTrace_S.
  - destruct (Z.leb_spec deadline t); [eauto | lia].
  - destruct (Z.leb_spec deadline t); [eauto|].
    destruct (verdict (answerAt n)); [eauto|].
    destruct (IH (S n) (t + Z.of_N (elapsed (answerAt n)) + interval)%Z)
      as (result & polls & t' & Heq); [lia|].
    rewrite Heq. eauto.
Qed.

Lemma startOfPoll_mono (n : nat) (t : Z) (j : nat) : (t <= startOfPoll n t j)%Z.
Proof.
  revert n t. induction j as [|j IH]; intros n t; cbn [startOfPoll]; [lia|].
  specialize (IH (S n) (t + Z.of_N (elapsed (answerAt n)) + interval)%Z). lia.
Qed.

(** The first poll that ends the loop, when it starts before the deadline,
    decides the result: the loop returns at the end of that poll. *)
Lemma pollTrace_first_stop (fuel n : nat) (t : Z) (j : nat) (result : error)
    (prints : list string) :
  (j < fuel)%nat →
  (∀ i, (i < j)%nat → waits (answerAt (n + i))) →
  verdict (answerAt (n + j)) = Stop result prints →
  (startOfPoll n t j < deadline)%Z →
  pollTrace fuel n t
  = Some (result, S j, (startOfPoll n t j + Z.of_N (elapsed (answerAt (n + j))))%Z).
Proof.
  revert fuel n t. induction j as [|j IH]; intros fuel n t Hfuel Hwait Hstop Hstart.
  - destruct fuel as [|fuel]; [lia|]. cbn [pollTrace startOfPoll] in *.
    destruct (Z.leb_spec deadline t); [lia|].
    rewrite Nat.add_0_r in Hstop |- *. by rewrite Hstop.
  - destruct fuel as [|fuel]; [lia|]. cbn [pollTrace startOfPoll] in *.
    pose proof (startOfPoll_mono (S n) (t + Z.of_N (elapsed (answerAt n)) + interval)%Z j).
    destruct (Z.leb_spec deadline t); [lia|].
    destruct (Hwait 0%nat) as [p Hp]; [lia|]. rewrite Nat.add_0_r in Hp. rewrite Hp.
    rewrite (IH fuel (S n) (t + Z.of_N (elapsed (answerAt n)) + interval)%Z).
    + by replace (S n + j)%nat with (n + S j)%nat by lia.
    + lia.
    + intros i Hi. replace (S n + i)%nat with (n + S i)%nat by lia. apply Hwait. lia.
    + by replace (S n + j)%nat with (n + S j)%nat by lia.
    + done.
Qed.

(** When every poll that starts before the deadline ends in a wait, the
    loop returns the timeout error, at or after the deadline. *)
Lemma pollTrace_timeout (fuel n : nat) (t : Z) :
  (deadline - t <= interval * Z.of_nat fuel)%Z →
  (∀ j, (startOfPoll n t j < deadline)%Z → waits (answerAt (n + j))) →
  ∃ polls t', pollTrace (S fuel) n t = Some (Some timeoutError, polls, t') ∧
              (deadline <= t')%Z ∧ t' = startOfPoll n t polls.
Proof.
  revert n t. induction fuel as [|fuel IH]; intros n t Hfuel Hwait; rewrite pollTrace_S.
  - destruct (Z.leb_spec deadline t); [|lia]. exists 0%nat, t. by split.
  - destruct (Z.leb_spec deadline t); [exists 0%nat, t; by split|].
    destruct (Hwait 0%nat) as [p Hp]; [cbn [startOfPoll]; lia|].
    rewrite Nat.add_0_r in Hp. rewrite Hp.
    destruct (IH (S n) (t + Z.of_N (elapsed (answerAt n)) + interval)%Z)
      as (polls & t' & Heq & Hle & Ht'); [lia| |].
    + intros j Hj. replace (S n + j)%nat with (n + S j)%nat by lia. by apply Hwait.
    + rewrite Heq. exists (S polls), t'. by split.
Qed.

(** A poll of the trace that ends the loop is its last poll and gives its
    result. *)
Lemma pollTrace_stop_is_last (fuel n : nat) (t : Z) (result : error) (polls : nat) (t' : Z)
    (i : nat) (r : error) (prints : list string) :
  pollTrace fuel n t = Some (result, polls, t') →
  (i < polls)%nat →
  verdict (answerAt (n + i)) = Stop r prints →
  S i = polls ∧ result = r.
Proof.
  revert n t polls i. induction fuel as [|fuel IH]; intros n t polls i; cbn [pollTrace]; [done|].
  destruct (deadline <=? t)%Z; [intros [= <- <- <-]; lia|].
  destruct (verdict (answerAt n)) as [res p|p] eqn:Hv.
  - intros [= <- <- <-] Hi Hstop. assert (i = 0)%nat as -> by lia.
    rewrite Nat.add_0_r in Hstop. rewrite Hstop in Hv. by injection Hv as -> _.
  - destruct (pollTrace fuel (S n) _) as [[[res m] t'']|] eqn:Hrec; [|done].
    intros [= <- <- <-] Hi Hstop.
    destruct i as [|i]; [rewrite Nat.add_0_r in Hstop; congruence|].
    replace (n + S i)%nat with (S n + i)%nat in Hstop by lia.
    destruct (IH _ _ _ i Hrec) as [<- ->]; [lia | exact Hstop | done].
Qed.

End PollTrace.

Section PollContract.

Variable kubectl : nat -> Invocation -> Reply.
Variable args : list string.
Variable verdict : Reply -> Verdict.
Variable timeoutError : string.

Lemma startOfPoll_lower (interval : Z) (n : nat) (t : Z) (j : nat) :
  (0 < interval)%Z →
  (t + interval * Z.of_nat j <= startOfPoll kubectl args interval n t j)%Z.
Proof.
  intros Hpos. revert n t. induction j as [|j IH]; intros n t; cbn [startOfPoll]; [lia|].
  specialize (IH (S n) (t + Z.of_N (elapsed (answerAt kubectl args n)) + interval)%Z). lia.
Qed.

(** What a polling loop with enough fuel does, entered in the world [w]
    with [timeout] to go: it returns; the first poll that ends it, if it
    starts in time, gives the result after that many polls; and when every
    poll in time ends in a wait, it returns the timeout error once the
    deadline has passed.  The polls are [interval] apart: the clock at the
    return is the one [startOfPoll] computes. *)
Lemma pollLoop_contract (timeout interval : Z) (fuel : nat) (w : World) :
  (0 < interval)%Z →
  (timeout <= interval * Z.of_nat fuel)%Z →
  let loop := pollLoop kubectl args verdict timeoutError (S fuel) (now w + timeout) interval in
  let n := length (invocations w) in
  let start := startOfPoll kubectl args interval n (now w) in
  (∃ result w', loop w = Returns result w') ∧
  (∀ j result prints,
      (∀ i, (i < j)%nat → waits verdict (answerAt kubectl args (n + i))) →
      verdict (answerAt kubectl args (n + j)) = Stop result prints →
      (start j < now w + timeout)%Z →
      ∃ w', loop w = Returns result w' ∧
            invocations w' = (invocations w ++ replicate (S j) (pollCommand args))%list ∧
            now w' = (start j + Z.of_N (elapsed (answerAt kubectl args (n + j))))%Z) ∧
  ((∀ j, (start j < now w + timeout)%Z → waits verdict (answerAt kubectl args (n + j))) →
   ∃ w' polls, loop w = Returns (Some timeoutError) w' ∧
               invocations w' = (invocations w ++ replicate polls (pollCommand args))%list ∧
               now w' = start polls ∧ (now w + timeout <= now w')%Z).
Proof.
  intros Hpos Hfuel loop n start.
  pose proof (pollLoop_trace kubectl args verdict timeoutError (now w + timeout) interval
                (S fuel) w) as Htrace.
  fold loop in Htrace. fold n in Htrace.
  split_and!.
  - destruct (pollTrace_returns kubectl args verdict timeoutError (now w + timeout) interval
                fuel n (now w)) as (result & polls & t' & Heq); [lia|].
    rewrite Heq in Htrace. destruct (loop w) as [res w'| |]; [eauto | done | done].
  - intros j result prints Hwait Hstop Hstart.
    assert (j < S fuel)%nat as Hj.
    { pose proof (startOfPoll_lower interval n (now w) j Hpos). fold start in H. nia. }
    rewrite (pollTrace_first_stop kubectl args verdict timeoutError (now w + timeout) interval
               Hpos (S fuel) n (now w) j result prints Hj Hwait Hstop Hstart) in Htrace.
    destruct (loop w) as [res w'| |]; [|done|done].
    destruct Htrace as (-> & Hinv & Hnow & _). eauto.
  - intros Hwait.
    destruct (pollTrace_timeout kubectl args verdict timeoutError (now w + timeout) interval
                fuel n (now w)) as (polls & t' & Heq & Hle & Ht'); [lia | exact Hwait |].
    rewrite Heq in Htrace. destruct (loop w) as [res w'| |]; [|done|done].
    destruct Htrace as (-> & Hinv & Hnow & _). exists w', polls.
    split_and!; [done | done | by rewrite Hnow, Ht' | by rewrite Hnow].
Qed.

End PollContract.

Lemma boundVerdict2_bound (r : Reply) :
  reports "Bound" r → boundVerdict2 r = Stop None [].
Proof. intros [Hok Hphase]. unfold boundVerdict2. by rewrite Hok, Hphase. Qed.

Lemma boundVerdict2_waits (r : Reply) :
  ¬ reports "Bound" r → waits boundVerdict2 r.
Proof.
  intros Hno. unfold waits, boundVerdict2. destruct (failed r) eqn:Hok; [eauto|].
  cbv zeta. destruct (String.eqb_spec (TrimSpace (output r)) "Bound"); [|eauto].
  destruct Hno. by split.
Qed.

Lemma boundVerdict1_bound (r : Reply) :
  reports "Bound" r →
  boundVerdict1 r = Stop None ["    PVC status: Bound" ++ nl; "    ✅ PVC is now bound!" ++ nl].
Proof. intros [Hok Hphase]. unfold boundVerdict1. by rewrite Hok, Hphase. Qed.

Lemma boundVerdict1_failed (r : Reply) :
  reports "Failed" r →
  boundVerdict1 r = Stop (Some "PVC failed to bind") ["    PVC status: Failed" ++ nl].
Proof. intros [Hok Hphase]. unfold boundVerdict1. by rewrite Hok, Hphase. Qed.

Lemma boundVerdict1_waits (r : Reply) :
  ¬ reports "Bound" r → ¬ reports "Failed" r → waits boundVerdict1 r.
Proof.
  intros Hno1 Hno2. unfold waits, boundVerdict1. destruct (failed r) eqn:Hok; [eauto|].
  cbv zeta. destruct (String.eqb_spec (TrimSpace (output r)) "Bound").
  { destruct Hno1. by split. }
  destruct (String.eqb_spec (TrimSpace (output r)) "Failed"); [|eauto].
  destruct Hno2. by split.
Qed.

Lemma waitForPVCBound2_pollLoop (kubectl : nat -> Invocation -> Reply)
    (e : migration2.Engine) (pvc : PVCInfo.t) (w : World) :
  migration2.waitForPVCBound kubectl e pvc w
  = pollLoop kubectl (pvcPollArgs (PVCInfo.Name pvc) (PVCInfo.Namespace pvc)) boundVerdict2
      ("timeout waiting for PVC " ++ PVCInfo.Name pvc ++ " to be bound")
      61 (now w + boundTimeout) pollInterval w.
Proof.
  unfold migration2.waitForPVCBound. cbv zeta. rewrite bind_apply. cbn [getNow].
  apply boundLoop2_pollLoop.
Qed.

Lemma waitForPVCBound1_pollLoop (kubectl : nat -> Invocation -> Reply)
    (e : migration1.Engine) (pvc : PVCInfo.t) (w : World) :
  migration1.waitForPVCBound kubectl e pvc w
  = pollLoop kubectl (pvcPollArgs (PVCInfo.Name pvc) (migration1.migrationNamespace e))
      boundVerdict1
      ("timeout waiting for PVC " ++ PVCInfo.Name pvc ++ " to be bound")
      61 (now w + boundTimeout) pollInterval w.
Proof.
  unfold migration1.waitForPVCBound. cbv zeta. rewrite bind_apply. cbn [getNow].
  apply boundLoop1_pollLoop.
Qed.

(** ** Waiting for a claim to be bound *)

Lemma startOfPoll_S (kubectl : nat -> Invocation -> Reply) (args : list string)
    (interval : Z) (n : nat) (t : Z) (j : nat) :
  startOfPoll kubectl args interval n t (S j)
  = (startOfPoll kubectl args interval n t j
     + Z.of_N (elapsed (answerAt kubectl args (n + j))) + interval)%Z.
Proof.
  revert n t. induction j as [|j IH]; intros n t.
  - cbn [startOfPoll]. by rewrite Nat.add_0_r.
  - change (startOfPoll kubectl args interval n t (S (S j)))
      with (startOfPoll kubectl args interval (S n)
              (t + Z.of_N (elapsed (answerAt kubectl args n)) + interval) (S j)).
    rewrite IH. cbn [startOfPoll]. by replace (S n + j)%nat with (n + S j)%nat by lia.
Qed.

Lemma BoundWait_pollLoop (kubectl : nat -> Invocation -> Reply) (args : list string)
    (name : string) (verdict : Reply -> Verdict) (w : World) :
  (∀ r, reports "Bound" r → ∃ prints, verdict r = Stop None prints) →
  (∀ r, ¬ reports "Bound" r → ¬ reports "Failed" r → waits verdict r) →
  BoundWait kubectl args name
    (pollLoop kubectl args verdict ("timeout waiting for PVC " ++ name ++ " to be bound")
       61 (now w + boundTimeout) pollInterval) w.
Proof.
  intros Hbound Hwaits.
  destruct (pollLoop_contract kubectl args verdict
              ("timeout waiting for PVC " ++ name ++ " to be bound")
              boundTimeout pollInterval 60 w) as (Hret & Hstop & Htimeout);
    [done | done |].
  unfold BoundWait. cbv zeta. split_and!.
  - exact Hret.
  - intros j Hpending Hj Hstart. destruct (Hbound _ Hj) as [prints Hv].
    apply (Hstop j None prints); [|done|done].
    intros i Hi. destruct (Hpending i Hi). by apply Hwaits.
  - intros Hpending. apply Htimeout. intros j Hj. destruct (Hpending j Hj). by apply Hwaits.
  - intros j. apply startOfPoll_S.
Qed.

(** C7, as the code has it.  In either text of the engine and whatever
    the control plane answers, [waitForPVCBound] returns; it returns
    success at the first poll that reports "Bound", provided that poll
    starts within the 5 minutes and no earlier poll reported "Failed"; it
    returns the timeout error once the 5 minutes are over when no poll
    within them reports "Bound" or "Failed"; and its polls are a fixed 5
    seconds apart. *)
Theorem waitForPVCBound_contract
    (kubectl : nat -> Invocation -> Reply) (pvc : PVCInfo.t) (w : World) :
  (∀ e : migration1.Engine,
      BoundWait kubectl (pvcPollArgs (PVCInfo.Name pvc) (migration1.migrationNamespace e))
        (PVCInfo.Name pvc) (migration1.waitForPVCBound kubectl e pvc) w) ∧
  (∀ e : migration2.Engine,
      BoundWait kubectl (pvcPollArgs (PVCInfo.Name pvc) (PVCInfo.Namespace pvc))
        (PVCInfo.Name pvc) (migration2.waitForPVCBound kubectl e pvc) w).
Proof.
  split; intros e.
  - pose proof (BoundWait_pollLoop kubectl
                  (pvcPollArgs (PVCInfo.Name pvc) (migration1.migrationNamespace e))
                  (PVCInfo.Name pvc) boundVerdict1 w) as H.
    unfold BoundWait in *. rewrite <- waitForPVCBound1_pollLoop in H. apply H.
    + intros r Hr. rewrite (boundVerdict1_bound r Hr). eauto.
    + apply boundVerdict1_waits.
  - pose proof (BoundWait_pollLoop kubectl
                  (pvcPollArgs (PVCInfo.Name pvc) (PVCInfo.Namespace pvc))
                  (PVCInfo.Name pvc) boundVerdict2 w) as H.
    unfold BoundWait in *. rewrite <- (waitForPVCBound2_pollLoop kubectl e) in H. apply H.
    + intros r Hr. rewrite (boundVerdict2_bound r Hr). eauto.
    + intros r Hr _. by apply boundVerdict2_waits.
Qed.

(** The scenario of the specification: against the phases Pending,
    Pending, Bound the wait succeeds on the third poll (here 10.3 s after
    it started: two sleeps of 5 s and 300 ms of commands). *)
Lemma waitForPVCBound_contract_witness :
  ∃ w', migration2.waitForPVCBound pendingPendingBound engine2 claimedPVC startWorld
        = Returns None w' ∧
        invocations w'
        = replicate 3 (pollCommand (pvcPollArgs "svc-app-data" "default")) ∧
        now w' = (now startWorld + 10300)%Z.
Proof.
  destruct (waitForPVCBound_contract pendingPendingBound claimedPVC startWorld) as [_ H2].
  destruct (H2 engine2) as (_ & Hbound & _ & _).
  destruct (Hbound 2%nat) as (w' & Hw' & Hinv & Hnow).
  - intros i Hi. destruct i as [|[|i]]; [| |lia];
      (split; intros [_ Hphase]; vm_compute in Hphase; discriminate).
  - split; vm_compute; reflexivity.
  - vm_compute. reflexivity.
  - exists w'. split; [exact Hw'|]. split; [exact Hinv|]. rewrite Hnow. vm_compute. reflexivity.
Defined.

Example waitForPVCBound1_third_poll :
  migration1.waitForPVCBound pendingPendingBound engine1 claimedPVC startWorld
  = Returns None
      (mkWorld 1700000010300
         (mkTerminal []
            [ "    PVC status: Pending" ++ nl; "    PVC status: Pending" ++ nl;
              "    PVC status: Bound" ++ nl; "    ✅ PVC is now bound!" ++ nl ])
         (replicate 3 (pollCommand (pvcPollArgs "svc-app-data" "default")))).
Proof. vm_compute. reflexivity. Qed.

(** C7 as stated fails on the first text: a poll that reports "Failed"
    ends the wait with an error that is neither success at the first
    "Bound" poll (the next poll would report "Bound") nor the timeout, and
    well before the 5 minutes are over. *)
Lemma waitForPVCBound_failed_then_bound :
  migration1.waitForPVCBound
    (scriptedKubectl [phaseReply "Failed" 100] (phaseReply "Bound" 100))
    engine1 claimedPVC startWorld
  = Returns (Some "PVC failed to bind")
      (mkWorld 1700000000100
         (mkTerminal [] ["    PVC status: Failed" ++ nl])
         [pollCommand (pvcPollArgs "svc-app-data" "default")]).
Proof. vm_compute. reflexivity. Qed.

(** In the first text a poll that reports "Failed" is fatal at once:
    entered before the deadline, the loop returns the error right after
    that poll. *)
Lemma waitForPVCBound1_failed_is_fatal (kubectl : nat -> Invocation -> Reply)
    (e : migration1.Engine) (pvc : PVCInfo.t) (w : World) (j : nat) :
  let args := pvcPollArgs (PVCInfo.Name pvc) (migration1.migrationNamespace e) in
  let n := length (invocations w) in
  (∀ i, (i < j)%nat → ¬ reports "Bound" (answerAt kubectl args (n + i))
                      ∧ ¬ reports "Failed" (answerAt kubectl args (n + i))) →
  reports "Failed" (answerAt kubectl args (n + j)) →
  (startOfPoll kubectl args pollInterval n (now w) j < now w + boundTimeout)%Z →
  ∃ w', migration1.waitForPVCBound kubectl e pvc w = Returns (Some "PVC failed to bind") w' ∧
        invocations w' = (invocations w ++ replicate (S j) (pollCommand args))%list ∧
        now w' = (startOfPoll kubectl args pollInterval n (now w) j
                  + Z.of_N (elapsed (answerAt kubectl args (n + j))))%Z.
Proof.
  intros args n Hpending Hfailed Hstart. rewrite waitForPVCBound1_pollLoop.
  destruct (pollLoop_contract kubectl args boundVerdict1
              ("timeout waiting for PVC " ++ PVCInfo.Name pvc ++ " to be bound")
              boundTimeout pollInterval 60 w) as (_ & Hstop & _); [done | done |].
  apply (Hstop j (Some "PVC failed to bind") ["    PVC status: Failed" ++ nl]).
  - intros i Hi. destruct (Hpending i Hi). by apply boundVerdict1_waits.
  - by apply boundVerdict1_failed.
  - exact Hstart.
Qed.

(** C2 fails on the second text: against a claim that reports "Failed"
    from the first poll on, [waitForPVCBound] polls 60 times, 5 seconds
    apart, and returns the timeout error when the 5 minutes are over. *)
Theorem waitForPVCBound2_ignores_failed :
  ∃ out,
    migration2.waitForPVCBound (scriptedKubectl [] (phaseReply "Failed" 0))
      engine2 claimedPVC startWorld
    = Returns (Some "timeout waiting for PVC svc-app-data to be bound")
        (mkWorld (now startWorld + 5 * 60 * 1000) (mkTerminal [] out)
           (replicate 60 (pollCommand (pvcPollArgs "svc-app-data" "default")))) ∧
    out = replicate 60 ("    PVC status: Failed" ++ nl).
Proof. eexists. split; vm_compute; reflexivity. Qed.

Example waitForPVCBound1_stops_at_failed :
  migration1.waitForPVCBound (scriptedKubectl [] (phaseReply "Failed" 0))
    engine1 claimedPVC startWorld
  = Returns (Some "PVC failed to bind")
      (mkWorld (now startWorld) (mkTerminal [] ["    PVC status: Failed" ++ nl])
         [pollCommand (pvcPollArgs "svc-app-data" "default")]).
Proof. vm_compute. reflexivity. Qed.

(** ** Claims without a matched volume *)

Lemma printed_nil (w : World) : printed [] w = w.
Proof. destruct w as [t [i o] inv]. unfold printed. cbn. by rewrite app_nil_r. Qed.

Lemma printed_app (a b : list string) (w : World) :
  printed b (printed a w) = printed (a ++ b) w.
Proof. unfold printed. cbn. by rewrite <- app_assoc. Qed.

Lemma printf_printed (text : string) (w : World) :
  printf text w = Returns tt (printed [text] w).
Proof. reflexivity. Qed.

Lemma dryRunItem_lines (i : nat) (pvc : PVCInfo.t) (w : World) :
  engine.dryRunItem i pvc w = Returns tt (printed (dryRunLines i pvc) w).
Proof.
  unfold engine.dryRunItem, dryRunLines. destruct (PVCInfo.MatchedVolume pvc) as [vol|].
  - rewrite !bind_apply, !printf_printed. rewrite !bind_apply, !printf_printed.
    rewrite !bind_apply, !printf_printed. rewrite !bind_apply, !printf_printed.
    by rewrite !printed_app.
  - apply printf_printed.
Qed.

Lemma dryRunFrom_lines (i : nat) (pvcs : list PVCInfo.t) (w : World) :
  engine.dryRunFrom i pvcs w = Returns tt (printed (dryRunLinesFrom i pvcs) w).
Proof.
  revert i w. induction pvcs as [|pvc rest IH]; intros i w;
    cbn [engine.dryRunFrom dryRunLinesFrom].
  - by rewrite printed_nil.
  - rewrite bind_apply, dryRunItem_lines, IH. by rewrite printed_app.
Qed.

Lemma dryRunLinesFrom_app (i : nat) (before after : list PVCInfo.t) :
  dryRunLinesFrom i (before ++ after)
  = (dryRunLinesFrom i before ++ dryRunLinesFrom (i + length before) after)%list.
Proof.
  revert i. induction before as [|pvc before IH]; intros i; cbn [app dryRunLinesFrom length].
  - by rewrite Nat.add_0_r.
  - rewrite IH, <- app_assoc. by replace (S i + length before)%nat with (i + S (length before))%nat by lia.
Qed.

(** [DryRun] prints the plan and does nothing else: no command, no time,
    no input consumed. *)
Lemma DryRun_prints (pvcs : list PVCInfo.t) (w : World) :
  engine.DryRun pvcs w
  = Returns tt
      (printed ([nl ++ "=== Dry Run - Migration Plan ===" ++ nl]
                  ++ dryRunLinesFrom 0 pvcs
                  ++ ["Use --execute to run the actual migration" ++ nl]) w).
Proof.
  unfold engine.DryRun. rewrite bind_apply, printf_printed, bind_apply, dryRunFrom_lines.
  rewrite printf_printed. by rewrite !printed_app.
Qed.

(** An error of [StartMigration] names a claim that has a matched volume. *)
Lemma migrateFrom_error (migratePVC : PVCInfo.t -> M error) (total i : nat)
    (pvcs : list PVCInfo.t) (w : World) (msg : string) (w' : World) :
  engine.migrateFrom migratePVC total i pvcs w = Returns (Some msg) w' →
  ∃ failing cause,
    failing ∈ pvcs ∧ PVCInfo.MatchedVolume failing ≠ None ∧
    msg = "migration failed for PVC " ++ PVCInfo.Name failing ++ ": " ++ cause.
Proof.
  revert i w. induction pvcs as [|pvc rest IH]; intros i w; cbn [engine.migrateFrom]; [done|].
  destruct (PVCInfo.MatchedVolume pvc) as [vol|] eqn:Hvol.
  - rewrite bind_apply, printf_printed, bind_apply.
    destruct (migratePVC pvc _) as [[cause|] w1| |]; [| |done|done].
    + rewrite bind_apply, printf_printed. intros [= <- <-].
      exists pvc, cause. split_and!; [apply elem_of_cons; by left | by rewrite Hvol | done].
    + rewrite bind_apply, printf_printed. intros Hrest.
      destruct (IH _ _ Hrest) as (failing & cause & Hin & Hm & ->).
      exists failing, cause. split_and!; [apply elem_of_cons; by right | done | done].
  - rewrite bind_apply, printf_printed. intros Hrest.
    destruct (IH _ _ Hrest) as (failing & cause & Hin & Hm & ->).
    exists failing, cause. split_and!; [apply elem_of_cons; by right | done | done].
Qed.

(** C6.  For a claim without a matched volume:
    - [DryRun], which runs no command at all, prints the line
      ["[i] SKIP: name (no volume selected)"] for it, [i] being its
      position in the list;
    - when the loop of [StartMigration] reaches it, the loop prints
      ["Skipping name (no volume selected)"], runs no command, lets no time
      pass, and goes on with the next item, in either text of the engine
      (whatever [migratePVC] is);
    - an error of [StartMigration] never names it: it names a claim that
      has a matched volume. *)
Theorem unmatched_claim_is_skipped (pvc : PVCInfo.t) :
  PVCInfo.MatchedVolume pvc = None →
  (∀ before after w,
      engine.DryRun (before ++ pvc :: after) w
      = Returns tt
          (printed ([nl ++ "=== Dry Run - Migration Plan ===" ++ nl]
                      ++ dryRunLinesFrom 0 before
                      ++ ["[" ++ Itoa (Z.of_nat (length before) + 1) ++ "] SKIP: "
                              ++ PVCInfo.Name pvc ++ " (no volume selected)" ++ nl]
                      ++ dryRunLinesFrom (S (length before)) after
                      ++ ["Use --execute to run the actual migration" ++ nl]) w)) ∧
  (∀ migratePVC total i rest w,
      engine.migrateFrom migratePVC total i (pvc :: rest) w
      = engine.migrateFrom migratePVC total (S i) rest
          (printed ["Skipping " ++ PVCInfo.Name pvc ++ " (no volume selected)" ++ nl] w)) ∧
  (∀ migratePVC pvcs w msg w',
      engine.StartMigration migratePVC pvcs w = Returns (Some msg) w' →
      ∃ failing cause,
        failing ∈ pvcs ∧ failing ≠ pvc ∧ PVCInfo.MatchedVolume failing ≠ None ∧
        msg = "migration failed for PVC " ++ PVCInfo.Name failing ++ ": " ++ cause).
Proof.
  intros Hnil. split_and!.
  - intros before after w. rewrite DryRun_prints, dryRunLinesFrom_app.
    change (dryRunLinesFrom (0 + length before) (pvc :: after))
      with (dryRunLines (length before) pvc ++ dryRunLinesFrom (S (length before)) after)%list.
    unfold dryRunLines. rewrite Hnil. by rewrite <- !app_assoc.
  - intros migratePVC total i rest w. cbn [engine.migrateFrom]. rewrite Hnil.
    by rewrite bind_apply, printf_printed.
  - intros migratePVC pvcs w msg w'. unfold engine.StartMigration.
    rewrite bind_apply, printf_printed, bind_apply.
    destruct (engine.migrateFrom _ _ _ _ _) as [[cause|] w1| |] eqn:Hloop; [| |done|done].
    + intros [= <- <-]. destruct (migrateFrom_error _ _ _ _ _ _ _ Hloop)
        as (failing & c & Hin & Hm & ->).
      exists failing, c. split_and!; [done | | done | done].
      intros ->. by rewrite Hnil in Hm.
    + rewrite bind_apply, printf_printed. done.
Qed.

Lemma unmatched_claim_is_skipped_witness :
  PVCInfo.MatchedVolume unmatchedPVC = None ∧
  engine.DryRun [claimedPVC; unmatchedPVC] startWorld
  = Returns tt
      (printed [ nl ++ "=== Dry Run - Migration Plan ===" ++ nl;
                 "[1] MIGRATE: svc-app-data" ++ nl;
                 "    Source: app_data (1kB)" ++ nl;
                 "    Target: PVC default/svc-app-data (1Gi)" ++ nl;
                 "    Path: /var/lib/docker/volumes/app_data/_data → PVC mount" ++ nl;
                 nl;
                 "[2] SKIP: svc-cache (no volume selected)" ++ nl;
                 "Use --execute to run the actual migration" ++ nl ] startWorld) ∧
  migration2.StartMigration (scriptedKubectl [] (phaseReply "Failed" 0)) engine2
    [unmatchedPVC; unmatchedPVC] startWorld
  = Returns None
      (printed [ nl ++ "=== Starting Migration Process ===" ++ nl;
                 "Skipping svc-cache (no volume selected)" ++ nl;
                 "Skipping svc-cache (no volume selected)" ++ nl;
                 nl ++ "🎉 Migration completed successfully!" ++ nl ] startWorld).
Proof.
  split; [reflexivity|].
  destruct (unmatched_claim_is_skipped unmatchedPVC eq_refl) as (Hdry & Hskip & _).
  split.
  - rewrite (Hdry [claimedPVC] []). vm_compute. reflexivity.
  - unfold migration2.StartMigration, engine.StartMigration.
    rewrite bind_apply, printf_printed, bind_apply, !Hskip. vm_compute. reflexivity.
Defined.

(** ** A failed migration pod aborts the run *)

Section Tracking.

Variable kubectl : nat -> Invocation -> Reply.

Lemma Quiet_ret {A : Type} (a : A) : Quiet (ret a).
Proof. intros w a' w' [= <- <-]. exists []. by rewrite app_nil_r. Qed.

Lemma Quiet_printf (text : string) : Quiet (printf text).
Proof. intros w a' w' [= <- <-]. exists []. cbn. by rewrite app_nil_r. Qed.

Lemma Quiet_sleep (ms : Z) : Quiet (sleep ms).
Proof. intros w a' w' [= <- <-]. exists []. cbn. by rewrite app_nil_r. Qed.

Lemma Quiet_getNow : Quiet getNow.
Proof. intros w a' w' [= <- <-]. exists []. by rewrite app_nil_r. Qed.

Lemma Quiet_panic {A : Type} : Quiet (@panic A).
Proof. intros w a' w' [=]. Qed.

Lemma Quiet_bind {A B : Type} (c : M A) (k : A -> M B) :
  Quiet c → (∀ a, Quiet (k a)) → Quiet (bind c k).
Proof.
  intros Hc Hk w b w'. rewrite bind_apply.
  destruct (c w) as [a w1| |] eqn:Hcw; [|done|done]. intros Hkw.
  destruct (Hc _ _ _ Hcw) as (new1 & Hinv1 & Hq1).
  destruct (Hk a _ _ _ Hkw) as (new2 & Hinv2 & Hq2).
  exists (new1 ++ new2)%list. split.
  - by rewrite Hinv2, Hinv1, <- app_assoc.
  - by apply Forall_app.
Qed.

Lemma Quiet_run (args : list string) (stdin_text : option string) :
  ¬ isPodPoll (mkInvocation ("kubectl" :: args) stdin_text) →
  Quiet (engine.run kubectl args stdin_text).
Proof.
  intros Hno w r w' [= <- <-]. eexists [_]. split; [reflexivity|].
  by apply Forall_singleton.
Qed.

Lemma Quiet_if {A : Type} (b : bool) (c1 c2 : M A) :
  Quiet c1 → Quiet c2 → Quiet (if b then c1 else c2).
Proof. by destruct b. Qed.

(** A quiet computation runs no pod poll: it tracks anything. *)
Lemma Tracks_quiet (P : nat -> error -> World -> Prop) (c : M error) :
  Quiet c → Tracks kubectl P c.
Proof.
  intros Hq w result w' Hc. destruct (Hq _ _ _ Hc) as (new & Hinv & Hnew).
  exists new. split; [done|]. intros k Hk (inv & Hlook & Hpoll & _). exfalso.
  rewrite Hinv, lookup_app_r in Hlook by done.
  rewrite Forall_forall in Hnew. apply (Hnew inv); [|done].
  by eapply list_elem_of_lookup_2.
Qed.

Lemma Tracks_bind_quiet {A : Type} (P : nat -> error -> World -> Prop)
    (c : M A) (k : A -> M error) :
  Quiet c → (∀ a, Tracks kubectl P (k a)) → Tracks kubectl P (bind c k).
Proof.
  intros Hc Hk w result w'. rewrite bind_apply.
  destruct (c w) as [a w1| |] eqn:Hcw; [|done|done]. intros Hkw.
  destruct (Hc _ _ _ Hcw) as (new1 & Hinv1 & Hq1).
  destruct (Hk a _ _ _ Hkw) as (new2 & Hinv2 & Htr).
  exists (new1 ++ new2)%list. split; [by rewrite Hinv2, Hinv1, <- app_assoc|].
  intros j Hj Hfailed.
  destruct (decide (j < length (invocations w1))%nat) as [Hlt|Hge].
  - exfalso. destruct Hfailed as (inv & Hlook & Hpoll & _).
    rewrite Hinv2, lookup_app_l in Hlook by done.
    rewrite Hinv1, lookup_app_r in Hlook by done.
    rewrite Forall_forall in Hq1. apply (Hq1 inv); [|done].
    by eapply list_elem_of_lookup_2.
  - apply Htr; [lia | done].
Qed.

(** An error of a tracked computation wrapped without running a command,
    or a tracked continuation after its success. *)
Lemma Tracks_wrap (P1 P2 : nat -> error -> World -> Prop) (c : M error)
    (wrap : string -> string) (out : string -> list string) (onOk : M error) :
  Tracks kubectl P1 c →
  Tracks kubectl P2 onOk →
  (∀ j w1, ¬ P1 j None w1) →
  (∀ j msg w1, P1 j (Some msg) w1 → P2 j (Some (wrap msg)) (printed (out msg) w1)) →
  Tracks kubectl P2
    (bind c (fun err =>
               match err with
               | Some msg => fun w => Returns (Some (wrap msg)) (printed (out msg) w)
               | None => onOk
               end)).
Proof.
  intros Hc Hok Hnone Hwrap w result w'. rewrite bind_apply.
  destruct (c w) as [[msg|] w1| |] eqn:Hcw; [| |done|done].
  - intros [= <- <-]. destruct (Hc _ _ _ Hcw) as (new1 & Hinv1 & Htr1).
    exists new1. split; [done|]. intros j Hj Hfailed.
    destruct (Htr1 j Hj Hfailed) as [Hlast HP]. split; [done | by apply Hwrap].
  - intros Hkw. destruct (Hc _ _ _ Hcw) as (new1 & Hinv1 & Htr1).
    destruct (Hok _ _ _ Hkw) as (new2 & Hinv2 & Htr2).
    exists (new1 ++ new2)%list. split; [by rewrite Hinv2, Hinv1, <- app_assoc|].
    intros j Hj Hfailed.
    destruct (decide (j < length (invocations w1))%nat) as [Hlt|Hge].
    + exfalso. destruct Hfailed as (inv & Hlook & Hpoll & Hrep).
      rewrite Hinv2, lookup_app_l in Hlook by done.
      destruct (Htr1 j Hj) as [_ HP]; [by exists inv|]. by eapply Hnone.
    + apply Htr2; [lia | done].
Qed.

End Tracking.

Ltac not_a_pod_poll :=
  let p := fresh "p" in
  let ns := fresh "ns" in
  let Heq := fresh "Heq" in
  intros (p & ns & Heq); unfold pollCommand, podPollArgs, pvcPollArgs in Heq;
  discriminate Heq.

Section EngineTracking.

Variable kubectl : nat -> Invocation -> Reply.

Lemma podVerdict_failed (r : Reply) :
  reports "Failed" r → podVerdict r = Stop (Some "migration pod failed") [].
Proof. intros [Hok Hphase]. unfold podVerdict. by rewrite Hok, Hphase. Qed.

(** The commands of a polling loop are its polls. *)
Lemma pollLoop_commands (args : list string) (verdict : Reply -> Verdict)
    (timeoutError : string) (fuel : nat) (deadline interval : Z)
    (w : World) (result : error) (w' : World) :
  pollLoop kubectl args verdict timeoutError fuel deadline interval w = Returns result w' →
  ∃ polls t',
    pollTrace kubectl args verdict timeoutError deadline interval fuel
      (length (invocations w)) (now w) = Some (result, polls, t') ∧
    invocations w' = (invocations w ++ replicate polls (pollCommand args))%list.
Proof.
  intros Hloop.
  pose proof (pollLoop_trace kubectl args verdict timeoutError deadline interval fuel w) as Ht.
  rewrite Hloop in Ht.
  destruct (pollTrace _ _ _ _ _ _ _ _ _) as [[[res polls] t']|]; [|done].
  destruct Ht as (-> & Hinv & _ & _). eauto.
Qed.

Lemma Quiet_pvc_pollLoop (name namespace : string) (verdict : Reply -> Verdict)
    (timeoutError : string) (fuel : nat) (deadline interval : Z) :
  Quiet (pollLoop kubectl (pvcPollArgs name namespace) verdict timeoutError
           fuel deadline interval).
Proof.
  intros w result w' Hloop.
  destruct (pollLoop_commands _ _ _ _ _ _ _ _ _ Hloop) as (polls & t' & _ & Hinv).
  eexists. split; [exact Hinv|]. apply Forall_replicate. not_a_pod_poll.
Qed.

Lemma Tracks_waitForPodCompletion (podName namespace : string) :
  Tracks kubectl (podWaitFailed podName namespace)
    (engine.waitForPodCompletion kubectl podName namespace).
Proof.
  intros w result w' Hwait. unfold engine.waitForPodCompletion in Hwait. cbv zeta in Hwait.
  rewrite bind_apply in Hwait. cbn [getNow] in Hwait. rewrite podLoop_pollLoop in Hwait.
  destruct (pollLoop_commands _ _ _ _ _ _ _ _ _ Hwait) as (polls & t' & Htrace & Hinv).
  eexists. split; [exact Hinv|]. intros k Hk (inv & Hlook & _ & Hfailed).
  rewrite Hinv, lookup_app_r in Hlook by done.
  apply lookup_replicate in Hlook as [-> Hlt].
  assert (Hstop : podVerdict (answerAt kubectl (podPollArgs podName namespace)
                                (length (invocations w) + (k - length (invocations w))))
                  = Stop (Some "migration pod failed") []).
  { apply podVerdict_failed. unfold answerAt.
    by replace (length (invocations w) + (k - length (invocations w)))%nat with k by lia. }
  destruct (pollTrace_stop_is_last _ _ _ _ _ _ _ _ _ _ _ _ _ _ _ Htrace Hlt Hstop) as [Hlast ->].
  split; [|split; [done|]].
  - rewrite Hinv, length_app, length_replicate. lia.
  - rewrite Hinv, lookup_app_r by done. by apply lookup_replicate_2.
Qed.

Lemma Quiet_printLogLines (lines : list string) : Quiet (engine.printLogLines lines).
Proof.
  induction lines as [|line lines IH]; cbn [engine.printLogLines]; [apply Quiet_ret|].
  apply Quiet_bind; [|done]. unfold engine.printLogLine.
  apply Quiet_if; [apply Quiet_printf | apply Quiet_ret].
Qed.

Lemma Quiet_showPodLogs (podName namespace : string) :
  Quiet (engine.showPodLogs kubectl podName namespace).
Proof.
  unfold engine.showPodLogs. apply Quiet_bind; [apply Quiet_run; not_a_pod_poll|].
  intros r. apply Quiet_if; [apply Quiet_ret|].
  apply Quiet_bind; [apply Quiet_printLogLines | intros; apply Quiet_ret].
Qed.

Lemma Quiet_deletePod (podName namespace : string) :
  Quiet (engine.deletePod kubectl podName namespace).
Proof.
  unfold engine.deletePod. apply Quiet_bind; [apply Quiet_run; not_a_pod_poll|].
  intros r. apply Quiet_ret.
Qed.

End EngineTracking.

Section RunTracking.

Variable kubectl : nat -> Invocation -> Reply.

(** An error of a tracked computation handed on, wrapped, by a
    continuation that runs no command on an error. *)
Lemma Tracks_wrap_bind (P1 P2 : nat -> error -> World -> Prop) (c : M error)
    (k : error -> M error) (wrap : string -> string) (out : string -> list string) :
  Tracks kubectl P1 c →
  (∀ msg w, k (Some msg) w = Returns (Some (wrap msg)) (printed (out msg) w)) →
  Tracks kubectl P2 (k None) →
  (∀ j w1, ¬ P1 j None w1) →
  (∀ j msg w1, P1 j (Some msg) w1 → P2 j (Some (wrap msg)) (printed (out msg) w1)) →
  Tracks kubectl P2 (bind c k).
Proof.
  intros Hc Herr Hok Hnone Hwrap.
  assert (Heq : ∀ w, bind c k w
                     = bind c (fun err =>
                                 match err with
                                 | Some msg =>
                                     fun w => Returns (Some (wrap msg)) (printed (out msg) w)
                                 | None => k None
                                 end) w).
  { intros w. rewrite !bind_apply. destruct (c w) as [[msg|] w1| |]; [apply Herr|done..]. }
  intros w result w' Hrun. rewrite Heq in Hrun.
  by eapply (Tracks_wrap kubectl P1 P2 c wrap out (k None)).
Qed.

Lemma podFailedFor_wrap (pvc : PVCInfo.t) (pre msg m : string) (out : list string)
    (j : nat) (w1 : World) :
  podFailedFor msg pvc j (Some m) w1 →
  podFailedFor (pre ++ msg) pvc j (Some (pre ++ m)) (printed out w1).
Proof. intros [[= ->] Hpoll]. by split. Qed.

Lemma Tracks_copyData2 (e : migration2.Engine) (pvc : PVCInfo.t) :
  Tracks kubectl (podFailedFor "migration pod failed: migration pod failed" pvc)
    (migration2.copyData kubectl e pvc).
Proof.
  unfold migration2.copyData. apply Tracks_bind_quiet; [apply Quiet_getNow|]. intros t.
  cbv zeta. destruct (PVCInfo.MatchedVolume pvc) as [vol|]; [|apply Tracks_quiet, Quiet_panic].
  apply Tracks_bind_quiet; [apply Quiet_run; not_a_pod_poll|]. intros r.
  destruct (failed r); [apply Tracks_quiet, Quiet_ret|].
  apply Tracks_bind_quiet; [apply Quiet_printf|]. intros _.
  apply (Tracks_wrap_bind
           (podWaitFailed (migrationPodName (PVCInfo.Name pvc) t) (PVCInfo.Namespace pvc))
           (podFailedFor "migration pod failed: migration pod failed" pvc) _ _
           (fun msg => "migration pod failed: " ++ msg) (fun _ => [])).
  - apply Tracks_waitForPodCompletion.
  - intros msg w. by rewrite printed_nil.
  - apply Tracks_quiet. apply Quiet_bind; [apply Quiet_printf|]. intros _.
    apply Quiet_bind; [apply Quiet_showPodLogs|]. intros err1.
    apply Quiet_bind; [destruct err1; [apply Quiet_printf | apply Quiet_ret]|]. intros _.
    apply Quiet_bind; [apply Quiet_deletePod|]. intros err2.
    apply Quiet_bind; [destruct err2; [apply Quiet_printf | apply Quiet_ret]|]. intros _.
    apply Quiet_ret.
  - by intros j w1 [? _].
  - intros j msg w1 [[= ->] Hpoll]. split; [done|]. eauto.
Qed.

Lemma Quiet_waitForPVCBound2 (e : migration2.Engine) (pvc : PVCInfo.t) :
  Quiet (migration2.waitForPVCBound kubectl e pvc).
Proof.
  intros w result w' Hwait. rewrite waitForPVCBound2_pollLoop in Hwait.
  by eapply Quiet_pvc_pollLoop.
Qed.

Lemma Quiet_createPVC2 (e : migration2.Engine) (pvc : PVCInfo.t) :
  Quiet (migration2.createPVC kubectl e pvc).
Proof.
  unfold migration2.createPVC. apply Quiet_bind; [apply Quiet_run; not_a_pod_poll|].
  intros r. apply Quiet_if; apply Quiet_ret.
Qed.

Lemma Tracks_migratePVC2 (e : migration2.Engine) (pvc : PVCInfo.t) :
  Tracks kubectl (podFailedFor copyFailure pvc) (migration2.migratePVC kubectl e pvc).
Proof.
  unfold migration2.migratePVC. apply Tracks_bind_quiet; [apply Quiet_printf|]. intros _.
  apply Tracks_bind_quiet; [apply Quiet_createPVC2|]. intros [msg|];
    [apply Tracks_quiet, Quiet_ret|].
  apply Tracks_bind_quiet; [apply Quiet_printf|]. intros _.
  apply Tracks_bind_quiet; [apply Quiet_waitForPVCBound2|]. intros [msg|];
    [apply Tracks_quiet, Quiet_ret|].
  destruct (PVCInfo.MatchedVolume pvc) as [vol|]; [|apply Tracks_quiet, Quiet_panic].
  apply Tracks_bind_quiet; [apply Quiet_printf|]. intros _.
  apply (Tracks_wrap_bind
           (podFailedFor "migration pod failed: migration pod failed" pvc)
           (podFailedFor copyFailure pvc) _ _
           (fun msg => "failed to copy data: " ++ msg) (fun _ => [])).
  - apply Tracks_copyData2.
  - intros msg w. by rewrite printed_nil.
  - apply Tracks_quiet, Quiet_ret.
  - by intros j w1 [? _].
  - intros j msg w1. apply (podFailedFor_wrap pvc "failed to copy data: ").
Qed.

End RunTracking.

Section RunTracking1.

Variable kubectl : nat -> Invocation -> Reply.
Variable hostname : string.
Variable filepathJoin : string -> string -> string.
Variable glob : string -> option (list string).
Variable readFile : string -> option string.
Variable Unmarshal : string -> option Object.

Lemma Quiet_interactiveNodeSelection (nodes : list string) (defaultNode : string) :
  Quiet (migration1.interactiveNodeSelection nodes defaultNode).
Proof.
  intros w a w'. unfold migration1.interactiveNodeSelection. cbv zeta.
  destruct (migration1.nodeLoop _ _ _ _) as [a' t'| |]; [|done|done].
  intros [= <- <-]. exists []. cbn. by rewrite app_nil_r.
Qed.

Lemma Quiet_getCurrentNodeName (e : migration1.Engine) :
  Quiet (migration1.getCurrentNodeName kubectl hostname e).
Proof.
  unfold migration1.getCurrentNodeName. apply Quiet_bind; [apply Quiet_run; not_a_pod_poll|].
  intros r. apply Quiet_if; [apply Quiet_ret|]. cbv zeta.
  apply Quiet_if; [apply Quiet_ret | apply Quiet_interactiveNodeSelection].
Qed.

Lemma Quiet_createPVC1 (e : migration1.Engine) (pvc : PVCInfo.t) :
  Quiet (migration1.createPVC kubectl filepathJoin glob readFile Unmarshal e pvc).
Proof.
  unfold migration1.createPVC. destruct (migration1.findYAMLFileForPVC _ _ _ _ _ _);
    [|apply Quiet_ret].
  apply Quiet_bind; [apply Quiet_printf|]. intros _.
  apply Quiet_bind; [apply Quiet_run; not_a_pod_poll|].
  intros r. apply Quiet_if; apply Quiet_ret.
Qed.

Lemma Quiet_waitForPVCBound1 (e : migration1.Engine) (pvc : PVCInfo.t) :
  Quiet (migration1.waitForPVCBound kubectl e pvc).
Proof.
  intros w result w' Hwait. rewrite waitForPVCBound1_pollLoop in Hwait.
  by eapply Quiet_pvc_pollLoop.
Qed.

Lemma Tracks_copyData1 (e : migration1.Engine) (pvc : PVCInfo.t) :
  Tracks kubectl (podFailedFor "migration pod failed: migration pod failed" pvc)
    (migration1.copyData kubectl hostname e pvc).
Proof.
  unfold migration1.copyData. apply Tracks_bind_quiet; [apply Quiet_getCurrentNodeName|].
  intros node. destruct (snd node); [apply Tracks_quiet, Quiet_ret|]. cbv zeta.
  apply Tracks_bind_quiet; [apply Quiet_getNow|]. intros t.
  destruct (PVCInfo.MatchedVolume pvc) as [vol|]; [|apply Tracks_quiet, Quiet_panic].
  apply Tracks_bind_quiet; [apply Quiet_run; not_a_pod_poll|]. intros r.
  destruct (failed r); [apply Tracks_quiet, Quiet_ret|].
  apply Tracks_bind_quiet; [apply Quiet_printf|]. intros _.
  apply Tracks_bind_quiet; [apply Quiet_printf|]. intros _.
  apply (Tracks_wrap_bind kubectl
           (podWaitFailed (migrationPodName (PVCInfo.Name pvc) t)
                          (migration1.migrationNamespace e))
           (podFailedFor "migration pod failed: migration pod failed" pvc) _ _
           (fun msg => "migration pod failed: " ++ msg) (fun _ => [])).
  - apply Tracks_waitForPodCompletion.
  - intros msg w. by rewrite printed_nil.
  - apply Tracks_quiet. apply Quiet_bind; [apply Quiet_printf|]. intros _.
    apply Quiet_bind; [apply Quiet_showPodLogs|]. intros err1.
    apply Quiet_bind; [destruct err1; [apply Quiet_printf | apply Quiet_ret]|]. intros _.
    apply Quiet_bind; [apply Quiet_deletePod|]. intros err2.
    apply Quiet_bind; [destruct err2; [apply Quiet_printf | apply Quiet_ret]|]. intros _.
    apply Quiet_ret.
  - by intros j w1 [? _].
  - intros j msg w1 [[= ->] Hpoll]. split; [done|]. eauto.
Qed.

Lemma Tracks_migratePVC1 (e : migration1.Engine) (pvc : PVCInfo.t) :
  Tracks kubectl (podFailedFor copyFailure pvc)
    (migration1.migratePVC kubectl hostname filepathJoin glob readFile Unmarshal e pvc).
Proof.
  unfold migration1.migratePVC. apply Tracks_bind_quiet; [apply Quiet_printf|]. intros _.
  apply Tracks_bind_quiet; [apply Quiet_createPVC1|]. intros [msg|];
    [apply Tracks_quiet, Quiet_ret|].
  apply Tracks_bind_quiet; [apply Quiet_printf|]. intros _.
  apply Tracks_bind_quiet; [apply Quiet_waitForPVCBound1|]. intros [msg|];
    [apply Tracks_quiet, Quiet_ret|].
  destruct (PVCInfo.MatchedVolume pvc) as [vol|]; [|apply Tracks_quiet, Quiet_panic].
  apply Tracks_bind_quiet; [apply Quiet_printf|]. intros _.
  apply (Tracks_wrap_bind kubectl
           (podFailedFor "migration pod failed: migration pod failed" pvc)
           (podFailedFor copyFailure pvc) _ _
           (fun msg => "failed to copy data: " ++ msg) (fun _ => [])).
  - apply Tracks_copyData1.
  - intros msg w. by rewrite printed_nil.
  - apply Tracks_quiet, Quiet_ret.
  - by intros j w1 [? _].
  - intros j msg w1. apply (podFailedFor_wrap pvc "failed to copy data: ").
Qed.

End RunTracking1.

Section StartTracking.

Variable kubectl : nat -> Invocation -> Reply.
Variable migratePVC : PVCInfo.t -> M error.
Hypothesis migratePVC_tracks :
  ∀ pvc, Tracks kubectl (podFailedFor copyFailure pvc) (migratePVC pvc).

Lemma Tracks_weaken (P Q : nat -> error -> World -> Prop) (c : M error) :
  (∀ k result w', P k result w' → Q k result w') →
  Tracks kubectl P c → Tracks kubectl Q c.
Proof.
  intros HPQ Hc w result w' Hrun. destruct (Hc _ _ _ Hrun) as (new & Hinv & Htr).
  exists new. split; [done|]. intros k Hk Hf. destruct (Htr k Hk Hf). split; [done | by apply HPQ].
Qed.

Lemma runAborted_cons (pvc : PVCInfo.t) (rest : list PVCInfo.t) (k : nat) (result : error)
    (w' : World) :
  runAborted rest k result w' → runAborted (pvc :: rest) k result w'.
Proof.
  intros (failing & Hin & Hrest). exists failing. split; [|done]. apply elem_of_cons. by right.
Qed.

Lemma Tracks_migrateFrom (total i : nat) (pvcs : list PVCInfo.t) :
  Tracks kubectl (runAborted pvcs) (engine.migrateFrom migratePVC total i pvcs).
Proof.
  revert i. induction pvcs as [|pvc rest IH]; intros i; cbn [engine.migrateFrom].
  - apply Tracks_quiet, Quiet_ret.
  - destruct (PVCInfo.MatchedVolume pvc) as [vol|] eqn:Hvol.
    + apply Tracks_bind_quiet; [apply Quiet_printf|]. intros _.
      apply (Tracks_wrap_bind kubectl (podFailedFor copyFailure pvc)
               (runAborted (pvc :: rest)) _ _
               (fun msg => "migration failed for PVC " ++ PVCInfo.Name pvc ++ ": " ++ msg)
               (fun msg => ["❌ Failed to migrate " ++ PVCInfo.Name pvc ++ ": " ++ msg ++ nl])).
      * apply migratePVC_tracks.
      * intros msg w. reflexivity.
      * apply Tracks_bind_quiet; [apply Quiet_printf|]. intros _.
        eapply Tracks_weaken; [apply runAborted_cons | apply IH].
      * by intros j w1 [? _].
      * intros j msg w1 [[= ->] Hpoll]. exists pvc.
        split; [apply elem_of_cons; by left|]. split; [by rewrite Hvol|].
        split; [done|]. split; [exact Hpoll|]. cbn. apply last_snoc.
    + apply Tracks_bind_quiet; [apply Quiet_printf|]. intros _.
      eapply Tracks_weaken; [apply runAborted_cons | apply IH].
Qed.

Lemma Tracks_StartMigration (pvcs : list PVCInfo.t) :
  Tracks kubectl (runAborted pvcs) (engine.StartMigration migratePVC pvcs).
Proof.
  unfold engine.StartMigration. apply Tracks_bind_quiet; [apply Quiet_printf|]. intros _.
  apply (Tracks_wrap_bind kubectl (runAborted pvcs) (runAborted pvcs) _ _
           (fun msg => msg) (fun _ => [])).
  - apply Tracks_migrateFrom.
  - intros msg w. by rewrite printed_nil.
  - apply Tracks_quiet. apply Quiet_bind; [apply Quiet_printf|]. intros _. apply Quiet_ret.
  - intros j w1 (failing & _ & _ & Hres & _). done.
  - intros j msg w1. by rewrite printed_nil.
Qed.

End StartTracking.

(** ** The run returns *)

Section Totality.

Variable kubectl : nat -> Invocation -> Reply.

Lemma Total_ret {A : Type} (a : A) : Total (ret a).
Proof. intros w. by exists a, w. Qed.

Lemma Total_printf (text : string) : Total (printf text).
Proof. intros w. eexists _, _. reflexivity. Qed.

Lemma Total_sleep (ms : Z) : Total (sleep ms).
Proof. intros w. eexists _, _. reflexivity. Qed.

Lemma Total_getNow : Total getNow.
Proof. intros w. eexists _, _. reflexivity. Qed.

Lemma Total_run (args : list string) (stdin_text : option string) :
  Total (engine.run kubectl args stdin_text).
Proof. intros w. eexists _, _. reflexivity. Qed.

Lemma Total_bind {A B : Type} (c : M A) (k : A -> M B) :
  Total c → (∀ a, Total (k a)) → Total (bind c k).
Proof.
  intros Hc Hk w. rewrite bind_apply. destruct (Hc w) as (a & w1 & ->). apply Hk.
Qed.

Lemma Total_if {A : Type} (b : bool) (c1 c2 : M A) :
  Total c1 → Total c2 → Total (if b then c1 else c2).
Proof. by destruct b. Qed.

Lemma Total_pollLoop (args : list string) (verdict : Reply -> Verdict)
    (timeoutError : string) (timeout interval : Z) (fuel : nat) :
  (0 < interval)%Z → (timeout <= interval * Z.of_nat fuel)%Z →
  ∀ w, ∃ result w',
    pollLoop kubectl args verdict timeoutError (S fuel) (now w + timeout) interval w
    = Returns result w'.
Proof.
  intros Hpos Hfuel w.
  by destruct (pollLoop_contract kubectl args verdict timeoutError timeout interval fuel w
                 Hpos Hfuel) as [Hret _].
Qed.

Lemma Total_waitForPodCompletion (podName namespace : string) :
  Total (engine.waitForPodCompletion kubectl podName namespace).
Proof.
  intros w. unfold engine.waitForPodCompletion. cbv zeta. rewrite bind_apply. cbn [getNow].
  rewrite podLoop_pollLoop.
  apply (Total_pollLoop _ _ _ (10 * minute) (5 * second) 120); done.
Qed.

Lemma Total_printLogLines (lines : list string) : Total (engine.printLogLines lines).
Proof.
  induction lines as [|line lines IH]; cbn [engine.printLogLines]; [apply Total_ret|].
  apply Total_bind; [|done]. unfold engine.printLogLine.
  apply Total_if; [apply Total_printf | apply Total_ret].
Qed.

Lemma Total_showPodLogs (podName namespace : string) :
  Total (engine.showPodLogs kubectl podName namespace).
Proof.
  unfold engine.showPodLogs. apply Total_bind; [apply Total_run|]. intros r.
  apply Total_if; [apply Total_ret|].
  apply Total_bind; [apply Total_printLogLines | intros; apply Total_ret].
Qed.

Lemma Total_deletePod (podName namespace : string) :
  Total (engine.deletePod kubectl podName namespace).
Proof.
  unfold engine.deletePod. apply Total_bind; [apply Total_run | intros; apply Total_ret].
Qed.

(** What follows the creation of the migration pod in [copyData]. *)
Lemma Total_afterPod (podName namespace : string) :
  Total (bind (engine.waitForPodCompletion kubectl podName namespace)
           (fun err =>
              match err with
              | Some msg => ret (Some ("migration pod failed: " ++ msg))
              | None =>
                  do* printf ("  Migration pod logs:" ++ nl) in
                  let* err := engine.showPodLogs kubectl podName namespace in
                  do* match err with
                      | Some msg =>
                          printf ("    Warning: Could not retrieve pod logs: " ++ msg ++ nl)
                      | None => ret tt
                      end in
                  let* err := engine.deletePod kubectl podName namespace in
                  do* match err with
                      | Some msg =>
                          printf ("    Warning: Could not delete migration pod: " ++ msg ++ nl)
                      | None => ret tt
                      end in
                  ret None
              end)).
Proof.
  apply Total_bind; [apply Total_waitForPodCompletion|]. intros [msg|]; [apply Total_ret|].
  apply Total_bind; [apply Total_printf|]. intros _.
  apply Total_bind; [apply Total_showPodLogs|]. intros err1.
  apply Total_bind; [destruct err1; [apply Total_printf | apply Total_ret]|]. intros _.
  apply Total_bind; [apply Total_deletePod|]. intros err2.
  apply Total_bind; [destruct err2; [apply Total_printf | apply Total_ret]|]. intros _.
  apply Total_ret.
Qed.

Lemma Total_migratePVC2 (e : migration2.Engine) (pvc : PVCInfo.t) :
  PVCInfo.MatchedVolume pvc ≠ None →
  Total (migration2.migratePVC kubectl e pvc).
Proof.
  intros Hvol. unfold migration2.migratePVC.
  destruct (PVCInfo.MatchedVolume pvc) as [vol|] eqn:Hv; [|done].
  apply Total_bind; [apply Total_printf|]. intros _.
  apply Total_bind.
  { unfold migration2.createPVC. apply Total_bind; [apply Total_run|]. intros r.
    apply Total_if; apply Total_ret. }
  intros [msg|]; [apply Total_ret|].
  apply Total_bind; [apply Total_printf|]. intros _.
  apply Total_bind.
  { intros w. rewrite waitForPVCBound2_pollLoop.
    apply (Total_pollLoop _ _ _ boundTimeout pollInterval 60); done. }
  intros [msg|]; [apply Total_ret|].
  apply Total_bind; [apply Total_printf|]. intros _.
  apply Total_bind; [|intros [msg|]; apply Total_ret].
  unfold migration2.copyData. apply Total_bind; [apply Total_getNow|]. intros t.
  cbv zeta. rewrite Hv. apply Total_bind; [apply Total_run|]. intros r.
  apply Total_if; [apply Total_ret|].
  apply Total_bind; [apply Total_printf|]. intros _. apply Total_afterPod.
Qed.

Lemma Total_migrateFrom (migratePVC : PVCInfo.t -> M error) (total i : nat)
    (pvcs : list PVCInfo.t) :
  (∀ pvc, PVCInfo.MatchedVolume pvc ≠ None → Total (migratePVC pvc)) →
  Total (engine.migrateFrom migratePVC total i pvcs).
Proof.
  intros Hitem. revert i. induction pvcs as [|pvc rest IH]; intros i; cbn [engine.migrateFrom].
  - apply Total_ret.
  - destruct (PVCInfo.MatchedVolume pvc) as [vol|] eqn:Hvol.
    + apply Total_bind; [apply Total_printf|]. intros _.
      apply Total_bind; [apply Hitem; by rewrite Hvol|]. intros [msg|].
      * apply Total_bind; [apply Total_printf | intros; apply Total_ret].
      * apply Total_bind; [apply Total_printf | intros; apply IH].
    + apply Total_bind; [apply Total_printf | intros; apply IH].
Qed.

Lemma Total_StartMigration (migratePVC : PVCInfo.t -> M error) (pvcs : list PVCInfo.t) :
  (∀ pvc, PVCInfo.MatchedVolume pvc ≠ None → Total (migratePVC pvc)) →
  Total (engine.StartMigration migratePVC pvcs).
Proof.
  intros Hitem. unfold engine.StartMigration.
  apply Total_bind; [apply Total_printf|]. intros _.
  apply Total_bind; [by apply Total_migrateFrom|]. intros [msg|]; [apply Total_ret|].
  apply Total_bind; [apply Total_printf | intros; apply Total_ret].
Qed.

End Totality.

Section Totality1.

Variable kubectl : nat -> Invocation -> Reply.
Variable hostname : string.
Variable filepathJoin : string -> string -> string.
Variable glob : string -> option (list string).
Variable readFile : string -> option string.
Variable Unmarshal : string -> option Object.

(** The node prompt always returns: a failed read, and so the end of the
    input, ends it with an error, and a number is used as an index only
    when it is in range. *)
Lemma nodeLoop_returns (nodes : list string) (defaultNode : string)
    (pending : list ReadResult) (out : list string) :
  ∃ a t', migration1.nodeLoop nodes defaultNode pending out = Returns a t'.
Proof.
  revert out. induction pending as [|r rest IH]; intros out; cbn [migration1.nodeLoop].
  - eauto.
  - destruct r as [line|msg]; [|eauto]. cbv zeta.
    destruct (String.eqb (TrimSpace line) ""); [eauto|].
    destruct (Atoi (TrimSpace line)) as [choice|].
    + destruct (Z.leb_spec 1 choice), (Z.leb_spec choice (Z.of_nat (length nodes)));
        cbn [andb]; try apply IH.
      destruct (nodes !! Z.to_nat (choice - 1)) as [selected|] eqn:Hsel; [eauto|].
      apply lookup_ge_None in Hsel. lia.
    + destruct (migration1.scanNodes nodes (TrimSpace line) []) as [node|[|only [|other more]]];
        eauto.
Qed.

Lemma Total_interactiveNodeSelection (nodes : list string) (defaultNode : string) :
  Total (migration1.interactiveNodeSelection nodes defaultNode).
Proof.
  intros w. unfold migration1.interactiveNodeSelection. cbv zeta.
  match goal with
  | |- context [migration1.nodeLoop ?n ?d ?p ?o] =>
      destruct (nodeLoop_returns n d p o) as (a & t' & ->)
  end.
  eauto.
Qed.

Lemma Total_migratePVC1 (e : migration1.Engine) (pvc : PVCInfo.t) :
  PVCInfo.MatchedVolume pvc ≠ None →
  Total (migration1.migratePVC kubectl hostname filepathJoin glob readFile Unmarshal e pvc).
Proof.
  intros Hvol. unfold migration1.migratePVC.
  destruct (PVCInfo.MatchedVolume pvc) as [vol|] eqn:Hv; [|done].
  apply Total_bind; [apply Total_printf|]. intros _.
  apply Total_bind.
  { unfold migration1.createPVC. destruct (migration1.findYAMLFileForPVC _ _ _ _ _ _);
      [|apply Total_ret].
    apply Total_bind; [apply Total_printf|]. intros _.
    apply Total_bind; [apply Total_run|]. intros r. apply Total_if; apply Total_ret. }
  intros [msg|]; [apply Total_ret|].
  apply Total_bind; [apply Total_printf|]. intros _.
  apply Total_bind.
  { intros w. rewrite waitForPVCBound1_pollLoop.
    apply (Total_pollLoop _ _ _ _ boundTimeout pollInterval 60); done. }
  intros [msg|]; [apply Total_ret|].
  apply Total_bind; [apply Total_printf|]. intros _.
  apply Total_bind; [|intros [msg|]; apply Total_ret].
  unfold migration1.copyData. apply Total_bind.
  { unfold migration1.getCurrentNodeName. apply Total_bind; [apply Total_run|]. intros r.
    apply Total_if; [apply Total_ret|]. cbv zeta.
    apply Total_if; [apply Total_ret | apply Total_interactiveNodeSelection]. }
  intros node. destruct (snd node); [apply Total_ret|]. cbv zeta.
  apply Total_bind; [apply Total_getNow|]. intros t. rewrite Hv.
  apply Total_bind; [apply Total_run|]. intros r.
  apply Total_if; [apply Total_ret|].
  apply Total_bind; [apply Total_printf|]. intros _.
  apply Total_bind; [apply Total_printf|]. intros _. apply Total_afterPod.
Qed.

End Totality1.

(** C1.  In either text of the engine, whatever the control plane answers
    and whatever the list of claims, [StartMigration] returns; and if the
    [k]-th command of the run was a poll of a migration pod that the
    control plane answered with "Failed", then
    - that poll is the last command of the run: no log retrieval, no
      deletion of the pod, and no command for any later claim follows;
    - the run returned the error "migration failed for PVC <name>: failed
      to copy data: migration pod failed: migration pod failed", the
      "migration pod failed" of [waitForPodCompletion] wrapped by
      [copyData], [migratePVC] and [StartMigration], where <name> is a
      claim of the list whose migration pod the poll was for;
    - the last thing printed is the failure report for that claim.
    [waitForPodCompletion] itself returns, and returns "migration pod
    failed" with such a poll as its last command. *)
Theorem failed_pod_aborts_run (kubectl : nat -> Invocation -> Reply) :
  (∀ podName namespace w,
      ∃ result w',
        engine.waitForPodCompletion kubectl podName namespace w = Returns result w' ∧
        ∀ k, (length (invocations w) <= k)%nat →
             failedPodPoll kubectl (invocations w') k →
             S k = length (invocations w') ∧ result = Some "migration pod failed") ∧
  (∀ e pvcs w,
      ∃ result w',
        migration2.StartMigration kubectl e pvcs w = Returns result w' ∧
        ∀ k, (length (invocations w) <= k)%nat →
             failedPodPoll kubectl (invocations w') k →
             S k = length (invocations w') ∧ runAborted pvcs k result w') ∧
  (∀ hostname filepathJoin glob readFile Unmarshal e pvcs w,
      ∃ result w',
        migration1.StartMigration kubectl hostname filepathJoin glob readFile Unmarshal
          e pvcs w = Returns result w' ∧
        ∀ k, (length (invocations w) <= k)%nat →
             failedPodPoll kubectl (invocations w') k →
             S k = length (invocations w') ∧ runAborted pvcs k result w').
Proof.
  split_and!.
  - intros podName namespace w.
    destruct (Total_waitForPodCompletion kubectl podName namespace w) as (result & w' & Hrun).
    exists result, w'. split; [done|]. intros k Hk Hfailed.
    destruct (Tracks_waitForPodCompletion kubectl podName namespace _ _ _ Hrun)
      as (new & _ & Htr).
    destruct (Htr k Hk Hfailed) as [Hlast [Hres _]]. done.
  - intros e pvcs w.
    destruct (Total_StartMigration (migration2.migratePVC kubectl e) pvcs
                (fun pvc => Total_migratePVC2 kubectl e pvc) w) as (result & w' & Hrun).
    exists result, w'. split; [done|]. intros k Hk Hfailed.
    destruct (Tracks_StartMigration kubectl (migration2.migratePVC kubectl e)
                (Tracks_migratePVC2 kubectl e) pvcs _ _ _ Hrun) as (new & _ & Htr).
    by apply Htr.
  - intros hostname filepathJoin glob readFile Unmarshal e pvcs w.
    destruct (Total_StartMigration
                (migration1.migratePVC kubectl hostname filepathJoin glob readFile Unmarshal e)
                pvcs
                (fun pvc => Total_migratePVC1 kubectl hostname filepathJoin glob readFile
                              Unmarshal e pvc) w) as (result & w' & Hrun).
    exists result, w'. split; [done|]. intros k Hk Hfailed.
    destruct (Tracks_StartMigration kubectl _
                (Tracks_migratePVC1 kubectl hostname filepathJoin glob readFile Unmarshal e)
                pvcs _ _ _ Hrun) as (new & _ & Htr).
    by apply Htr.
Qed.

Lemma failed_pod_aborts_run_witness :
  ∃ w',
    migration2.StartMigration podFails engine2 [claimedPVC; secondClaim] startWorld
    = Returns (Some ("migration failed for PVC svc-app-data: failed to copy data: "
                       ++ "migration pod failed: migration pod failed")) w' ∧
    length (invocations w') = 5%nat ∧
    argv <$> invocations w' !! 4%nat
    = Some ["kubectl"; "get"; "pod"; "migration-svc-app-data-1700000000"; "-n"; "default";
            "-o"; "jsonpath={.status.phase}"] ∧
    last (stdout (console w'))
    = Some ("❌ Failed to migrate svc-app-data: failed to copy data: "
              ++ "migration pod failed: migration pod failed" ++ nl).
Proof.
  destruct (failed_pod_aborts_run podFails) as (_ & Hrun2 & _).
  destruct (Hrun2 engine2 [claimedPVC; secondClaim] startWorld) as (result & w' & Hrun & Htr).
  assert (Hlog : invocations w' !! 4%nat
                 = Some (pollCommand
                           (podPollArgs "migration-svc-app-data-1700000000" "default"))).
  { revert Hrun. vm_compute. intros [= _ <-]. reflexivity. }
  destruct (Htr 4%nat) as [Hlast (failing & Hin & _ & Hres & _ & Hout)].
  - cbn. lia.
  - eexists. split; [exact Hlog|]. split; [by eexists _, _|].
    split; vm_compute; reflexivity.
  - exists w'. rewrite Hrun.
    assert (failing = claimedPVC) as ->.
    { revert Hrun. rewrite Hres. vm_compute. intros [= Hname _].
      apply elem_of_cons in Hin as [->|Hin]; [done|].
      apply list_elem_of_singleton in Hin as ->. vm_compute in Hname. discriminate Hname. }
    split; [by rewrite Hres|]. split; [lia|]. split; [by rewrite Hlog|]. exact Hout.
Defined.

Example failed_pod_run_commands :
  match migration2.StartMigration podFails engine2 [claimedPVC; secondClaim] startWorld with
  | Returns _ w' =>
      (fun inv => take 3 (argv inv)) <$> invocations w'
      = [ ["kubectl"; "apply"; "-f"]; ["kubectl"; "get"; "pvc"]; ["kubectl"; "apply"; "-f"];
          ["kubectl"; "get"; "pod"]; ["kubectl"; "get"; "pod"] ]
  | _ => False
  end.
Proof. vm_compute. reflexivity. Qed.

(** ** Rewriting the declarations *)

Lemma yamlobj_get_set_eq (m : Object) (key : string) (v : Value) :
  yamlobj.get (yamlobj.set m key v) key = Some v.
Proof.
  induction m as [|[k v'] m IH]; cbn [yamlobj.set yamlobj.get].
  - by rewrite String.eqb_refl.
  - destruct (String.eqb k key) eqn:Hk; cbn [yamlobj.get]; by rewrite Hk.
Qed.

Lemma yamlobj_get_set_ne (m : Object) (key key' : string) (v : Value) :
  key ≠ key' → yamlobj.get (yamlobj.set m key v) key' = yamlobj.get m key'.
Proof.
  intros Hne. induction m as [|[k v'] m IH]; cbn [yamlobj.set yamlobj.get].
  - apply String.eqb_neq in Hne. by rewrite Hne.
  - destruct (String.eqb_spec k key) as [->|Hk]; cbn [yamlobj.get].
    + apply String.eqb_neq in Hne. by rewrite Hne.
    + by rewrite IH.
Qed.

Lemma parsePVCFromObject_fields (obj : Object) :
  kubernetes.parsePVCFromObject obj = claimOfFields (claimFields obj).
Proof.
  unfold kubernetes.parsePVCFromObject, claimOfFields, claimFields.
  cbn [fieldName fieldStorage fieldNamespace].
  destruct (yamlobj.getMap obj "metadata") as [metadata|]; cbn; [|done].
  destruct (yamlobj.getString metadata "name") as [name|]; [|done].
  destruct (yamlobj.getMap obj "spec") as [spec|]; cbn; [|done].
  destruct (yamlobj.getMap spec "resources") as [resources|]; cbn; [|done].
  destruct (yamlobj.getMap resources "requests") as [requests|]; cbn; [|done].
  destruct (yamlobj.getString requests "storage") as [storage|]; [|done].
  by destruct (yamlobj.getString metadata "namespace").
Qed.

(** Setting the storage changes the requested storage and none of the
    other three strings. *)
Lemma claimFields_setStorage (obj spec resources requests : Object) (size : string) :
  yamlobj.getMap obj "spec" = Some spec →
  yamlobj.getMap spec "resources" = Some resources →
  yamlobj.getMap resources "requests" = Some requests →
  claimFields (yaml.setStorage obj spec resources requests size)
  = mkClaimFields (fieldKind (claimFields obj)) (fieldName (claimFields obj))
                  (fieldNamespace (claimFields obj)) (Some size).
Proof.
  intros Hspec Hres Hreq. unfold claimFields, yaml.setStorage. cbv zeta.
  cbn [fieldKind fieldName fieldNamespace].
  unfold yamlobj.getString, yamlobj.getMap.
  rewrite (yamlobj_get_set_ne obj "spec" "kind") by discriminate.
  rewrite !(yamlobj_get_set_ne obj "spec" "metadata") by discriminate.
  do 4 (rewrite yamlobj_get_set_eq; cbn [mbind option_bind]). done.
Qed.

Section Rewrite.

Variable Unmarshal : string -> option Object.
Variable Marshal : Object -> option string.
Variable decodeAll : string -> list Object.
Variable wellFormed : string -> Prop.

Local Abbreviation ReadsBack := (ReadsBack Marshal decodeAll).
Local Abbreviation LibraryContract := (LibraryContract Marshal decodeAll wellFormed).
Local Abbreviation rewrittenFor := (rewrittenFor Unmarshal Marshal).
Local Abbreviation documentRewritten := (documentRewritten Unmarshal Marshal decodeAll).
Local Abbreviation fileRewritten := (fileRewritten Unmarshal Marshal decodeAll).
Local Abbreviation entryRewritten := (entryRewritten Unmarshal Marshal decodeAll).
Local Abbreviation update := (yaml.updateDocumentIfPVC Unmarshal Marshal).
Local Abbreviation claimsAt := (claimsAt decodeAll).

Lemma findMatching_spec (pvcs : list PVCInfo.t) (name namespace : string) (pvc : PVCInfo.t) :
  yaml.findMatching pvcs name namespace = Some pvc →
  pvc ∈ pvcs ∧ PVCInfo.Name pvc = name ∧ PVCInfo.Namespace pvc = namespace.
Proof.
  induction pvcs as [|p pvcs IH]; cbn [yaml.findMatching]; [done|].
  destruct (String.eqb_spec (PVCInfo.Name p) name) as [Hn|Hn]; cbn [andb].
  - destruct (String.eqb_spec (PVCInfo.Namespace p) namespace) as [Hns|Hns].
    + intros [= ->]. split; [apply elem_of_cons; by left | done].
    + intros H. destruct (IH H) as (Hin & ? & ?). split; [apply elem_of_cons; by right | done].
  - intros H. destruct (IH H) as (Hin & ? & ?). split; [apply elem_of_cons; by right | done].
Qed.

(** What [updateDocumentIfPVC] answers: the marshalled claim and [true]
    for a piece that it rewrites for a claim, the piece itself and [false]
    for every other piece. *)
Lemma updateDocumentIfPVC_cases (document : string) (pvcs : list PVCInfo.t) :
  (∃ pvc obj spec resources requests text,
      rewrittenFor pvcs document pvc ∧
      Unmarshal document = Some obj ∧
      yamlobj.getMap obj "spec" = Some spec ∧
      yamlobj.getMap spec "resources" = Some resources ∧
      yamlobj.getMap resources "requests" = Some requests ∧
      Marshal (yaml.setStorage obj spec resources requests (PVCInfo.NewSize pvc)) = Some text ∧
      update document pvcs = (text, true))
  ∨ ((∀ pvc, ¬ rewrittenFor pvcs document pvc) ∧ update document pvcs = (document, false)).
Proof.
  unfold yaml.updateDocumentIfPVC.
  destruct (Unmarshal document) as [obj|] eqn:Hobj.
  2: { right. split; [|done]. intros pvc (o & ? & ? & ? & Ho & _). congruence. }
  assert (Hnot : ∀ P : Prop,
             (∀ pvc spec resources requests,
                 fieldKind (claimFields obj) = Some "PersistentVolumeClaim" →
                 fieldName (claimFields obj) = Some (PVCInfo.Name pvc) →
                 default "default" (fieldNamespace (claimFields obj)) = PVCInfo.Namespace pvc →
                 yaml.findMatching pvcs (PVCInfo.Name pvc) (PVCInfo.Namespace pvc) = Some pvc →
                 PVCInfo.NewSize pvc ≠ "" →
                 yamlobj.getMap obj "spec" = Some spec →
                 yamlobj.getMap spec "resources" = Some resources →
                 yamlobj.getMap resources "requests" = Some requests →
                 is_Some (Marshal (yaml.setStorage obj spec resources requests
                                     (PVCInfo.NewSize pvc))) → False) →
             ∀ pvc, ¬ rewrittenFor pvcs document pvc).
  { intros _ H pvc (o & spec & resources & requests & Ho & Hrest).
    rewrite Hobj in Ho. injection Ho as <-. destruct Hrest as (?&?&?&?&?&?&?&?&?).
    by eapply (H pvc spec resources requests). }
  unfold claimFields in Hnot. cbn [fieldKind fieldName fieldNamespace] in Hnot.
  destruct (yamlobj.getString obj "kind") as [kind|] eqn:Hkind.
  2: { right. split; [|done]. apply (Hnot True). intros; discriminate. }
  destruct (String.eqb_spec kind "PersistentVolumeClaim") as [->|Hk]; cbn [negb].
  2: { right. split; [|done]. apply (Hnot True). intros; congruence. }
  destruct (yamlobj.getMap obj "metadata") as [metadata|] eqn:Hmeta; cbn [mbind option_bind] in Hnot.
  2: { right. split; [|done]. apply (Hnot True). intros; discriminate. }
  destruct (yamlobj.getString metadata "name") as [name|] eqn:Hname.
  2: { right. split; [|done]. apply (Hnot True). intros; discriminate. }
  cbv zeta.
  assert (Hns : match yamlobj.getString metadata "namespace" with
                | Some ns => ns | None => "default" end
                = default "default" (yamlobj.getString metadata "namespace"))
    by (by destruct (yamlobj.getString metadata "namespace")).
  rewrite Hns. set (namespace := default "default" (yamlobj.getString metadata "namespace")) in *.
  destruct (yaml.findMatching pvcs name namespace) as [pvc|] eqn:Hfind.
  2: { right. split; [|done]. apply (Hnot True).
       intros pvc ? ? ? _ [= ->] <- Hf. congruence. }
  destruct (String.eqb_spec (PVCInfo.NewSize pvc) "") as [Hempty|Hsize].
  { right. split; [|done]. apply (Hnot True).
    intros pvc' ? ? ? _ [= ->] <- Hf. congruence. }
  destruct (yamlobj.getMap obj "spec") as [spec|] eqn:Hspec.
  2: { right. split; [|done]. apply (Hnot True). intros; discriminate. }
  destruct (yamlobj.getMap spec "resources") as [resources|] eqn:Hres.
  2: { right. split; [|done]. apply (Hnot True). intros; congruence. }
  destruct (yamlobj.getMap resources "requests") as [requests|] eqn:Hreq.
  2: { right. split; [|done]. apply (Hnot True). intros; congruence. }
  destruct (findMatching_spec _ _ _ _ Hfind) as (Hin & Hn & Hnsp).
  destruct (Marshal (yaml.setStorage obj spec resources requests (PVCInfo.NewSize pvc)))
    as [text|] eqn:Hmarshal.
  2: { right. split; [|done]. apply (Hnot True).
       intros pvc' spec' resources' requests' _ [= ->] <- Hf _ [= <-] Hres' Hreq' Hsome.
       assert (pvc' = pvc) as -> by congruence.
       rewrite Hres in Hres'. injection Hres' as <-.
       rewrite Hreq in Hreq'. injection Hreq' as <-.
       rewrite Hmarshal in Hsome. by destruct Hsome. }
  left. exists pvc, obj, spec, resources, requests, text. split_and!; try done.
  exists obj, spec, resources, requests. unfold claimFields.
  cbn [fieldKind fieldName fieldNamespace]. rewrite Hkind, Hmeta. cbn [mbind option_bind].
  rewrite Hname, Hn, Hnsp. by split_and!; try done.
Qed.

(** The claim that a piece is rewritten for is determined by the piece. *)
Lemma rewrittenFor_unique (pvcs : list PVCInfo.t) (document : string) (pvc pvc' : PVCInfo.t) :
  rewrittenFor pvcs document pvc → rewrittenFor pvcs document pvc' → pvc = pvc'.
Proof.
  intros (obj & ? & ? & ? & Hobj & _ & Hname & Hns & Hfind & _)
         (obj' & ? & ? & ? & Hobj' & _ & Hname' & Hns' & Hfind' & _).
  rewrite Hobj in Hobj'. injection Hobj' as <-.
  rewrite Hname in Hname'. injection Hname' as Hn. rewrite Hns in Hns'.
  rewrite <- Hn, <- Hns' in Hfind'. congruence.
Qed.

(** The claims that the parser reads of what [yaml.Marshal] wrote for a
    claim. *)
Lemma marshalled_claim (pvcs : list PVCInfo.t) (document : string) (pvc : PVCInfo.t)
    (obj spec resources requests : Object) (text : string) :
  ReadsBack →
  rewrittenFor pvcs document pvc →
  Unmarshal document = Some obj →
  yamlobj.getMap obj "spec" = Some spec →
  yamlobj.getMap spec "resources" = Some resources →
  yamlobj.getMap resources "requests" = Some requests →
  Marshal (yaml.setStorage obj spec resources requests (PVCInfo.NewSize pvc)) = Some text →
  kubernetes.claimsOf (decodeAll text) = [resized pvc].
Proof.
  intros Hreads (obj0 & ? & ? & ? & Hobj0 & Hkind & Hname & Hns & _) Hobj Hspec Hres Hreq Hm.
  rewrite Hobj in Hobj0. injection Hobj0 as <-.
  destruct (Hreads _ _ Hm) as (obj' & Hdecode & Hsame).
  rewrite (claimFields_setStorage _ _ _ _ _ Hspec Hres Hreq), Hkind, Hname in Hsame.
  rewrite Hdecode. unfold kubernetes.claimsOf. cbn [omap list_omap].
  assert (yamlobj.getString obj' "kind" = Some "PersistentVolumeClaim") as ->.
  { change (fieldKind (claimFields obj') = Some "PersistentVolumeClaim"). by rewrite Hsame. }
  cbn. rewrite parsePVCFromObject_fields, Hsame. unfold claimOfFields, resized.
  cbn [fieldName fieldStorage fieldNamespace]. by rewrite Hns.
Qed.

Lemma updateDocumentIfPVC_rewritten (document : string) (pvcs : list PVCInfo.t) :
  ReadsBack →
  documentRewritten pvcs document (fst (update document pvcs)).
Proof.
  intros Hreads.
  destruct (updateDocumentIfPVC_cases document pvcs)
    as [(pvc & obj & spec & resources & requests & text & Hfor & Hobj & Hspec & Hres & Hreq
         & Hm & ->) | [Hnone ->]]; cbn [fst].
  - split.
    + intros pvc' Hfor'. rewrite <- (rewrittenFor_unique _ _ _ _ Hfor Hfor').
      by eapply marshalled_claim.
    + intros Hnone. by destruct (Hnone pvc).
  - split; [|done]. intros pvc Hfor. by destruct (Hnone pvc).
Qed.

(** A piece is reported as updated exactly when it is rewritten for a
    claim. *)
Lemma updateDocumentIfPVC_updated (document : string) (pvcs : list PVCInfo.t) :
  snd (update document pvcs) = true ↔ ∃ pvc, rewrittenFor pvcs document pvc.
Proof.
  destruct (updateDocumentIfPVC_cases document pvcs)
    as [(pvc & obj & spec & resources & requests & text & Hfor & _ & _ & _ & _ & _ & ->)
       | [Hnone ->]]; cbn [snd].
  - split; [by exists pvc | done].
  - split; [done | intros [pvc Hfor]; by destruct (Hnone pvc)].
Qed.

(** What [yaml.Marshal] wrote is well formed, and so is a piece that is
    left as it was. *)
Lemma updateDocumentIfPVC_wellFormed (document : string) (pvcs : list PVCInfo.t) :
  LibraryContract → wellFormed document → wellFormed (fst (update document pvcs)).
Proof.
  intros (_ & Hwrites & _) Hdoc.
  destruct (updateDocumentIfPVC_cases document pvcs)
    as [(pvc & obj & spec & resources & requests & text & _ & _ & _ & _ & _ & Hm & ->)
       | [_ ->]]; cbn [fst]; [by eapply Hwrites | done].
Qed.

(** The loop of [updateYAMLFile], piece by piece. *)
Lemma updateDocuments_map (content : string) (pvcs : list PVCInfo.t) :
  yaml.updateDocuments Unmarshal Marshal content pvcs
  = (map (fun doc => fst (update doc pvcs)) (yaml.documentsOf content),
     existsb (fun doc => snd (update doc pvcs)) (yaml.documentsOf content)).
Proof.
  unfold yaml.updateDocuments.
  enough (H : ∀ docs done changed,
             fold_left
               (fun '(updatedDocuments, hasUpdates) doc =>
                  let '(updatedDoc, updated) := update doc pvcs in
                  ((updatedDocuments ++ [updatedDoc])%list, hasUpdates || updated))
               docs (done, changed)
             = ((done ++ map (fun doc => fst (update doc pvcs)) docs)%list,
                changed || existsb (fun doc => snd (update doc pvcs)) docs))
    by apply (H _ [] false).
  induction docs as [|doc docs IH]; intros done changed; cbn [fold_left map existsb].
  - by rewrite app_nil_r, orb_false_r.
  - destruct (update doc pvcs) as [updatedDoc updated]. cbn [fst snd].
    by rewrite IH, <- app_assoc, orb_assoc.
Qed.

Lemma existsb_updated (documents : list string) (pvcs : list PVCInfo.t) :
  existsb (fun doc => snd (update doc pvcs)) documents = true
  ↔ ∃ document pvc, document ∈ documents ∧ rewrittenFor pvcs document pvc.
Proof.
  rewrite existsb_exists. split.
  - intros (doc & Hin%list_elem_of_In & [pvc Hfor]%updateDocumentIfPVC_updated). by exists doc, pvc.
  - intros (doc & pvc & Hin & Hfor). exists doc. split; [by apply list_elem_of_In|].
    apply updateDocumentIfPVC_updated. by exists pvc.
Qed.

(** A declaration file that [updateYAMLFile] leaves without an error. *)
Lemma updateYAMLFile_ok (path : string) (file file' : File) (pvcs : list PVCInfo.t) :
  yaml.updateYAMLFile Unmarshal Marshal path file pvcs = (file', None) →
  ∃ content onWrite,
    file = RegularFile content onWrite ∧
    let documents := map (fun doc => fst (update doc pvcs)) (yaml.documentsOf content) in
    if existsb (fun doc => snd (update doc pvcs)) (yaml.documentsOf content)
    then file' = RegularFile (Join documents yaml.separator) onWrite
    else file' = file.
Proof.
  destruct file as [content onWrite| |]; cbn [yaml.updateYAMLFile]; [|done..].
  rewrite updateDocuments_map. intros H. exists content, onWrite. split; [done|]. cbv zeta.
  destruct (existsb _ _); [|congruence].
  destruct onWrite; congruence.
Qed.

Lemma updateYAMLFile_rewritten (path : string) (file file' : File) (pvcs : list PVCInfo.t) :
  ReadsBack →
  isYAMLPath path = true →
  yaml.updateYAMLFile Unmarshal Marshal path file pvcs = (file', None) →
  entryRewritten pvcs (path, Found file) (path, Found file').
Proof.
  intros Hreads Hyaml Hfile. destruct (updateYAMLFile_ok _ _ _ _ Hfile) as (content & onWrite & -> & H).
  split; [done|]. cbn [fst snd]. rewrite Hyaml.
  exists (map (fun doc => fst (update doc pvcs)) (yaml.documentsOf content)). split_and!.
  - apply Forall2_fmap_r, Forall_Forall2_diag, Forall_forall.
    intros doc _. by apply updateDocumentIfPVC_rewritten.
  - intros Hnone. cbv zeta in H.
    destruct (existsb _ _) eqn:Hex; [|by rewrite H].
    apply existsb_updated in Hex as (doc & pvc & Hin & Hfor). by destruct (Hnone doc pvc).
  - intros Hsome%existsb_updated. cbv zeta in H. rewrite Hsome in H. by rewrite H.
Qed.

(** The walk that ends without an error has met no inaccessible path and
    has updated every declaration file. *)
Lemma updateWalk_ok (fs fs' : FileSystem) (pvcs : list PVCInfo.t) :
  yaml.updateWalk Unmarshal Marshal fs pvcs = (fs', None) →
  Forall2 (fun before after =>
             ∃ path file file',
               before = (path, Found file) ∧ after = (path, Found file') ∧
               if isYAMLPath path
               then yaml.updateYAMLFile Unmarshal Marshal path file pvcs = (file', None)
               else file' = file)
          fs fs'.
Proof.
  revert fs'. induction fs as [|[path [file|err]] rest IH]; intros fs';
    cbn [yaml.updateWalk]; [intros [= <-]; constructor | | done].
  destruct (isYAMLPath path) eqn:Hyaml.
  - destruct (yaml.updateYAMLFile Unmarshal Marshal path file pvcs) as [file' [msg|]] eqn:Hfile;
      [done|].
    destruct (yaml.updateWalk Unmarshal Marshal rest pvcs) as [rest' err].
    intros [= <- ->]. constructor; [|by apply IH].
    exists path, file, file'. by rewrite Hyaml.
  - destruct (yaml.updateWalk Unmarshal Marshal rest pvcs) as [rest' err].
    intros [= <- ->]. constructor; [|by apply IH].
    exists path, file, file. by rewrite Hyaml.
Qed.

Lemma updateWalk_rewritten (fs fs' : FileSystem) (pvcs : list PVCInfo.t) :
  ReadsBack →
  yaml.updateWalk Unmarshal Marshal fs pvcs = (fs', None) →
  Forall2 (entryRewritten pvcs) fs fs'.
Proof.
  intros Hreads Hwalk. eapply Forall2_impl; [by apply updateWalk_ok|].
  intros before after (path & file & file' & -> & -> & H).
  destruct (isYAMLPath path) eqn:Hyaml.
  - by apply updateYAMLFile_rewritten.
  - subst file'. split; [done|]. cbn [fst snd]. rewrite Hyaml. by destruct file.
Qed.

(** The parser on a walk without an inaccessible path and without an
    unreadable declaration file. *)
Lemma parseWalk_ok (fs : FileSystem) (pvcs : list PVCInfo.t) :
  Forall (fun visit => parseFault (fst visit) (snd visit) = None) fs →
  kubernetes.parseWalk decodeAll fs pvcs = ((pvcs ++ concat (map claimsAt fs))%list, None).
Proof.
  revert pvcs. induction fs as [|[path [file|err]] rest IH]; intros pvcs Hall;
    cbn [kubernetes.parseWalk map concat].
  - by rewrite app_nil_r.
  - apply Forall_cons in Hall as [Hhead Hrest]. cbn [fst snd parseFault] in Hhead.
    cbn [claimsAt]. destruct (isYAMLPath path).
    + destruct file as [content onWrite|reason|]; cbn [kubernetes.parseYAMLFile]; [| done |].
      * by rewrite IH, <- app_assoc.
      * by rewrite IH, app_nil_r.
    + rewrite IH by done. by destruct file.
  - by apply Forall_cons in Hall as [[=] _].
Qed.

Lemma elem_of_concat {A : Type} (x : A) (lists : list (list A)) :
  x ∈ concat lists ↔ ∃ l, x ∈ l ∧ l ∈ lists.
Proof.
  rewrite list_elem_of_In, in_concat. split.
  - intros (l & Hl & Hx). exists l. by rewrite !list_elem_of_In.
  - intros (l & Hx & Hl). exists l. by rewrite <- !list_elem_of_In.
Qed.

Lemma elem_of_map {A B : Type} (f : A → B) (l : list A) (y : B) :
  y ∈ map f l ↔ ∃ x, y = f x ∧ x ∈ l.
Proof.
  rewrite list_elem_of_In, in_map_iff. split.
  - intros (x & <- & Hx). exists x. by rewrite list_elem_of_In.
  - intros (x & -> & Hx). exists x. by rewrite <- list_elem_of_In.
Qed.

Lemma claimsOf_concat (lists : list (list Object)) :
  kubernetes.claimsOf (concat lists) = concat (map kubernetes.claimsOf lists).
Proof.
  unfold kubernetes.claimsOf. induction lists as [|l lists IH]; cbn [concat map]; [done|].
  by rewrite omap_app, IH.
Qed.

End Rewrite.


(** ** Splitting what was joined *)

Lemma prefix_empty (s : string) : String.prefix "" s = true.
Proof. by destruct s. Qed.

Lemma prefix_app_same (p s : string) : String.prefix p (p ++ s) = true.
Proof.
  induction p as [|c p IH]; [apply prefix_empty|].
  change (String.prefix (String c p) (String c p ++ s))
    with (if ascii_dec c c then String.prefix p (p ++ s) else false).
  destruct (ascii_dec c c) as [_|Hne]; [apply IH | by destruct Hne].
Qed.

(** A text that does not begin with [p] and is at least as long as [p]
    does not begin with [p] however it goes on. *)
Lemma prefix_false_app (p s t : string) :
  String.prefix p s = false → (String.length p <= String.length s)%nat →
  String.prefix p (s ++ t) = false.
Proof.
  revert s. induction p as [|c p IH]; intros [|d s]; try done.
  - cbn [String.length]. lia.
  - change (String.prefix (String c p) (String d s))
      with (if ascii_dec c d then String.prefix p s else false).
    change (String.prefix (String c p) (String d s ++ t))
      with (if ascii_dec c d then String.prefix p (s ++ t) else false).
    cbn [String.length]. destruct (ascii_dec c d); [|done].
    intros Hp Hlen. apply IH; [done | lia].
Qed.

Lemma split_go_skip (sep skipped rest : string) :
  split_go sep (String.length skipped) (skipped ++ rest) = split_go sep 0 rest.
Proof. induction skipped as [|c skipped IH]; [done | apply IH]. Qed.

Lemma substring_all_but_last (c : ascii) (s : string) :
  ∃ last, String c s = substring 0 (String.length s) (String c s) ++ String last "".
Proof.
  revert c. induction s as [|d s IH]; intros c; [by exists c|].
  destruct (IH d) as [last Hlast]. exists last.
  change (substring 0 (String.length (String d s)) (String c (String d s)))
    with (String c (substring 0 (String.length s) (String d s))).
  by rewrite append_cons, <- Hlast.
Qed.

Lemma substring_length (n : nat) (s : string) :
  (n <= String.length s)%nat → String.length (substring 0 n s) = n.
Proof.
  revert s. induction n as [|n IH]; intros [|c s]; cbn [String.length substring]; try done;
    [lia|].
  intros Hn. rewrite IH; [done | lia].
Qed.

Lemma length_append (s t : string) :
  String.length (s ++ t) = (String.length s + String.length t)%nat.
Proof.
  induction s as [|c s IH]; [done|].
  rewrite append_cons. cbn [String.length]. by rewrite IH.
Qed.

(** Pieces that keep apart from the separator are split off as they were
    joined. *)
Lemma split_go_joined (sep d rest : string) :
  sep ≠ "" → apart sep d = true →
  split_go sep 0 (d ++ sep ++ rest) = d :: split_go sep 0 rest.
Proof.
  intros Hsep. destruct sep as [|c0 sep]; [done|]. clear Hsep.
  induction d as [|c d IH]; intros Hapart.
  - change ("" ++ String c0 sep ++ rest) with (String c0 (sep ++ rest)).
    cbn [split_go].
    change (String.prefix (String c0 sep) (String c0 (sep ++ rest)))
      with (String.prefix (String c0 sep) (String c0 sep ++ rest)).
    rewrite prefix_app_same. f_equal.
    replace (String.length (String c0 sep) - 1)%nat with (String.length sep) by (cbn; lia).
    apply split_go_skip.
  - cbn [apart] in Hapart. apply andb_true_iff in Hapart as [Hhere%negb_true_iff Hrest].
    change (String c d ++ String c0 sep ++ rest) with (String c (d ++ String c0 sep ++ rest)).
    cbn [split_go].
    assert (String.prefix (String c0 sep) (String c (d ++ String c0 sep ++ rest)) = false) as ->.
    { destruct (substring_all_but_last c0 sep) as [last Hlast].
      replace (String.length (String c0 sep) - 1)%nat with (String.length sep) in Hhere
        by (cbn; lia).
      assert (Hlen : String.length (substring 0 (String.length sep) (String c0 sep))
                     = String.length sep) by (apply substring_length; cbn; lia).
      set (front := substring 0 (String.length sep) (String c0 sep)) in *.
      assert (String c (d ++ String c0 sep ++ rest)
              = (String c d ++ front) ++ String last "" ++ rest) as ->.
      { rewrite <- append_cons, Hlast. by rewrite !append_assoc. }
      apply prefix_false_app; [done|]. rewrite length_append, Hlen. cbn. lia. }
    by rewrite IH.
Qed.

(** The texts that the stand-in knows are split as one piece each. *)
Lemma sample_pieces (document rest : string) :
  sampleWellFormed document →
  Split document yaml.separator = [document] ∧
  Split (document ++ yaml.separator ++ rest) yaml.separator
  = document :: Split rest yaml.separator.
Proof.
  intros Hdoc.
  assert (Split document yaml.separator = [document] ∧ apart yaml.separator document = true)
    as [Hone Hapart].
  { unfold sampleWellFormed in Hdoc. rewrite !elem_of_cons, elem_of_nil in Hdoc.
    destruct Hdoc as [->|[->|[->|[->|[]]]]]; split; vm_compute; reflexivity. }
  split; [done|]. by apply split_go_joined.
Qed.

Lemma sample_contract : LibraryContract sampleMarshal sampleDecodeAll sampleWellFormed.
Proof.
  split_and!.
  - intros obj text. unfold sampleMarshal. case_decide as Hfields; [|done].
    intros [= <-]. exists (claimObject "5Gi"). split; [vm_compute; reflexivity | done].
  - intros obj text. unfold sampleMarshal. case_decide as Hfields; [|done].
    intros [= <-]. unfold sampleWellFormed. rewrite !elem_of_cons. auto.
  - intros documents Hall. unfold sampleDecodeAll.
    induction Hall as [|document rest Hdoc Hrest IH]; [reflexivity|].
    destruct rest as [|next rest].
    + cbn [Join map concat]. by rewrite app_nil_r.
    + change (Join (document :: next :: rest) yaml.separator)
        with (document ++ yaml.separator ++ Join (next :: rest) yaml.separator).
      destruct (sample_pieces document (Join (next :: rest) yaml.separator) Hdoc) as [Hone Hcons].
      rewrite Hcons. cbn [map concat]. rewrite IH, Hone. cbn [map concat].
      by rewrite app_nil_r.
Qed.

Lemma sample_directory_wellFormed : wellFormedDirectory sampleWellFormed sampleDirectory.
Proof.
  intros path content onWrite. unfold sampleDirectory. rewrite !elem_of_cons, elem_of_nil.
  intros [[= -> -> ->]|[[= -> -> ->]|[]]] Hyaml; [|by vm_compute in Hyaml].
  assert (yaml.documentsOf
            (serviceDocument ++ yaml.separator ++ nl ++ yaml.separator ++ claimDocument "1Gi")
          = [serviceDocument; claimDocument "1Gi"]) as -> by (vm_compute; reflexivity).
  unfold sampleWellFormed. repeat constructor; rewrite !elem_of_cons; auto.
Qed.



(* ================================================================== *)
(** * Part III: further properties of the packages *)
(* ================================================================== *)

(** ** The inventory of Docker volumes *)

Section Loading.
Variable floatBytes : string -> Z -> option Z.
Variable getVolumeSize : string -> Z * string.

Lemma loadVolume_lookup (sizes : option (gmap string docker.volumeSize))
    (result : gmap string DockerVolumeInfo.t) (v : volume.Volume) (name : string) :
  docker.loadVolume getVolumeSize sizes result v !! name
  = if decide (volume.Name v = name) then
      match sizes ≫= (λ m, m !! name) with
      | Some sz =>
          if (0 <? docker.links sz)%Z then result !! name
          else
            let '(size, human) :=
              if (docker.bytes sz =? 0)%Z then getVolumeSize (volume.Mountpoint v)
              else (docker.bytes sz, docker.human sz) in
            Some (DockerVolumeInfo.mk name (volume.Mountpoint v) size human)
      | None =>
          let '(size, human) := getVolumeSize (volume.Mountpoint v) in
          Some (DockerVolumeInfo.mk name (volume.Mountpoint v) size human)
      end
    else result !! name.
Proof.
  unfold docker.loadVolume. destruct (decide (volume.Name v = name)) as [<-|Hne].
  - destruct sizes as [m|]; cbn [mbind option_bind].
    + destruct (m !! volume.Name v) as [sz|]; cbn.
      * destruct (0 <? docker.links sz)%Z; [done|].
        destruct (docker.bytes sz =? 0)%Z.
        -- destruct (getVolumeSize _). by rewrite lookup_insert_eq.
        -- by rewrite lookup_insert_eq.
      * destruct (getVolumeSize _). by rewrite lookup_insert_eq.
    + cbn. destruct (getVolumeSize _). by rewrite lookup_insert_eq.
  - destruct (match sizes with Some _ => _ | None => _ end) as [[size sizeHuman] links].
    destruct (0 <? links)%Z; [done|].
    destruct (if (size =? 0)%Z then _ else _) as [size' sizeHuman'].
    by rewrite lookup_insert_ne.
Qed.

Lemma loadVolume_listed (sizes : option (gmap string docker.volumeSize))
    (result : gmap string DockerVolumeInfo.t) (v : volume.Volume) (name : string) :
  is_Some (docker.loadVolume getVolumeSize sizes result v !! name)
  ↔ is_Some (result !! name) ∨ (volume.Name v = name ∧ idleIn sizes name).
Proof.
  rewrite loadVolume_lookup. unfold idleIn. destruct (decide (volume.Name v = name)) as [Heq|Hne].
  - destruct (sizes ≫= (λ m, m !! name)) as [sz|].
    + destruct (Z.ltb_spec 0 (docker.links sz)).
      * split; [by left|]. intros [?|[_ Hidle]]; [done|]. specialize (Hidle sz eq_refl). lia.
      * destruct (if (docker.bytes sz =? 0)%Z then _ else _).
        split; [|done]. intros _. right. split; [done|]. by intros ? [= <-].
    + destruct (getVolumeSize _). split; [|done]. intros _. right. by split.
  - split; [by left|]. by intros [?|[? _]].
Qed.

Lemma loadVolumes_listed (sizes : option (gmap string docker.volumeSize))
    (vols : list volume.Volume) (result : gmap string DockerVolumeInfo.t) (name : string) :
  is_Some (fold_left (docker.loadVolume getVolumeSize sizes) vols result !! name)
  ↔ is_Some (result !! name) ∨ (name ∈ map volume.Name vols ∧ idleIn sizes name).
Proof.
  revert result. induction vols as [|v vols IH]; intros result; cbn [fold_left map].
  - split; [by left|]. intros [?|[?%elem_of_nil _]]; done.
  - rewrite IH, loadVolume_listed, elem_of_cons. clear IH. split.
    + intros [[?|[? ?]]|[? ?]]; [by left | right; split; [by left|done] | right; split; [by right|done]].
    + intros [?|[[->|?] ?]]; [by left; left | by left; right | by right].
Qed.

Lemma loadVolumes_filed (sizes : option (gmap string docker.volumeSize))
    (all vols : list volume.Volume) (result : gmap string DockerVolumeInfo.t) :
  vols ⊆ all →
  (∀ name info, result !! name = Some info →
                ∃ v, v ∈ all ∧ volume.Name v = name ∧ info = filedFor getVolumeSize sizes v) →
  ∀ name info, fold_left (docker.loadVolume getVolumeSize sizes) vols result !! name = Some info →
               ∃ v, v ∈ all ∧ volume.Name v = name ∧ info = filedFor getVolumeSize sizes v.
Proof.
  revert result. induction vols as [|v vols IH]; intros result Hsub Hres; cbn [fold_left]; [done|].
  apply IH; [set_solver|]. intros name info. rewrite loadVolume_lookup.
  destruct (decide (volume.Name v = name)) as [<-|Hne]; [|apply Hres].
  assert (v ∈ all) as Hv by set_solver.
  destruct (sizes ≫= (λ m, m !! volume.Name v)) as [sz|] eqn:Hsz.
  - destruct (0 <? docker.links sz)%Z; [apply Hres|].
    intros Hinfo. exists v. split_and!; [done..|]. unfold filedFor. rewrite Hsz.
    destruct (if (docker.bytes sz =? 0)%Z then _ else _) as [size human]. congruence.
  - intros Hinfo. exists v. split_and!; [done..|]. unfold filedFor. rewrite Hsz.
    destruct (getVolumeSize _) as [size human]. congruence.
Qed.

End Loading.


(** X2.  An entry of the inventory is filed under the name of a listed
    volume and carries its mount point; its size is the one that
    [docker system df -v] reported, and the one that the walk of the mount
    point yields when none or zero was reported. *)
Theorem LoadVolumes_entry
    (floatBytes : string -> Z -> option Z) (getVolumeSize : string -> Z * string)
    (vols : list volume.Volume) (dfOutput : option string)
    (inventory : gmap string DockerVolumeInfo.t) (name : string) (info : DockerVolumeInfo.t) :
  docker.LoadVolumes floatBytes getVolumeSize (Some vols) dfOutput = Some inventory →
  inventory !! name = Some info →
  ∃ v, v ∈ vols ∧ volume.Name v = name ∧
       DockerVolumeInfo.Name info = name ∧
       DockerVolumeInfo.Mountpoint info = volume.Mountpoint v ∧
       (DockerVolumeInfo.Size info, DockerVolumeInfo.SizeHuman info)
       = match reportedSize floatBytes dfOutput name with
         | Some sz =>
             if (docker.bytes sz =? 0)%Z then getVolumeSize (volume.Mountpoint v)
             else (docker.bytes sz, docker.human sz)
         | None => getVolumeSize (volume.Mountpoint v)
         end.
Proof.
  intros [= <-] Hinfo.
  eapply loadVolumes_filed in Hinfo as (v & Hv & Hname & ->); [|done|by intros ? ?; rewrite lookup_empty].
  exists v. unfold filedFor, reportedSize. rewrite Hname.
  destruct dfOutput as [text|]; cbn [option_map mbind option_bind].
  - destruct (docker.parseDockerDFOutput floatBytes text !! name) as [sz|].
    + destruct (docker.bytes sz =? 0)%Z; [destruct (getVolumeSize _)|]; by split_and!.
    + destruct (getVolumeSize _); by split_and!.
  - destruct (getVolumeSize _); by split_and!.
Qed.

Lemma nth_lookup_string (l : list string) (i : nat) :
  (i < length l)%nat → l !! i = Some (nth i l "").
Proof.
  revert i. induction l as [|x l IH]; intros [|i] Hi; cbn in *; try lia; [done|].
  apply IH. lia.
Qed.

Lemma last_nth_string (l : list string) :
  (0 < length l)%nat → last l = Some (nth (length l - 1) l "").
Proof.
  induction l as [|x l IH]; cbn [length]; [lia|]. intros _.
  destruct l as [|y l]; [done|].
  rewrite last_cons. rewrite IH by (cbn; lia). cbn [length].
  replace (S (S (length l)) - 1)%nat with (S (length l)) by lia.
  replace (S (length l) - 1)%nat with (length l) by lia. done.
Qed.

Lemma parseDockerDFLine_lookup (floatBytes : string -> Z -> option Z)
    (sizes : gmap string docker.volumeSize) (line name : string) (sz : docker.volumeSize) :
  docker.parseDockerDFLine floatBytes sizes line !! name = Some sz →
  sizes !! name = Some sz ∨ reportsVolume floatBytes line name sz.
Proof.
  unfold docker.parseDockerDFLine, reportsVolume. cbv zeta.
  destruct (String.eqb_spec (TrimSpace line) "") as [|Hne]; [by left|].
  destruct (HasPrefix (TrimSpace line) "VOLUME NAME") eqn:Hhead; [by left|].
  destruct (Contains (TrimSpace line) "Local Volumes") eqn:Htitle; [by left|].
  cbn [orb].
  destruct (Nat.leb_spec 3 (length (Fields (TrimSpace line)))) as [Hlen|]; [|by left].
  destruct (Atoi (nth 1 _ "")) as [links|] eqn:Hlinks; [|by left].
  destruct (docker.parseSizeString floatBytes _) as [bytes|] eqn:Hbytes; [|by left].
  destruct (decide (nth 0 (Fields (TrimSpace line)) "" = name)) as [<-|Hother].
  - rewrite lookup_insert_eq. intros [= <-]. right. cbn [docker.links docker.human docker.bytes].
    split_and!; try done.
    + apply nth_lookup_string. lia.
    + rewrite (nth_lookup_string _ 1) by lia. done.
    + apply last_nth_string. lia.
  - rewrite lookup_insert_ne by done. by left.
Qed.

(** X3.  Every entry that [parseDockerDFOutput] makes comes from a line of
    the output that is no heading and has at least three fields: the name
    is the first field, the links are the second read as an integer, and
    the size is the last field, which [parseSizeString] accepts. *)
Theorem parseDockerDFOutput_entry (floatBytes : string -> Z -> option Z)
    (output name : string) (sz : docker.volumeSize) :
  docker.parseDockerDFOutput floatBytes output !! name = Some sz →
  ∃ line, line ∈ Split output nl ∧ reportsVolume floatBytes line name sz.
Proof.
  unfold docker.parseDockerDFOutput.
  assert (Hfold : ∀ lines sizes,
            fold_left (docker.parseDockerDFLine floatBytes) lines sizes !! name = Some sz →
            sizes !! name = Some sz ∨ ∃ line, line ∈ lines ∧ reportsVolume floatBytes line name sz).
  { induction lines as [|line lines IH]; intros sizes; cbn [fold_left]; [by left|].
    intros [Hsz|(l & Hl & Hrep)]%IH.
    - apply parseDockerDFLine_lookup in Hsz as [?|?]; [by left|].
      right. exists line. split; [apply elem_of_cons; by left | done].
    - right. exists l. split; [apply elem_of_cons; by right | done]. }
  intros [Hsz|?]%Hfold; [|done]. by rewrite lookup_empty in Hsz.
Qed.

Lemma span_digits_spec (s : string) :
  s = fst (docker.span_digits s) ++ snd (docker.span_digits s) ∧
  allBytes is_digit (fst (docker.span_digits s)) = true ∧
  stopsAt is_digit (snd (docker.span_digits s)).
Proof.
  induction s as [|c s IH]; cbn [docker.span_digits]; [done|].
  destruct (is_digit c) eqn:Hc.
  - destruct (docker.span_digits s) as [d r]. cbn [fst snd] in *.
    destruct IH as (Hs & Hd & Hr). rewrite append_cons. cbn [allBytes]. rewrite Hc, Hd.
    split_and!; [by f_equal | done | done].
  - cbn [fst snd allBytes stopsAt]. done.
Qed.

Lemma span_digits_app (d r : string) :
  allBytes is_digit d = true → stopsAt is_digit r → docker.span_digits (d ++ r) = (d, r).
Proof.
  intros Hd Hr. induction d as [|c d IH].
  - rewrite append_empty. destruct r as [|c r]; [done|]. cbn in *. by rewrite Hr.
  - cbn [allBytes] in Hd. apply andb_true_iff in Hd as [Hc Hd].
    rewrite append_cons. cbn [docker.span_digits]. rewrite Hc, (IH Hd). done.
Qed.

Lemma skip_re_space_spec (s : string) :
  ∃ gap, s = gap ++ docker.skip_re_space s ∧ allBytes docker.is_re_space gap = true.
Proof.
  induction s as [|c s (gap & Hs & Hgap)]; cbn [docker.skip_re_space]; [by exists ""|].
  destruct (docker.is_re_space c) eqn:Hc.
  - exists (String c gap). rewrite append_cons. cbn [allBytes]. rewrite Hc, Hgap.
    split; [by f_equal | done].
  - by exists "".
Qed.

Lemma skip_re_space_app (gap r : string) :
  allBytes docker.is_re_space gap = true → stopsAt docker.is_re_space r →
  docker.skip_re_space (gap ++ r) = r.
Proof.
  intros Hgap Hr. induction gap as [|c gap IH].
  - rewrite append_empty. destruct r as [|c r]; [done|]. cbn in *. by rewrite Hr.
  - cbn [allBytes] in Hgap. apply andb_true_iff in Hgap as [Hc Hgap].
    rewrite append_cons. cbn [docker.skip_re_space]. rewrite Hc. by apply IH.
Qed.

Lemma match_unit_spec (s unit : string) :
  docker.match_unit s = Some unit ↔ s = unit ∧ is_Some (docker.multiplier unit).
Proof.
  unfold docker.match_unit, docker.multiplier. cbn [existsb].
  split.
  - destruct (String.eqb_spec s "B") as [->|]; [intros [= <-]; by split|].
    destruct (String.eqb_spec s "KB") as [->|]; [intros [= <-]; by split|].
    destruct (String.eqb_spec s "MB") as [->|]; [intros [= <-]; by split|].
    destruct (String.eqb_spec s "GB") as [->|]; [intros [= <-]; by split|].
    destruct (String.eqb_spec s "TB") as [->|]; [intros [= <-]; by split|].
    destruct (String.eqb_spec s "PB") as [->|]; [intros [= <-]; by split|].
    destruct (String.eqb_spec s "EB") as [->|]; [intros [= <-]; by split|].
    done.
  - intros [-> Hm].
    destruct (String.eqb unit "B"); [done|].
    destruct (String.eqb unit "KB"); [done|].
    destruct (String.eqb unit "MB"); [done|].
    destruct (String.eqb unit "GB"); [done|].
    destruct (String.eqb unit "TB"); [done|].
    destruct (String.eqb unit "PB"); [done|].
    destruct (String.eqb unit "EB"); [done|].
    by destruct Hm.
Qed.

Lemma multiplier_power (unit : string) (m : Z) :
  docker.multiplier unit = Some m →
  ∃ k : nat, (k <= 6)%nat ∧ m = (1000 ^ Z.of_nat k)%Z ∧
             stopsAt is_digit unit ∧ stopsAt docker.is_re_space unit ∧
             HasPrefix unit "." = false.
Proof.
  unfold docker.multiplier.
  destruct (String.eqb_spec unit "B") as [->|]; [intros [= <-]; exists 0%nat; split_and!; [lia | reflexivity..]|].
  destruct (String.eqb_spec unit "KB") as [->|]; [intros [= <-]; exists 1%nat; split_and!; [lia | reflexivity..]|].
  destruct (String.eqb_spec unit "MB") as [->|]; [intros [= <-]; exists 2%nat; split_and!; [lia | reflexivity..]|].
  destruct (String.eqb_spec unit "GB") as [->|]; [intros [= <-]; exists 3%nat; split_and!; [lia | reflexivity..]|].
  destruct (String.eqb_spec unit "TB") as [->|]; [intros [= <-]; exists 4%nat; split_and!; [lia | reflexivity..]|].
  destruct (String.eqb_spec unit "PB") as [->|]; [intros [= <-]; exists 5%nat; split_and!; [lia | reflexivity..]|].
  destruct (String.eqb_spec unit "EB") as [->|]; [intros [= <-]; exists 6%nat; split_and!; [lia | reflexivity..]|].
  done.
Qed.

Lemma match_size_format (t num unit : string) :
  docker.match_size t = Some (num, unit) →
  ∃ gap, t = num ++ gap ++ unit ∧ decimalNumber num ∧
         allBytes docker.is_re_space gap = true ∧ is_Some (docker.multiplier unit).
Proof.
  unfold docker.match_size.
  pose proof (span_digits_spec t) as (Ht & Hwhole & _).
  destruct (docker.span_digits t) as [whole r1]. cbn [fst snd] in *.
  destruct whole as [|w0 whole']; [done|]. set (whole := String w0 whole') in *.
  assert (Hplain : ∀ r2, t = whole ++ r2 →
            match docker.match_unit (docker.skip_re_space r2) with
            | Some u => Some (whole, u)
            | None => None
            end = Some (num, unit) →
            ∃ gap, t = num ++ gap ++ unit ∧ decimalNumber num ∧
                   allBytes docker.is_re_space gap = true ∧ is_Some (docker.multiplier unit)).
  { intros r2 Hr2. destruct (skip_re_space_spec r2) as (gap & Hgap & Hblank).
    destruct (docker.match_unit _) as [u|] eqn:Hu; [|done]. intros [= <- <-].
    apply match_unit_spec in Hu as [Hu Hm]. subst u. exists gap. rewrite <- Hgap.
    split_and!; [done| |done|done].
    exists whole, "". split_and!; [done|done|done|by left]. }
  destruct r1 as [|c r]; [by apply Hplain|].
  destruct (Ascii.eqb_spec c ".") as [->|Hc].
  - pose proof (span_digits_spec r) as (Hr & Hfrac & _).
    destruct (docker.span_digits r) as [frac r']. cbn [fst snd] in *.
    destruct frac as [|f0 frac']; [by apply Hplain|]. set (frac := String f0 frac') in *.
    destruct (skip_re_space_spec r') as (gap & Hgap & Hblank).
    destruct (docker.match_unit _) as [u|] eqn:Hu; [|done]. intros [= <- <-].
    apply match_unit_spec in Hu as [Hu Hm]. subst u. exists gap. rewrite <- Hgap.
    split_and!; [|  |done|done].
    + rewrite Ht, Hr. by rewrite !append_assoc.
    + exists whole, frac. split_and!; [done|done|done|by right].
  - assert (match c with
            | "."%char => _
            | _ => (whole, String c r)
            end = (whole, String c r)) as ->; [|by apply Hplain].
    destruct c as [[] [] [] [] [] [] [] []]; try reflexivity. done.
Qed.

(** X4.  A text that [parseSizeString] accepts reads, in upper case, as a
    decimal number, optional white space and one of the units B, KB, MB,
    GB, TB, PB and EB, and the result is the number scaled by the power of
    1000 of that unit. *)
Theorem parseSizeString_format (floatBytes : string -> Z -> option Z)
    (sizeStr : string) (b : Z) :
  docker.parseSizeString floatBytes sizeStr = Some b →
  ∃ num gap unit (k : nat),
    ToUpper sizeStr = num ++ gap ++ unit ∧
    decimalNumber num ∧
    allBytes docker.is_re_space gap = true ∧
    (k <= 6)%nat ∧ docker.multiplier unit = Some (1000 ^ Z.of_nat k)%Z ∧
    floatBytes num (1000 ^ Z.of_nat k)%Z = Some b.
Proof.
  unfold docker.parseSizeString.
  destruct (docker.match_size (ToUpper sizeStr)) as [[num unit]|] eqn:Hmatch; [|done].
  apply match_size_format in Hmatch as (gap & Ht & Hnum & Hgap & _).
  destruct (docker.multiplier unit) as [m|] eqn:Hm; [|done].
  apply multiplier_power in Hm as Hk. destruct Hk as (k & Hk & -> & _).
  intros Hb. by exists num, gap, unit, k.
Qed.

Lemma stopsAt_app (P Q : ascii -> bool) (gap r : string) :
  (∀ c, Q c = true → P c = false) →
  allBytes Q gap = true → stopsAt P r → stopsAt P (gap ++ r).
Proof.
  intros HPQ Hgap Hr. destruct gap as [|c gap]; [done|].
  cbn [allBytes] in Hgap. apply andb_true_iff in Hgap as [Hc _].
  rewrite append_cons. cbn [stopsAt]. by apply HPQ.
Qed.

Lemma re_space_not_digit (c : ascii) : docker.is_re_space c = true → is_digit c = false.
Proof. destruct c as [[] [] [] [] [] [] [] []]; cbn; done. Qed.

Lemma digit_not_re_space (c : ascii) : is_digit c = true → docker.is_re_space c = false.
Proof. destruct c as [[] [] [] [] [] [] [] []]; cbn; done. Qed.

Lemma match_size_accepts (num gap unit : string) :
  decimalNumber num → allBytes docker.is_re_space gap = true →
  is_Some (docker.multiplier unit) →
  docker.match_size (num ++ gap ++ unit) = Some (num, unit).
Proof.
  intros (whole & frac & Hne & Hwhole & Hfrac & Hnum) Hgap [m Hm].
  pose proof (multiplier_power _ _ Hm) as (k & _ & _ & Hud & Hus & Hdot).
  assert (Hunit : docker.match_unit (docker.skip_re_space (gap ++ unit)) = Some unit).
  { rewrite skip_re_space_app by done. apply match_unit_spec. by split. }
  assert (Hstop : stopsAt is_digit (gap ++ unit)).
  { eapply stopsAt_app; [apply re_space_not_digit | done | done]. }
  unfold docker.match_size.
  destruct Hnum as [[-> ->]|[-> Hfne]].
  - rewrite span_digits_app by done.
    destruct whole as [|w0 whole']; [done|].
    destruct (gap ++ unit) as [|c r] eqn:Hr; [by rewrite Hunit|].
    assert (c ≠ "."%char) as Hc.
    { intros ->. destruct gap as [|g gap].
      - rewrite append_empty in Hr. subst unit. done.
      - rewrite append_cons in Hr. injection Hr as -> _. done. }
    assert (match c with
            | "."%char => _
            | _ => (String w0 whole', String c r)
            end = (String w0 whole', String c r)) as ->; [|by rewrite Hunit].
    destruct c as [[] [] [] [] [] [] [] []]; try reflexivity. done.
  - rewrite !append_assoc. rewrite span_digits_app; [|done|done].
    destruct whole as [|w0 whole']; [done|].
    rewrite append_cons, append_empty. rewrite span_digits_app by done.
    destruct frac as [|f0 frac']; [done|]. by rewrite Hunit.
Qed.


Lemma wrap64_small (z : Z) : (int_min <= z <= int_max)%Z → docker.wrap64 z = z.
Proof.
  unfold docker.wrap64, int_min, int_max. intros Hz.
  rewrite Z.mod_small by lia. lia.
Qed.

Lemma scale_spec (bytes : Z) (rounds : nat) (n div exp : Z) :
  (bytes <= int_max)%Z →
  (0 <= exp)%Z → (exp + Z.of_nat rounds <= 64)%Z → div = (1024 ^ (exp + 1))%Z →
  (1 <= n)%Z → (div * n <= bytes < div * (n + 1))%Z →
  (n < 1024 ^ Z.of_nat rounds)%Z →
  ∃ e, (exp <= e)%Z ∧ docker.scale rounds n div exp = Some ((1024 ^ (e + 1))%Z, e) ∧
       (1024 ^ (e + 1) <= bytes < 1024 ^ (e + 2))%Z.
Proof.
  intros Hmax. revert n div exp.
  induction rounds as [|rounds IH]; intros n div exp Hexp Hsmall Hdiv Hn Hbytes Hfuel.
  - cbn in Hfuel. assert (n = 0)%Z by lia. lia.
  - assert (0 < div)%Z as Hpos by (subst div; apply Z.pow_pos_nonneg; lia).
    cbn [docker.scale]. destruct (Z.leb_spec 1024 n) as [Hbig|Hlittle].
    + assert (Hq : (n ÷ 1024 = n / 1024)%Z) by (apply Z.quot_div_nonneg; lia).
      assert (div * 1024 <= bytes)%Z by nia.
      assert (0 <= n / 1024 <= n)%Z.
      { split; [apply Z.div_pos; lia|]. apply Z.div_le_upper_bound; lia. }
      assert (n <= bytes)%Z by nia.
      rewrite Hq. rewrite !wrap64_small by (unfold int_min, int_max in *; lia).
      destruct (IH (n / 1024)%Z (div * 1024)%Z (exp + 1)%Z) as (e & He & Hscale & Hrange).
      * lia.
      * lia.
      * subst div. replace (exp + 1 + 1)%Z with (Z.succ (exp + 1)) by lia.
        rewrite Z.pow_succ_r by lia. lia.
      * apply Z.div_le_lower_bound; lia.
      * pose proof (Z.mul_div_le n 1024 ltac:(lia)).
        pose proof (Z.mul_succ_div_gt n 1024 ltac:(lia)). nia.
      * apply Z.div_lt_upper_bound; [lia|].
        rewrite Nat2Z.inj_succ, Z.pow_succ_r in Hfuel by lia. lia.
      * exists e. split; [lia|]. by split.
    + exists exp. split; [lia|]. split; [by subst div|].
      replace (exp + 2)%Z with (Z.succ (exp + 1)) by lia.
      rewrite Z.pow_succ_r by lia. subst div. nia.
Qed.

(** X6.  For a size of at least 1024 bytes that fits a 64-bit integer,
    [formatBytes] terminates without indexing ["KMGTPE"] out of range: it
    renders the size divided by a power of 1024 such that the quotient
    lies between 1 and 1024, with the letter of that power. *)
Theorem formatBytes_scaled (formatTenths : Z -> Z -> string) (bytes : Z) :
  (1024 <= bytes <= int_max)%Z →
  ∃ (exp : nat) (letter : ascii),
    (exp <= 5)%nat ∧ String.get exp "KMGTPE" = Some letter ∧
    (1024 ^ (Z.of_nat exp + 1) <= bytes < 1024 ^ (Z.of_nat exp + 2))%Z ∧
    docker.formatBytes formatTenths bytes
    = docker.Text (formatTenths bytes (1024 ^ (Z.of_nat exp + 1))%Z
                     ++ " " ++ String letter "B").
Proof.
  intros [Hlow Hmax]. unfold docker.formatBytes.
  destruct (Z.ltb_spec bytes 1024) as [|_]; [lia|].
  assert (Hq : (bytes ÷ 1024 = bytes / 1024)%Z) by (apply Z.quot_div_nonneg; lia).
  assert (0 <= bytes / 1024 <= bytes)%Z.
  { split; [apply Z.div_pos; lia|]. apply Z.div_le_upper_bound; lia. }
  rewrite Hq, wrap64_small by (unfold int_min, int_max in *; lia).
  destruct (scale_spec bytes 64 (bytes / 1024)%Z 1024 0) as (e & He & -> & Hrange).
  - done.
  - lia.
  - cbn; lia.
  - reflexivity.
  - apply Z.div_le_lower_bound; lia.
  - pose proof (Z.mul_div_le bytes 1024 ltac:(lia)).
    pose proof (Z.mul_succ_div_gt bytes 1024 ltac:(lia)). lia.
  - apply Z.div_lt_upper_bound; [lia|]. unfold int_max in Hmax.
    change (1024 ^ Z.of_nat 64)%Z with (2 ^ 640)%Z.
    assert (2 ^ 63 < 2 ^ 640)%Z by (apply Z.pow_lt_mono_r; lia). lia.
  - assert (e <= 5)%Z as He5.
    { destruct (Z.le_gt_cases e 5) as [|Hbig]; [done|]. exfalso.
      assert (1024 ^ 7 <= 1024 ^ (e + 1))%Z by (apply Z.pow_le_mono_r; lia).
      unfold int_max in Hmax. lia. }
    destruct (Z.ltb_spec e 0) as [|_]; [lia|].
    exists (Z.to_nat e). rewrite Z2Nat.id by lia.
    assert (e = 0 ∨ e = 1 ∨ e = 2 ∨ e = 3 ∨ e = 4 ∨ e = 5)%Z as Hcases by lia.
    destruct Hcases as [E|[E|[E|[E|[E|E]]]]]; subst e; eexists;
      (split; [cbn; lia|]; split; [reflexivity|]; split; [done | reflexivity]).
Qed.

(** ** Facts about [Contains], [HasSuffix] and prefixes *)

Lemma prefix_nil (s : string) : String.prefix "" s = true.
Proof. by destruct s. Qed.

Lemma prefix_cons (c d : ascii) (t s : string) :
  String.prefix (String c t) (String d s) = bool_decide (c = d) && String.prefix t s.
Proof.
  cbn [String.prefix]. destruct (ascii_dec c d) as [->|Hne].
  - by rewrite bool_decide_eq_true_2.
  - by rewrite bool_decide_eq_false_2.
Qed.

Lemma prefix_refl (s : string) : String.prefix s s = true.
Proof.
  induction s as [|c s IH]; [done|]. rewrite prefix_cons, IH. by rewrite bool_decide_eq_true_2.
Qed.

Lemma Contains_prefix (s t : string) : String.prefix t s = true → Contains s t = true.
Proof. intros H. destruct s; cbn [Contains]; by rewrite H. Qed.

Lemma Contains_cons (c : ascii) (s t : string) :
  Contains s t = true → Contains (String c s) t = true.
Proof. intros H. cbn [Contains]. rewrite H. apply orb_true_r. Qed.

Lemma Contains_nil (s : string) : Contains s "" = true.
Proof. apply Contains_prefix, prefix_nil. Qed.

Lemma Contains_tail (s t : string) (c : ascii) :
  Contains s (String c t) = true → Contains s t = true.
Proof.
  induction s as [|d s IH]; cbn [Contains].
  - done.
  - intros [Hpre|Hrest]%orb_true_iff.
    + rewrite prefix_cons in Hpre. apply andb_true_iff in Hpre as [_ Hpre].
      apply orb_true_iff. right. by apply Contains_prefix.
    + apply orb_true_iff. right. by apply IH.
Qed.

Lemma HasSuffix_Contains (s t : string) : HasSuffix s t = true → Contains s t = true.
Proof.
  induction s as [|c s IH]; cbn [HasSuffix].
  - rewrite orb_false_r. intros <-%String.eqb_eq. done.
  - intros [<-%String.eqb_eq|Hrest]%orb_true_iff.
    + apply Contains_prefix, prefix_refl.
    + apply Contains_cons. by apply IH.
Qed.

(** A positive score means that the lower-cased volume name contains the
    lower-cased alias. *)
Lemma calculateComposeMatchScore_positive (volumeAlias dockerVolumeName : string) :
  (0 < matcher.calculateComposeMatchScore volumeAlias dockerVolumeName)%Z ↔
  Contains (ToLower dockerVolumeName) (ToLower volumeAlias) = true.
Proof.
  unfold matcher.calculateComposeMatchScore. cbv zeta.
  destruct (Contains (ToLower dockerVolumeName) (ToLower volumeAlias)) eqn:Hc.
  - split; [done|]. intros _.
    destruct (HasSuffix _ _); destruct (_ || _); lia.
  - destruct (HasSuffix _ _) eqn:Hs.
    { apply HasSuffix_Contains in Hs. congruence. }
    destruct (Contains _ ("_" ++ _)) eqn:H1.
    { apply Contains_tail in H1. congruence. }
    destruct (Contains _ ("-" ++ _)) eqn:H2.
    { apply Contains_tail in H2. congruence. }
    cbn [orb]. split; [lia | done].
Qed.

Lemma firstExisting_spec (m : gmap string DockerVolumeInfo.t) (names : list string)
    (v : DockerVolumeInfo.t) :
  matcher.firstExisting m names = Some v → ∃ k, k ∈ names ∧ m !! k = Some v.
Proof.
  induction names as [|n names IH]; cbn [matcher.firstExisting]; [done|].
  destruct (m !! n) as [v'|] eqn:Hn.
  - intros [= <-]. exists n. split; [apply elem_of_cons; by left | done].
  - intros (k & Hk & Hv)%IH. exists k. split; [apply elem_of_cons; by right | done].
Qed.

Lemma findFuzzyMatchForCompose_spec (vm : matcher.VolumeMatcher) (order : list string)
    (volumeAlias : string) (v : DockerVolumeInfo.t) :
  matcher.findFuzzyMatchForCompose vm order volumeAlias = Some v →
  ∃ k, k ∈ order ∧ matcher.dockerVolumes vm !! k = Some v ∧
       Contains (ToLower k) (ToLower volumeAlias) = true.
Proof.
  unfold matcher.findFuzzyMatchForCompose.
  pose proof (fuzzy_fold_invariant volumeAlias order ("", 0%Z)) as Hinv. cbv zeta in Hinv.
  destruct (fold_left (matcher.fuzzyStep volumeAlias) order ("", 0%Z))
    as [bestMatch bestScore] eqn:Hfold.
  cbn [fst snd] in Hinv. destruct Hinv as (_ & _ & [Heq|(Hmem & Hscore & Hpos)]).
  - injection Heq as -> ->. done.
  - destruct (negb _); [|done]. intros Hv. exists bestMatch. split_and!; [done..|].
    apply calculateComposeMatchScore_positive. lia.
Qed.

(** X7.  How [findDockerVolumeForMapping] resolves a compose mapping: the
    volume filed under the expected name wins; a volume that is returned
    is filed in the inventory under the expected name, under one of the
    naming variations, or under a name that contains the alias (case
    ignored). *)
Theorem findDockerVolumeForMapping_resolution
    (vm : matcher.VolumeMatcher) (order : list string) (mapping : compose.VolumeMapping) :
  (∀ v, matcher.dockerVolumes vm !! compose.DockerVolume mapping = Some v →
        matcher.findDockerVolumeForMapping vm order mapping = Some v) ∧
  (∀ v, matcher.findDockerVolumeForMapping vm order mapping = Some v →
        ∃ k, matcher.dockerVolumes vm !! k = Some v ∧
             (k = compose.DockerVolume mapping
              ∨ k ∈ compose.GetVolumeVariations (matcher.composeParser vm)
                      (compose.VolumeName mapping)
              ∨ (k ∈ order ∧
                 Contains (ToLower k) (ToLower (compose.VolumeName mapping)) = true))).
Proof.
  unfold matcher.findDockerVolumeForMapping. cbv zeta. split.
  - by intros v ->.
  - intros v.
    destruct (matcher.dockerVolumes vm !! compose.DockerVolume mapping) as [v'|] eqn:Hdirect.
    { intros [= <-]. exists (compose.DockerVolume mapping). split; [done | by left]. }
    destruct (matcher.firstExisting _ _) as [v'|] eqn:Hvar.
    { intros [= <-]. apply firstExisting_spec in Hvar as (k & Hk & Hv).
      exists k. split; [done | right; by left]. }
    intros (k & Hk & Hv & Hc)%findFuzzyMatchForCompose_spec.
    exists k. split; [done | right; right; by split].
Qed.

(** ** The order of the menus *)

Lemma string_leb_ltb (a b : string) : String.leb a b = negb (String.ltb b a).
Proof.
  unfold String.leb, String.ltb. rewrite (String.compare_antisym b a).
  by destruct (String.compare a b).
Qed.

Lemma string_leb_iff (a b : string) :
  String.leb a b = true ↔ a = b ∨ OrderedTypeEx.String_as_OT.lt a b.
Proof.
  unfold String.leb. rewrite <- OrderedTypeEx.String_as_OT.cmp_lt.
  unfold OrderedTypeEx.String_as_OT.cmp.
  destruct (String.compare a b) eqn:Hc.
  - apply String.compare_eq_iff in Hc. split; [by left | done].
  - split; [by right | done].
  - split; [done|]. intros [->|?]; [|done].
    assert (String.compare b b = Eq) as Hrefl.
    { change (OrderedTypeEx.String_as_OT.cmp b b = Eq).
      by apply OrderedTypeEx.String_as_OT.cmp_eq. }
    congruence.
Qed.

#[local] Instance byName_transitive : Transitive byName.
Proof.
  intros a b c. unfold byName. rewrite !string_leb_iff.
  intros [Hab|Hab] [Hbc|Hbc].
  - left. congruence.
  - right. by rewrite Hab.
  - right. by rewrite <- Hbc.
  - right. by eapply OrderedTypeEx.String_as_OT.lt_trans.
Qed.

Lemma insertByName_Sorted (v : DockerVolumeInfo.t) (l : list DockerVolumeInfo.t) :
  Sorted byName l → Sorted byName (matcher.insertByName v l).
Proof.
  induction 1 as [|h t Ht IH Hhd]; cbn [matcher.insertByName].
  - by repeat constructor.
  - destruct (String.ltb (DockerVolumeInfo.Name v) (DockerVolumeInfo.Name h)) eqn:Hlt.
    + constructor; [by constructor|]. constructor. unfold byName, String.leb.
      unfold String.ltb in Hlt.
      by destruct (String.compare (DockerVolumeInfo.Name v) (DockerVolumeInfo.Name h)).
    + constructor; [done|].
      assert (byName h v) as Hhv by (unfold byName; by rewrite string_leb_ltb, Hlt).
      destruct t as [|h' t]; cbn [matcher.insertByName]; [by constructor|].
      destruct (String.ltb (DockerVolumeInfo.Name v) (DockerVolumeInfo.Name h'));
        constructor; [done|]. by inversion Hhd.
Qed.

Lemma sortByName_Sorted (l : list DockerVolumeInfo.t) : Sorted byName (matcher.sortByName l).
Proof.
  unfold matcher.sortByName. induction l as [|v l IH]; cbn [fold_right]; [constructor|].
  by apply insertByName_Sorted.
Qed.

Lemma insertByName_Permutation (v : DockerVolumeInfo.t) (l : list DockerVolumeInfo.t) :
  matcher.insertByName v l ≡ₚ v :: l.
Proof.
  induction l as [|h t IH]; cbn [matcher.insertByName]; [done|].
  destruct (String.ltb _ _); [done|]. rewrite IH. apply Permutation_swap.
Qed.

Lemma sortByName_Permutation (l : list DockerVolumeInfo.t) : matcher.sortByName l ≡ₚ l.
Proof.
  unfold matcher.sortByName. induction l as [|v l IH]; cbn [fold_right]; [done|].
  by rewrite insertByName_Permutation, IH.
Qed.

Lemma sortByName_unique (inventory : gmap string DockerVolumeInfo.t)
    (l1 l2 : list DockerVolumeInfo.t) :
  keyedByName inventory →
  (∀ v, v ∈ l1 → ∃ k, inventory !! k = Some v) →
  l1 ≡ₚ l2 → matcher.sortByName l1 = matcher.sortByName l2.
Proof.
  intros Hkeyed Hin Hperm.
  apply (Sorted_unique_strong byName); [|apply sortByName_Sorted..|].
  - intros x1 x2 Hx1 Hx2 H12 H21.
    apply (proj1 (sortByName_elem _ _)), Hin in Hx1 as [k1 Hk1].
    apply (proj1 (sortByName_elem _ _)) in Hx2.
    rewrite <- Hperm in Hx2. apply Hin in Hx2 as [k2 Hk2].
    pose proof (String.leb_antisym _ _ H12 H21) as Hname.
    rewrite (Hkeyed _ _ Hk1), (Hkeyed _ _ Hk2) in Hname. subst k2. congruence.
  - by rewrite !sortByName_Permutation.
Qed.

(** X8.  The candidates for a claim are the volumes of the inventory whose
    lower-cased name contains one of the lexical parts of the claim name,
    listed by name in ascending order. *)
Theorem findVolumesContainingPVCName_candidates
    (vm : matcher.VolumeMatcher) (order : list string) (pvc : PVCInfo.t) :
  Sorted byName (matcher.findVolumesContainingPVCName vm order pvc) ∧
  ∀ v, v ∈ matcher.findVolumesContainingPVCName vm order pvc ↔
       v ∈ matcher.rangeValues vm order ∧
       ∃ part, part ∈ matcher.extractPVCParts (PVCInfo.Name pvc) ∧
               Contains (ToLower (DockerVolumeInfo.Name v)) part = true.
Proof.
  unfold matcher.findVolumesContainingPVCName. cbv zeta. split; [apply sortByName_Sorted|].
  intros v. rewrite sortByName_elem, list_elem_of_filter.
  unfold matcher.volumeContainsPVCParts. cbv zeta. rewrite existsb_exists.
  split.
  - intros [(part & Hpart & Hc) Hv]. split; [done|]. exists part. by rewrite list_elem_of_In.
  - intros [Hv (part & Hpart & Hc)]. split; [|done]. exists part. by rewrite <- list_elem_of_In.
Qed.

(** X9.  Whatever the order in which the map of volumes is ranged over, the
    operator sees the same menus: the candidates for a claim and the full
    inventory are listed in one and the same order. *)
Theorem menus_independent_of_map_order
    (vm : matcher.VolumeMatcher) (order1 order2 : list string) (pvc : PVCInfo.t) :
  keyedByName (matcher.dockerVolumes vm) →
  order1 ≡ₚ order2 →
  matcher.findVolumesContainingPVCName vm order1 pvc
  = matcher.findVolumesContainingPVCName vm order2 pvc ∧
  matcher.getAllDockerVolumes vm order1 = matcher.getAllDockerVolumes vm order2 ∧
  matcher.offered vm order1 pvc = matcher.offered vm order2 pvc.
Proof.
  intros Hkeyed Hperm.
  assert (Hrange : matcher.rangeValues vm order1 ≡ₚ matcher.rangeValues vm order2).
  { unfold matcher.rangeValues. by rewrite Hperm. }
  assert (Hcand : matcher.findVolumesContainingPVCName vm order1 pvc
                  = matcher.findVolumesContainingPVCName vm order2 pvc).
  { unfold matcher.findVolumesContainingPVCName. cbv zeta.
    eapply sortByName_unique; [done| |by rewrite Hrange].
    intros v [_ Hv]%list_elem_of_filter. by eapply rangeValues_elem. }
  assert (Hall : matcher.getAllDockerVolumes vm order1 = matcher.getAllDockerVolumes vm order2).
  { unfold matcher.getAllDockerVolumes.
    eapply sortByName_unique; [done| |done]. intros v. apply rangeValues_elem. }
  split; [done|]. split; [done|].
  unfold matcher.offered. cbv zeta. by rewrite Hcand, Hall.
Qed.

(** ** [MatchVolumes] *)

Lemma stdout_fold_print (lines : list string) (t : Terminal) :
  stdout (fold_left (fun t line => print line t) lines t) = (stdout t ++ lines)%list.
Proof.
  revert t. induction lines as [|l lines IH]; intros t; cbn [fold_left].
  - by rewrite app_nil_r.
  - rewrite IH. cbn [print stdout]. by rewrite <- app_assoc.
Qed.

Lemma selectionLoop_terminal (candidates : list DockerVolumeInfo.t)
    (pending : list ReadResult) (out : list string)
    (selected : option DockerVolumeInfo.t) (t' : Terminal) :
  matcher.selectionLoop candidates pending out = Returns selected t' →
  ∃ read printed, pending = (read ++ stdin t')%list ∧ read ≠ [] ∧
                  stdout t' = (out ++ printed)%list.
Proof.
  revert out. induction pending as [|r rest IH]; intros out; cbn [matcher.selectionLoop]; [done|].
  destruct (matcher.answer candidates r) as [message|sel message|].
  - intros (read & printed & -> & _ & ->)%IH. exists (r :: read). eexists.
    split_and!; [done | done |]. rewrite <- !app_assoc. done.
  - intros [= <- <-]. exists [r]. eexists. cbn [stdin stdout].
    split_and!; [done | done |]. by rewrite <- app_assoc.
  - done.
Qed.

Lemma interactiveVolumeSelection_terminal (pvc : PVCInfo.t)
    (candidates : list DockerVolumeInfo.t) (t : Terminal)
    (selected : option DockerVolumeInfo.t) (t' : Terminal) :
  matcher.interactiveVolumeSelection pvc candidates t = Returns selected t' →
  (∀ v, selected = Some v → v ∈ candidates) ∧
  ∃ read printed, stdin t = (read ++ stdin t')%list ∧ read ≠ [] ∧
                  stdout t' = (stdout t ++ printed)%list.
Proof.
  unfold matcher.interactiveVolumeSelection. cbv zeta. intros Hsel. split.
  - pose proof (selectionLoop_cases candidates
                  (stdin (matcher.printMenu pvc candidates t))
                  (stdout (matcher.printMenu pvc candidates t))) as Hcases.
    rewrite Hsel in Hcases. destruct Hcases as (choice & _ & _ & Hsome).
    intros v Hv. by destruct (Hsome v Hv) as (_ & _ & ?).
  - apply selectionLoop_terminal in Hsel as (read & printed & Hin & Hne & Hout).
    rewrite stdin_printMenu in Hin. exists read. eexists. split_and!; [done..|].
    rewrite Hout. unfold matcher.printMenu. cbv zeta. rewrite stdout_fold_print.
    cbn [print stdout]. rewrite <- !app_assoc. done.
Qed.

(** X10.  [MatchVolumes] never indexes out of range.  When it returns, it
    returns the claims it was given, in their order, each changed in its
    matched volume only, which is nil or one of the volumes offered for
    that claim; it has read at least one answer for every claim and only
    added to the output. *)
Theorem MatchVolumes_sets_matched_volumes
    (vm : matcher.VolumeMatcher) (order : list string) (pvcs : list PVCInfo.t) (t : Terminal) :
  match matcher.MatchVolumes vm order pvcs t with
  | Returns pvcs' t' =>
      Forall2 (matchedFrom vm order) pvcs pvcs' ∧
      ∃ read printed,
        stdin t = (read ++ stdin t')%list ∧ (length pvcs <= length read)%nat ∧
        stdout t' = (stdout t ++ printed)%list
  | NeverReturns => True
  | Panics => False
  end.
Proof.
  revert t. induction pvcs as [|pvc rest IH]; intros t; cbn [matcher.MatchVolumes].
  - split; [constructor|]. exists [], []. by rewrite app_nil_r.
  - set (t1 := print _ t).
    set (choice := if (length _ =? 0)%nat then _ else _).
    assert (Hchoice : snd choice = matcher.offered vm order pvc ∧
                      stdin (fst choice) = stdin t ∧
                      ∃ printed, stdout (fst choice) = (stdout t ++ printed)%list).
    { unfold choice, matcher.offered. cbv zeta.
      destruct (length _ =? 0)%nat; cbn [fst snd print stdin stdout t1];
        (split_and!; [done | done | eexists; by rewrite <- ?app_assoc]). }
    destruct choice as [t2 offer]. cbn [fst snd] in Hchoice.
    destruct Hchoice as (-> & Hin2 & printed2 & Hout2).
    destruct (matcher.interactiveVolumeSelection pvc _ t2) as [selected t3| |] eqn:Hsel.
    + apply interactiveVolumeSelection_terminal in Hsel
        as (Hoffered & read3 & printed3 & Hin3 & Hne3 & Hout3).
      specialize (IH t3). destruct (matcher.MatchVolumes vm order rest t3) as [rest' t4| |].
      * destruct IH as (Hrest & read4 & printed4 & Hin4 & Hlen4 & Hout4). split.
        -- constructor; [|done]. by exists selected.
        -- exists (read3 ++ read4)%list, (printed2 ++ printed3 ++ printed4)%list.
           split_and!.
           ++ rewrite <- Hin2, Hin3, Hin4. by rewrite <- app_assoc.
           ++ rewrite length_app. cbn [length]. destruct read3; [done|]. cbn [length]. lia.
           ++ rewrite Hout4, Hout3, Hout2. by rewrite <- !app_assoc.
      * done.
      * done.
    + done.
    + pose proof (selectionLoop_cases (matcher.offered vm order pvc)
                    (stdin (matcher.printMenu pvc (matcher.offered vm order pvc) t2))
                    (stdout (matcher.printMenu pvc (matcher.offered vm order pvc) t2))) as Hcases.
      unfold matcher.interactiveVolumeSelection in Hsel. cbv zeta in Hsel.
      by rewrite Hsel in Hcases.
Qed.

Lemma MatchVolumes_same_inventory
    (inventory : gmap string DockerVolumeInfo.t)
    (mappings1 mappings2 : list compose.VolumeMapping) (parser1 parser2 : compose.Parser)
    (order : list string) (pvcs : list PVCInfo.t) (t : Terminal) :
  matcher.MatchVolumes (matcher.mkVolumeMatcher inventory mappings1 parser1) order pvcs t
  = matcher.MatchVolumes (matcher.mkVolumeMatcher inventory mappings2 parser2) order pvcs t.
Proof.
  revert t. induction pvcs as [|pvc rest IH]; intros t; cbn [matcher.MatchVolumes]; [done|].
  change (matcher.findVolumesContainingPVCName
            (matcher.mkVolumeMatcher inventory mappings1 parser1) order pvc)
    with (matcher.findVolumesContainingPVCName
            (matcher.mkVolumeMatcher inventory mappings2 parser2) order pvc).
  change (matcher.getAllDockerVolumes (matcher.mkVolumeMatcher inventory mappings1 parser1) order)
    with (matcher.getAllDockerVolumes (matcher.mkVolumeMatcher inventory mappings2 parser2) order).
  destruct (if (length _ =? 0)%nat then _ else _) as [t2 offer].
  destruct (matcher.interactiveVolumeSelection pvc offer t2) as [selected t3| |]; [|done|done].
  by rewrite IH.
Qed.

(** X11.  [LoadComposeContext] never fails and leaves the inventory as it is;
    and the compose context that it loads plays no part in
    [MatchVolumes]: the matcher behaves after the call as it would have
    behaved before it, whatever the compose file holds. *)
Theorem LoadComposeContext_does_not_change_matching
    (filepathJoin : string -> string -> string) (filepathDir filepathBase : string -> string)
    (statSucceeds : string -> bool) (readFile : string -> string + string)
    (Unmarshal : string -> compose.ComposeFile + string)
    (vm : matcher.VolumeMatcher) (services : list string) (directory : string)
    (order : list string) (pvcs : list PVCInfo.t) (t : Terminal) :
  let loaded :=
    matcher.LoadComposeContext filepathJoin filepathDir filepathBase statSucceeds readFile
      Unmarshal vm services directory in
  snd loaded = None ∧
  matcher.dockerVolumes (fst loaded) = matcher.dockerVolumes vm ∧
  matcher.MatchVolumes (fst loaded) order pvcs t = matcher.MatchVolumes vm order pvcs t.
Proof.
  cbv zeta.
  assert (Hsame : ∀ vm', matcher.dockerVolumes vm' = matcher.dockerVolumes vm →
                         matcher.MatchVolumes vm' order pvcs t
                         = matcher.MatchVolumes vm order pvcs t).
  { intros [inv' m' p'] Hinv. destruct vm as [inv m p]. cbn in Hinv. subst inv'.
    apply MatchVolumes_same_inventory. }
  unfold matcher.LoadComposeContext.
  destruct (compose.FindComposeFile _ _ _ _) as [composeFile|msg]; [|by split_and!; [| |apply Hsame]].
  destruct (compose.ParseComposeFile _ _ _ _ _ _) as [p [c|msg]];
    cbn [fst snd matcher.dockerVolumes]; (split_and!; [done | done | by apply Hsame]).
Qed.

(** While the inventory holds a volume, the operator is never shown an
    empty menu: when no name matches, the whole inventory is offered. *)
Lemma offered_is_empty_only_for_an_empty_inventory
    (vm : matcher.VolumeMatcher) (order : list string) (pvc : PVCInfo.t) :
  matcher.offered vm order pvc = [] ↔ matcher.rangeValues vm order = [].
Proof.
  assert (Hsort : ∀ l, matcher.sortByName l = [] ↔ l = []).
  { intros l. split; [|by intros ->].
    intros Hl. apply Permutation_nil_r. rewrite <- Hl. by rewrite sortByName_Permutation. }
  unfold matcher.offered, matcher.getAllDockerVolumes. cbv zeta.
  destruct (Nat.eqb_spec (length (matcher.findVolumesContainingPVCName vm order pvc)) 0)
    as [Hlen|Hlen]; [apply Hsort|].
  split.
  - intros Hnil. by rewrite Hnil in Hlen.
  - intros Hnil. unfold matcher.findVolumesContainingPVCName in *. cbv zeta in *.
    rewrite Hnil in *. done.
Qed.

(** ** The matchers by name *)

Lemma calculateMatchScore_fold (volumeParts pvcParts : list string) (score : Z) :
  let step := fun score pvcPart =>
    if existsb (fun volumePart => EqualFold pvcPart volumePart) volumeParts
    then (score + 1)%Z else score in
  fold_left step pvcParts score
  = (score + Z.of_nat (length (filter
        (fun pvcPart => existsb (fun volumePart => EqualFold pvcPart volumePart) volumeParts = true)
        pvcParts)))%Z.
Proof.
  cbv zeta. revert score. induction pvcParts as [|p pvcParts IH]; intros score; cbn [fold_left].
  - cbn. lia.
  - rewrite IH. rewrite filter_cons.
    destruct (existsb _ volumeParts) eqn:Hp.
    + rewrite decide_True by done. cbn [length]. lia.
    + rewrite decide_False by (by intros ?). done.
Qed.

(** The score of [calculateMatchScore] counts the parts of the claim name
    that equal, case ignored, a part of the volume name; it lies between
    0 and the number of parts. *)
Lemma calculateMatchScore_counts (pvcParts : list string) (volumeName : string) :
  matcher.calculateMatchScore pvcParts volumeName
  = Z.of_nat (length (filter
      (fun pvcPart =>
         existsb (fun volumePart => EqualFold pvcPart volumePart)
                 (Split volumeName "_" ++ Split volumeName "-") = true)
      pvcParts)) ∧
  (0 <= matcher.calculateMatchScore pvcParts volumeName <= Z.of_nat (length pvcParts))%Z.
Proof.
  unfold matcher.calculateMatchScore. cbv zeta.
  pose proof (calculateMatchScore_fold (Split volumeName "_" ++ Split volumeName "-")
                pvcParts 0) as Hfold. cbv zeta in Hfold. rewrite Hfold.
  split; [lia|]. pose proof (length_filter
    (fun pvcPart =>
       existsb (fun volumePart => EqualFold pvcPart volumePart)
               (Split volumeName "_" ++ Split volumeName "-") = true) pvcParts). lia.
Qed.

Lemma fuzzyName_fold_invariant (pvcParts : list string) (order : list string)
    (best : string * Z) :
  let best' := fold_left (matcher.fuzzyNameStep pvcParts) order best in
  best' = best ∨
  (fst best' ∈ order ∧
   matcher.calculateMatchScore pvcParts (fst best') = snd best' ∧
   (snd best < snd best')%Z ∧
   (Z.of_nat (length pvcParts) ÷ 2 <= snd best')%Z).
Proof.
  cbv zeta. revert best. induction order as [|k order IH]; intros best; cbn [fold_left].
  - by left.
  - destruct (IH (matcher.fuzzyNameStep pvcParts best k)) as [->|(Hin & Hscore & Hlt & Hhalf)];
      unfold matcher.fuzzyNameStep in *; cbv zeta in *;
      destruct (Z.ltb_spec (snd best) (matcher.calculateMatchScore pvcParts k));
      destruct (Z.leb_spec (Z.of_nat (length pvcParts) ÷ 2)
                           (matcher.calculateMatchScore pvcParts k));
      cbn [andb fst snd] in *; try (by left).
    + right. split_and!; [apply elem_of_cons; by left | done | done | done].
    + right. split_and!; [apply elem_of_cons; by right | done | lia | done].
    + right. split_and!; [apply elem_of_cons; by right | done | lia | done].
    + right. split_and!; [apply elem_of_cons; by right | done | lia | done].
    + right. split_and!; [apply elem_of_cons; by right | done | lia | done].
Qed.

(** X12.  A volume that [findFuzzyMatch] returns is filed in the inventory
    under a name of which at least one part, and at least half of the
    hyphen-separated parts of the claim name (rounded down), equal a part
    of the claim name, case ignored. *)
Theorem findFuzzyMatch_threshold (vm : matcher.VolumeMatcher) (order : list string)
    (pvcName : string) (v : DockerVolumeInfo.t) :
  matcher.findFuzzyMatch vm order pvcName = Some v →
  ∃ k, k ∈ order ∧ matcher.dockerVolumes vm !! k = Some v ∧
       (1 <= matcher.calculateMatchScore (Split pvcName "-") k)%Z ∧
       (Z.of_nat (length (Split pvcName "-")) ÷ 2
        <= matcher.calculateMatchScore (Split pvcName "-") k)%Z.
Proof.
  unfold matcher.findFuzzyMatch. cbv zeta.
  pose proof (fuzzyName_fold_invariant (Split pvcName "-") order ("", 0%Z)) as Hinv.
  cbv zeta in Hinv.
  destruct (fold_left (matcher.fuzzyNameStep (Split pvcName "-")) order ("", 0%Z))
    as [bestMatch bestScore].
  cbn [fst snd] in Hinv. destruct Hinv as [Heq|(Hin & Hscore & Hlt & Hhalf)].
  - injection Heq as -> ->. done.
  - destruct (negb _); [|done]. intros Hv. exists bestMatch.
    split_and!; [done | done | lia | lia].
Qed.

Lemma firstWithSuffix_spec (m : gmap string DockerVolumeInfo.t) (name : string)
    (order : list string) (v : DockerVolumeInfo.t) :
  matcher.firstWithSuffix m name order = Some v →
  ∃ k, k ∈ order ∧ m !! k = Some v ∧
       (HasSuffix k ("_" ++ name) = true ∨ HasSuffix k ("-" ++ name) = true).
Proof.
  induction order as [|k order IH]; cbn [matcher.firstWithSuffix]; [done|].
  destruct (m !! k) as [volume|] eqn:Hk.
  - destruct (HasSuffix k ("_" ++ name) || HasSuffix k ("-" ++ name)) eqn:Hs.
    + intros [= <-]. exists k. split_and!; [apply elem_of_cons; by left | done |].
      by apply orb_true_iff.
    + intros (k' & Hin & Hv & Hsuf)%IH. exists k'.
      split_and!; [apply elem_of_cons; by right | done | done].
  - intros (k' & Hin & Hv & Hsuf)%IH. exists k'.
    split_and!; [apply elem_of_cons; by right | done | done].
Qed.

(** X13.  [findExactMatch] prefers the volume filed under the name itself;
    otherwise a volume that it returns is filed under a name that ends
    with the name behind ["_"] or ["-"]. *)
Theorem findExactMatch_resolution (vm : matcher.VolumeMatcher) (order : list string)
    (name : string) :
  (∀ v, matcher.dockerVolumes vm !! name = Some v →
        matcher.findExactMatch vm order name = Some v) ∧
  (∀ v, matcher.findExactMatch vm order name = Some v →
        ∃ k, matcher.dockerVolumes vm !! k = Some v ∧
             (k = name ∨ HasSuffix k ("_" ++ name) = true ∨ HasSuffix k ("-" ++ name) = true)).
Proof.
  unfold matcher.findExactMatch. split.
  - by intros v ->.
  - intros v. destruct (matcher.dockerVolumes vm !! name) as [v'|] eqn:Hname.
    + intros [= <-]. exists name. split; [done | by left].
    + intros (k & _ & Hv & Hsuf)%firstWithSuffix_spec. exists k. split; [done | by right].
Qed.

Lemma findDockerVolumeForMapping_filed (vm : matcher.VolumeMatcher) (order : list string)
    (mapping : compose.VolumeMapping) (v : DockerVolumeInfo.t) :
  matcher.findDockerVolumeForMapping vm order mapping = Some v →
  ∃ k, matcher.dockerVolumes vm !! k = Some v.
Proof.
  unfold matcher.findDockerVolumeForMapping. cbv zeta.
  destruct (matcher.dockerVolumes vm !! compose.DockerVolume mapping) as [v'|] eqn:Hdirect.
  { intros [= <-]. by eexists. }
  destruct (matcher.firstExisting _ _) as [v'|] eqn:Hvar.
  { intros [= <-]. apply firstExisting_spec in Hvar as (k & _ & Hv). by eexists. }
  intros (k & _ & Hv & _)%findFuzzyMatchForCompose_spec. by eexists.
Qed.

(** X14.  [findComposeMatch] answers with a volume of the inventory, resolved
    from a mapping of the compose file that the claim name matches; a
    claim that no mapping matches gets none. *)
Theorem findComposeMatch_from_a_matching_mapping
    (vm : matcher.VolumeMatcher) (order : list string) (pvc : PVCInfo.t) :
  match matcher.findComposeMatch vm order pvc with
  | Some v =>
      (∃ k, matcher.dockerVolumes vm !! k = Some v) ∧
      ∃ mapping, mapping ∈ matcher.volumeMappings vm ∧
        matcher.findDockerVolumeForMapping vm order mapping = Some v ∧
        (matcher.pvcNameMatches (PVCInfo.Name pvc) (compose.VolumeName mapping) = true
         ∨ matcher.pvcNameMatches (PVCInfo.Name pvc)
             (compose.ServiceName mapping ++ "-" ++ compose.VolumeName mapping) = true
         ∨ matcher.pvcNameMatches (PVCInfo.Name pvc) (compose.ServiceName mapping) = true)
  | None => True
  end.
Proof.
  unfold matcher.findComposeMatch.
  induction (matcher.volumeMappings vm) as [|mapping rest IH];
    cbn [matcher.findComposeMatchIn]; [done|].
  cbn [existsb]. rewrite orb_false_r.
  destruct (matcher.pvcNameMatches _ (compose.VolumeName mapping)
            || (matcher.pvcNameMatches _ (_ ++ _) || matcher.pvcNameMatches _ _)) eqn:Hm.
  - destruct (matcher.findDockerVolumeForMapping vm order mapping) as [v|] eqn:Hv; [|done].
    split; [by eapply findDockerVolumeForMapping_filed|].
    exists mapping. split_and!; [apply elem_of_cons; by left | done |].
    apply orb_true_iff in Hm as [?|[?|?]%orb_true_iff]; auto.
  - destruct (matcher.findComposeMatchIn vm order pvc rest) as [v|]; [|done].
    destruct IH as (Hfiled & mapping' & Hin & Hrest).
    split; [done|]. exists mapping'. split; [apply elem_of_cons; by right | done].
Qed.

(** ** The compose file *)

Lemma split_single_none (d : ascii) (s : string) :
  Contains s (String d "") = false → Split s (String d "") = [s].
Proof.
  induction s as [|c s IH]; [done|].
  rewrite Contains_cons_single, split_single_cons.
  intros [Hd Hs]%orb_false_iff. rewrite Hd, (IH Hs). done.
Qed.

Lemma split_single_app (d : ascii) (seg rest : string) :
  Contains seg (String d "") = false →
  Split (seg ++ String d rest) (String d "") = seg :: Split rest (String d "").
Proof.
  induction seg as [|c seg IH].
  - intros _. rewrite append_empty, split_single_cons. by rewrite bool_decide_eq_true_2.
  - rewrite Contains_cons_single. intros [Hd Hs]%orb_false_iff.
    rewrite append_cons, split_single_cons, Hd, (IH Hs). done.
Qed.

(** A prefix without the separator byte is a prefix of the text exactly
    when it is one of the first piece. *)
Lemma prefix_first_piece (d : ascii) (x seg rest : string) :
  Contains x (String d "") = false →
  String.prefix x (seg ++ String d rest) = String.prefix x seg.
Proof.
  revert seg. induction x as [|c x IH]; intros seg Hx.
  - by rewrite !prefix_nil.
  - rewrite Contains_cons_single in Hx. apply orb_false_iff in Hx as [Hc Hx].
    destruct seg as [|e seg].
    + rewrite append_empty, prefix_cons. cbn [String.prefix].
      apply bool_decide_eq_false in Hc. rewrite bool_decide_eq_false_2; [done|]. congruence.
    + rewrite append_cons, !prefix_cons. by rewrite IH.
Qed.

Lemma isBindMount_first_piece (seg rest : string) :
  isBindMount (seg ++ String ":" rest) = isBindMount seg.
Proof.
  unfold isBindMount, HasPrefix. by rewrite !(prefix_first_piece ":") by reflexivity.
Qed.

(** X15.  [parseVolumeSpec] yields a mapping exactly for a specification that
    has a colon and does not begin with [/], [./] or [../].  The mapping
    names the service; its volume is the text before the first colon, its
    mount path the text between the first colon and the second, if there
    is one, and the expected Docker volume is the project name, an
    underscore and the volume. *)
Theorem parseVolumeSpec_named_volumes (p : compose.Parser) (serviceName volumeSpec : string) :
  match compose.parseVolumeSpec p serviceName volumeSpec with
  | Some mapping =>
      isBindMount volumeSpec = false ∧
      compose.ServiceName mapping = serviceName ∧
      compose.DockerVolume mapping
      = compose.projectName p ++ "_" ++ compose.VolumeName mapping ∧
      Contains (compose.VolumeName mapping) ":" = false ∧
      Contains (compose.MountPath mapping) ":" = false ∧
      (volumeSpec = compose.VolumeName mapping ++ ":" ++ compose.MountPath mapping
       ∨ ∃ more, volumeSpec = compose.VolumeName mapping ++ ":" ++ compose.MountPath mapping
                                ++ ":" ++ more)
  | None => Contains volumeSpec ":" = false ∨ isBindMount volumeSpec = true
  end.
Proof.
  unfold compose.parseVolumeSpec. cbv zeta.
  destruct (Contains volumeSpec ":") eqn:Hcolon.
  - apply split_single_first in Hcolon as (source & rest & -> & Hsource & ->).
    pose proof (split_go_nonempty ":" 0 rest) as Hne.
    assert (Hrest : ∃ target more, Split rest ":" = target :: more ∧
                      Contains target ":" = false ∧
                      (rest = target ∧ more = []
                       ∨ ∃ tail, rest = target ++ String ":" tail)).
    { destruct (Contains rest ":") eqn:Hc.
      - apply split_single_first in Hc as (target & tail & -> & Htarget & ->).
        exists target, (Split tail ":"). split_and!; [done | done |]. right. by exists tail.
      - exists rest, []. split_and!; [by apply split_single_none | done | by left]. }
    destruct Hrest as (target & more & -> & Htarget & Hshape).
    cbn [length Nat.ltb Nat.leb nth]. rewrite isBindMount_first_piece.
    fold (isBindMount source). destruct (isBindMount source) eqn:Hbind; [by right|].
    cbn [compose.ServiceName compose.VolumeName compose.DockerVolume compose.MountPath].
    split_and!; [done..|].
    destruct Hshape as [[-> _]|[tail ->]]; [by left | right; by exists tail].
  - rewrite split_single_none by done. by left.
Qed.

Lemma appendMappings_elem (p : compose.Parser) (serviceName : string)
    (mappings : list compose.VolumeMapping) (volumeSpecs : list string)
    (m : compose.VolumeMapping) :
  m ∈ compose.appendMappings p serviceName mappings volumeSpecs ↔
  m ∈ mappings ∨
  ∃ volumeSpec, volumeSpec ∈ volumeSpecs ∧
                compose.parseVolumeSpec p serviceName volumeSpec = Some m.
Proof.
  unfold compose.appendMappings. revert mappings.
  induction volumeSpecs as [|spec specs IH]; intros mappings; cbn [fold_left].
  - split; [by left|]. intros [?|(? & H%elem_of_nil & _)]; [done | destruct H].
  - rewrite IH. destruct (compose.parseVolumeSpec p serviceName spec) as [m'|] eqn:Hspec.
    + rewrite elem_of_app, list_elem_of_singleton. split.
      * intros [[?| ->]|(s & Hs & Hm)]; [by left | right | right].
        -- exists spec. split; [apply elem_of_cons; by left | done].
        -- exists s. split; [apply elem_of_cons; by right | done].
      * intros [?|(s & [->|Hs]%elem_of_cons & Hm)]; [by left; left | left; right | right].
        -- congruence.
        -- by exists s.
    + split.
      * intros [?|(s & Hs & Hm)]; [by left | right].
        exists s. split; [apply elem_of_cons; by right | done].
      * intros [?|(s & [->|Hs]%elem_of_cons & Hm)]; [by left | congruence | right].
        by exists s.
Qed.

(** X16.  The mappings that [ExtractVolumeMappings] extracts are those that
    [parseVolumeSpec] yields for the volume specifications of the
    services: nothing else, and none of them is left out. *)
Theorem ExtractVolumeMappings_mappings (p : compose.Parser) (order : list string)
    (c : compose.ComposeFile) (m : compose.VolumeMapping) :
  m ∈ compose.ExtractVolumeMappings p order c ↔
  ∃ serviceName service volumeSpec,
    serviceName ∈ order ∧
    compose.Services c !! serviceName = Some service ∧
    volumeSpec ∈ compose.Service.Volumes service ∧
    compose.parseVolumeSpec p serviceName volumeSpec = Some m.
Proof.
  unfold compose.ExtractVolumeMappings.
  assert (Hfold : ∀ mappings,
    m ∈ fold_left
          (fun mappings serviceName =>
             match compose.Services c !! serviceName with
             | Some service =>
                 compose.appendMappings p serviceName mappings (compose.Service.Volumes service)
             | None => mappings
             end) order mappings ↔
    m ∈ mappings ∨
    ∃ serviceName service volumeSpec,
      serviceName ∈ order ∧
      compose.Services c !! serviceName = Some service ∧
      volumeSpec ∈ compose.Service.Volumes service ∧
      compose.parseVolumeSpec p serviceName volumeSpec = Some m).
  { induction order as [|name order IH]; intros mappings; cbn [fold_left].
    - split; [by left|]. intros [?|(? & ? & ? & H%elem_of_nil & _)]; [done | destruct H].
    - rewrite IH. destruct (compose.Services c !! name) as [service|] eqn:Hname.
      + rewrite appendMappings_elem. split.
        * intros [[?|(spec & Hspec & Hm)]|(n & s & spec & Hn & Hs & Hspec & Hm)];
            [by left | right | right].
          -- exists name, service, spec. split_and!; [apply elem_of_cons; by left | done..].
          -- exists n, s, spec. split_and!; [apply elem_of_cons; by right | done..].
        * intros [?|(n & s & spec & [->|Hn]%elem_of_cons & Hs & Hspec & Hm)];
            [by left; left | left; right | right].
          -- exists spec. split; [congruence | done].
          -- by exists n, s, spec.
      + split.
        * intros [?|(n & s & spec & Hn & Hs & Hspec & Hm)]; [by left | right].
          exists n, s, spec. split_and!; [apply elem_of_cons; by right | done..].
        * intros [?|(n & s & spec & [->|Hn]%elem_of_cons & Hs & Hspec & Hm)];
            [by left | congruence | right].
          by exists n, s, spec. }
  rewrite Hfold. split; [|by right]. intros [H%elem_of_nil|?]; [destruct H | done].
Qed.

(** X17.  [FindComposeFile] answers with the first of [docker-compose.yml],
    [docker-compose.yaml], [compose.yml] and [compose.yaml] that exists in
    the directory, and with an error exactly when none of them exists. *)
Theorem FindComposeFile_first_existing
    (filepathJoin : string -> string -> string) (statSucceeds : string -> bool)
    (p : compose.Parser) (directory : string) :
  match compose.FindComposeFile filepathJoin statSucceeds p directory with
  | inl path =>
      ∃ earlier name later,
        compose.composeFileNames = (earlier ++ name :: later)%list ∧
        path = filepathJoin directory name ∧
        statSucceeds path = true ∧
        ∀ other, other ∈ earlier → statSucceeds (filepathJoin directory other) = false
  | inr msg =>
      msg = "no docker-compose file found in " ++ directory ∧
      ∀ name, name ∈ compose.composeFileNames →
              statSucceeds (filepathJoin directory name) = false
  end.
Proof.
  unfold compose.FindComposeFile.
  assert (Hfind : ∀ names,
    match find (fun candidate => statSucceeds (filepathJoin directory candidate)) names with
    | Some name =>
        ∃ earlier later, names = (earlier ++ name :: later)%list ∧
          statSucceeds (filepathJoin directory name) = true ∧
          ∀ other, other ∈ earlier → statSucceeds (filepathJoin directory other) = false
    | None => ∀ name, name ∈ names → statSucceeds (filepathJoin directory name) = false
    end).
  { induction names as [|n names IH]; cbn [find].
    - by intros ? ?%elem_of_nil.
    - destruct (statSucceeds (filepathJoin directory n)) eqn:Hn.
      + exists [], names. split_and!; [done | done |]. by intros ? ?%elem_of_nil.
      + destruct (find _ names) as [name|].
        * destruct IH as (earlier & later & -> & Hname & Hearlier).
          exists (n :: earlier), later. split_and!; [done | done |].
          intros other [->|?]%elem_of_cons; [done | by apply Hearlier].
        * intros name [->|?]%elem_of_cons; [done | by apply IH]. }
  specialize (Hfind compose.composeFileNames).
  destruct (find _ compose.composeFileNames) as [name|].
  - destruct Hfind as (earlier & later & Hnames & Hname & Hearlier).
    by exists earlier, name, later.
  - by split.
Qed.

(** ** Parsing the declarations *)

Lemma claimsOf_elem (objs : list Object) (pvc : PVCInfo.t) :
  pvc ∈ kubernetes.claimsOf objs ↔
  ∃ obj, obj ∈ objs ∧ yamlobj.getString obj "kind" = Some "PersistentVolumeClaim" ∧
         kubernetes.parsePVCFromObject obj = Some pvc.
Proof.
  unfold kubernetes.claimsOf. rewrite list_elem_of_omap. split.
  - intros (obj & Hobj & Hpvc). exists obj. split; [done|].
    destruct (yamlobj.getString obj "kind") as [kind|]; [|done].
    destruct (String.eqb_spec kind "PersistentVolumeClaim") as [Heq|]; [by subst | done].
  - intros (obj & Hobj & Hkind & Hpvc). exists obj. split; [done|].
    by rewrite Hkind, String.eqb_refl.
Qed.

(** The walk of the parser: it ends at the first visit with a fault, with
    the claims of the visits before it. *)
Lemma parseWalk_cases (decodeAll : string -> list Object) (fs : FileSystem)
    (pvcs : list PVCInfo.t) :
  match kubernetes.parseWalk decodeAll fs pvcs with
  | (pvcs', None) =>
      Forall (fun visit => parseFault (fst visit) (snd visit) = None) fs ∧
      pvcs' = (pvcs ++ concat (map (claimsAt decodeAll) fs))%list
  | (pvcs', Some err) =>
      ∃ before path entry after,
        fs = (before ++ (path, entry) :: after)%list ∧
        Forall (fun visit => parseFault (fst visit) (snd visit) = None) before ∧
        parseFault path entry = Some err ∧
        pvcs' = (pvcs ++ concat (map (claimsAt decodeAll) before))%list
  end.
Proof.
  revert pvcs. induction fs as [|[path entry] rest IH]; intros pvcs.
  - cbn. by rewrite app_nil_r.
  - assert (Hskip : ∀ claims,
               parseFault path entry = None →
               claimsAt decodeAll (path, entry) = claims →
               match kubernetes.parseWalk decodeAll rest (pvcs ++ claims) with
               | (pvcs', None) =>
                   Forall (fun visit => parseFault (fst visit) (snd visit) = None)
                          ((path, entry) :: rest) ∧
                   pvcs' = (pvcs ++ concat (map (claimsAt decodeAll) ((path, entry) :: rest)))%list
               | (pvcs', Some err) =>
                   ∃ before p e after,
                     (path, entry) :: rest = (before ++ (p, e) :: after)%list ∧
                     Forall (fun visit => parseFault (fst visit) (snd visit) = None) before ∧
                     parseFault p e = Some err ∧
                     pvcs' = (pvcs ++ concat (map (claimsAt decodeAll) before))%list
               end).
    { intros claims Hfault Hclaims. specialize (IH (pvcs ++ claims)%list).
      destruct (kubernetes.parseWalk decodeAll rest (pvcs ++ claims)) as [pvcs' [err|]].
      - destruct IH as (before & p & e & after & -> & Hbefore & He & ->).
        exists ((path, entry) :: before), p, e, after. split_and!; [done | | done |].
        + by constructor.
        + cbn [map concat]. by rewrite Hclaims, app_assoc.
      - destruct IH as [Hrest ->]. split; [by constructor|].
        cbn [map concat]. by rewrite Hclaims, app_assoc. }
    cbn [kubernetes.parseWalk]. destruct entry as [file|err].
    + destruct (isYAMLPath path) eqn:Hyaml.
      * destruct file as [content onWrite|reason|]; cbn [kubernetes.parseYAMLFile].
        -- apply Hskip; cbn [parseFault claimsAt]; by rewrite ?Hyaml.
        -- exists [], path, (Found (Unreadable reason)), rest.
           cbn [parseFault]. rewrite Hyaml, app_nil_r. by split_and!.
        -- exact (Hskip [] eq_refl eq_refl).
      * assert (Hfault : parseFault path (Found file) = None)
          by (cbn [parseFault]; destruct file; by rewrite ?Hyaml).
        assert (Hclaims : claimsAt decodeAll (path, Found file) = [])
          by (cbn [claimsAt]; destruct file; by rewrite ?Hyaml).
        pose proof (Hskip [] Hfault Hclaims) as H. by rewrite app_nil_r in H.
    + exists [], path, (Inaccessible err), rest. rewrite app_nil_r. by split_and!.
Qed.

Lemma claimsAt_elem (decodeAll : string -> list Object) (fs : FileSystem) (pvc : PVCInfo.t) :
  pvc ∈ concat (map (claimsAt decodeAll) fs) ↔ declaredIn decodeAll fs pvc.
Proof.
  rewrite elem_of_concat. split.
  - intros (claims & Hpvc & (visit & -> & Hvisit)%elem_of_map).
    destruct visit as [path [[content onWrite| |]|]]; cbn [claimsAt] in Hpvc;
      try by apply elem_of_nil in Hpvc.
    destruct (isYAMLPath path) eqn:Hyaml; [|by apply elem_of_nil in Hpvc].
    apply claimsOf_elem in Hpvc as (obj & Hobj & Hkind & Hparsed).
    by exists path, content, onWrite, obj.
  - intros (path & content & onWrite & obj & Hin & Hyaml & Hobj & Hkind & Hparsed).
    exists (claimsAt decodeAll (path, Found (RegularFile content onWrite))). split.
    + cbn [claimsAt]. rewrite Hyaml. apply claimsOf_elem. by exists obj.
    + apply elem_of_map. by eexists.
Qed.

Lemma claimsAt_fresh (decodeAll : string -> list Object) (fs : FileSystem) :
  Forall (fun pvc => PVCInfo.MatchedVolume pvc = None ∧ PVCInfo.NewSize pvc = "")
         (concat (map (claimsAt decodeAll) fs)).
Proof.
  apply Forall_forall. intros pvc (_ & _ & _ & obj & _ & _ & _ & _ & Hpvc)%claimsAt_elem.
  rewrite parsePVCFromObject_fields in Hpvc. unfold claimOfFields in Hpvc.
  destruct (fieldName _); [|done]. destruct (fieldStorage _); [|done].
  by injection Hpvc as <-.
Qed.

(** X18.  [ParseYAMLFiles] returns an error exactly when the walk meets a
    path that it cannot access or a file with the suffix [.yaml] or
    [.yml] that cannot be opened; the error is that of the first such
    visit, and the claims returned with it are those declared in the files
    visited before.  Without an error, the claims are those declared in
    the regular files with the suffix [.yaml] or [.yml], nothing else and
    none left out.  In both cases each claim is fresh: no volume is
    matched to it and its new size is empty. *)
Theorem ParseYAMLFiles_declared_claims (decodeAll : string -> list Object) (fs : FileSystem) :
  match kubernetes.ParseYAMLFiles decodeAll fs with
  | (pvcs, None) =>
      (∀ path entry, (path, entry) ∈ fs → parseFault path entry = None) ∧
      (∀ pvc, pvc ∈ pvcs ↔ declaredIn decodeAll fs pvc) ∧
      Forall (fun pvc => PVCInfo.MatchedVolume pvc = None ∧ PVCInfo.NewSize pvc = "") pvcs
  | (pvcs, Some err) =>
      ∃ before path entry after,
        fs = (before ++ (path, entry) :: after)%list ∧
        (∀ p e, (p, e) ∈ before → parseFault p e = None) ∧
        parseFault path entry = Some err ∧
        (∀ pvc, pvc ∈ pvcs ↔ declaredIn decodeAll before pvc) ∧
        Forall (fun pvc => PVCInfo.MatchedVolume pvc = None ∧ PVCInfo.NewSize pvc = "") pvcs
  end.
Proof.
  unfold kubernetes.ParseYAMLFiles. pose proof (parseWalk_cases decodeAll fs []) as H.
  destruct (kubernetes.parseWalk decodeAll fs []) as [pvcs [err|]].
  - destruct H as (before & path & entry & after & -> & Hbefore & Hfault & ->).
    exists before, path, entry, after. split_and!; [done | | done | |].
    + intros p e Hin. rewrite Forall_forall in Hbefore. apply (Hbefore (p, e) Hin).
    + intros pvc. apply claimsAt_elem.
    + apply claimsAt_fresh.
  - destruct H as [Hall ->]. split_and!.
    + intros p e Hin. rewrite Forall_forall in Hall. apply (Hall (p, e) Hin).
    + intros pvc. apply claimsAt_elem.
    + apply claimsAt_fresh.
Qed.

(** ** Rewriting the declarations *)

(** X19.  A document that the parser reads as a claim is one that the updater
    rewrites: when its name and namespace are those of a listed claim
    with a non-empty new size, [updateDocumentIfPVC] marshals the object
    with the storage request set to that size and nothing else of the
    claim changed, and reports an update unless marshalling fails. *)
Theorem updateDocumentIfPVC_updates_parsed_claims
    (Unmarshal : string -> option Object) (Marshal : Object -> option string)
    (document : string) (obj : Object) (pvcs : list PVCInfo.t) (claim pvc : PVCInfo.t) :
  Unmarshal document = Some obj →
  yamlobj.getString obj "kind" = Some "PersistentVolumeClaim" →
  kubernetes.parsePVCFromObject obj = Some claim →
  yaml.findMatching pvcs (PVCInfo.Name claim) (PVCInfo.Namespace claim) = Some pvc →
  PVCInfo.NewSize pvc ≠ "" →
  ∃ updated,
    claimFields updated
    = mkClaimFields (Some "PersistentVolumeClaim") (Some (PVCInfo.Name claim))
        (fieldNamespace (claimFields obj)) (Some (PVCInfo.NewSize pvc)) ∧
    yaml.updateDocumentIfPVC Unmarshal Marshal document pvcs
    = match Marshal updated with
      | Some text => (text, true)
      | None => (document, false)
      end.
Proof.
  intros Hobj Hkind Hclaim Hfind Hsize. unfold yaml.updateDocumentIfPVC.
  rewrite Hobj, Hkind. cbn [String.eqb Ascii.eqb Bool.eqb negb].
  unfold kubernetes.parsePVCFromObject in Hclaim.
  destruct (yamlobj.getMap obj "metadata") as [metadata|] eqn:Hmeta; [|done].
  destruct (yamlobj.getString metadata "name") as [name|] eqn:Hname; [|done].
  cbv zeta in *.
  destruct (yamlobj.getMap obj "spec") as [spec|] eqn:Hspec; [|done].
  destruct (yamlobj.getMap spec "resources") as [resources|] eqn:Hres; [|done].
  destruct (yamlobj.getMap resources "requests") as [requests|] eqn:Hreq; [|done].
  destruct (yamlobj.getString requests "storage") as [storage|]; [|done].
  injection Hclaim as <-. cbn [PVCInfo.Name PVCInfo.Namespace] in Hfind. rewrite Hfind.
  apply String.eqb_neq in Hsize. rewrite Hsize.
  exists (yaml.setStorage obj spec resources requests (PVCInfo.NewSize pvc)).
  split; [|done].
  rewrite (claimFields_setStorage _ _ _ _ _ Hspec Hres Hreq). unfold claimFields.
  cbn [fieldKind fieldName fieldNamespace PVCInfo.Name].
  rewrite Hkind, Hmeta. cbn [mbind option_bind]. by rewrite Hname.
Qed.

Lemma findMatching_elem (pvcs : list PVCInfo.t) (name namespace : string) (pvc : PVCInfo.t) :
  yaml.findMatching pvcs name namespace = Some pvc → pvc ∈ pvcs.
Proof.
  induction pvcs as [|p pvcs IH]; cbn [yaml.findMatching]; [done|].
  destruct (_ && _).
  - intros [= <-]. apply elem_of_cons. by left.
  - intros ?%IH. apply elem_of_cons. by right.
Qed.

Lemma updateDocumentIfPVC_unsized (Unmarshal : string -> option Object)
    (Marshal : Object -> option string) (document : string) (pvcs : list PVCInfo.t) :
  Forall (fun pvc => PVCInfo.NewSize pvc = "") pvcs →
  yaml.updateDocumentIfPVC Unmarshal Marshal document pvcs = (document, false).
Proof.
  intros Hall. unfold yaml.updateDocumentIfPVC.
  destruct (Unmarshal document) as [obj|]; [|done].
  destruct (yamlobj.getString obj "kind") as [kind|]; [|done].
  destruct (negb _); [done|].
  destruct (yamlobj.getMap obj "metadata") as [metadata|]; [|done].
  destruct (yamlobj.getString metadata "name") as [name|]; [|done].
  cbv zeta. destruct (yaml.findMatching pvcs name _) as [pvc|] eqn:Hfind; [|done].
  apply findMatching_elem in Hfind. rewrite Forall_forall in Hall.
  by rewrite (Hall pvc Hfind).
Qed.

Lemma updateDocuments_unsized (Unmarshal : string -> option Object)
    (Marshal : Object -> option string) (content : string) (pvcs : list PVCInfo.t) :
  Forall (fun pvc => PVCInfo.NewSize pvc = "") pvcs →
  snd (yaml.updateDocuments Unmarshal Marshal content pvcs) = false.
Proof.
  intros Hall. unfold yaml.updateDocuments.
  generalize (yaml.documentsOf content). intros documents.
  assert (Hfold : ∀ acc, snd (fold_left
            (fun '(updatedDocuments, hasUpdates) doc =>
               let '(updatedDoc, updated) :=
                 yaml.updateDocumentIfPVC Unmarshal Marshal doc pvcs in
               ((updatedDocuments ++ [updatedDoc])%list, hasUpdates || updated))
            documents (acc, false)) = false).
  { induction documents as [|doc documents IH]; intros acc; cbn [fold_left]; [done|].
    rewrite updateDocumentIfPVC_unsized by done. cbn [orb]. apply IH. }
  apply Hfold.
Qed.

(** X20.  While no listed claim has a new size, [UpdateYAMLFiles] writes
    nothing: every file of the directory is left byte for byte as it
    was. *)
Theorem UpdateYAMLFiles_without_new_sizes
    (Unmarshal : string -> option Object) (Marshal : Object -> option string)
    (fs : FileSystem) (pvcs : list PVCInfo.t) :
  Forall (fun pvc => PVCInfo.NewSize pvc = "") pvcs →
  fst (yaml.UpdateYAMLFiles Unmarshal Marshal fs pvcs) = fs.
Proof.
  intros Hall. unfold yaml.UpdateYAMLFiles.
  assert (Hwalk : fst (yaml.updateWalk Unmarshal Marshal fs pvcs) = fs).
  { induction fs as [|[path [file|err]] fs IH]; cbn [yaml.updateWalk]; [done| |done].
    assert (Hfile : fst (yaml.updateYAMLFile Unmarshal Marshal path file pvcs) = file).
    { destruct file as [content onWrite| |]; cbn [yaml.updateYAMLFile]; [|done..].
      pose proof (updateDocuments_unsized Unmarshal Marshal content pvcs Hall) as Hno.
      destruct (yaml.updateDocuments Unmarshal Marshal content pvcs) as [docs changed].
      cbn [snd] in Hno. by subst changed. }
    destruct (yaml.updateWalk Unmarshal Marshal fs pvcs) as [fs' err]. cbn [fst] in IH. subst fs'.
    destruct (isYAMLPath path); [|done].
    destruct (yaml.updateYAMLFile Unmarshal Marshal path file pvcs) as [file' [msg|]];
      cbn [fst] in *; by subst. }
  by destruct (yaml.updateWalk Unmarshal Marshal fs pvcs) as [fs' [msg|]].
Qed.

(** An error of [updateYAMLFile] leaves the file as it was unless the
    write broke off. *)
Lemma updateYAMLFile_failed (Unmarshal : string -> option Object)
    (Marshal : Object -> option string) (path : string) (file file' : File)
    (pvcs : list PVCInfo.t) (reason : string) :
  yaml.updateYAMLFile Unmarshal Marshal path file pvcs = (file', Some reason) →
  ¬ breaksOff file → file' = file.
Proof.
  destruct file as [content onWrite| |]; cbn [yaml.updateYAMLFile breaksOff].
  - destruct (yaml.updateDocuments _ _ _ _) as [docs changed].
    destruct changed; [|congruence].
    destruct onWrite; cbn [breaksOff]; [congruence | congruence | |]; by intros _ [].
  - congruence.
  - congruence.
Qed.

(** X21.  When [UpdateYAMLFiles] returns an error, the error is that of
    the walk for a path that it could not access, or that of
    [updateYAMLFile] on one declaration file.  What the walk would have
    visited after it is left as it was; the file itself is as it was
    unless the write to it broke off; and the files before it keep what was
    written to them: nothing is rolled back. *)
Theorem UpdateYAMLFiles_stops_at_first_error
    (Unmarshal : string -> option Object) (Marshal : Object -> option string)
    (fs : FileSystem) (pvcs : list PVCInfo.t) :
  match yaml.UpdateYAMLFiles Unmarshal Marshal fs pvcs with
  | (fs', Some msg) =>
      ∃ before before' visit visit' after reason,
        fs = (before ++ visit :: after)%list ∧
        fs' = (before' ++ visit' :: after)%list ∧
        msg = "failed to update YAML files: " ++ reason ∧
        visitFailed Unmarshal Marshal pvcs visit visit' reason ∧
        Forall2 (visitUpdated Unmarshal Marshal pvcs) before before'
  | (fs', None) => Forall2 (visitUpdated Unmarshal Marshal pvcs) fs fs'
  end.
Proof.
  unfold yaml.UpdateYAMLFiles.
  assert (Hwalk :
    match yaml.updateWalk Unmarshal Marshal fs pvcs with
    | (fs', Some reason) =>
        ∃ before before' visit visit' after,
          fs = (before ++ visit :: after)%list ∧
          fs' = (before' ++ visit' :: after)%list ∧
          visitFailed Unmarshal Marshal pvcs visit visit' reason ∧
          Forall2 (visitUpdated Unmarshal Marshal pvcs) before before'
    | (fs', None) => Forall2 (visitUpdated Unmarshal Marshal pvcs) fs fs'
    end).
  { induction fs as [|[path [file|err]] fs IH]; cbn [yaml.updateWalk]; [constructor| |].
    - assert (Hnext : ∀ file',
                 (if isYAMLPath path
                  then yaml.updateYAMLFile Unmarshal Marshal path file pvcs = (file', None)
                  else file' = file) →
                 match (let '(rest', err) := yaml.updateWalk Unmarshal Marshal fs pvcs in
                        ((path, Found file') :: rest', err)) with
                 | (fs', Some reason) =>
                     ∃ before before' visit visit' after,
                       (path, Found file) :: fs = (before ++ visit :: after)%list ∧
                       fs' = (before' ++ visit' :: after)%list ∧
                       visitFailed Unmarshal Marshal pvcs visit visit' reason ∧
                       Forall2 (visitUpdated Unmarshal Marshal pvcs) before before'
                 | (fs', None) =>
                     Forall2 (visitUpdated Unmarshal Marshal pvcs) ((path, Found file) :: fs) fs'
                 end).
      { intros file' Hfile.
        assert (Hhere : visitUpdated Unmarshal Marshal pvcs (path, Found file) (path, Found file'))
          by (by exists path, file, file').
        destruct (yaml.updateWalk Unmarshal Marshal fs pvcs) as [rest' [reason|]].
        - destruct IH as (before & before' & visit & visit' & after & -> & -> & Hfailed & Hbefore).
          exists ((path, Found file) :: before), ((path, Found file') :: before'),
                 visit, visit', after.
          split_and!; [done | done | done |]. by constructor.
        - by constructor. }
      destruct (isYAMLPath path) eqn:Hyaml; [|by apply Hnext].
      destruct (yaml.updateYAMLFile Unmarshal Marshal path file pvcs) as [file' [reason|]]
        eqn:Hfile; [|by apply Hnext].
      exists [], [], (path, Found file), (path, Found file'), fs.
      split_and!; [done | done | | constructor].
      right. exists path, file, file'. split_and!; try done.
      by eapply updateYAMLFile_failed.
    - exists [], [], (path, Inaccessible err), (path, Inaccessible err), fs.
      split_and!; [done | done | | constructor]. left. by exists path. }
  destruct (yaml.updateWalk Unmarshal Marshal fs pvcs) as [fs' [reason|]]; [|done].
  destruct Hwalk as (before & before' & visit & visit' & after & Hfs & Hfs' & Hfailed & Hbefore).
  by exists before, before', visit, visit', after, reason.
Qed.

(** ** A failed read while sizing *)

Lemma setSizes_failed_read (isValidSize : string -> bool) (pvcs : list PVCInfo.t)
    (lines : list string) (rest : list ReadResult) (cause : string) (t : Terminal) :
  (length lines < length pvcs)%nat →
  stdin t = (map ReadLine lines ++ rest)%list →
  (rest = [] ∧ cause = "EOF" ∨ ∃ more, rest = ReadError cause :: more) →
  ∃ t', ui.setSizes isValidSize pvcs t
        = ((zip_with (fun pvc line => ui.setNewSize pvc (resolvedSize isValidSize pvc line))
                     (take (length lines) pvcs) lines
            ++ drop (length lines) pvcs)%list,
           Some ("failed to read input: " ++ cause), t').
Proof.
  intros Hlen Hin Hrest. revert lines t Hlen Hin.
  induction pvcs as [|pvc pvcs IH]; intros lines t Hlen Hin; [cbn in Hlen; lia|].
  cbn [ui.setSizes]. unfold readString. rewrite stdin_describe, Hin.
  destruct lines as [|line lines]; cbn [map app length take drop zip_with].
  - destruct Hrest as [[-> ->]|[more ->]]; eauto.
  - destruct (ui.resolveSize isValidSize pvc line) as [size warning] eqn:Hres.
    pose proof (resolveSize_resolved isValidSize pvc line) as Hsize. rewrite Hres in Hsize.
    cbn [fst] in Hsize. subst size.
    match goal with
    | |- context [ui.setSizes isValidSize pvcs ?t0] =>
        destruct (IH lines t0) as (t' & Heq)
    end.
    + cbn [length] in Hlen. lia.
    + cbn. by rewrite stdin_fold_print.
    + rewrite Heq. by exists t'.
Qed.

(** X22.  When the input ends, or a read fails, before every claim has its
    answer, [InteractiveSetSizes] returns the error of that read.  The
    claims answered so far have their sizes resolved; the claim at which
    the read failed and those after it are left as they were. *)
Theorem InteractiveSetSizes_failed_read (isValidSize : string -> bool)
    (pvcs : list PVCInfo.t) (lines : list string) (rest : list ReadResult) (cause : string)
    (t : Terminal) :
  (length lines < length pvcs)%nat →
  stdin t = (map ReadLine lines ++ rest)%list →
  (rest = [] ∧ cause = "EOF" ∨ ∃ more, rest = ReadError cause :: more) →
  ∃ t', ui.InteractiveSetSizes isValidSize pvcs t
        = ((zip_with (fun pvc line => ui.setNewSize pvc (resolvedSize isValidSize pvc line))
                     (take (length lines) pvcs) lines
            ++ drop (length lines) pvcs)%list,
           Some ("failed to read input: " ++ cause), t').
Proof.
  intros Hlen Hin Hrest. unfold ui.InteractiveSetSizes. cbv zeta.
  by apply (setSizes_failed_read isValidSize pvcs lines rest).
Qed.

(** ** The dry run and the namespace of the engine *)

(** X23.  [DryRun], in either text of the engine, only prints: it runs no
    command, lets no time pass and reads no input; what it prints depends
    on the list of claims alone, so that a second run prints the same plan
    again. *)
Theorem DryRun_only_prints (e1 : migration1.Engine) (e2 : migration2.Engine)
    (pvcs : list PVCInfo.t) (w : World) :
  migration2.DryRun e2 pvcs w = Returns tt (printed (dryRunPlan pvcs) w) ∧
  migration1.DryRun e1 pvcs w = Returns tt (printed (dryRunPlan pvcs) w) ∧
  bind (migration2.DryRun e2 pvcs) (fun _ => migration2.DryRun e2 pvcs) w
  = Returns tt (printed (dryRunPlan pvcs ++ dryRunPlan pvcs) w) ∧
  invocations (printed (dryRunPlan pvcs) w) = invocations w ∧
  now (printed (dryRunPlan pvcs) w) = now w ∧
  stdin (console (printed (dryRunPlan pvcs) w)) = stdin (console w).
Proof.
  unfold migration2.DryRun, migration1.DryRun, dryRunPlan, dryRunHeader, dryRunFooter.
  split_and!; try done.
  - apply DryRun_prints.
  - apply DryRun_prints.
  - rewrite bind_apply, !DryRun_prints. by rewrite printed_app.
Qed.

(** X25.  When the control plane refuses the claim, the run is over: for a
    list whose first claim has a matched volume, [StartMigration] of the
    second text returns the error that names the claim after this one
    command, and no command is run for the claims after it. *)
Theorem StartMigration_aborts_when_apply_fails (kubectl : nat -> Invocation -> Reply)
    (e : migration2.Engine) (pvc : PVCInfo.t) (rest : list PVCInfo.t) (w : World) :
  let r := kubectl (length (invocations w)) (applyCommand (migration2.pvcYAML pvc)) in
  PVCInfo.MatchedVolume pvc ≠ None →
  failed r = true →
  ∃ w',
    migration2.StartMigration kubectl e (pvc :: rest) w
    = Returns (Some ("migration failed for PVC " ++ PVCInfo.Name pvc
                       ++ ": failed to create PVC: kubectl apply failed: "
                       ++ errText r ++ nl ++ "Output: " ++ output r)) w' ∧
    invocations w' = (invocations w ++ [applyCommand (migration2.pvcYAML pvc)])%list.
Proof.
  cbv zeta. intros Hmatched Hfailed.
  unfold migration2.StartMigration, engine.StartMigration.
  rewrite bind_apply, printf_printed, bind_apply. cbn [engine.migrateFrom].
  destruct (PVCInfo.MatchedVolume pvc) as [vol|] eqn:Hvol; [|done].
  rewrite bind_apply, printf_printed, bind_apply.
  unfold migration2.migratePVC at 1. rewrite bind_apply, printf_printed, bind_apply.
  unfold migration2.createPVC. rewrite bind_apply. cbn [engine.run].
  unfold printed at 1 2 3. cbn [invocations now console].
  change (mkInvocation ("kubectl" :: ["apply"; "-f"; "-"]) (Some (migration2.pvcYAML pvc)))
    with (applyCommand (migration2.pvcYAML pvc)).
  rewrite Hfailed. cbn [ret]. rewrite bind_apply, printf_printed. cbn [ret].
  eexists. split; [reflexivity|]. done.
Qed.

(** ** The polls of a wait *)

(** Every poll of a polling loop starts before the deadline. *)
Lemma pollTrace_in_time (kubectl : nat -> Invocation -> Reply) (args : list string)
    (verdict : Reply -> Verdict) (timeoutError : string) (deadline interval : Z)
    (fuel n : nat) (t : Z) (result : error) (polls : nat) (t' : Z) :
  pollTrace kubectl args verdict timeoutError deadline interval fuel n t
  = Some (result, polls, t') →
  ∀ i, (i < polls)%nat → (startOfPoll kubectl args interval n t i < deadline)%Z.
Proof.
  revert n t polls. induction fuel as [|fuel IH]; intros n t polls; [done|].
  rewrite pollTrace_S. destruct (Z.leb_spec deadline t) as [|Hin].
  - intros [= <- <- <-] i Hi. lia.
  - destruct (verdict (answerAt kubectl args n)).
    + intros [= <- <- <-] i Hi. assert (i = 0)%nat as -> by lia. done.
    + destruct (pollTrace _ _ _ _ _ _ fuel _ _) as [[[res p] t'']|] eqn:Hrec; [|done].
      intros [= <- <- <-] i Hi. destruct i as [|i]; [done|].
      cbn [startOfPoll]. apply (IH _ _ _ Hrec). lia.
Qed.

(** A polling loop runs no more polls than intervals fit into the time
    it is given. *)
Lemma pollLoop_bounded (kubectl : nat -> Invocation -> Reply) (args : list string)
    (verdict : Reply -> Verdict) (timeoutError : string) (timeout interval : Z)
    (fuel : nat) (w : World) (result : error) (w' : World) :
  (0 < interval)%Z →
  pollLoop kubectl args verdict timeoutError fuel (now w + timeout) interval w
  = Returns result w' →
  ∃ polls, invocations w' = (invocations w ++ replicate polls (pollCommand args))%list ∧
           (polls = 0%nat ∨ interval * (Z.of_nat polls - 1) < timeout)%Z.
Proof.
  intros Hpos Hloop.
  destruct (pollLoop_commands _ _ _ _ _ _ _ _ _ _ Hloop) as (polls & t' & Htrace & Hinv).
  exists polls. split; [done|]. destruct polls as [|polls]; [by left|]. right.
  pose proof (pollTrace_in_time _ _ _ _ _ _ _ _ _ _ _ _ Htrace polls ltac:(lia)) as Hlast.
  pose proof (startOfPoll_lower kubectl args interval (length (invocations w)) (now w) polls
                Hpos). lia.
Qed.

Lemma waitForPodCompletion_pollLoop (kubectl : nat -> Invocation -> Reply)
    (podName namespace : string) (w : World) :
  engine.waitForPodCompletion kubectl podName namespace w
  = pollLoop kubectl (podPollArgs podName namespace) podVerdict
      ("timeout waiting for pod " ++ podName ++ " to complete")
      121 (now w + podTimeout) pollInterval w.
Proof.
  unfold engine.waitForPodCompletion. cbv zeta. rewrite bind_apply. cbn [getNow].
  apply podLoop_pollLoop.
Qed.

Lemma waitForPodCompletion_polls (kubectl : nat -> Invocation -> Reply)
    (podName namespace : string) (w : World) :
  ∃ result w' polls,
    engine.waitForPodCompletion kubectl podName namespace w = Returns result w' ∧
    (polls <= 120)%nat ∧
    invocations w'
    = (invocations w ++ replicate polls (pollCommand (podPollArgs podName namespace)))%list.
Proof.
  rewrite waitForPodCompletion_pollLoop.
  destruct (pollLoop_contract kubectl (podPollArgs podName namespace) podVerdict
              ("timeout waiting for pod " ++ podName ++ " to complete")
              podTimeout pollInterval 120 w) as ((result & w' & Hw') & _); [done | done |].
  destruct (pollLoop_bounded kubectl _ _ _ podTimeout pollInterval _ w _ _ eq_refl Hw')
    as (polls & Hinv & Hpolls).
  exists result, w', polls. split_and!; [done| |done].
  unfold podTimeout, pollInterval, minute, second in Hpolls. lia.
Qed.

(** X26.  [waitForPodCompletion] returns after at most 120 polls; it returns
    success at the first poll that reports "Succeeded", provided that poll
    starts within the 10 minutes and no earlier poll reported "Failed";
    and it returns the timeout error once the 10 minutes are over when no
    poll within them reports "Succeeded" or "Failed". *)
Theorem waitForPodCompletion_contract (kubectl : nat -> Invocation -> Reply)
    (podName namespace : string) (w : World) :
  PodWait kubectl podName namespace w.
Proof.
  unfold PodWait. cbv zeta.
  pose proof (waitForPodCompletion_polls kubectl podName namespace w) as Hpolls.
  rewrite waitForPodCompletion_pollLoop in *.
  destruct (pollLoop_contract kubectl (podPollArgs podName namespace) podVerdict
              ("timeout waiting for pod " ++ podName ++ " to complete")
              podTimeout pollInterval 120 w) as (Hret & Hstop & Htimeout); [done | done |].
  cbv zeta in *.
  assert (Hwaits : ∀ r, ¬ reports "Succeeded" r → ¬ reports "Failed" r → waits podVerdict r).
  { intros r Hs Hf. unfold waits, podVerdict, reports in *.
    destruct (failed r); [by eexists|]. cbv zeta.
    destruct (String.eqb_spec (TrimSpace (output r)) "Succeeded"); [by destruct Hs|].
    destruct (String.eqb_spec (TrimSpace (output r)) "Failed"); [by destruct Hf|].
    by eexists. }
  split_and!.
  - exact Hpolls.
  - intros j Hpending [Hok Hphase] Hstart.
    apply (Hstop j None []); [|by unfold podVerdict; rewrite Hok, Hphase|done].
    intros i Hi. destruct (Hpending i Hi). by apply Hwaits.
  - intros Hpending. apply Htimeout. intros j Hj. destruct (Hpending j Hj). by apply Hwaits.
Qed.

(** X27.  [waitForPVCBound], in either text of the engine, returns after at
    most 60 polls of the claim's phase and no other command. *)
Theorem waitForPVCBound_polls_at_most_60_times (kubectl : nat -> Invocation -> Reply)
    (pvc : PVCInfo.t) (w : World) :
  (∀ e : migration1.Engine,
      ∃ result w' polls,
        migration1.waitForPVCBound kubectl e pvc w = Returns result w' ∧ (polls <= 60)%nat ∧
        invocations w'
        = (invocations w ++
           replicate polls
             (pollCommand (pvcPollArgs (PVCInfo.Name pvc) (migration1.migrationNamespace e))))%list) ∧
  (∀ e : migration2.Engine,
      ∃ result w' polls,
        migration2.waitForPVCBound kubectl e pvc w = Returns result w' ∧ (polls <= 60)%nat ∧
        invocations w'
        = (invocations w ++
           replicate polls
             (pollCommand (pvcPollArgs (PVCInfo.Name pvc) (PVCInfo.Namespace pvc))))%list).
Proof.
  assert (Hbound : ∀ args verdict timeoutError,
    ∃ result w' polls,
      pollLoop kubectl args verdict timeoutError 61 (now w + boundTimeout) pollInterval w
      = Returns result w' ∧ (polls <= 60)%nat ∧
      invocations w' = (invocations w ++ replicate polls (pollCommand args))%list).
  { intros args verdict timeoutError.
    destruct (pollLoop_contract kubectl args verdict timeoutError boundTimeout pollInterval
                60 w) as ((result & w' & Hw') & _); [done | done |].
    destruct (pollLoop_bounded kubectl _ _ _ boundTimeout pollInterval _ w _ _ eq_refl Hw')
      as (polls & Hinv & Hpolls).
    exists result, w', polls. split_and!; [done| |done].
    unfold boundTimeout, pollInterval, minute, second in Hpolls. lia. }
  split; intros e.
  - rewrite waitForPVCBound1_pollLoop. apply Hbound.
  - rewrite (waitForPVCBound2_pollLoop kubectl e). apply Hbound.
Qed.

(** ** The life of the migration pod *)

Lemma printLogLines_printed (lines : list string) (w : World) :
  ∃ texts, engine.printLogLines lines w = Returns tt (printed texts w).
Proof.
  revert w. induction lines as [|line lines IH]; intros w; cbn [engine.printLogLines].
  - exists []. by rewrite printed_nil.
  - rewrite bind_apply. unfold engine.printLogLine. destruct (negb _).
    + rewrite printf_printed. destruct (IH (printed ["    " ++ line ++ nl] w)) as [texts ->].
      eexists. by rewrite printed_app.
    + cbn [ret]. apply IH.
Qed.

Lemma showPodLogs_command (kubectl : nat -> Invocation -> Reply)
    (podName namespace : string) (w : World) :
  ∃ err w', engine.showPodLogs kubectl podName namespace w = Returns err w' ∧
            invocations w' = (invocations w ++ [logsCommand podName namespace])%list.
Proof.
  unfold engine.showPodLogs. rewrite bind_apply. cbn [engine.run].
  destruct (failed _); [by eexists _, _|].
  rewrite bind_apply.
  match goal with
  | |- context [engine.printLogLines ?ls ?w0] =>
      destruct (printLogLines_printed ls w0) as [texts ->]
  end.
  by eexists _, _.
Qed.

Lemma deletePod_command (kubectl : nat -> Invocation -> Reply)
    (podName namespace : string) (w : World) :
  ∃ err w', engine.deletePod kubectl podName namespace w = Returns err w' ∧
            invocations w' = (invocations w ++ [deleteCommand podName namespace])%list.
Proof.
  unfold engine.deletePod. rewrite bind_apply. cbn [engine.run ret]. by eexists _, _.
Qed.

Lemma warning_printed (err : error) (pre : string) (w : World) :
  ∃ texts,
    match err with
    | Some msg => printf (pre ++ msg ++ nl)
    | None => ret tt
    end w = Returns tt (printed texts w).
Proof.
  destruct err as [msg|].
  - eexists. apply printf_printed.
  - exists []. by rewrite printed_nil.
Qed.

(** The commands of [copyData] of the second text, by the outcome of
    creating the pod and of waiting for it. *)
Lemma copyData2_trace (kubectl : nat -> Invocation -> Reply) (e : migration2.Engine)
    (pvc : PVCInfo.t) (vol : DockerVolumeInfo.t) (w : World) :
  PVCInfo.MatchedVolume pvc = Some vol →
  let podName := migrationPodName (PVCInfo.Name pvc) (now w) in
  let namespace := PVCInfo.Namespace pvc in
  let create :=
    applyCommand (migration2.podYAML podName namespace
                    (DockerVolumeInfo.Mountpoint vol) (PVCInfo.Name pvc)) in
  let r := kubectl (length (invocations w)) create in
  if failed r then
    ∃ w',
      migration2.copyData kubectl e pvc w
      = Returns (Some ("failed to create migration pod: " ++ errText r ++ nl
                         ++ "Output: " ++ output r)) w' ∧
      invocations w' = (invocations w ++ [create])%list
  else
    ∃ w1 waited w2 polls,
      invocations w1 = (invocations w ++ [create])%list ∧
      now w1 = (now w + Z.of_N (elapsed r))%Z ∧
      engine.waitForPodCompletion kubectl podName namespace w1 = Returns waited w2 ∧
      (polls <= 120)%nat ∧
      invocations w2
      = (invocations w
           ++ create :: replicate polls (pollCommand (podPollArgs podName namespace)))%list ∧
      match waited with
      | Some msg =>
          migration2.copyData kubectl e pvc w
          = Returns (Some ("migration pod failed: " ++ msg)) w2
      | None =>
          ∃ w',
            migration2.copyData kubectl e pvc w = Returns None w' ∧
            invocations w'
            = (invocations w2
                 ++ [logsCommand podName namespace; deleteCommand podName namespace])%list
      end.
Proof.
  intros Hvol. cbv zeta.
  unfold migration2.copyData. rewrite bind_apply. cbn [getNow]. rewrite Hvol. cbv zeta.
  rewrite bind_apply. cbn [engine.run].
  fold (applyCommand (migration2.podYAML (migrationPodName (PVCInfo.Name pvc) (now w))
                        (PVCInfo.Namespace pvc) (DockerVolumeInfo.Mountpoint vol)
                        (PVCInfo.Name pvc))).
  set (create := applyCommand _). set (r := kubectl _ create).
  destruct (failed r).
  { cbn [ret]. by eexists. }
  rewrite bind_apply, printf_printed, bind_apply.
  match goal with
  | |- context [engine.waitForPodCompletion kubectl ?p ?n ?w0] =>
      set (w1 := w0);
      destruct (waitForPodCompletion_polls kubectl p n w1) as (err & w2 & polls & Hwait & Hpolls & Hinv1)
  end.
  exists w1, err, w2, polls. rewrite Hwait.
  assert (Hinv2 : invocations w2
                  = (invocations w ++ create
                       :: replicate polls
                            (pollCommand (podPollArgs (migrationPodName (PVCInfo.Name pvc) (now w))
                                            (PVCInfo.Namespace pvc))))%list).
  { rewrite Hinv1. unfold w1. cbn [printed invocations]. by rewrite <- app_assoc. }
  split_and!; [done | done | done | done | done |].
  destruct err as [msg|]; [done|].
  rewrite bind_apply, printf_printed, bind_apply.
  match goal with
  | |- context [engine.showPodLogs kubectl ?p ?n ?w0] =>
      destruct (showPodLogs_command kubectl p n w0) as (err1 & w3 & -> & Hinv3)
  end.
  cbn [printed invocations] in Hinv3. rewrite bind_apply.
  destruct (warning_printed err1 "    Warning: Could not retrieve pod logs: " w3) as [t1 ->].
  rewrite bind_apply.
  match goal with
  | |- context [engine.deletePod kubectl ?p ?n ?w0] =>
      destruct (deletePod_command kubectl p n w0) as (err2 & w4 & -> & Hinv4)
  end.
  cbn [printed invocations] in Hinv4. rewrite bind_apply.
  destruct (warning_printed err2 "    Warning: Could not delete migration pod: " w4) as [t2 ->].
  cbn [ret]. eexists. split; [done|].
  cbn [printed invocations]. rewrite Hinv4, Hinv3. by rewrite <- app_assoc.
Qed.

(** X28.  [copyData] of the second text creates the migration pod.  When
    that fails it returns the error after this one command.  Otherwise it
    waits for the pod, with at most 120 polls of its phase: when the wait
    returns an error, [copyData] returns it at once, with neither the logs
    fetched nor the pod deleted; when the wait succeeds, it fetches the
    logs and deletes the pod and returns success whatever becomes of these
    two commands.  A claim without a matched volume makes it panic. *)
Theorem copyData_deletes_the_pod_after_success (kubectl : nat -> Invocation -> Reply)
    (e : migration2.Engine) (pvc : PVCInfo.t) (w : World) :
  match PVCInfo.MatchedVolume pvc with
  | None => migration2.copyData kubectl e pvc w = Panics
  | Some vol =>
      let podName := migrationPodName (PVCInfo.Name pvc) (now w) in
      let namespace := PVCInfo.Namespace pvc in
      let create :=
        applyCommand (migration2.podYAML podName namespace
                        (DockerVolumeInfo.Mountpoint vol) (PVCInfo.Name pvc)) in
      let r := kubectl (length (invocations w)) create in
      if failed r then
        ∃ w',
          migration2.copyData kubectl e pvc w
          = Returns (Some ("failed to create migration pod: " ++ errText r ++ nl
                             ++ "Output: " ++ output r)) w' ∧
          invocations w' = (invocations w ++ [create])%list
      else
        ∃ w1 waited w2 polls,
          invocations w1 = (invocations w ++ [create])%list ∧
          now w1 = (now w + Z.of_N (elapsed r))%Z ∧
          engine.waitForPodCompletion kubectl podName namespace w1 = Returns waited w2 ∧
          (polls <= 120)%nat ∧
          invocations w2
          = (invocations w
               ++ create :: replicate polls (pollCommand (podPollArgs podName namespace)))%list ∧
          match waited with
          | Some msg =>
              migration2.copyData kubectl e pvc w
              = Returns (Some ("migration pod failed: " ++ msg)) w2
          | None =>
              ∃ w',
                migration2.copyData kubectl e pvc w = Returns None w' ∧
                invocations w'
                = (invocations w2
                     ++ [logsCommand podName namespace; deleteCommand podName namespace])%list
          end
  end.
Proof.
  destruct (PVCInfo.MatchedVolume pvc) as [vol|] eqn:Hvol.
  - by apply copyData2_trace.
  - unfold migration2.copyData. rewrite bind_apply. cbn [getNow]. by rewrite Hvol.
Qed.

(** ** The commands of a run *)

Lemma createPVC2_command (kubectl : nat -> Invocation -> Reply) (e : migration2.Engine)
    (pvc : PVCInfo.t) (w : World) :
  ∃ err w',
    migration2.createPVC kubectl e pvc w = Returns err w' ∧
    invocations w' = (invocations w ++ [applyCommand (migration2.pvcYAML pvc)])%list.
Proof.
  unfold migration2.createPVC. rewrite bind_apply. cbn [engine.run].
  destruct (failed _); cbn [ret]; by eexists _, _.
Qed.

Lemma waitForPVCBound2_polls (kubectl : nat -> Invocation -> Reply) (e : migration2.Engine)
    (pvc : PVCInfo.t) (w : World) :
  ∃ err w' polls,
    migration2.waitForPVCBound kubectl e pvc w = Returns err w' ∧
    invocations w'
    = (invocations w
         ++ replicate polls
              (pollCommand (pvcPollArgs (PVCInfo.Name pvc) (PVCInfo.Namespace pvc))))%list.
Proof.
  rewrite (waitForPVCBound2_pollLoop kubectl e).
  destruct (pollLoop_contract kubectl
              (pvcPollArgs (PVCInfo.Name pvc) (PVCInfo.Namespace pvc)) boundVerdict2
              ("timeout waiting for PVC " ++ PVCInfo.Name pvc ++ " to be bound")
              boundTimeout pollInterval 60 w) as ((err & w' & Hw') & _); [done | done |].
  destruct (pollLoop_commands _ _ _ _ _ _ _ _ _ _ Hw') as (polls & t' & _ & Hinv).
  by exists err, w', polls.
Qed.

Lemma Forall_replicate_same {A : Type} (P : A → Prop) (n : nat) (x : A) :
  P x → Forall P (replicate n x).
Proof. intros Hx. induction n; by constructor. Qed.

(** Every command of [migratePVC] of the second text is a command for
    the claim. *)
Lemma migratePVC2_commands (kubectl : nat -> Invocation -> Reply) (e : migration2.Engine)
    (pvc : PVCInfo.t) (w : World) :
  PVCInfo.MatchedVolume pvc ≠ None →
  ∃ err w' commands,
    migration2.migratePVC kubectl e pvc w = Returns err w' ∧
    invocations w' = (invocations w ++ commands)%list ∧
    Forall (commandFor pvc) commands.
Proof.
  intros Hmatched. destruct (PVCInfo.MatchedVolume pvc) as [vol|] eqn:Hvol; [|done].
  unfold migration2.migratePVC. rewrite bind_apply, printf_printed, bind_apply.
  match goal with
  | |- context [migration2.createPVC kubectl e pvc ?w0] =>
      destruct (createPVC2_command kubectl e pvc w0) as (err1 & w1 & -> & Hinv1)
  end.
  cbn [printed invocations] in Hinv1.
  assert (Hcreate : Forall (commandFor pvc) [applyCommand (migration2.pvcYAML pvc)]).
  { constructor; [by left | constructor]. }
  destruct err1 as [msg|]; [cbn [ret]; by eexists _, _, _|].
  rewrite bind_apply, printf_printed, bind_apply.
  match goal with
  | |- context [migration2.waitForPVCBound kubectl e pvc ?w0] =>
      destruct (waitForPVCBound2_polls kubectl e pvc w0) as (err2 & w2 & polls & -> & Hinv2)
  end.
  cbn [printed invocations] in Hinv2. rewrite Hinv1, <- app_assoc in Hinv2.
  assert (Hbound : Forall (commandFor pvc)
                     ([applyCommand (migration2.pvcYAML pvc)]
                        ++ replicate polls
                             (pollCommand (pvcPollArgs (PVCInfo.Name pvc)
                                             (PVCInfo.Namespace pvc))))%list).
  { apply Forall_app. split; [done|]. apply Forall_replicate_same. right. by left. }
  destruct err2 as [msg|]; [cbn [ret]; by eexists _, _, _|].
  rewrite Hvol, bind_apply, printf_printed, bind_apply.
  match goal with
  | |- context [migration2.copyData kubectl e pvc ?w0] => set (w3 := w0)
  end.
  assert (Hinv3 : invocations w3 = invocations w2) by done.
  assert (Hcopy : ∃ err w' commands,
             migration2.copyData kubectl e pvc w3 = Returns err w' ∧
             invocations w' = (invocations w3 ++ commands)%list ∧
             Forall (commandFor pvc) commands).
  { pose proof (copyData2_trace kubectl e pvc vol w3 Hvol) as Htrace. cbv zeta in Htrace.
    set (podName := migrationPodName (PVCInfo.Name pvc) (now w3)) in *.
    assert (Hpod : commandFor pvc
                     (applyCommand (migration2.podYAML podName (PVCInfo.Namespace pvc)
                                      (DockerVolumeInfo.Mountpoint vol) (PVCInfo.Name pvc)))).
    { right. right. exists (now w3). left. by exists vol. }
    assert (Hpoll : commandFor pvc (pollCommand (podPollArgs podName (PVCInfo.Namespace pvc)))).
    { right. right. exists (now w3). right. by left. }
    destruct (failed _).
    - destruct Htrace as (w' & -> & Hinv).
      eexists _, w', [_]. split_and!; [done | exact Hinv |]. constructor; [done | constructor].
    - destruct Htrace as (w4 & waited & w5 & n & _ & _ & _ & _ & Hinv5 & Hrest).
      destruct waited as [msg|].
      + rewrite Hrest. eexists _, w5, (_ :: replicate n _). split_and!; [done | exact Hinv5 |].
        constructor; [done|]. by apply Forall_replicate_same.
      + destruct Hrest as (w' & -> & Hinv).
        eexists _, w', ((_ :: replicate n _) ++ [_; _])%list. split_and!; [done | |].
        * rewrite Hinv, Hinv5, <- app_assoc. reflexivity.
        * apply Forall_app. split.
          -- constructor; [done|]. by apply Forall_replicate_same.
          -- constructor; [|constructor; [|constructor]].
             ++ right. right. exists (now w3). right. right. by left.
             ++ right. right. exists (now w3). right. right. by right. }
  destruct Hcopy as (err3 & w' & commands & -> & Hinv & Hall).
  rewrite Hinv3, Hinv2, <- app_assoc in Hinv.
  destruct err3 as [msg|]; cbn [ret]; eexists _, w', _; split_and!; try done;
    by apply Forall_app.
Qed.

Lemma migrateFrom2_commands (kubectl : nat -> Invocation -> Reply) (e : migration2.Engine)
    (total i : nat) (pvcs : list PVCInfo.t) (w : World) :
  ∃ result w' commands,
    engine.migrateFrom (migration2.migratePVC kubectl e) total i pvcs w = Returns result w' ∧
    invocations w' = (invocations w ++ commands)%list ∧
    Forall (fun command =>
              ∃ pvc, pvc ∈ pvcs ∧ PVCInfo.MatchedVolume pvc ≠ None ∧ commandFor pvc command)
           commands.
Proof.
  revert i w. induction pvcs as [|pvc rest IH]; intros i w; cbn [engine.migrateFrom].
  - exists None, w, []. by rewrite app_nil_r.
  - assert (Hrest : ∀ w0, invocations w0 = invocations w →
              ∃ result w' commands,
                engine.migrateFrom (migration2.migratePVC kubectl e) total (S i) rest w0
                = Returns result w' ∧
                invocations w' = (invocations w ++ commands)%list ∧
                Forall (fun command =>
                          ∃ p, p ∈ pvc :: rest ∧ PVCInfo.MatchedVolume p ≠ None
                               ∧ commandFor p command) commands).
    { intros w0 Hw0. destruct (IH (S i) w0) as (result & w' & commands & Hrun & Hinv & Hall).
      exists result, w', commands. rewrite <- Hw0. split_and!; [done | done |].
      eapply Forall_impl; [done|]. intros c (p & Hp & Hrest). exists p.
      split; [apply elem_of_cons; by right | done]. }
    destruct (PVCInfo.MatchedVolume pvc) as [vol|] eqn:Hvol.
    + rewrite bind_apply, printf_printed, bind_apply.
      match goal with
      | |- context [migration2.migratePVC kubectl e pvc ?w0] =>
          destruct (migratePVC2_commands kubectl e pvc w0) as (err & w1 & commands & -> & Hinv1 & Hall1);
            [by rewrite Hvol|]
      end.
      cbn [printed invocations] in Hinv1.
      assert (Hhere : Forall (fun command =>
                                ∃ p, p ∈ pvc :: rest ∧ PVCInfo.MatchedVolume p ≠ None
                                     ∧ commandFor p command) commands).
      { eapply Forall_impl; [done|]. intros c Hc. exists pvc.
        split_and!; [apply elem_of_cons; by left | by rewrite Hvol | done]. }
      destruct err as [msg|].
      * rewrite bind_apply, printf_printed. cbn [ret]. by eexists _, _, commands.
      * rewrite bind_apply, printf_printed.
        destruct (IH (S i) (printed ["✅ Successfully migrated " ++ PVCInfo.Name pvc ++ nl] w1))
          as (result & w' & more & -> & Hinv & Hall).
        cbn [printed invocations] in Hinv. rewrite Hinv1, <- app_assoc in Hinv.
        exists result, w', (commands ++ more)%list. split_and!; [done | done |].
        apply Forall_app. split; [done|].
        eapply Forall_impl; [done|]. intros c (p & Hp & Hrest'). exists p.
        split; [apply elem_of_cons; by right | done].
    + rewrite bind_apply, printf_printed. by apply Hrest.
Qed.

(** X24.  [StartMigration] of the second text always returns, and every
    command that it runs is a command for a claim of the list that has a
    matched volume: the manifest of the claim or of its migration pod,
    which name the namespace of the claim, or a query, log or delete
    command with [-n] and the namespace of the claim.  This holds for every
    engine: the namespace that [NewEngine] was given is in none of the
    commands. *)
Theorem migration2_ignores_engine_namespace (kubectl : nat -> Invocation -> Reply)
    (e : migration2.Engine) (pvcs : list PVCInfo.t) (w : World) :
  ∃ result w' commands,
    migration2.StartMigration kubectl e pvcs w = Returns result w' ∧
    invocations w' = (invocations w ++ commands)%list ∧
    Forall (fun command =>
              ∃ pvc, pvc ∈ pvcs ∧ PVCInfo.MatchedVolume pvc ≠ None ∧ commandFor pvc command)
           commands.
Proof.
  unfold migration2.StartMigration, engine.StartMigration.
  rewrite bind_apply, printf_printed, bind_apply.
  match goal with
  | |- context [engine.migrateFrom _ ?total ?i pvcs ?w0] =>
      destruct (migrateFrom2_commands kubectl e total i pvcs w0)
        as (result & w1 & commands & -> & Hinv & Hall)
  end.
  cbn [printed invocations] in Hinv.
  destruct result as [msg|]; cbn [ret].
  - by exists (Some msg), w1, commands.
  - rewrite bind_apply, printf_printed. cbn [ret]. by eexists None, _, commands.
Qed.

(** ** The node of the migration pods *)

Lemma findBestDefaultNode_elem (nodes : list string) (hostname : string) :
  nodes ≠ [] → migration1.findBestDefaultNode nodes hostname ∈ nodes.
Proof.
  intros Hne. unfold migration1.findBestDefaultNode.
  destruct (find _ nodes) as [node|] eqn:Hfind.
  - apply find_some in Hfind as [Hin _]. by apply list_elem_of_In.
  - destruct nodes as [|first rest]; [done|]. apply elem_of_cons. by left.
Qed.

Lemma scanNodes_elem (nodes : list string) (input : string) (matches : list string) :
  match migration1.scanNodes nodes input matches with
  | inl node => node ∈ nodes
  | inr found => ∀ node, node ∈ found → node ∈ matches ∨ node ∈ nodes
  end.
Proof.
  revert matches. induction nodes as [|n nodes IH]; intros matches; cbn [migration1.scanNodes].
  - intros node Hnode. by left.
  - destruct (EqualFold n input); [apply elem_of_cons; by left|].
    destruct (Contains _ _).
    + specialize (IH (matches ++ [n])%list).
      destruct (migration1.scanNodes nodes input _) as [node|found].
      * apply elem_of_cons. by right.
      * intros node [[?| ->%list_elem_of_singleton]%elem_of_app|?]%IH;
          [by left | right; apply elem_of_cons; by left | right; apply elem_of_cons; by right].
    + specialize (IH matches).
      destruct (migration1.scanNodes nodes input _) as [node|found].
      * apply elem_of_cons. by right.
      * intros node [?|?]%IH; [by left | right; apply elem_of_cons; by right].
Qed.

Lemma nodeLoop_elem (nodes : list string) (defaultNode : string)
    (pending : list ReadResult) (out : list string) :
  match migration1.nodeLoop nodes defaultNode pending out with
  | Returns (node, None) _ => node = defaultNode ∨ node ∈ nodes
  | Returns (node, Some _) _ => node = ""
  | NeverReturns => False
  | Panics => False
  end.
Proof.
  revert out. induction pending as [|r rest IH]; intros out; cbn [migration1.nodeLoop]; [done|].
  destruct r as [line|msg]; [|done].
  destruct (String.eqb (TrimSpace line) ""); [by left|].
  destruct (Atoi (TrimSpace line)) as [choice|].
  - destruct (Z.leb_spec 1 choice), (Z.leb_spec choice (Z.of_nat (length nodes)));
      cbn [andb]; try apply IH.
    destruct (nodes !! Z.to_nat (choice - 1)) as [selected|] eqn:Hsel.
    + right. by eapply list_elem_of_lookup_2.
    + apply lookup_ge_None in Hsel. lia.
  - pose proof (scanNodes_elem nodes (TrimSpace line) []) as Hscan.
    destruct (migration1.scanNodes nodes (TrimSpace line) []) as [node|found]; [by right|].
    destruct found as [|only [|second more]]; [apply IH| |apply IH].
    right. destruct (Hscan only) as [[]%elem_of_nil|?]; [apply elem_of_cons; by left | done].
Qed.

(** X29.  The node that [getCurrentNodeName] returns without an error is one
    of the nodes that the control plane listed; listing them is the only
    command it runs.  With an error it returns the empty name.  It never
    indexes the list of nodes out of range. *)
Theorem getCurrentNodeName_selects_a_listed_node (kubectl : nat -> Invocation -> Reply)
    (hostname : string) (e : migration1.Engine) (w : World) :
  let r := kubectl (length (invocations w)) nodesCommand in
  match migration1.getCurrentNodeName kubectl hostname e w with
  | Returns (node, None) w' =>
      failed r = false ∧ node ∈ Fields (output r) ∧
      invocations w' = (invocations w ++ [nodesCommand])%list
  | Returns (node, Some _) w' =>
      node = "" ∧ invocations w' = (invocations w ++ [nodesCommand])%list
  | NeverReturns => False
  | Panics => False
  end.
Proof.
  cbv zeta. unfold migration1.getCurrentNodeName. rewrite bind_apply. cbn [engine.run].
  fold nodesCommand. set (r := kubectl _ nodesCommand).
  destruct (failed r) eqn:Hfailed; [done|].
  destruct (Nat.eqb_spec (length (Fields (output r))) 0) as [|Hlen]; [done|].
  unfold migration1.interactiveNodeSelection. cbv zeta.
  match goal with
  | |- context [migration1.nodeLoop ?ns ?d ?p ?o] =>
      pose proof (nodeLoop_elem ns d p o) as Hloop;
      destruct (migration1.nodeLoop ns d p o) as [[node [msg|]] t'| |]
  end; cbn [invocations]; try done.
  split_and!; [done| |done].
  destruct Hloop as [->|?]; [|done]. apply findBestDefaultNode_elem.
  by destruct (Fields (output r)).
Qed.

(** ** The manifest of a claim *)

(** X30.  The file that [findYAMLFileForPVC] answers with is one that the
    patterns [*.yaml] and [*.yml] of the manifest directory match, can be
    read, and holds a document of kind PersistentVolumeClaim whose name is
    that of the claim (the namespace is not looked at); and it is the first
    such file.  It answers with an error when the pattern is refused or no
    file holds such a document. *)
Theorem findYAMLFileForPVC_finds_a_declaring_file
    (filepathJoin : string -> string -> string) (glob : string -> option (list string))
    (readFile : string -> option string) (Unmarshal : string -> option Object)
    (e : migration1.Engine) (pvc : PVCInfo.t) :
  match migration1.findYAMLFileForPVC filepathJoin glob readFile Unmarshal e pvc with
  | inl file =>
      ∃ matches earlier later content doc,
        glob (filepathJoin (migration1.yamlDirectory e) "*.yaml") = Some matches ∧
        (matches ++ default [] (glob (filepathJoin (migration1.yamlDirectory e) "*.yml")))%list
        = (earlier ++ file :: later)%list ∧
        (∀ other, other ∈ earlier →
                  migration1.fileContainsPVC readFile Unmarshal other pvc = false) ∧
        readFile file = Some content ∧
        doc ∈ Split content yaml.separator ∧
        declaresClaim Unmarshal pvc doc
  | inr msg =>
      glob (filepathJoin (migration1.yamlDirectory e) "*.yaml") = None
      ∨ msg = "no YAML file found containing PVC " ++ PVCInfo.Name pvc
  end.
Proof.
  unfold migration1.findYAMLFileForPVC.
  destruct (glob (filepathJoin (migration1.yamlDirectory e) "*.yaml")) as [matches|];
    [|by left].
  set (more := glob (filepathJoin (migration1.yamlDirectory e) "*.yml")).
  assert (match more with
          | Some moreMatches => (matches ++ moreMatches)%list
          | None => matches
          end = (matches ++ default [] more)%list) as ->.
  { destruct more; [done|]. cbn. by rewrite app_nil_r. }
  set (files := (matches ++ default [] more)%list).
  assert (Hfind : ∀ l,
    match find (fun file => migration1.fileContainsPVC readFile Unmarshal file pvc) l with
    | Some file =>
        ∃ earlier later, l = (earlier ++ file :: later)%list ∧
          (∀ other, other ∈ earlier →
                    migration1.fileContainsPVC readFile Unmarshal other pvc = false) ∧
          migration1.fileContainsPVC readFile Unmarshal file pvc = true
    | None => True
    end).
  { induction l as [|f l IH]; cbn [find]; [done|].
    destruct (migration1.fileContainsPVC readFile Unmarshal f pvc) eqn:Hf.
    - exists [], l. split_and!; [done| |done]. by intros ? ?%elem_of_nil.
    - destruct (find _ l) as [file|]; [|done].
      destruct IH as (earlier & later & -> & Hearlier & Hfile).
      exists (f :: earlier), later. split_and!; [done| |done].
      intros other [->|?]%elem_of_cons; [done | by apply Hearlier]. }
  specialize (Hfind files).
  destruct (find _ files) as [file|]; [|by right].
  destruct Hfind as (earlier & later & Hfiles & Hearlier & Hfile).
  unfold migration1.fileContainsPVC in Hfile.
  destruct (readFile file) as [content|] eqn:Hread; [|done].
  apply existsb_exists in Hfile as (doc & Hdoc & Hnames).
  exists matches, earlier, later, content, doc.
  split_and!; [done | done | done | done | by apply list_elem_of_In |].
  unfold migration1.documentNamesPVC in Hnames.
  destruct (String.eqb (TrimSpace doc) ""); [done|].
  destruct (Unmarshal doc) as [obj|] eqn:Hobj; [|done].
  destruct (yamlobj.getString obj "kind") as [kind|] eqn:Hkind; [|done].
  destruct (String.eqb_spec kind "PersistentVolumeClaim") as [Hk|]; [|done].
  destruct (yamlobj.getMap obj "metadata") as [metadata|] eqn:Hmeta; [|done].
  destruct (yamlobj.getString metadata "name") as [name|] eqn:Hname; [|done].
  apply String.eqb_eq in Hnames. subst. by exists obj, metadata.
Qed.

(** ** The properties at work on the samples *)

Lemma LoadVolumes_entry_witness :
  ∃ v, v ∈ sampleVolumes ∧ volume.Name v = "app_data" ∧
       DockerVolumeInfo.Name
         (DockerVolumeInfo.mk "app_data" "/var/lib/docker/volumes/app_data/_data"
                              500000000 "500MB") = "app_data" ∧
       DockerVolumeInfo.Mountpoint
         (DockerVolumeInfo.mk "app_data" "/var/lib/docker/volumes/app_data/_data"
                              500000000 "500MB") = volume.Mountpoint v ∧
       (DockerVolumeInfo.Size
          (DockerVolumeInfo.mk "app_data" "/var/lib/docker/volumes/app_data/_data"
                               500000000 "500MB"),
        DockerVolumeInfo.SizeHuman
          (DockerVolumeInfo.mk "app_data" "/var/lib/docker/volumes/app_data/_data"
                               500000000 "500MB"))
       = match reportedSize exactBytes (Some sampleDF) "app_data" with
         | Some sz =>
             if (docker.bytes sz =? 0)%Z then sampleWalk (volume.Mountpoint v)
             else (docker.bytes sz, docker.human sz)
         | None => sampleWalk (volume.Mountpoint v)
         end.
Proof.
  apply (LoadVolumes_entry exactBytes sampleWalk sampleVolumes (Some sampleDF)
           {[ "app_data" :=
                DockerVolumeInfo.mk "app_data" "/var/lib/docker/volumes/app_data/_data"
                                    500000000 "500MB" ]} "app_data").
  - vm_compute. reflexivity.
  - vm_compute. reflexivity.
Defined.

Lemma parseDockerDFOutput_entry_witness :
  docker.parseDockerDFOutput exactBytes sampleDF !! "db_data"
  = Some (docker.mkVolumeSize 1500000000 "1.5GB" 2) ∧
  ∃ line, line ∈ Split sampleDF nl ∧
          reportsVolume exactBytes line "db_data" (docker.mkVolumeSize 1500000000 "1.5GB" 2).
Proof.
  split; [vm_compute; reflexivity|].
  apply (parseDockerDFOutput_entry exactBytes sampleDF "db_data"). vm_compute. reflexivity.
Defined.

Lemma parseSizeString_format_witness :
  docker.parseSizeString exactBytes "67.42mb" = Some 67420000%Z ∧
  ∃ num gap unit (k : nat),
    ToUpper "67.42mb" = num ++ gap ++ unit ∧
    decimalNumber num ∧
    allBytes docker.is_re_space gap = true ∧
    (k <= 6)%nat ∧ docker.multiplier unit = Some (1000 ^ Z.of_nat k)%Z ∧
    exactBytes num (1000 ^ Z.of_nat k)%Z = Some 67420000%Z.
Proof.
  split; [vm_compute; reflexivity|].
  apply (parseSizeString_format exactBytes "67.42mb" 67420000). vm_compute. reflexivity.
Defined.


Lemma formatBytes_scaled_witness :
  docker.formatBytes sampleTenths 1572864 = docker.Text "1.5 MB" ∧
  ∃ (exp : nat) (letter : ascii),
    (exp <= 5)%nat ∧ String.get exp "KMGTPE" = Some letter ∧
    (1024 ^ (Z.of_nat exp + 1) <= 1572864 < 1024 ^ (Z.of_nat exp + 2))%Z ∧
    docker.formatBytes sampleTenths 1572864
    = docker.Text (sampleTenths 1572864 (1024 ^ (Z.of_nat exp + 1))%Z
                     ++ " " ++ String letter "B").
Proof.
  split; [vm_compute; reflexivity|].
  apply (formatBytes_scaled sampleTenths 1572864). unfold int_max. lia.
Defined.

Lemma menus_independent_of_map_order_witness :
  matcher.findVolumesContainingPVCName sampleMatcher
    ["shop_db_data"; "shop_cache"; "db_data_backup"]
    (PVCInfo.mk "shop-db-data" "default" "1Gi" None "")
  = matcher.findVolumesContainingPVCName sampleMatcher
      ["shop_cache"; "shop_db_data"; "db_data_backup"]
      (PVCInfo.mk "shop-db-data" "default" "1Gi" None "") ∧
  matcher.getAllDockerVolumes sampleMatcher ["shop_db_data"; "shop_cache"; "db_data_backup"]
  = matcher.getAllDockerVolumes sampleMatcher ["shop_cache"; "shop_db_data"; "db_data_backup"] ∧
  matcher.offered sampleMatcher ["shop_db_data"; "shop_cache"; "db_data_backup"]
    (PVCInfo.mk "shop-db-data" "default" "1Gi" None "")
  = matcher.offered sampleMatcher ["shop_cache"; "shop_db_data"; "db_data_backup"]
      (PVCInfo.mk "shop-db-data" "default" "1Gi" None "").
Proof.
  apply (menus_independent_of_map_order sampleMatcher
           ["shop_db_data"; "shop_cache"; "db_data_backup"]
           ["shop_cache"; "shop_db_data"; "db_data_backup"]).
  - refine (bool_decide_unpack (map_Forall _ _) _). vm_compute. exact I.
  - apply Permutation_swap.
Defined.

Lemma findFuzzyMatch_threshold_witness :
  matcher.findFuzzyMatch sampleMatcher ["db_data_backup"; "shop_cache"; "shop_db_data"]
    "shop-cache"
  = Some (sampleVolume "shop_cache") ∧
  ∃ k, k ∈ ["db_data_backup"; "shop_cache"; "shop_db_data"] ∧
       matcher.dockerVolumes sampleMatcher !! k = Some (sampleVolume "shop_cache") ∧
       (1 <= matcher.calculateMatchScore (Split "shop-cache" "-") k)%Z ∧
       (Z.of_nat (length (Split "shop-cache" "-")) ÷ 2
        <= matcher.calculateMatchScore (Split "shop-cache" "-") k)%Z.
Proof.
  split; [vm_compute; reflexivity|].
  apply (findFuzzyMatch_threshold sampleMatcher
           ["db_data_backup"; "shop_cache"; "shop_db_data"] "shop-cache").
  vm_compute. reflexivity.
Defined.

Lemma updateDocumentIfPVC_updates_parsed_claims_witness :
  yaml.updateDocumentIfPVC sampleUnmarshal sampleMarshal (claimDocument "1Gi")
    [PVCInfo.mk "svc-app-data" "default" "1Gi" None "5Gi"]
  = (claimDocument "5Gi", true) ∧
  ∃ updated,
    claimFields updated
    = mkClaimFields (Some "PersistentVolumeClaim") (Some "svc-app-data")
        (fieldNamespace (claimFields (claimObject "1Gi"))) (Some "5Gi") ∧
    yaml.updateDocumentIfPVC sampleUnmarshal sampleMarshal (claimDocument "1Gi")
      [PVCInfo.mk "svc-app-data" "default" "1Gi" None "5Gi"]
    = match sampleMarshal updated with
      | Some text => (text, true)
      | None => (claimDocument "1Gi", false)
      end.
Proof.
  split; [vm_compute; reflexivity|].
  apply (updateDocumentIfPVC_updates_parsed_claims sampleUnmarshal sampleMarshal
           (claimDocument "1Gi") (claimObject "1Gi")
           [PVCInfo.mk "svc-app-data" "default" "1Gi" None "5Gi"]
           (PVCInfo.mk "svc-app-data" "default" "1Gi" None "")
           (PVCInfo.mk "svc-app-data" "default" "1Gi" None "5Gi")).
  - vm_compute. reflexivity.
  - reflexivity.
  - reflexivity.
  - reflexivity.
  - discriminate.
Defined.

Lemma UpdateYAMLFiles_without_new_sizes_witness :
  fst (yaml.UpdateYAMLFiles sampleUnmarshal sampleMarshal sampleDirectory
         [PVCInfo.mk "svc-app-data" "default" "1Gi" None ""])
  = sampleDirectory.
Proof.
  apply (UpdateYAMLFiles_without_new_sizes sampleUnmarshal sampleMarshal sampleDirectory
           [PVCInfo.mk "svc-app-data" "default" "1Gi" None ""]).
  repeat constructor.
Defined.

Lemma InteractiveSetSizes_failed_read_witness :
  ∃ t', ui.InteractiveSetSizes sampleIsValidSize sampleClaims
          (mkTerminal [ReadLine ("5Gi" ++ nl)] [])
        = ([ PVCInfo.mk "svc-app-data" "default" "1Gi" (Some (sampleVolume "app_data")) "5Gi";
             PVCInfo.mk "svc-db-data" "default" "2Gi" None "";
             PVCInfo.mk "svc-cache" "default" "500Mi" None "" ],
           Some "failed to read input: EOF", t').
Proof.
  destruct (InteractiveSetSizes_failed_read sampleIsValidSize sampleClaims ["5Gi" ++ nl] []
              "EOF" (mkTerminal [ReadLine ("5Gi" ++ nl)] [])) as [t' Ht'].
  - cbn. lia.
  - reflexivity.
  - left. by split.
  - exists t'. rewrite Ht'. vm_compute. reflexivity.
Defined.

Lemma StartMigration_aborts_when_apply_fails_witness :
  ∃ w',
    migration2.StartMigration refusing engine2 [claimedPVC; secondClaim] startWorld
    = Returns (Some ("migration failed for PVC svc-app-data"
                       ++ ": failed to create PVC: kubectl apply failed: "
                       ++ "exit status 1" ++ nl ++ "Output: "
                       ++ "error: connection refused" ++ nl)) w' ∧
    invocations w' = [applyCommand (migration2.pvcYAML claimedPVC)].
Proof.
  apply (StartMigration_aborts_when_apply_fails refusing engine2 claimedPVC [secondClaim]
           startWorld).
  - discriminate.
  - reflexivity.
Defined.
